(** * Dither & Etch: the image-processing engine, embedded and verified

    The TypeScript sources under [src/lib/imageProcessing] are embedded
    shallowly.  JavaScript numbers are IEEE-754 binary64 values, so they are
    modelled by Rocq's primitive [float]; typed arrays live in a store of
    locations, because the engine's contract speaks about allocation and
    aliasing of pixel buffers. *)

From Stdlib Require Import ZArith Floats Lia.
From stdpp Require Import base option list gmap strings.

Local Set Warnings "-inexact-float".

(** ** JavaScript numbers *)

Module Js.

Local Open Scope float_scope.

(** An integer literal or a typed-array element read as a Number. *)
Definition num (z : Z) : float :=
  match z with
  | Z0 => 0
  | Zpos _ => of_uint63 (Uint63.of_Z z)
  | Zneg p => - of_uint63 (Uint63.of_Z (Zpos p))
  end.

(** [undefined] coerced by arithmetic or comparison. *)
Definition undefined : float := nan.

(** [Math.floor]. *)
Definition Math_floor (x : float) : float :=
  match Prim2SF x with
  | S754_finite s m e =>
      if (0 <=? e)%Z then x
      else if s then num (- Z.shiftl (Zpos m + Z.shiftl 1 (- e) - 1) e)
      else num (Z.shiftl (Zpos m) e)
  | _ => x
  end.

(** [Math.round]: nearest integer, ties towards +Infinity. *)
Definition Math_round (x : float) : float :=
  match Prim2SF x with
  | S754_finite s m e =>
      if (0 <=? e)%Z then x
      else
        let twice := ((if s then Zneg m else Zpos m) * 2 + Z.shiftl 1 (- e))%Z in
        let r := Z.shiftl twice (e - 1) in
        if (r =? 0)%Z && s then neg_zero else num r
  | _ => x
  end.

Definition Math_abs (x : float) : float := abs x.
Definition Math_sqrt (x : float) : float := sqrt x.
Definition Math_PI : float := 0x1.921fb54442d18p+1.

Definition Math_max (x y : float) : float :=
  if is_nan x || is_nan y then nan
  else if x <? y then y
  else if y <? x then x
  else if get_sign x then y else x.

Definition Math_min (x y : float) : float :=
  if is_nan x || is_nan y then nan
  else if x <? y then x
  else if y <? x then y
  else if get_sign x then x else y.

(** The Number as an exact integer, when it is one. *)
Definition to_int (x : float) : option Z :=
  match Prim2SF x with
  | S754_zero _ => Some 0%Z
  | S754_finite s m e =>
      let v := Z.shiftl (Zpos m) e in
      if (0 <=? e)%Z || (Z.shiftl v (- e) =? Zpos m)%Z
      then Some (if s then (- v)%Z else v)
      else None
  | _ => None
  end.

(** Conversion on a store into a [Uint8ClampedArray]: clamp to
    [0, 255], round to nearest, ties to even; NaN becomes 0. *)
Definition ToUint8Clamp (x : float) : Z :=
  if is_nan x then 0%Z
  else if x <=? 0 then 0%Z
  else if 255 <=? x then 255%Z
  else
    match Prim2SF x with
    | S754_finite _ m e =>
        if (0 <=? e)%Z then Z.shiftl (Zpos m) e
        else
          let f := Z.shiftl (Zpos m) e in
          let rest := (Zpos m - Z.shiftl f (- e))%Z in
          match (rest * 2 ?= Z.shiftl 1 (- e))%Z with
          | Lt => f
          | Gt => (f + 1)%Z
          | Eq => if Z.even f then f else (f + 1)%Z
          end
    | _ => 0%Z
    end.

(** Conversion on a store into a [Uint8Array]: truncate, modulo 256. *)
Definition ToUint8 (x : float) : Z :=
  match Prim2SF x with
  | S754_finite s m e =>
      let t := Z.shiftl (Zpos m) e in
      ((if s then - t else t) mod 256)%Z
  | _ => 0%Z
  end.

(** Conversion on a store into a [Float32Array]: round to binary32. *)
Definition fround (x : float) : float :=
  match Prim2SF x with
  | S754_finite s m e => SF2Prim (SpecFloat.binary_round 24 128 s m e)
  | _ => x
  end.

(** JavaScript truthiness of a Number. *)
Definition truthy (x : float) : bool := negb (is_nan x || is_zero x).

End Js.

Import Js.

(** ** The store of typed arrays

    Every typed array of the engine owns its backing buffer, so a location
    stands for both.  Reads outside the bounds give [undefined], writes
    outside the bounds are dropped, as typed arrays do.  [NumberArray] is
    a plain [Array] of Numbers of fixed size (the histogram): the engine
    reads it only inside its bounds, so a write outside, which would grow a
    JavaScript array, is dropped as well. *)

Inductive arr :=
  | Uint8ClampedArray (l : list Z)
  | Uint8Array (l : list Z)
  | Float32Array (l : list float)
  | NumberArray (l : list float).

Abbreviation loc := nat.
Abbreviation heap := (gmap loc arr).

Definition arr_length (a : arr) : Z :=
  match a with
  | Uint8ClampedArray l | Uint8Array l => Z.of_nat (length l)
  | Float32Array l | NumberArray l => Z.of_nat (length l)
  end.

Definition arr_get (a : arr) (i : Z) : float :=
  if (i <? 0)%Z then undefined
  else match a with
       | Uint8ClampedArray l | Uint8Array l => from_option num undefined (l !! Z.to_nat i)
       | Float32Array l | NumberArray l => default undefined (l !! Z.to_nat i)
       end.

Definition arr_set (a : arr) (i : Z) (v : float) : arr :=
  if (i <? 0)%Z then a
  else match a with
       | Uint8ClampedArray l => Uint8ClampedArray (<[Z.to_nat i := ToUint8Clamp v]> l)
       | Uint8Array l => Uint8Array (<[Z.to_nat i := ToUint8 v]> l)
       | Float32Array l => Float32Array (<[Z.to_nat i := fround v]> l)
       | NumberArray l => NumberArray (<[Z.to_nat i := v]> l)
       end.

Definition arr_fill (a : arr) (v : float) : arr :=
  match a with
  | Uint8ClampedArray l => Uint8ClampedArray (replicate (length l) (ToUint8Clamp v))
  | Uint8Array l => Uint8Array (replicate (length l) (ToUint8 v))
  | Float32Array l => Float32Array (replicate (length l) (fround v))
  | NumberArray l => NumberArray (replicate (length l) v)
  end.

(** The elements of a typed array as the Numbers a copy constructor reads. *)
Definition arr_values (a : arr) : list float :=
  match a with
  | Uint8ClampedArray l | Uint8Array l => num <$> l
  | Float32Array l | NumberArray l => l
  end.

(** ** The monad of store-passing computations *)

Definition M (A : Type) : Type := heap → A * heap.

Global Instance M_ret : MRet M := λ A a h, (a, h).
Global Instance M_bind : MBind M := λ A B k m h, let '(a, h') := m h in k a h'.

Definition alloc (a : arr) : M loc :=
  λ h, let l := fresh (dom h) in (l, <[l := a]> h).

Definition get (l : loc) (i : Z) : M float :=
  λ h, (from_option (λ a, arr_get a i) undefined (h !! l), h).

Definition set (l : loc) (i : Z) (v : float) : M unit :=
  λ h, ((), match h !! l with Some a => <[l := arr_set a i v]> h | None => h end).

Definition fill (l : loc) (v : float) : M unit :=
  λ h, ((), match h !! l with Some a => <[l := arr_fill a v]> h | None => h end).

Definition length_of (l : loc) : M Z :=
  λ h, (from_option arr_length 0%Z (h !! l), h).

(** [dst.set(src)]: the elements of [src] stored from index 0 on.  A source
    longer than [dst] is a RangeError and nothing is stored. *)
Definition arr_set_all (a : arr) (vs : list float) : arr :=
  match a with
  | Uint8ClampedArray l =>
      Uint8ClampedArray ((ToUint8Clamp <$> vs) ++ drop (length vs) l)
  | Uint8Array l => Uint8Array ((ToUint8 <$> vs) ++ drop (length vs) l)
  | Float32Array l => Float32Array ((fround <$> vs) ++ drop (length vs) l)
  | NumberArray l => NumberArray (vs ++ drop (length vs) l)
  end.

Definition set_all (dst src : loc) : M unit :=
  λ h, ((), match h !! dst, h !! src with
            | Some a, Some b =>
                if (Z.of_nat (length (arr_values b)) <=? arr_length a)%Z
                then <[dst := arr_set_all a (arr_values b)]> h
                else h
            | _, _ => h
            end).

(** [new Uint8ClampedArray(src)]: a fresh buffer holding a copy. *)
Definition new_Uint8ClampedArray_from (src : loc) : M loc :=
  λ h, alloc (Uint8ClampedArray (from_option (λ a, ToUint8Clamp <$> arr_values a) [] (h !! src))) h.

(** [new Uint8ClampedArray(n)], [new Uint8Array(n)], [new Float32Array(n)]:
    fresh zero-filled buffers. *)
Definition new_Uint8ClampedArray (n : Z) : M loc :=
  alloc (Uint8ClampedArray (replicate (Z.to_nat n) 0%Z)).
Definition new_Uint8Array (n : Z) : M loc :=
  alloc (Uint8Array (replicate (Z.to_nat n) 0%Z)).
Definition new_Float32Array (n : Z) : M loc :=
  alloc (Float32Array (replicate (Z.to_nat n) 0%float)).
(** [new Array(n).fill(v)]. *)
Definition new_Array_fill (n : Z) (v : float) : M loc :=
  alloc (NumberArray (replicate (Z.to_nat n) v)).

(** An element read with a Number as the key. *)
Definition get_at (l : loc) (k : float) : M float :=
  match to_int k with
  | Some i => get l i
  | None => mret undefined
  end.

(** A literal table [[[..], ..]] read as [kernel[i][j]]. *)
Definition table_at (t : list (list float)) (i j : Z) : float :=
  if (i <? 0)%Z || (j <? 0)%Z then undefined
  else default undefined (t !! Z.to_nat i ≫= λ row, row !! Z.to_nat j).

(** [for (let i = lo; i < hi; i += step) body]. *)
Fixpoint forM_ (l : list Z) (body : Z → M unit) : M unit :=
  match l with
  | [] => mret ()
  | i :: l' => body i ;; forM_ l' body
  end.

Definition for_ (lo hi : Z) (body : Z → M unit) : M unit :=
  forM_ (seqZ lo (hi - lo)) body.

Definition for_step (lo hi step : Z) (body : Z → M unit) : M unit :=
  forM_ ((λ k, lo + k * step)%Z <$> seqZ 0 ((hi - lo + step - 1) `div` step)) body.

(** The same loops threading the loop-carried local variables. *)
Fixpoint foldM {S : Type} (l : list Z) (body : Z → S → M S) (s : S) : M S :=
  match l with
  | [] => mret s
  | i :: l' => s' ← body i s; foldM l' body s'
  end.

Definition for_acc {S : Type} (lo hi : Z) (s : S) (body : Z → S → M S) : M S :=
  foldM (seqZ lo (hi - lo)) body s.

Definition when (b : bool) (m : M unit) : M unit := if b then m else mret ().

(** A loop left by [break]: the body answers whether it broke. *)
Fixpoint foldM_break {S : Type} (l : list Z) (body : Z → S → M (S * bool)) (s : S) : M S :=
  match l with
  | [] => mret s
  | i :: l' =>
      r ← body i s;
      if (r : S * bool).2 then mret r.1 else foldM_break l' body r.1
  end.

(** A store with a Number as the key. *)
Definition set_at (l : loc) (k : float) (v : float) : M unit :=
  match to_int k with
  | Some i => set l i v
  | None => mret ()
  end.

(** ** Pixel buffers *)

Record ProcessingImageData := {
  width : nat;
  height : nat;
  data : loc;
}.

Module Dithering.

Local Open Scope Z_scope.

Definition getGray (data : loc) (idx : Z) : M float :=
  a ← get data (idx + 3);
  if (a =? 0)%float then mret 255%float
  else if (a <? 255)%float then
    let alpha := (a / 255)%float in
    d0 ← get data idx;
    let r := (d0 * alpha + 255 * (1 - alpha))%float in
    d1 ← get data (idx + 1);
    let g := (d1 * alpha + 255 * (1 - alpha))%float in
    d2 ← get data (idx + 2);
    let b := (d2 * alpha + 255 * (1 - alpha))%float in
    mret (0.299 * r + 0.587 * g + 0.114 * b)%float
  else
    d0 ← get data idx;
    d1 ← get data (idx + 1);
    d2 ← get data (idx + 2);
    mret (0.299 * d0 + 0.587 * d1 + 0.114 * d2)%float.

Definition setPixel (data : loc) (idx : Z) (value : float) : M unit :=
  set data idx value;;
  set data (idx + 1) value;;
  set data (idx + 2) value.

Definition floydSteinberg (imageData : ProcessingImageData) : M ProcessingImageData :=
  let '{| width := w; height := h; data := data |} := imageData in
  let width := Z.of_nat w in
  let height := Z.of_nat h in
  result ← new_Uint8ClampedArray_from data;
  errors ← new_Float32Array (width * height);
  for_ 0 (width * height) (λ i,
    g ← getGray data (i * 4); set errors i g);;
  for_ 0 height (λ y,
    for_ 0 width (λ x,
      let idx := y * width + x in
      oldPixel ← get errors idx;
      let newPixel := if (oldPixel <? 128)%float then 0%float else 255%float in
      let quantError := (oldPixel - newPixel)%float in
      setPixel result (idx * 4) newPixel;;
      a ← get data (idx * 4 + 3);
      set result (idx * 4 + 3) a;;
      when (x + 1 <? width) (
        e ← get errors (idx + 1);
        set errors (idx + 1) (e + (quantError * 7) / 16)%float);;
      when (y + 1 <? height) (
        when (0 <? x) (
          e ← get errors (idx + width - 1);
          set errors (idx + width - 1) (e + (quantError * 3) / 16)%float);;
        e ← get errors (idx + width);
        set errors (idx + width) (e + (quantError * 5) / 16)%float;;
        when (x + 1 <? width) (
          e ← get errors (idx + width + 1);
          set errors (idx + width + 1) (e + (quantError * 1) / 16)%float))));;
  mret {| width := w; height := h; data := result |}.

Definition jarvisJudiceNinke (imageData : ProcessingImageData) : M ProcessingImageData :=
  let '{| width := w; height := h; data := data |} := imageData in
  let width := Z.of_nat w in
  let height := Z.of_nat h in
  result ← new_Uint8ClampedArray_from data;
  errors ← new_Float32Array (width * height);
  for_ 0 (width * height) (λ i,
    g ← getGray data (i * 4); set errors i g);;
  let kernel : list (list float) :=
    [ [0; 0; 0; 7; 5];
      [3; 5; 7; 5; 3];
      [1; 3; 5; 3; 1] ]%float in
  let divisor := 48%float in
  for_ 0 height (λ y,
    for_ 0 width (λ x,
      let idx := y * width + x in
      oldPixel ← get errors idx;
      let newPixel := if (oldPixel <? 128)%float then 0%float else 255%float in
      let quantError := (oldPixel - newPixel)%float in
      setPixel result (idx * 4) newPixel;;
      a ← get data (idx * 4 + 3);
      set result (idx * 4 + 3) a;;
      for_ 0 3 (λ ky,
        for_ 0 5 (λ kx,
          let nx := x + kx - 2 in
          let ny := y + ky in
          when ((0 <=? nx) && (nx <? width) && (ny <? height) && ((0 <? ky) || (2 <? kx))) (
            let kVal := table_at kernel ky kx in
            e ← get errors (ny * width + nx);
            set errors (ny * width + nx) (e + (quantError * kVal) / divisor)%float)))));;
  mret {| width := w; height := h; data := result |}.

Definition stucki (imageData : ProcessingImageData) : M ProcessingImageData :=
  let '{| width := w; height := h; data := data |} := imageData in
  let width := Z.of_nat w in
  let height := Z.of_nat h in
  result ← new_Uint8ClampedArray_from data;
  errors ← new_Float32Array (width * height);
  for_ 0 (width * height) (λ i,
    g ← getGray data (i * 4); set errors i g);;
  let kernel : list (list float) :=
    [ [0; 0; 0; 8; 4];
      [2; 4; 8; 4; 2];
      [1; 2; 4; 2; 1] ]%float in
  let divisor := 42%float in
  for_ 0 height (λ y,
    for_ 0 width (λ x,
      let idx := y * width + x in
      oldPixel ← get errors idx;
      let newPixel := if (oldPixel <? 128)%float then 0%float else 255%float in
      let quantError := (oldPixel - newPixel)%float in
      setPixel result (idx * 4) newPixel;;
      a ← get data (idx * 4 + 3);
      set result (idx * 4 + 3) a;;
      for_ 0 3 (λ ky,
        for_ 0 5 (λ kx,
          let nx := x + kx - 2 in
          let ny := y + ky in
          when ((0 <=? nx) && (nx <? width) && (ny <? height) && ((0 <? ky) || (2 <? kx))) (
            let kVal := table_at kernel ky kx in
            e ← get errors (ny * width + nx);
            set errors (ny * width + nx) (e + (quantError * kVal) / divisor)%float)))));;
  mret {| width := w; height := h; data := result |}.

Definition atkinson (imageData : ProcessingImageData) : M ProcessingImageData :=
  let '{| width := w; height := h; data := data |} := imageData in
  let width := Z.of_nat w in
  let height := Z.of_nat h in
  result ← new_Uint8ClampedArray_from data;
  errors ← new_Float32Array (width * height);
  for_ 0 (width * height) (λ i,
    g ← getGray data (i * 4); set errors i g);;
  for_ 0 height (λ y,
    for_ 0 width (λ x,
      let idx := y * width + x in
      oldPixel ← get errors idx;
      let newPixel := if (oldPixel <? 128)%float then 0%float else 255%float in
      let quantError := (oldPixel - newPixel)%float in
      setPixel result (idx * 4) newPixel;;
      a ← get data (idx * 4 + 3);
      set result (idx * 4 + 3) a;;
      when (x + 1 <? width) (
        e ← get errors (idx + 1);
        set errors (idx + 1) (e + (quantError * 1) / 8)%float);;
      when (x + 2 <? width) (
        e ← get errors (idx + 2);
        set errors (idx + 2) (e + (quantError * 1) / 8)%float);;
      when (y + 1 <? height) (
        when (0 <? x) (
          e ← get errors (idx + width - 1);
          set errors (idx + width - 1) (e + (quantError * 1) / 8)%float);;
        e ← get errors (idx + width);
        set errors (idx + width) (e + (quantError * 1) / 8)%float;;
        when (x + 1 <? width) (
          e ← get errors (idx + width + 1);
          set errors (idx + width + 1) (e + (quantError * 1) / 8)%float));;
      when (y + 2 <? height) (
        e ← get errors (idx + width * 2);
        set errors (idx + width * 2) (e + (quantError * 1) / 8)%float)));;
  mret {| width := w; height := h; data := result |}.

Definition sierra (imageData : ProcessingImageData) : M ProcessingImageData :=
  let '{| width := w; height := h; data := data |} := imageData in
  let width := Z.of_nat w in
  let height := Z.of_nat h in
  result ← new_Uint8ClampedArray_from data;
  errors ← new_Float32Array (width * height);
  for_ 0 (width * height) (λ i,
    g ← getGray data (i * 4); set errors i g);;
  let kernel : list (list float) :=
    [ [0; 0; 0; 5; 3];
      [2; 4; 5; 4; 2];
      [0; 2; 3; 2; 0] ]%float in
  let divisor := 32%float in
  for_ 0 height (λ y,
    for_ 0 width (λ x,
      let idx := y * width + x in
      oldPixel ← get errors idx;
      let newPixel := if (oldPixel <? 128)%float then 0%float else 255%float in
      let quantError := (oldPixel - newPixel)%float in
      setPixel result (idx * 4) newPixel;;
      a ← get data (idx * 4 + 3);
      set result (idx * 4 + 3) a;;
      for_ 0 3 (λ ky,
        for_ 0 5 (λ kx,
          let nx := x + kx - 2 in
          let ny := y + ky in
          when ((0 <=? nx) && (nx <? width) && (ny <? height) && ((0 <? ky) || (2 <? kx))) (
            let kVal := table_at kernel ky kx in
            e ← get errors (ny * width + nx);
            set errors (ny * width + nx) (e + (quantError * kVal) / divisor)%float)))));;
  mret {| width := w; height := h; data := result |}.

Definition sierraTwoRow (imageData : ProcessingImageData) : M ProcessingImageData :=
  let '{| width := w; height := h; data := data |} := imageData in
  let width := Z.of_nat w in
  let height := Z.of_nat h in
  result ← new_Uint8ClampedArray_from data;
  errors ← new_Float32Array (width * height);
  for_ 0 (width * height) (λ i,
    g ← getGray data (i * 4); set errors i g);;
  let kernel : list (list float) :=
    [ [0; 0; 0; 4; 3];
      [1; 2; 3; 2; 1] ]%float in
  let divisor := 16%float in
  for_ 0 height (λ y,
    for_ 0 width (λ x,
      let idx := y * width + x in
      oldPixel ← get errors idx;
      let newPixel := if (oldPixel <? 128)%float then 0%float else 255%float in
      let quantError := (oldPixel - newPixel)%float in
      setPixel result (idx * 4) newPixel;;
      a ← get data (idx * 4 + 3);
      set result (idx * 4 + 3) a;;
      for_ 0 2 (λ ky,
        for_ 0 5 (λ kx,
          let nx := x + kx - 2 in
          let ny := y + ky in
          when ((0 <=? nx) && (nx <? width) && (ny <? height) && ((0 <? ky) || (2 <? kx))) (
            let kVal := table_at kernel ky kx in
            e ← get errors (ny * width + nx);
            set errors (ny * width + nx) (e + (quantError * kVal) / divisor)%float)))));;
  mret {| width := w; height := h; data := result |}.

Definition burkes (imageData : ProcessingImageData) : M ProcessingImageData :=
  let '{| width := w; height := h; data := data |} := imageData in
  let width := Z.of_nat w in
  let height := Z.of_nat h in
  result ← new_Uint8ClampedArray_from data;
  errors ← new_Float32Array (width * height);
  for_ 0 (width * height) (λ i,
    g ← getGray data (i * 4); set errors i g);;
  for_ 0 height (λ y,
    for_ 0 width (λ x,
      let idx := y * width + x in
      oldPixel ← get errors idx;
      let newPixel := if (oldPixel <? 128)%float then 0%float else 255%float in
      let quantError := (oldPixel - newPixel)%float in
      setPixel result (idx * 4) newPixel;;
      a ← get data (idx * 4 + 3);
      set result (idx * 4 + 3) a;;
      let distribute (dx dy : Z) (factor : float) : M unit :=
        let nx := x + dx in
        let ny := y + dy in
        when ((0 <=? nx) && (nx <? width) && (0 <=? ny) && (ny <? height)) (
          e ← get errors (ny * width + nx);
          set errors (ny * width + nx) (e + (quantError * factor) / 32)%float) in
      distribute 1 0 8%float;;
      distribute 2 0 4%float;;
      distribute (-2) 1 2%float;;
      distribute (-1) 1 4%float;;
      distribute 0 1 8%float;;
      distribute 1 1 4%float;;
      distribute 2 1 2%float));;
  mret {| width := w; height := h; data := result |}.

Definition bayerOrdered (imageData : ProcessingImageData) : M ProcessingImageData :=
  let '{| width := w; height := h; data := data |} := imageData in
  let width := Z.of_nat w in
  let height := Z.of_nat h in
  result ← new_Uint8ClampedArray_from data;
  let bayerMatrix : list (list float) :=
    [ [0; 128; 32; 160; 8; 136; 40; 168];
      [192; 64; 224; 96; 200; 72; 232; 104];
      [48; 176; 16; 144; 56; 184; 24; 152];
      [240; 112; 208; 80; 248; 120; 216; 88];
      [12; 140; 44; 172; 4; 132; 36; 164];
      [204; 76; 236; 108; 196; 68; 228; 100];
      [60; 188; 28; 156; 52; 180; 20; 148];
      [252; 124; 220; 92; 244; 116; 212; 84] ]%float in
  let size := 8 in
  for_ 0 height (λ y,
    for_ 0 width (λ x,
      let idx := (y * width + x) * 4 in
      gray ← getGray data idx;
      let threshold := table_at bayerMatrix (Z.rem y size) (Z.rem x size) in
      let newPixel := if (threshold <? gray)%float then 255%float else 0%float in
      setPixel result idx newPixel;;
      a ← get data (idx + 3);
      set result (idx + 3) a));;
  mret {| width := w; height := h; data := result |}.

Definition bayerOrdered4x4 (imageData : ProcessingImageData) : M ProcessingImageData :=
  let '{| width := w; height := h; data := data |} := imageData in
  let width := Z.of_nat w in
  let height := Z.of_nat h in
  result ← new_Uint8ClampedArray_from data;
  let bayerMatrix : list (list float) :=
    [ [0; 136; 34; 170];
      [204; 68; 238; 102];
      [51; 187; 17; 153];
      [255; 119; 221; 85] ]%float in
  for_ 0 height (λ y,
    for_ 0 width (λ x,
      let idx := (y * width + x) * 4 in
      gray ← getGray data idx;
      let threshold := table_at bayerMatrix (Z.rem y 4) (Z.rem x 4) in
      let newPixel := if (threshold <? gray)%float then 255%float else 0%float in
      setPixel result idx newPixel;;
      a ← get data (idx + 3);
      set result (idx + 3) a));;
  mret {| width := w; height := h; data := result |}.

(** [export type DitheringAlgorithm = keyof typeof ditheringAlgorithms]. *)
Inductive DitheringAlgorithm :=
  | FloydSteinberg | JarvisJudiceNinke | Stucki | Atkinson | Sierra
  | SierraTwoRow | Burkes | BayerOrdered | BayerOrdered4x4.

Definition ditheringAlgorithms (a : DitheringAlgorithm)
    : ProcessingImageData → M ProcessingImageData :=
  match a with
  | FloydSteinberg => floydSteinberg
  | JarvisJudiceNinke => jarvisJudiceNinke
  | Stucki => stucki
  | Atkinson => atkinson
  | Sierra => sierra
  | SierraTwoRow => sierraTwoRow
  | Burkes => burkes
  | BayerOrdered => bayerOrdered
  | BayerOrdered4x4 => bayerOrdered4x4
  end.

End Dithering.

Module Alpha.

Local Open Scope Z_scope.

Definition getGrayOnWhite (data : loc) (idx : Z) : M float :=
  a ← get data (idx + 3);
  if (a =? 0)%float then mret 255%float
  else if (a <? 255)%float then
    let alpha := (a / 255)%float in
    d0 ← get data idx;
    let r := (d0 * alpha + 255 * (1 - alpha))%float in
    d1 ← get data (idx + 1);
    let g := (d1 * alpha + 255 * (1 - alpha))%float in
    d2 ← get data (idx + 2);
    let b := (d2 * alpha + 255 * (1 - alpha))%float in
    mret (0.299 * r + 0.587 * g + 0.114 * b)%float
  else
    d0 ← get data idx;
    d1 ← get data (idx + 1);
    d2 ← get data (idx + 2);
    mret (0.299 * d0 + 0.587 * d1 + 0.114 * d2)%float.

Definition sanitizeRgbaForExport (data : loc) : M loc :=
  data_length ← length_of data;
  out ← new_Uint8ClampedArray data_length;
  set_all out data;;
  out_length ← length_of out;
  for_step 0 out_length 4 (λ i,
    a ← get out (i + 3);
    when (a <? 255)%float (
      let alpha := (a / 255)%float in
      o0 ← get out i;
      set out i (Math_round (o0 * alpha + 255 * (1 - alpha)));;
      o1 ← get out (i + 1);
      set out (i + 1) (Math_round (o1 * alpha + 255 * (1 - alpha)));;
      o2 ← get out (i + 2);
      set out (i + 2) (Math_round (o2 * alpha + 255 * (1 - alpha)))));;
  mret out.

End Alpha.

Module Adjustments.

Import Alpha.
Local Open Scope Z_scope.

(** [clamp(value, min = 0, max = 255)]. *)
Definition clamp (value : float) (min max : float) : float :=
  Math_max min (Math_min max value).

Definition toGrayscale (imageData : ProcessingImageData) : M ProcessingImageData :=
  let '{| width := w; height := h; data := data |} := imageData in
  result ← new_Uint8ClampedArray_from data;
  len ← length_of data;
  for_step 0 len 4 (λ i,
    gray ← getGrayOnWhite data i;
    set result i gray;;
    set result (i + 1) gray;;
    set result (i + 2) gray;;
    a ← get data (i + 3);
    set result (i + 3) a);;
  mret {| width := w; height := h; data := result |}.

Definition adjustBrightness (imageData : ProcessingImageData) (amount : float)
    : M ProcessingImageData :=
  let '{| width := w; height := h; data := data |} := imageData in
  result ← new_Uint8ClampedArray_from data;
  len ← length_of data;
  for_step 0 len 4 (λ i,
    d0 ← get data i;
    set result i (clamp (d0 + amount) 0 255);;
    d1 ← get data (i + 1);
    set result (i + 1) (clamp (d1 + amount) 0 255);;
    d2 ← get data (i + 2);
    set result (i + 2) (clamp (d2 + amount) 0 255);;
    a ← get data (i + 3);
    set result (i + 3) a);;
  mret {| width := w; height := h; data := result |}.

Definition adjustContrast (imageData : ProcessingImageData) (amount : float)
    : M ProcessingImageData :=
  let '{| width := w; height := h; data := data |} := imageData in
  result ← new_Uint8ClampedArray_from data;
  let factor := ((259 * (amount + 255)) / (255 * (259 - amount)))%float in
  len ← length_of data;
  for_step 0 len 4 (λ i,
    d0 ← get data i;
    set result i (clamp (((d0 / 255 - 0.5) * factor + 0.5) * 255) 0 255);;
    d1 ← get data (i + 1);
    set result (i + 1) (clamp (((d1 / 255 - 0.5) * factor + 0.5) * 255) 0 255);;
    d2 ← get data (i + 2);
    set result (i + 2) (clamp (((d2 / 255 - 0.5) * factor + 0.5) * 255) 0 255);;
    a ← get data (i + 3);
    set result (i + 3) a);;
  mret {| width := w; height := h; data := result |}.

Section gamma.

(** [Math.pow] is implementation-approximated; it is a parameter. *)
Variable Math_pow : float → float → float.

Definition adjustGamma (imageData : ProcessingImageData) (gamma : float)
    : M ProcessingImageData :=
  let '{| width := w; height := h; data := data |} := imageData in
  result ← new_Uint8ClampedArray_from data;
  let gammaCorrection := (1 / gamma)%float in
  lookupTable ← new_Uint8Array 256;
  for_ 0 256 (λ i,
    set lookupTable i (clamp (Math_pow (num i / 255) gammaCorrection * 255) 0 255));;
  len ← length_of data;
  for_step 0 len 4 (λ i,
    d0 ← get data i;
    v0 ← get_at lookupTable d0;
    set result i v0;;
    d1 ← get data (i + 1);
    v1 ← get_at lookupTable d1;
    set result (i + 1) v1;;
    d2 ← get data (i + 2);
    v2 ← get_at lookupTable d2;
    set result (i + 2) v2;;
    a ← get data (i + 3);
    set result (i + 3) a);;
  mret {| width := w; height := h; data := result |}.

End gamma.

Definition invert (imageData : ProcessingImageData) : M ProcessingImageData :=
  let '{| width := w; height := h; data := data |} := imageData in
  result ← new_Uint8ClampedArray_from data;
  len ← length_of data;
  for_step 0 len 4 (λ i,
    d0 ← get data i;
    set result i (255 - d0)%float;;
    d1 ← get data (i + 1);
    set result (i + 1) (255 - d1)%float;;
    d2 ← get data (i + 2);
    set result (i + 2) (255 - d2)%float;;
    a ← get data (i + 3);
    set result (i + 3) a);;
  mret {| width := w; height := h; data := result |}.

Definition mirrorHorizontal (imageData : ProcessingImageData) : M ProcessingImageData :=
  let '{| width := w; height := h; data := data |} := imageData in
  let width := Z.of_nat w in
  let height := Z.of_nat h in
  result ← new_Uint8ClampedArray_from data;
  for_ 0 height (λ y,
    for_ 0 width (λ x,
      let srcIdx := (y * width + x) * 4 in
      let dstIdx := (y * width + (width - 1 - x)) * 4 in
      s0 ← get data srcIdx;
      set result dstIdx s0;;
      s1 ← get data (srcIdx + 1);
      set result (dstIdx + 1) s1;;
      s2 ← get data (srcIdx + 2);
      set result (dstIdx + 2) s2;;
      s3 ← get data (srcIdx + 3);
      set result (dstIdx + 3) s3));;
  mret {| width := w; height := h; data := result |}.

(** [radius] is a whole number in every call of the engine. *)
Definition boxBlur (imageData : ProcessingImageData) (radius : Z) : M ProcessingImageData :=
  let '{| width := w; height := h; data := data |} := imageData in
  let width := Z.of_nat w in
  let height := Z.of_nat h in
  result ← new_Uint8ClampedArray_from data;
  temp ← new_Uint8ClampedArray_from data;
  for_ 0 height (λ y,
    for_ 0 width (λ x,
      acc ← for_acc (- radius) (radius + 1) (0, 0, 0, 0)%float (λ dx '(r, g, b, count),
        let nx := x + dx in
        if (0 <=? nx) && (nx <? width) then
          let idx := (y * width + nx) * 4 in
          d0 ← get data idx;
          d1 ← get data (idx + 1);
          d2 ← get data (idx + 2);
          mret (r + d0, g + d1, b + d2, count + 1)%float
        else mret (r, g, b, count));
      let '(r, g, b, count) := acc in
      let idx := (y * width + x) * 4 in
      set temp idx (r / count)%float;;
      set temp (idx + 1) (g / count)%float;;
      set temp (idx + 2) (b / count)%float;;
      a ← get data (idx + 3);
      set temp (idx + 3) a));;
  for_ 0 height (λ y,
    for_ 0 width (λ x,
      acc ← for_acc (- radius) (radius + 1) (0, 0, 0, 0)%float (λ dy '(r, g, b, count),
        let ny := y + dy in
        if (0 <=? ny) && (ny <? height) then
          let idx := (ny * width + x) * 4 in
          t0 ← get temp idx;
          t1 ← get temp (idx + 1);
          t2 ← get temp (idx + 2);
          mret (r + t0, g + t1, b + t2, count + 1)%float
        else mret (r, g, b, count));
      let '(r, g, b, count) := acc in
      let idx := (y * width + x) * 4 in
      set result idx (r / count)%float;;
      set result (idx + 1) (g / count)%float;;
      set result (idx + 2) (b / count)%float;;
      a ← get temp (idx + 3);
      set result (idx + 3) a));;
  mret {| width := w; height := h; data := result |}.

(** [unsharpMask(imageData, radius = 1, amount = 100, threshold = 0)]. *)
Definition unsharpMask (imageData : ProcessingImageData) (radius : Z) (amount threshold : float)
    : M ProcessingImageData :=
  let '{| width := w; height := h; data := data |} := imageData in
  result ← new_Uint8ClampedArray_from data;
  blurred ← boxBlur imageData radius;
  let '{| data := blurred_data |} := blurred in
  let amountFactor := (amount / 100)%float in
  len ← length_of data;
  for_step 0 len 4 (λ i,
    for_ 0 3 (λ c,
      original ← get data (i + c);
      blur ← get blurred_data (i + c);
      let diff := (original - blur)%float in
      if (threshold <=? Math_abs diff)%float
      then set result (i + c) (clamp (original + diff * amountFactor) 0 255)
      else set result (i + c) original);;
    a ← get data (i + 3);
    set result (i + 3) a);;
  mret {| width := w; height := h; data := result |}.

(** [edgeEnhance(imageData, strength = 1)]. *)
Definition edgeEnhance (imageData : ProcessingImageData) (strength : float)
    : M ProcessingImageData :=
  let '{| width := w; height := h; data := data |} := imageData in
  let width := Z.of_nat w in
  let height := Z.of_nat h in
  result ← new_Uint8ClampedArray_from data;
  let kernel : list (list float) :=
    [ [0; -1; 0];
      [-1; 4; -1];
      [0; -1; 0] ]%float in
  for_ 1 (height - 1) (λ y,
    for_ 1 (width - 1) (λ x,
      for_ 0 3 (λ c,
        sum ← for_acc (-1) 2 0%float (λ ky sum,
          for_acc (-1) 2 sum (λ kx sum,
            let idx := ((y + ky) * width + (x + kx)) * 4 in
            v ← get data (idx + c);
            mret (sum + v * table_at kernel (ky + 1) (kx + 1))%float));
        let idx := (y * width + x) * 4 in
        v ← get data (idx + c);
        set result (idx + c) (clamp (v + sum * strength * 0.5) 0 255));;
      let idx := (y * width + x) * 4 in
      a ← get data (idx + 3);
      set result (idx + 3) a));;
  mret {| width := w; height := h; data := result |}.

(** [denoise(imageData, strength = 30)].  The loop bounds are Numbers: a
    NaN or infinite radius runs no iteration. *)
Definition denoise (imageData : ProcessingImageData) (strength : float)
    : M ProcessingImageData :=
  let '{| width := w; height := h; data := data |} := imageData in
  let width := Z.of_nat w in
  let height := Z.of_nat h in
  result ← new_Uint8ClampedArray_from data;
  let radius_number := Math_max 1 (Math_floor (strength / 20)) in
  let thresholdVal := (strength * 2)%float in
  match to_int radius_number with
  | None => mret ()
  | Some radius =>
      for_ radius (height - radius) (λ y,
        for_ radius (width - radius) (λ x,
          let centerIdx := (y * width + x) * 4 in
          for_ 0 3 (λ c,
            centerValue ← get data (centerIdx + c);
            acc ← for_acc (- radius) (radius + 1) (0, 0)%float (λ dy acc,
              for_acc (- radius) (radius + 1) acc (λ dx '(sum, count),
                let idx := ((y + dy) * width + (x + dx)) * 4 in
                value ← get data (idx + c);
                if (Math_abs (value - centerValue) <? thresholdVal)%float
                then mret (sum + value, count + 1)%float
                else mret (sum, count)));
            let '(sum, count) := acc in
            set result (centerIdx + c)
              (if (0 <? count)%float then (sum / count)%float else centerValue));;
          a ← get data (centerIdx + 3);
          set result (centerIdx + 3) a))
  end;;
  mret {| width := w; height := h; data := result |}.

Definition autoAdjust (imageData : ProcessingImageData) : M ProcessingImageData :=
  let '{| width := w; height := h; data := data |} := imageData in
  let width := Z.of_nat w in
  let height := Z.of_nat h in
  result ← new_Uint8ClampedArray_from data;
  histogram ← new_Array_fill 256 0;
  len ← length_of data;
  for_step 0 len 4 (λ i,
    g ← getGrayOnWhite data i;
    let gray := Math_round g in
    n ← get_at histogram gray;
    set_at histogram gray (n + 1)%float);;
  let totalPixels := num (width * height) in
  let clipAmount := Math_floor (totalPixels * 0.005) in
  lo ← foldM_break (seqZ 0 256) (λ i '(minLevel, count),
    n ← get histogram i;
    let count := (count + n)%float in
    if (clipAmount <? count)%float
    then mret ((num i, count), true)
    else mret ((minLevel, count), false)) (0%float, 0%float);
  let minLevel := lo.1 in
  hi ← foldM_break (reverse (seqZ 0 256)) (λ i '(maxLevel, count),
    n ← get histogram i;
    let count := (count + n)%float in
    if (clipAmount <? count)%float
    then mret ((num i, count), true)
    else mret ((maxLevel, count), false)) (255%float, 0%float);
  let maxLevel := hi.1 in
  let range := (maxLevel - minLevel)%float in
  when (0 <? range)%float (
    for_step 0 len 4 (λ i,
      for_ 0 3 (λ c,
        v ← get data (i + c);
        set result (i + c) (clamp (((v - minLevel) / range) * 255) 0 255));;
      a ← get data (i + 3);
      set result (i + 3) a));;
  mret {| width := w; height := h; data := result |}.

Definition adjustLevels (imageData : ProcessingImageData) (blackPoint whitePoint : float)
    : M ProcessingImageData :=
  let '{| width := w; height := h; data := data |} := imageData in
  result ← new_Uint8ClampedArray_from data;
  let bp := clamp (Math_round blackPoint) 0 255 in
  let wp := clamp (Math_round whitePoint) 0 255 in
  let minLevel := Math_min bp wp in
  let maxLevel := Math_max bp wp in
  let range := Math_max 1 (maxLevel - minLevel) in
  if (minLevel =? 0)%float && (maxLevel =? 255)%float
  then mret {| width := w; height := h; data := result |}
  else
    len ← length_of data;
    for_step 0 len 4 (λ i,
      for_ 0 3 (λ c,
        v ← get data (i + c);
        set result (i + c) (clamp (((v - minLevel) / range) * 255) 0 255));;
      a ← get data (i + 3);
      set result (i + 3) a);;
    mret {| width := w; height := h; data := result |}.

(** [threshold(imageData, thresholdValue = 128)]. *)
Definition threshold (imageData : ProcessingImageData) (thresholdValue : float)
    : M ProcessingImageData :=
  let '{| width := w; height := h; data := data |} := imageData in
  result ← new_Uint8ClampedArray_from data;
  let t := clamp (Math_round thresholdValue) 0 255 in
  len ← length_of data;
  for_step 0 len 4 (λ i,
    d0 ← get data i;
    let v := if (d0 <? t)%float then 0%float else 255%float in
    set result i v;;
    set result (i + 1) v;;
    set result (i + 2) v;;
    a ← get data (i + 3);
    set result (i + 3) a);;
  mret {| width := w; height := h; data := result |}.

(** [colorCorrection(imageData, shadowLift = 20, highlightCompress = 10)]. *)
Definition colorCorrection (imageData : ProcessingImageData) (shadowLift highlightCompress : float)
    : M ProcessingImageData :=
  let '{| width := w; height := h; data := data |} := imageData in
  result ← new_Uint8ClampedArray_from data;
  len ← length_of data;
  for_step 0 len 4 (λ i,
    for_ 0 3 (λ c,
      value ← get data (i + c);
      let value :=
        if (value <? 50)%float
        then (value + (50 - value) * (shadowLift / 100))%float
        else value in
      let value :=
        if (230 <? value)%float
        then (230 + (value - 230) * (1 - highlightCompress / 100))%float
        else value in
      set result (i + c) (clamp value 0 255));;
    a ← get data (i + 3);
    set result (i + 3) a);;
  mret {| width := w; height := h; data := result |}.

Definition sketchEffect (imageData : ProcessingImageData) : M ProcessingImageData :=
  let '{| width := w; height := h; data := data |} := imageData in
  gray ← toGrayscale {| width := w; height := h; data := data |};
  inverted ← invert gray;
  blurred ← boxBlur inverted 5;
  let '{| data := gray_data |} := gray in
  let '{| data := blurred_data |} := blurred in
  result ← new_Uint8ClampedArray_from data;
  len ← length_of data;
  for_step 0 len 4 (λ i,
    base ← get gray_data i;
    blend ← get blurred_data i;
    let value :=
      if (blend =? 255)%float then 255%float
      else clamp ((base * 255) / (255 - blend)) 0 255 in
    set result i value;;
    set result (i + 1) value;;
    set result (i + 2) value;;
    a ← get data (i + 3);
    set result (i + 3) a);;
  mret {| width := w; height := h; data := result |}.

End Adjustments.

Module Presets.

Import Dithering.
Local Open Scope string_scope.

(** The optional fields of [PresetConfig.adjustments]. *)
Record AdjustmentsConfig := {
  brightness : option float;
  contrast : option float;
  gamma : option float;
  sharpenAmount : option float;
  sharpenRadius : option Z;
  denoise : option float;
  autoAdjust : option bool;
  colorCorrection : option bool;
  shadowLift : option float;
  highlightCompress : option float;
  edgeEnhance : option float;
}.

Definition no_adjustments : AdjustmentsConfig :=
  {| brightness := None; contrast := None; gamma := None; sharpenAmount := None;
     sharpenRadius := None; denoise := None; autoAdjust := None;
     colorCorrection := None; shadowLift := None; highlightCompress := None;
     edgeEnhance := None |}.

Record PresetConfig := {
  id : string;
  name : string;
  adjustments : AdjustmentsConfig;
  ditheringAlgorithm : DitheringAlgorithm;
}.

Definition presets : list (string * PresetConfig) :=
  [ ("photoRealism",
     {| id := "photoRealism"; name := "Photo Realism";
        adjustments :=
          {| brightness := None; contrast := Some 15%float; gamma := Some 1.1%float;
             sharpenAmount := Some 80%float; sharpenRadius := Some 1%Z;
             denoise := None; autoAdjust := Some true;
             colorCorrection := None; shadowLift := None;
             highlightCompress := None; edgeEnhance := None |};
        ditheringAlgorithm := JarvisJudiceNinke |});
    ("trueTone",
     {| id := "trueTone"; name := "True Tone";
        adjustments :=
          {| brightness := None; contrast := None; gamma := Some 1.0%float;
             sharpenAmount := Some 40%float; sharpenRadius := None;
             denoise := None; autoAdjust := Some true;
             colorCorrection := None; shadowLift := None;
             highlightCompress := None; edgeEnhance := None |};
        ditheringAlgorithm := JarvisJudiceNinke |});
    ("deepBurn",
     {| id := "deepBurn"; name := "Deep Burn";
        adjustments :=
          {| brightness := None; contrast := Some 25%float; gamma := None;
             sharpenAmount := Some 100%float; sharpenRadius := None;
             denoise := None; autoAdjust := None;
             colorCorrection := Some true; shadowLift := Some 30%float;
             highlightCompress := Some 15%float; edgeEnhance := None |};
        ditheringAlgorithm := Stucki |});
    ("softDetail",
     {| id := "softDetail"; name := "Soft Detail";
        adjustments :=
          {| brightness := None; contrast := None; gamma := Some 1.05%float;
             sharpenAmount := Some 60%float; sharpenRadius := Some 1%Z;
             denoise := None; autoAdjust := None;
             colorCorrection := None; shadowLift := None;
             highlightCompress := None; edgeEnhance := Some 0.5%float |};
        ditheringAlgorithm := Sierra |});
    ("stoneSlate",
     {| id := "stoneSlate"; name := "Stone & Slate";
        adjustments :=
          {| brightness := None; contrast := Some 20%float; gamma := None;
             sharpenAmount := Some 70%float; sharpenRadius := None;
             denoise := Some 25%float; autoAdjust := None;
             colorCorrection := None; shadowLift := None;
             highlightCompress := None; edgeEnhance := Some 1.2%float |};
        ditheringAlgorithm := Stucki |});
    ("glassAcrylic",
     {| id := "glassAcrylic"; name := "Glass & Acrylic";
        adjustments :=
          {| brightness := None; contrast := Some 35%float; gamma := None;
             sharpenAmount := Some 120%float; sharpenRadius := None;
             denoise := None; autoAdjust := None;
             colorCorrection := Some true; shadowLift := Some 40%float;
             highlightCompress := Some 20%float; edgeEnhance := None |};
        ditheringAlgorithm := Stucki |});
    ("forgiving",
     {| id := "forgiving"; name := "Forgiving";
        adjustments :=
          {| brightness := None; contrast := Some 10%float; gamma := Some 1.05%float;
             sharpenAmount := Some 50%float; sharpenRadius := None;
             denoise := None; autoAdjust := None;
             colorCorrection := None; shadowLift := None;
             highlightCompress := None; edgeEnhance := None |};
        ditheringAlgorithm := Sierra |});
    ("edgePop",
     {| id := "edgePop"; name := "Edge Pop";
        adjustments :=
          {| brightness := None; contrast := None; gamma := None;
             sharpenAmount := Some 90%float; sharpenRadius := None;
             denoise := None; autoAdjust := None;
             colorCorrection := Some true; shadowLift := Some 15%float;
             highlightCompress := None; edgeEnhance := Some 0.8%float |};
        ditheringAlgorithm := Burkes |});
    ("highContrast",
     {| id := "highContrast"; name := "High Contrast";
        adjustments :=
          {| brightness := Some 10%float; contrast := Some 40%float; gamma := None;
             sharpenAmount := Some 150%float; sharpenRadius := Some 2%Z;
             denoise := None; autoAdjust := None;
             colorCorrection := None; shadowLift := None;
             highlightCompress := None; edgeEnhance := None |};
        ditheringAlgorithm := FloydSteinberg |});
    ("pencilSketch",
     {| id := "pencilSketch"; name := "Pencil Sketch";
        adjustments := no_adjustments;
        ditheringAlgorithm := Atkinson |}) ].

(** The property names every object literal inherits from
    [Object.prototype]; each is a function or an object, hence truthy, and
    none has an [adjustments] property. *)
Definition Object_prototype : list string :=
  [ "constructor"; "hasOwnProperty"; "isPrototypeOf"; "propertyIsEnumerable";
    "toLocaleString"; "toString"; "valueOf"; "__proto__";
    "__defineGetter__"; "__defineSetter__"; "__lookupGetter__"; "__lookupSetter__" ].

(** The value of [presets[presetName]]. *)
Inductive property :=
  | Own (preset : PresetConfig)
  | Inherited
  | Missing.

Fixpoint assoc (key : string) (l : list (string * PresetConfig)) : option PresetConfig :=
  match l with
  | [] => None
  | (k, v) :: l' => if String.eqb key k then Some v else assoc key l'
  end.

Definition presets_get (presetName : string) : property :=
  match assoc presetName presets with
  | Some preset => Own preset
  | None =>
      if existsb (String.eqb presetName) Object_prototype then Inherited else Missing
  end.

(** What a call throws. *)
Inductive exception :=
  | Error (message : string)
  | TypeError.

(** [x && x > 0], [x && x !== c] on an optional Number. *)
Definition present_and (test : float → bool) (x : option float) : option float :=
  match x with
  | Some v => if truthy v && test v then Some v else None
  | None => None
  end.

Section applyPreset.

Variable Math_pow : float → float → float.

Definition applyPreset (imageData : ProcessingImageData) (presetName : string)
    : M (exception + ProcessingImageData) :=
  match presets_get presetName with
  | Missing => mret (inl (Error ("Unknown preset: " ++ presetName)))
  | Inherited =>
      (* [preset.adjustments] is [undefined]: reading [adj.autoAdjust] throws. *)
      let '{| width := w; height := h; data := data |} := imageData in
      copy ← new_Uint8ClampedArray_from data;
      Adjustments.toGrayscale {| width := w; height := h; data := copy |};;
      mret (inl TypeError)
  | Own preset =>
      let '{| width := w; height := h; data := data |} := imageData in
      copy ← new_Uint8ClampedArray_from data;
      let result := {| width := w; height := h; data := copy |} in
      let adj := preset.(adjustments) in
      result ← Adjustments.toGrayscale result;
      if String.eqb presetName "pencilSketch" then
        result ← Adjustments.sketchEffect result;
        out ← ditheringAlgorithms preset.(ditheringAlgorithm) result;
        mret (inr out)
      else
        result ← (if adj.(autoAdjust) is Some true
                   then Adjustments.autoAdjust result else mret result);
        result ← (if adj.(colorCorrection) is Some true
                   then Adjustments.colorCorrection result
                          (default 20%float adj.(shadowLift))
                          (default 10%float adj.(highlightCompress))
                   else mret result);
        result ← (if present_and (λ v, 0 <? v)%float adj.(denoise) is Some v
                   then Adjustments.denoise result v else mret result);
        result ← (if present_and (λ v, negb (v =? 1.0)%float) adj.(gamma) is Some v
                   then Adjustments.adjustGamma Math_pow result v else mret result);
        result ← (if present_and (λ v, negb (v =? 0)%float) adj.(brightness) is Some v
                   then Adjustments.adjustBrightness result v else mret result);
        result ← (if present_and (λ v, negb (v =? 0)%float) adj.(contrast) is Some v
                   then Adjustments.adjustContrast result v else mret result);
        result ← (if present_and (λ v, 0 <? v)%float adj.(edgeEnhance) is Some v
                   then Adjustments.edgeEnhance result v else mret result);
        result ← (if present_and (λ v, 0 <? v)%float adj.(sharpenAmount) is Some v
                   then Adjustments.unsharpMask result (default 1%Z adj.(sharpenRadius)) v 0
                   else mret result);
        result ← ditheringAlgorithms preset.(ditheringAlgorithm) result;
        mret (inr result)
  end.

End applyPreset.

End Presets.

Module Contour.

Import Alpha.
Local Open Scope Z_scope.

(** [extractContours(imageData, threshold = 128)]. *)
Definition extractContours (imageData : ProcessingImageData) (threshold : float)
    : M ProcessingImageData :=
  let '{| width := w; height := h; data := data |} := imageData in
  let width := Z.of_nat w in
  let height := Z.of_nat h in
  len ← length_of data;
  result ← new_Uint8ClampedArray len;
  fill result 255;;
  binary ← new_Uint8Array (width * height);
  for_ 0 (width * height) (λ i,
    let idx := i * 4 in
    gray ← getGrayOnWhite data idx;
    set binary i (if (gray <? threshold)%float then 1 else 0)%float);;
  for_ 1 (height - 1) (λ y,
    for_ 1 (width - 1) (λ x,
      let idx := y * width + x in
      b ← get binary idx;
      when (b =? 1)%float (
        left ← get binary (idx - 1);
        right ← get binary (idx + 1);
        up ← get binary (idx - width);
        down ← get binary (idx + width);
        let hasWhiteNeighbor :=
          (left =? 0)%float || (right =? 0)%float
          || (up =? 0)%float || (down =? 0)%float in
        when hasWhiteNeighbor (
          let pixelIdx := idx * 4 in
          set result pixelIdx 0;;
          set result (pixelIdx + 1) 0;;
          set result (pixelIdx + 2) 0;;
          set result (pixelIdx + 3) 255))));;
  mret {| width := w; height := h; data := result |}.

(** [while (changed) { changed = false; ... }]: [pass] answers [changed]. *)
Fixpoint while_changed (fuel : nat) (pass : M bool) : M bool :=
  match fuel with
  | O => mret false
  | S fuel' => changed ← pass; if changed : bool then while_changed fuel' pass else mret true
  end.

Section canny.

(** [Math.atan2] is implementation-approximated; it is a parameter. *)
Variable Math_atan2 : float → float → float.

(** [cannyEdgeDetection(imageData, lowThreshold = 50, highThreshold = 150)].
    Every pass of the hysteresis loop that goes on promotes a weak pixel, so
    [width * height + 1] passes are enough; [None] would say they were not. *)
Definition cannyEdgeDetection (imageData : ProcessingImageData)
    (lowThreshold highThreshold : float) : M (option ProcessingImageData) :=
  let '{| width := w; height := h; data := data |} := imageData in
  let width := Z.of_nat w in
  let height := Z.of_nat h in
  gray ← new_Float32Array (width * height);
  for_ 0 (width * height) (λ i,
    let idx := i * 4 in
    g ← getGrayOnWhite data idx;
    set gray i g);;
  blurred ← new_Float32Array (width * height);
  let kernel : list float := [1; 2; 1; 2; 4; 2; 1; 2; 1]%float in
  let kernelSum := 16%float in
  for_ 1 (height - 1) (λ y,
    for_ 1 (width - 1) (λ x,
      acc ← for_acc (-1) 2 (0%float, 0%nat) (λ dy acc,
        for_acc (-1) 2 acc (λ dx '(sum, k),
          v ← get gray ((y + dy) * width + (x + dx));
          mret ((sum + v * default undefined (kernel !! k))%float, S k)));
      set blurred (y * width + x) (acc.1 / kernelSum)%float));;
  magnitude ← new_Float32Array (width * height);
  direction ← new_Float32Array (width * height);
  for_ 1 (height - 1) (λ y,
    for_ 1 (width - 1) (λ x,
      let idx := y * width + x in
      b00 ← get blurred ((y - 1) * width + (x - 1));
      b01 ← get blurred ((y - 1) * width + x);
      b02 ← get blurred ((y - 1) * width + (x + 1));
      b10 ← get blurred (y * width + (x - 1));
      b12 ← get blurred (y * width + (x + 1));
      b20 ← get blurred ((y + 1) * width + (x - 1));
      b21 ← get blurred ((y + 1) * width + x);
      b22 ← get blurred ((y + 1) * width + (x + 1));
      let gx := (- b00 + b02 + -2 * b10 + 2 * b12 + - b20 + b22)%float in
      let gy := (- b00 - 2 * b01 - b02 + b20 + 2 * b21 + b22)%float in
      set magnitude idx (Math_sqrt (gx * gx + gy * gy));;
      set direction idx (Math_atan2 gy gx)));;
  suppressed ← new_Float32Array (width * height);
  for_ 1 (height - 1) (λ y,
    for_ 1 (width - 1) (λ x,
      let idx := y * width + x in
      angle ← get direction idx;
      mag ← get magnitude idx;
      let absAngle := Math_abs angle in
      neighbors ←
        (if (absAngle <? Math_PI / 8)%float || ((7 * Math_PI) / 8 <? absAngle)%float then
           n1 ← get magnitude (idx - 1);
           n2 ← get magnitude (idx + 1);
           mret (n1, n2)
         else if (absAngle <? (3 * Math_PI) / 8)%float then
           n1 ← get magnitude ((y - 1) * width + (x + 1));
           n2 ← get magnitude ((y + 1) * width + (x - 1));
           mret (n1, n2)
         else if (absAngle <? (5 * Math_PI) / 8)%float then
           n1 ← get magnitude ((y - 1) * width + x);
           n2 ← get magnitude ((y + 1) * width + x);
           mret (n1, n2)
         else
           n1 ← get magnitude ((y - 1) * width + (x - 1));
           n2 ← get magnitude ((y + 1) * width + (x + 1));
           mret (n1, n2));
      let '(neighbor1, neighbor2) := neighbors in
      when ((neighbor1 <=? mag)%float && (neighbor2 <=? mag)%float) (
        set suppressed idx mag)));;
  edgesOutput ← new_Uint8Array (width * height);
  for_ 0 height (λ y,
    for_ 0 width (λ x,
      let idx := y * width + x in
      s ← get suppressed idx;
      if (highThreshold <=? s)%float then set edgesOutput idx 2
      else when (lowThreshold <=? s)%float (set edgesOutput idx 1)));;
  finished ← while_changed (S (w * h)) (
    for_acc 1 (height - 1) false (λ y changed,
      for_acc 1 (width - 1) changed (λ x changed,
        let idx := y * width + x in
        e ← get edgesOutput idx;
        if (e =? 1)%float then
          (* the scan of the 3x3 neighbourhood stops at the first strong pixel *)
          for_acc (-1) 2 changed (λ dy changed,
            promoted ← get edgesOutput idx;
            if (promoted =? 2)%float then mret changed
            else
              for_acc (-1) 2 changed (λ dx changed,
                promoted ← get edgesOutput idx;
                if (promoted =? 2)%float then mret changed
                else
                  n ← get edgesOutput ((y + dy) * width + (x + dx));
                  if (n =? 2)%float
                  then set edgesOutput idx 2;; mret true
                  else mret changed))
        else mret changed)));
  result ← new_Uint8ClampedArray (width * height * 4);
  fill result 255;;
  for_ 0 (width * height) (λ i,
    let idx := i * 4 in
    e ← get edgesOutput i;
    when (e =? 2)%float (
      set result idx 0;;
      set result (idx + 1) 0;;
      set result (idx + 2) 0);;
    set result (idx + 3) 255);;
  mret (if finished : bool then Some {| width := w; height := h; data := result |} else None).

End canny.

(** [{ x: number; y: number }]. *)
Module Point.
Record t := { x : float; y : float }.
End Point.

Section simplifyPath.

(** [a ** 2] is [Math.pow(a, 2)], which the language leaves to the
    implementation. *)
Variable Math_pow : float → float → float.

Definition perpendicularDistance (point lineStart lineEnd : Point.t) : float :=
  let dx := (Point.x lineEnd - Point.x lineStart)%float in
  let dy := (Point.y lineEnd - Point.y lineStart)%float in
  if (dx =? 0)%float && (dy =? 0)%float then
    Math_sqrt (Math_pow (Point.x point - Point.x lineStart) 2
               + Math_pow (Point.y point - Point.y lineStart) 2)%float
  else
    let t := (((Point.x point - Point.x lineStart) * dx
               + (Point.y point - Point.y lineStart) * dy)
              / (dx * dx + dy * dy))%float in
    let nearestX := (Point.x lineStart + t * dx)%float in
    let nearestY := (Point.y lineStart + t * dy)%float in
    Math_sqrt (Math_pow (Point.x point - nearestX) 2
               + Math_pow (Point.y point - nearestY) 2)%float.

(** The loop that looks for the point farthest from the line: the state is
    [(maxDist, maxIdx)]. *)
Definition farthest (points : list Point.t) (first last : Point.t) : float * nat :=
  foldl (λ '(maxDist, maxIdx) i,
           let dist := perpendicularDistance
                         (default first (points !! i)) first last in
           if (maxDist <? dist)%float then (dist, i) else (maxDist, maxIdx))
        (0%float, 0%nat) (seq 1 (length points - 2)).

(** The recursion is bounded by [fuel]; [None] when it runs out.  The first
    pattern is [points.length >= 3]; [slice(0, maxIdx + 1)] is [take],
    [slice(maxIdx)] is [drop] and [slice(0, -1)] is [removelast]. *)
Fixpoint simplifyPath (fuel : nat) (points : list Point.t) (epsilon : float)
    : option (list Point.t) :=
  match fuel with
  | O => None
  | S fuel =>
      match points with
      | first :: _ :: _ :: _ =>
          let last := List.last points first in
          let '(maxDist, maxIdx) := farthest points first last in
          if (epsilon <? maxDist)%float then
            left ← simplifyPath fuel (take (maxIdx + 1) points) epsilon;
            right ← simplifyPath fuel (drop maxIdx points) epsilon;
            Some (removelast left ++ right)
          else Some [first; last]
      | _ => Some points
      end
  end.

End simplifyPath.

(** [radius] is a whole number of pixels.  The loops over [dy] and [dx] go
    on while [!hasBlack]: once the flag is set the remaining rounds do
    nothing. *)
Definition dilateContour (imageData : ProcessingImageData) (radius : Z)
    : M ProcessingImageData :=
  let '{| width := w; height := h; data := data |} := imageData in
  let width := Z.of_nat w in
  let height := Z.of_nat h in
  len ← length_of data;
  result ← new_Uint8ClampedArray len;
  fill result 255;;
  for_ 0 height (λ y,
    for_ 0 width (λ x,
      let idx := (y * width + x) * 4 in
      hasBlack ← for_acc (- radius) (radius + 1) false (λ dy hasBlack,
        if hasBlack : bool then mret hasBlack
        else for_acc (- radius) (radius + 1) hasBlack (λ dx hasBlack,
          if hasBlack : bool then mret hasBlack
          else
            let nx := x + dx in
            let ny := y + dy in
            if (0 <=? nx) && (nx <? width) && (0 <=? ny) && (ny <? height) then
              let nIdx := (ny * width + nx) * 4 in
              v ← get data nIdx;
              if (v <? 128)%float then mret true else mret hasBlack
            else mret hasBlack));
      when hasBlack (
        set result idx 0;;
        set result (idx + 1) 0;;
        set result (idx + 2) 0);;
      set result (idx + 3) 255));;
  mret {| width := w; height := h; data := result |}.

(** Likewise, with the loops going on while [allBlack]. *)
Definition erodeContour (imageData : ProcessingImageData) (radius : Z)
    : M ProcessingImageData :=
  let '{| width := w; height := h; data := data |} := imageData in
  let width := Z.of_nat w in
  let height := Z.of_nat h in
  len ← length_of data;
  result ← new_Uint8ClampedArray len;
  fill result 255;;
  for_ 0 height (λ y,
    for_ 0 width (λ x,
      let idx := (y * width + x) * 4 in
      allBlack ← for_acc (- radius) (radius + 1) true (λ dy allBlack,
        if allBlack : bool then
          for_acc (- radius) (radius + 1) allBlack (λ dx allBlack,
            if allBlack : bool then
              let nx := x + dx in
              let ny := y + dy in
              if (0 <=? nx) && (nx <? width) && (0 <=? ny) && (ny <? height) then
                let nIdx := (ny * width + nx) * 4 in
                v ← get data nIdx;
                if (128 <=? v)%float then mret false else mret allBlack
              else mret false
            else mret allBlack)
        else mret allBlack);
      when allBlack (
        set result idx 0;;
        set result (idx + 1) 0;;
        set result (idx + 2) 0);;
      set result (idx + 3) 255));;
  mret {| width := w; height := h; data := result |}.

End Contour.

Module Masking.

Local Open Scope Z_scope.

(** [maskPosition: { x: number; y: number; scale: number }]. *)
Record MaskPosition := {
  x : float;
  y : float;
  scale : float;
}.

(** The default argument [{ x: 0, y: 0, scale: 1 }]. *)
Definition default_maskPosition : MaskPosition :=
  {| x := 0; y := 0; scale := 1 |}.

Definition applyMask (imageData maskData : ProcessingImageData) (maskPosition : MaskPosition)
    : M ProcessingImageData :=
  let '{| width := w; height := h; data := data |} := imageData in
  let '{| width := mw; height := mh; data := maskData_data |} := maskData in
  let width := Z.of_nat w in
  let height := Z.of_nat h in
  let maskData_width := num (Z.of_nat mw) in
  let maskData_height := num (Z.of_nat mh) in
  len ← length_of data;
  result ← new_Uint8ClampedArray len;
  let scale := if truthy maskPosition.(scale) then maskPosition.(scale) else 1%float in
  let centerX := (num width / 2 + maskPosition.(x))%float in
  let centerY := (num height / 2 + maskPosition.(y))%float in
  let maskCenterX := (maskData_width / 2)%float in
  let maskCenterY := (maskData_height / 2)%float in
  for_ 0 height (λ y,
    for_ 0 width (λ x,
      let idx := (y * width + x) * 4 in
      let maskX := Math_round ((num x - centerX) / scale + maskCenterX) in
      let maskY := Math_round ((num y - centerY) / scale + maskCenterY) in
      maskValue ←
        (if (0 <=? maskX)%float && (maskX <? maskData_width)%float
            && (0 <=? maskY)%float && (maskY <? maskData_height)%float
         then
           let maskIdx := ((maskY * maskData_width + maskX) * 4)%float in
           get_at maskData_data maskIdx
         else mret 0%float);
      d0 ← get data idx;
      set result idx d0;;
      d1 ← get data (idx + 1);
      set result (idx + 1) d1;;
      d2 ← get data (idx + 2);
      set result (idx + 2) d2;;
      a ← get data (idx + 3);
      set result (idx + 3) (Math_round ((a * maskValue) / 255))));;
  mret {| width := w; height := h; data := result |}.

(** [new ImageData(array, width, height)] wraps the array; [maskData] is an
    ImageData, whose array has [4 * width * height] elements. *)
Definition invertMask (maskData : ProcessingImageData) : M ProcessingImageData :=
  let '{| width := w; height := h; data := maskData_data |} := maskData in
  result_data ← new_Uint8ClampedArray_from maskData_data;
  len ← length_of result_data;
  for_step 0 len 4 (λ i,
    r0 ← get result_data i;
    set result_data i (255 - r0);;
    r1 ← get result_data (i + 1);
    set result_data (i + 1) (255 - r1);;
    r2 ← get result_data (i + 2);
    set result_data (i + 2) (255 - r2));;
  mret {| width := w; height := h; data := result_data |}.

Definition applyMaskToImage (imageData maskData : ProcessingImageData) (invert : bool)
    : M ProcessingImageData :=
  let '{| width := w; height := h; data := imageData_data |} := imageData in
  let maskData_data := maskData.(data) in
  result_data ← new_Uint8ClampedArray_from imageData_data;
  len ← length_of imageData_data;
  for_step 0 len 4 (λ i,
    maskValue ← get maskData_data i;
    let alpha := if invert then (255 - maskValue)%float else maskValue in
    r3 ← get result_data (i + 3);
    set result_data (i + 3) (Math_min r3 alpha));;
  mret {| width := w; height := h; data := result_data |}.

End Masking.

(** * Specifications

    The vocabulary of the statements: weakest preconditions over the store,
    footprints, and the pixel-level predicates. *)

Section vocabulary.

Local Open Scope Z_scope.

Definition wp {A} (m : M A) (Q : A → heap → Prop) (h : heap) : Prop :=
  Q (m h).1 (m h).2.

(** Computations that write to one location only. *)
Definition modifies_only {A} (e : loc) (m : M A) : Prop :=
  ∀ h l, l ≠ e → (m h).2 !! l = h !! l.

Definition byte (z : Z) : Prop := 0 ≤ z ≤ 255.

(** The PixelBuffer invariant: [data.length == width*height*4], elements
    are bytes, and the buffer is the [Uint8ClampedArray] stored at
    [imageData.data]. *)
Definition well_formed (imageData : ProcessingImageData) (h : heap) (d : list Z) : Prop :=
  h !! imageData.(data) = Some (Uint8ClampedArray d)
  ∧ length d = (4 * (imageData.(width) * imageData.(height)))%nat
  ∧ Forall byte d.

(** Pixel [p] of [r] after [setPixel(result, 4p, v)] and the copy of the
    alpha byte of [d]. *)
Definition put_pixel (r : list Z) (p : nat) (v : Z) (d : list Z) : list Z :=
  <[(4 * p + 3)%nat := default 0 (d !! (4 * p + 3)%nat)]>
    (<[(4 * p + 2)%nat := v]> (<[(4 * p + 1)%nat := v]> (<[(4 * p)%nat := v]> r))).

(** Pixel [p] of [r] has R = G = B = [v], and the alpha byte of [d]. *)
Definition pixel_is (d r : list Z) (p : nat) (v : Z) : Prop :=
  r !! (4 * p)%nat = Some v
  ∧ r !! (4 * p + 1)%nat = Some v
  ∧ r !! (4 * p + 2)%nat = Some v
  ∧ r !! (4 * p + 3)%nat = d !! (4 * p + 3)%nat.

(** Pixel [p] of [r] is black or white, with the alpha byte of [d]. *)
Definition binary_pixel (d r : list Z) (p : nat) : Prop :=
  ∃ v, (v = 0 ∨ v = 255) ∧ pixel_is d r p v.

Section scan.

Context (data result : loc) (d : list Z) (W H : Z) (R : Z → Z → Z → Prop).

(** The pixels before index [k] are settled, each to a value that [R]
    accepts at its position; the input is intact. *)
Definition scanned (k : Z) (h : heap) : Prop :=
  h !! data = Some (Uint8ClampedArray d)
  ∧ ∃ r, h !! result = Some (Uint8ClampedArray r)
       ∧ length r = length d
       ∧ ∀ y x, 0 ≤ y < H → 0 ≤ x < W → y * W + x < k →
           ∃ v, R y x v ∧ pixel_is d r (Z.to_nat (y * W + x)) v.

(** One iteration writes a value that [R] accepts and the input's alpha
    into pixel [(x, y)] of [result], and nothing else there. *)
Definition quantizes (body : Z → Z → M unit) : Prop :=
  ∀ y x h r, 0 ≤ y < H → 0 ≤ x < W →
    h !! data = Some (Uint8ClampedArray d) →
    h !! result = Some (Uint8ClampedArray r) →
    wp (body y x)
       (λ _ h', h' !! data = Some (Uint8ClampedArray d)
          ∧ ∃ v, R y x v
              ∧ h' !! result
                = Some (Uint8ClampedArray (put_pixel r (Z.to_nat (y * W + x)) v d))) h.

End scan.

(** The values a dithering algorithm may write. *)
Definition black_or_white_byte (y x v : Z) : Prop := v = 0 ∨ v = 255.

(** Computations that leave the store as it is. *)
Definition read_only {A} (m : M A) : Prop := ∀ h, (m h).2 = h.

Definition black_or_white (v : float) : Prop := v = 0%float ∨ v = 255%float.

(** What a dithering algorithm promises about its output [out]. *)
Definition dithered (imageData : ProcessingImageData) (d : list Z)
    (out : ProcessingImageData) (h' : heap) : Prop :=
  out.(width) = imageData.(width) ∧ out.(height) = imageData.(height)
  ∧ ∃ r, h' !! out.(data) = Some (Uint8ClampedArray r)
      ∧ length r = length d
      ∧ ∀ p : nat, (p < imageData.(width) * imageData.(height))%nat → binary_pixel d r p.

(** [m], run from any store that extends [h0] and has [D] allocated, keeps
    every array of [h0] as it is and deallocates nothing; [Ψ] speaks about
    the result and the locations allocated afterwards. *)
Definition framed {A} (h0 : heap) (D : gset loc) (m : M A) (Ψ : A → gset loc → Prop) : Prop :=
  ∀ h, h0 ⊆ h → D ⊆ dom h →
    h0 ⊆ (m h).2 ∧ dom h ⊆ dom (m h).2 ∧ Ψ (m h).1 (dom (m h).2).

(** The result is a buffer allocated by the call. *)
Definition fresh_image (h0 : heap) (out : ProcessingImageData) (X : gset loc) : Prop :=
  h0 !! out.(data) = None ∧ out.(data) ∈ X.

Definition fresh_loc (h0 : heap) (l : loc) (X : gset loc) : Prop :=
  h0 !! l = None ∧ l ∈ X.

Definition anything {A} (a : A) (X : gset loc) : Prop := True.

(** The adjustment functions ([adjustmentFunctions], and the blur they
    share) and the dithering algorithms ([ditheringAlgorithms]), each at
    any value of its parameters. *)
Inductive engine_function (Math_pow : float → float → float)
    : (ProcessingImageData → M ProcessingImageData) → Prop :=
  | ef_toGrayscale : engine_function Math_pow Adjustments.toGrayscale
  | ef_adjustBrightness amount :
      engine_function Math_pow (λ img, Adjustments.adjustBrightness img amount)
  | ef_adjustContrast amount :
      engine_function Math_pow (λ img, Adjustments.adjustContrast img amount)
  | ef_adjustGamma gamma :
      engine_function Math_pow (λ img, Adjustments.adjustGamma Math_pow img gamma)
  | ef_invert : engine_function Math_pow Adjustments.invert
  | ef_mirrorHorizontal : engine_function Math_pow Adjustments.mirrorHorizontal
  | ef_unsharpMask radius amount threshold :
      engine_function Math_pow (λ img, Adjustments.unsharpMask img radius amount threshold)
  | ef_boxBlur radius :
      engine_function Math_pow (λ img, Adjustments.boxBlur img radius)
  | ef_edgeEnhance strength :
      engine_function Math_pow (λ img, Adjustments.edgeEnhance img strength)
  | ef_denoise strength :
      engine_function Math_pow (λ img, Adjustments.denoise img strength)
  | ef_autoAdjust : engine_function Math_pow Adjustments.autoAdjust
  | ef_adjustLevels blackPoint whitePoint :
      engine_function Math_pow (λ img, Adjustments.adjustLevels img blackPoint whitePoint)
  | ef_threshold thresholdValue :
      engine_function Math_pow (λ img, Adjustments.threshold img thresholdValue)
  | ef_colorCorrection shadowLift highlightCompress :
      engine_function Math_pow
        (λ img, Adjustments.colorCorrection img shadowLift highlightCompress)
  | ef_sketchEffect : engine_function Math_pow Adjustments.sketchEffect
  | ef_dithering a : engine_function Math_pow (Dithering.ditheringAlgorithms a).

(** The ten catalogued preset ids. *)
Definition preset_ids : list string :=
  [ "photoRealism"; "trueTone"; "deepBurn"; "softDetail"; "stoneSlate";
    "glassAcrylic"; "forgiving"; "edgePop"; "highContrast"; "pencilSketch" ]%string.

(** The computation ends in [return]. *)
Definition always_returns {A} (m : M (Presets.exception + A)) : Prop :=
  ∀ h, ∃ a, (m h).1 = inr a.

(** Pixel [p] of the buffer [d] has the channels [r], [g], [b], [a]. *)
Definition pixel_at (d : list Z) (p : nat) (r g b a : Z) : Prop :=
  d !! (4 * p)%nat = Some r ∧ d !! (4 * p + 1)%nat = Some g
  ∧ d !! (4 * p + 2)%nat = Some b ∧ d !! (4 * p + 3)%nat = Some a.

(** [out] is a buffer of the size of [imageData] holding exactly the
    bytes [d]. *)
Definition same_buffer (imageData : ProcessingImageData) (d : list Z)
    (out : ProcessingImageData) (h' : heap) : Prop :=
  out.(width) = imageData.(width) ∧ out.(height) = imageData.(height)
  ∧ h' !! out.(data) = Some (Uint8ClampedArray d).

(** The alpha-aware gray value of pixel [p] of the buffer [d]. *)
Definition gray_of (d : list Z) (p : nat) : float :=
  (Alpha.getGrayOnWhite 0%nat (4 * Z.of_nat p) {[ 0%nat := Uint8ClampedArray d ]}).1.

(** The byte an ordered dithering with the threshold matrix [matrix],
    tiled with period [size], writes at [(x, y)]. *)
Definition ordered_value (matrix : list (list float)) (size : Z) (d : list Z) (W : Z)
    (y x v : Z) : Prop :=
  v = ToUint8Clamp
        (if (table_at matrix (Z.rem y size) (Z.rem x size)
             <? gray_of d (Z.to_nat (y * W + x)))%float
         then 255%float else 0%float).

(** The first [n] pixels of [r] are white. *)
Definition all_white (r : list Z) (n : nat) : Prop :=
  ∀ p : nat, (p < n)%nat →
    r !! (4 * p)%nat = Some 255 ∧ r !! (4 * p + 1)%nat = Some 255
    ∧ r !! (4 * p + 2)%nat = Some 255.

(** The 4x4 threshold matrix of [bayerOrdered4x4]. *)
Definition bayerMatrix4 : list (list float) :=
  [ [0; 136; 34; 170];
    [204; 68; 238; 102];
    [51; 187; 17; 153];
    [255; 119; 221; 85] ]%float.

(** *** Floyd-Steinberg, as the specification words it

    An accumulator holds one binary32 value per pixel, seeded with the gray
    values.  The pixels are visited row by row, left to right; each is
    quantized at 128, and the error goes to the four neighbours not yet
    visited, those inside the image. *)

Section floydSteinberg_spec.

Context (W H : Z) (d : list Z).

(** Right 7/16, below-left 3/16, below 5/16, below-right 1/16, as
    [(dx, dy, weight)]. *)
Definition fs_kernel : list (Z * Z * float) :=
  [ (1, 0, 7%float); (-1, 1, 3%float); (0, 1, 5%float); (1, 1, 1%float) ].

Definition in_image (x y : Z) : bool :=
  (0 <=? x) && (x <? W) && (0 <=? y) && (y <? H).

(** [acc[i] += v] in a [Float32Array]. *)
Definition accumulate (acc : list float) (i : Z) (v : float) : list float :=
  <[Z.to_nat i := fround (default undefined (acc !! Z.to_nat i) + v)]> acc.

Definition diffuse (x y : Z) (quantError : float) (acc : list float)
    (k : Z * Z * float) : list float :=
  let '(dx, dy, weight) := k in
  if in_image (x + dx) (y + dy)
  then accumulate acc ((y + dy) * W + (x + dx)) (quantError * weight / 16)%float
  else acc.

Definition quantize (v : float) : Z := if (v <? 128)%float then 0 else 255.

Definition fs_pixel (y : Z) (st : list Z * list float) (x : Z) : list Z * list float :=
  let idx := y * W + x in
  let old := default undefined (st.2 !! Z.to_nat idx) in
  let new := quantize old in
  let quantError := (old - num new)%float in
  (put_pixel st.1 (Z.to_nat idx) new d, foldl (diffuse x y quantError) st.2 fs_kernel).

Definition fs_row (st : list Z * list float) (y : Z) : list Z * list float :=
  foldl (fs_pixel y) st (seqZ 0 W).

Definition fs_seed : list float :=
  (λ p, fround (gray_of d p)) <$> seq 0 (Z.to_nat (W * H)).

Definition floydSteinberg_spec : list Z :=
  (foldl fs_row (d, fs_seed) (seqZ 0 H)).1.

(** The store holds the state [st] of the scan: the output so far in
    [result], the accumulator in [errors], and the input untouched. *)
Definition fs_state (data result errors : loc) (st : list Z * list float) (h : heap) : Prop :=
  h !! data = Some (Uint8ClampedArray d)
  ∧ h !! result = Some (Uint8ClampedArray st.1)
  ∧ h !! errors = Some (Float32Array st.2).

End floydSteinberg_spec.

(** *** Scans that settle one pixel per iteration *)

(** The four bytes of pixel [p] of [r] replaced. *)
Definition set_pixel_bytes (r : list Z) (p : nat) (v0 v1 v2 v3 : Z) : list Z :=
  <[(4 * p + 3)%nat := v3]>
    (<[(4 * p + 2)%nat := v2]> (<[(4 * p + 1)%nat := v1]> (<[(4 * p)%nat := v0]> r))).

Section pixel_scan.

Context (result : loc) (n : nat) (W H : Z) (h0 : heap)
  (P : Z → Z → Z → Z → Z → Z → Prop).

(** The pixels before index [k] hold bytes that [P] accepts at their
    position; every array but [result] is as in [h0]. *)
Definition settled (k : Z) (h : heap) : Prop :=
  (∀ l, l ≠ result → h !! l = h0 !! l)
  ∧ ∃ r, h !! result = Some (Uint8ClampedArray r)
       ∧ length r = n
       ∧ ∀ y x, 0 ≤ y < H → 0 ≤ x < W → y * W + x < k →
           ∃ v0 v1 v2 v3, P y x v0 v1 v2 v3
             ∧ pixel_at r (Z.to_nat (y * W + x)) v0 v1 v2 v3.

(** One iteration replaces the bytes of pixel [(x, y)] of [result] by
    bytes that [P] accepts, and writes nothing else. *)
Definition settles (body : Z → Z → M unit) : Prop :=
  ∀ y x h r, 0 ≤ y < H → 0 ≤ x < W →
    (∀ l, l ≠ result → h !! l = h0 !! l) →
    h !! result = Some (Uint8ClampedArray r) →
    wp (body y x)
       (λ _ h', (∀ l, l ≠ result → h' !! l = h0 !! l)
          ∧ ∃ v0 v1 v2 v3, P y x v0 v1 v2 v3
              ∧ h' !! result
                = Some (Uint8ClampedArray
                          (set_pixel_bytes r (Z.to_nat (y * W + x)) v0 v1 v2 v3))) h.

End pixel_scan.

(** *** [applyMask], as the specification words it *)

(** [maskPosition.scale || 1]. *)
Definition effective_scale (scale : float) : float :=
  if truthy scale then scale else 1%float.

(** [round((imgCoord - center) / scale + maskCenter)]. *)
Definition mask_coord (imgCoord center scale maskCenter : float) : float :=
  Math_round ((imgCoord - center) / scale + maskCenter).

(** The red channel of the mask [md], of width [mw], at [(mX, mY)]. *)
Definition mask_red (md : list Z) (mw mX mY : float) : float :=
  match to_int ((mY * mw + mX) * 4)%float with
  | Some i => arr_get (Uint8ClampedArray md) i
  | None => undefined
  end.

(** The mask value at [(mX, mY)]: 0 outside the bounds of the mask. *)
Definition mask_value (md : list Z) (mw mh mX mY : float) : float :=
  if (0 <=? mX)%float && (mX <? mw)%float && (0 <=? mY)%float && (mY <? mh)%float
  then mask_red md mw mX mY
  else 0%float.

(** [round(inputAlpha * maskValue / 255)], as the byte stored. *)
Definition masked_alpha (a : Z) (maskValue : float) : Z :=
  ToUint8Clamp (Math_round ((num a * maskValue) / 255)).

(** The mask value [applyMask] uses at pixel [(x, y)] of a [w]x[h] image
    for the mask [md] of size [mw]x[mh], with the scale [s]. *)
Definition mask_value_at (w h mw mh : nat) (md : list Z) (px py s : float) (x y : Z) : float :=
  let mw' := num (Z.of_nat mw) in
  let mh' := num (Z.of_nat mh) in
  mask_value md mw' mh'
    (mask_coord (num x) (num (Z.of_nat w) / 2 + px) s (mw' / 2))
    (mask_coord (num y) (num (Z.of_nat h) / 2 + py) s (mh' / 2)).

(** *** Numbers *)

(** [x] is a number, not NaN. *)
Definition not_nan (x : float) : Prop := Prim2SF x ≠ S754_nan.

(** Zero, a positive finite number or +Infinity. *)
Definition SFnonneg (x : spec_float) : bool :=
  match x with
  | S754_zero _ | S754_finite false _ _ | S754_infinity false => true
  | _ => false
  end.

Definition nonneg (x : float) : bool := SFnonneg (Prim2SF x).

(** *** [extractContours], as the specification words it *)

Section contours.

Context (d : list Z) (W H : Z) (threshold : float).

(** The alpha-aware gray value of the pixel [(x, y)]. *)
Definition gray_at (y x : Z) : float := gray_of d (Z.to_nat (y * W + x)).

(** Its gray value is below the threshold. *)
Definition below (y x : Z) : bool := (gray_at y x <? threshold)%float.

(** Its gray value is at or above the threshold. *)
Definition at_or_above (y x : Z) : bool := (threshold <=? gray_at y x)%float.

(** The pixel is on the border of the image. *)
Definition on_border (y x : Z) : bool :=
  (x =? 0) || (x =? W - 1) || (y =? 0) || (y =? H - 1).

(** Below the threshold, with one of the four neighbours at or above it. *)
Definition on_contour (y x : Z) : bool :=
  below y x
  && (at_or_above y (x - 1) || at_or_above y (x + 1)
      || at_or_above (y - 1) x || at_or_above (y + 1) x).

(** The pixel is marked black: on a contour, and not on the border. *)
Definition marked (y x : Z) : bool := negb (on_border y x) && on_contour y x.

(** The byte of each colour channel of the output at [(x, y)]. *)
Definition contour_value (y x : Z) : Z := if marked y x then 0 else 255.

(** The array [binary] of the code: 1 where the gray value is below the
    threshold. *)
Definition binarized (bl : list Z) (k : Z) : Prop :=
  length bl = Z.to_nat (W * H)
  ∧ ∀ q : nat, Z.of_nat q < k →
      bl !! q = Some (if (gray_of d q <? threshold)%float then 1 else 0).

(** The store during the second loop of [extractContours]: the pixels
    that [visited] accepts hold their final bytes, the others are white. *)
Definition contours_marked (data binary result : loc) (visited : Z → Z → bool)
    (h : heap) : Prop :=
  h !! data = Some (Uint8ClampedArray d)
  ∧ (∃ bl, h !! binary = Some (Uint8Array bl) ∧ binarized bl (W * H))
  ∧ ∃ r, h !! result = Some (Uint8ClampedArray r)
       ∧ length r = length d
       ∧ ∀ y x, 0 ≤ y < H → 0 ≤ x < W →
           let v := if visited y x then contour_value y x else 255 in
           pixel_at r (Z.to_nat (y * W + x)) v v v 255.

End contours.

(** The call throws. *)
Definition throws {A} (r : Presets.exception + A) : Prop := ∃ e, r = inl e.

(** The call returns a value. *)
Definition returns {A} (r : Presets.exception + A) : Prop := ∃ a, r = inr a.

End vocabulary.

(** ** The alpha channel through the adjustments *)

Section alpha_channel.

Local Open Scope Z_scope.

(** [r] has the size of [d], holds bytes, and has the alpha byte of [d] at
    every pixel. *)
Definition same_alpha (d r : list Z) : Prop :=
  length r = length d ∧ Forall byte r
  ∧ ∀ p : nat, r !! (4 * p + 3)%nat = d !! (4 * p + 3)%nat.

(** Every array of [T] is a [Uint8ClampedArray] with the alpha channel of
    [d]. *)
Definition alpha_kept (d : list Z) (T : gset loc) (h : heap) : Prop :=
  ∀ l, l ∈ T → ∃ r, h !! l = Some (Uint8ClampedArray r) ∧ same_alpha d r.

(** [m] keeps that, whatever the store, and ends with [Ψ]. *)
Definition keeps {A} (d : list Z) (T : gset loc) (m : M A) (Ψ : A → heap → Prop) : Prop :=
  ∀ h, alpha_kept d T h → alpha_kept d T (m h).2 ∧ Ψ (m h).1 (m h).2.

(** [out] has the dimensions of [imageData], and its array the size and the
    alpha channel of [d]. *)
Definition keeps_alpha_of (imageData : ProcessingImageData) (d : list Z)
    (out : ProcessingImageData) (h' : heap) : Prop :=
  out.(width) = imageData.(width) ∧ out.(height) = imageData.(height)
  ∧ ∃ r, h' !! out.(data) = Some (Uint8ClampedArray r) ∧ same_alpha d r.

(** The adjustment functions ([adjustmentFunctions]) that work pixel by
    pixel in place: all but [mirrorHorizontal], which moves the pixels. *)
Inductive pixelwise_adjustment (Math_pow : float → float → float)
    : (ProcessingImageData → M ProcessingImageData) → Prop :=
  | pa_toGrayscale : pixelwise_adjustment Math_pow Adjustments.toGrayscale
  | pa_adjustBrightness amount :
      pixelwise_adjustment Math_pow (λ img, Adjustments.adjustBrightness img amount)
  | pa_adjustContrast amount :
      pixelwise_adjustment Math_pow (λ img, Adjustments.adjustContrast img amount)
  | pa_adjustGamma gamma :
      pixelwise_adjustment Math_pow (λ img, Adjustments.adjustGamma Math_pow img gamma)
  | pa_invert : pixelwise_adjustment Math_pow Adjustments.invert
  | pa_unsharpMask radius amount threshold :
      pixelwise_adjustment Math_pow
        (λ img, Adjustments.unsharpMask img radius amount threshold)
  | pa_edgeEnhance strength :
      pixelwise_adjustment Math_pow (λ img, Adjustments.edgeEnhance img strength)
  | pa_denoise strength :
      pixelwise_adjustment Math_pow (λ img, Adjustments.denoise img strength)
  | pa_autoAdjust : pixelwise_adjustment Math_pow Adjustments.autoAdjust
  | pa_adjustLevels blackPoint whitePoint :
      pixelwise_adjustment Math_pow
        (λ img, Adjustments.adjustLevels img blackPoint whitePoint)
  | pa_threshold thresholdValue :
      pixelwise_adjustment Math_pow (λ img, Adjustments.threshold img thresholdValue)
  | pa_colorCorrection shadowLift highlightCompress :
      pixelwise_adjustment Math_pow
        (λ img, Adjustments.colorCorrection img shadowLift highlightCompress)
  | pa_sketchEffect : pixelwise_adjustment Math_pow Adjustments.sketchEffect.

End alpha_channel.

(** ** Footprints of the composed and of the contour functions *)

(** A returned image is fresh; a thrown exception says nothing. *)
Definition fresh_result (h0 : heap) (res : Presets.exception + ProcessingImageData)
    (X : gset loc) : Prop :=
  match res with
  | inr out => fresh_image h0 out X
  | inl _ => True
  end.

(** The image that [cannyEdgeDetection] returns is fresh. *)
Definition fresh_option (h0 : heap) (res : option ProcessingImageData) (X : gset loc) : Prop :=
  match res with
  | Some out => fresh_image h0 out X
  | None => True
  end.

(** The call from [h] to [h'] kept every array of [h], and [out] is an
    array that [h] did not have. *)
Definition untouched_and_fresh (h h' : heap) (out : ProcessingImageData) : Prop :=
  (∀ l b, h !! l = Some b → h' !! l = Some b)
  ∧ h !! out.(data) = None
  ∧ is_Some (h' !! out.(data)).

(** ** Loops that rewrite one pixel per iteration, four bytes apart *)

Section pixel_map.

Context (result : loc) (d : list Z) (h0 : heap) (P : nat → Z → Z → Z → Z → Prop).

(** The first [k] pixels of [result] hold bytes that [P] accepts, the
    bytes after them are still those of [d]; the arrays other than [result]
    are as in [h0]. *)
Definition mapped (k : nat) (h : heap) : Prop :=
  (∀ l, l ≠ result → h !! l = h0 !! l)
  ∧ ∃ r, h !! result = Some (Uint8ClampedArray r)
       ∧ length r = length d
       ∧ (∀ p, (p < k)%nat →
            ∃ v0 v1 v2 v3, P p v0 v1 v2 v3 ∧ pixel_at r p v0 v1 v2 v3)
       ∧ ∀ i, (4 * k ≤ i)%nat → r !! i = d !! i.

(** The iteration at the byte index [4p] replaces the bytes of pixel [p]
    of [result] by bytes that [P] accepts, and writes nothing else. *)
Definition maps (body : Z → M unit) : Prop :=
  ∀ (p : nat) h r, (4 * p + 3 < length d)%nat →
    (∀ l, l ≠ result → h !! l = h0 !! l) →
    h !! result = Some (Uint8ClampedArray r) →
    length r = length d →
    (∀ i, (4 * p ≤ i)%nat → r !! i = d !! i) →
    wp (body (0 + Z.of_nat p * 4)%Z)
       (λ _ h', (∀ l, l ≠ result → h' !! l = h0 !! l)
          ∧ ∃ v0 v1 v2 v3, P p v0 v1 v2 v3
              ∧ h' !! result
                = Some (Uint8ClampedArray (set_pixel_bytes r p v0 v1 v2 v3))) h.

End pixel_map.

(** What [invert] and [invertMask] write: the colours inverted. *)
Definition inverted (alpha : Z → Z) (d : list Z) (p : nat) (v0 v1 v2 v3 : Z) : Prop :=
  ∃ R G B A, pixel_at d p R G B A
    ∧ v0 = (255 - R)%Z ∧ v1 = (255 - G)%Z ∧ v2 = (255 - B)%Z ∧ v3 = alpha A.

(** What [threshold] writes: black where the red byte is below [t]. *)
Definition thresholded (t : float) (d : list Z) (p : nat) (v0 v1 v2 v3 : Z) : Prop :=
  ∃ R G B A, pixel_at d p R G B A
    ∧ v0 = (if (num R <? t)%float then 0 else 255)%Z
    ∧ v1 = v0 ∧ v2 = v0 ∧ v3 = A.

(** What [toGrayscale] writes: the gray value, rounded to a byte. *)
Definition grayed (d : list Z) (p : nat) (v0 v1 v2 v3 : Z) : Prop :=
  ∃ R G B A, pixel_at d p R G B A
    ∧ v0 = ToUint8Clamp (gray_of d p) ∧ v1 = v0 ∧ v2 = v0 ∧ v3 = A.

(** Every pixel of [d] is opaque. *)
Definition opaque (d : list Z) : Prop :=
  ∀ p R G B A, pixel_at d p R G B A → A = 255%Z.

(** The store during [mirrorHorizontal]: the pixels of [result] that
    [written] accepts hold the pixel of [d] at the mirrored column, the
    others their own pixel of [d]. *)
Definition mirrored (d : list Z) (W H : Z) (dat result : loc) (written : Z → Z → bool)
    (h : heap) : Prop :=
  h !! dat = Some (Uint8ClampedArray d)
  ∧ ∃ r, h !! result = Some (Uint8ClampedArray r)
       ∧ length r = length d
       ∧ Forall byte r
       ∧ ∀ y x R G B A, (0 ≤ y < H)%Z → (0 ≤ x < W)%Z →
           pixel_at d
             (Z.to_nat (if written y x then y * W + (W - 1 - x) else y * W + x)%Z)
             R G B A →
           pixel_at r (Z.to_nat (y * W + x)) R G B A.

(** ** The mask and export functions *)

(** The alpha byte that [applyMaskToImage] stores for a pixel of alpha [A]:
    the smaller of [A] and the red byte of the mask at the same index, 0
    where the mask has no such byte. *)
Definition mask_alpha (invert : bool) (mask : option Z) (A : Z) : Z :=
  match mask with
  | Some m => Z.min A (if invert then 255 - m else m)
  | None => 0
  end.

Definition masked (invert : bool) (m d : list Z) (p : nat) (v0 v1 v2 v3 : Z) : Prop :=
  ∃ R G B A, pixel_at d p R G B A
    ∧ v0 = R ∧ v1 = G ∧ v2 = B ∧ v3 = mask_alpha invert (m !! (4 * p)%nat) A.

(** The byte that [sanitizeRgbaForExport] stores for the colour byte [c] of
    a pixel of alpha [A]. *)
Definition on_white (c A : Z) : Z :=
  if (num A <? 255)%float
  then ToUint8Clamp (Math_round (num c * (num A / 255) + 255 * (1 - num A / 255)))
  else c.

Definition sanitized (d : list Z) (p : nat) (v0 v1 v2 v3 : Z) : Prop :=
  ∃ R G B A, pixel_at d p R G B A
    ∧ v0 = on_white R A ∧ v1 = on_white G A ∧ v2 = on_white B A ∧ v3 = A.

(** ** Dilation and erosion *)

Section morphology.

Local Open Scope Z_scope.

Context (d : list Z) (W H : Z) (radius : Z).

Definition in_bounds (ny nx : Z) : bool :=
  (0 <=? nx) && (nx <? W) && (0 <=? ny) && (ny <? H).

(** [data[(ny * width + nx) * 4]]. *)
Definition red_at (ny nx : Z) : float :=
  arr_get (Uint8ClampedArray d) ((ny * W + nx) * 4).

(** The offsets [-radius .. radius]. *)
Definition window : list Z := seqZ (- radius) (radius + 1 - - radius).

(** Some pixel of the window around [(x, y)] is in the image and dark. *)
Definition has_black (y x : Z) : bool :=
  existsb (λ dy, existsb (λ dx,
             in_bounds (y + dy) (x + dx) && (red_at (y + dy) (x + dx) <? 128)%float)
             window) window.

(** Every pixel of the window around [(x, y)] is in the image and dark. *)
Definition all_black (y x : Z) : bool :=
  forallb (λ dy, forallb (λ dx,
             in_bounds (y + dy) (x + dx)
             && negb (128 <=? red_at (y + dy) (x + dx))%float)
             window) window.

Definition dilated (y x : Z) : Z := if has_black y x then 0 else 255.
Definition eroded (y x : Z) : Z := if all_black y x then 0 else 255.

(** The store while [result] is painted row by row on white: the pixels
    that [visited] accepts have the colour [value], the others are white. *)
Definition painted (value : Z → Z → Z) (data result : loc) (visited : Z → Z → bool)
    (h : heap) : Prop :=
  h !! data = Some (Uint8ClampedArray d)
  ∧ ∃ r, h !! result = Some (Uint8ClampedArray r)
       ∧ length r = length d
       ∧ ∀ y x, 0 ≤ y < H → 0 ≤ x < W →
           let v := if visited y x then value y x else 255 in
           pixel_at r (Z.to_nat (y * W + x)) v v v 255.

End morphology.

(** ** The hysteresis loop of [cannyEdgeDetection] *)

(** The number of weak pixels, those with the mark 1. *)
Definition weak (l : list Z) : nat := length (filter (λ z, z = 1%Z) l).

(** [edgesOutput] holds a mark for each of [n] pixels: 0 for none, 1 for a
    weak and 2 for a strong edge. *)
Definition marks (n : nat) (l : list Z) : Prop :=
  length l = n ∧ Forall (λ z, z = 0 ∨ z = 1 ∨ z = 2)%Z l.

(** The store during the hysteresis: at most [bound] weak pixels are left,
    fewer once a pass has [changed] a mark. *)
Definition hysteresis (edgesOutput : loc) (n bound : nat) (changed : bool) (h : heap)
    : Prop :=
  ∃ l, h !! edgesOutput = Some (Uint8Array l) ∧ marks n l
     ∧ (weak l ≤ bound)%nat ∧ (changed = true → (weak l < bound)%nat).

(** A buffer of [n] opaque pixels, each black or white. *)
Definition black_and_white (n : nat) (r : list Z) : Prop :=
  length r = (4 * n)%nat
  ∧ ∀ p : nat, (p < n)%nat → ∃ v, (v = 0 ∨ v = 255)%Z ∧ pixel_at r p v v v 255.

(** ** Dithering an image that is black and white already *)

(** Every pixel of [d] is opaque and black or white. *)
Definition two_tone (d : list Z) : Prop :=
  ∀ p R G B A, pixel_at d p R G B A →
    (R = 0 ∨ R = 255)%Z ∧ G = R ∧ B = R ∧ A = 255%Z.

(** The 8x8 threshold matrix of [bayerOrdered]. *)
Definition bayerMatrix8 : list (list float) :=
  [ [0; 128; 32; 160; 8; 136; 40; 168];
    [192; 64; 224; 96; 200; 72; 232; 104];
    [48; 176; 16; 144; 56; 184; 24; 152];
    [240; 112; 208; 80; 248; 120; 216; 88];
    [12; 140; 44; 172; 4; 132; 36; 164];
    [204; 76; 236; 108; 196; 68; 228; 100];
    [60; 188; 28; 156; 52; 180; 20; 148];
    [252; 124; 220; 92; 244; 116; 212; 84] ]%float.

(** The accumulator [errors] holds, for each of the [n] pixels, the colour
    of the pixel, 0 or 255. *)
Definition at_rest (d : list Z) (n : Z) (errors : list float) : Prop :=
  ∀ j, (0 ≤ j < n)%Z →
    ∃ R, (R = 0 ∨ R = 255)%Z
      ∧ d !! (4 * Z.to_nat j)%nat = Some R
      ∧ errors !! Z.to_nat j = Some (num R).

(** ** Sample inputs *)

Module Samples.

(** A 2x2 image: red, a brown, a transparent black, a half-transparent
    white. *)
Definition bytes_2x2 : list Z :=
  [255; 0; 0; 255;  200; 100; 50; 255;  0; 0; 0; 0;  255; 255; 255; 128]%Z.

Definition image_2x2 : ProcessingImageData := {| width := 2; height := 2; data := 0%nat |}.

Definition heap_2x2 : heap := {[0%nat := Uint8ClampedArray bytes_2x2]}.

(** A white 3x3 image with a black pixel in the middle. *)
Definition bytes_3x3 : list Z :=
  (replicate 16 255 ++ [0; 0; 0; 255] ++ replicate 16 255)%Z.

Definition image_3x3 : ProcessingImageData := {| width := 3; height := 3; data := 0%nat |}.

Definition heap_3x3 : heap := {[0%nat := Uint8ClampedArray bytes_3x3]}.

(** A white column of four pixels. *)
Definition bytes_1x4 : list Z := replicate 16 255%Z.

Definition image_1x4 : ProcessingImageData := {| width := 1; height := 4; data := 0%nat |}.

Definition heap_1x4 : heap := {[0%nat := Uint8ClampedArray bytes_1x4]}.

(** A 1x1 image and a 1x1 mask whose red channel is 128. *)
Definition bytes_1x1 : list Z := [10; 20; 30; 255]%Z.

Definition mask_1x1 : list Z := [128; 0; 0; 255]%Z.

Definition image_1x1 : ProcessingImageData := {| width := 1; height := 1; data := 0%nat |}.

Definition maskData_1x1 : ProcessingImageData := {| width := 1; height := 1; data := 1%nat |}.

Definition heap_1x1 : heap :=
  {[0%nat := Uint8ClampedArray bytes_1x1; 1%nat := Uint8ClampedArray mask_1x1]}.

(** A [Math.pow] that is exact at the exponent 1 (and left open elsewhere). *)
Definition pow_at_one (x y : float) : float := x.

(** A [Math.pow] for the exponent 2, the only one that [simplifyPath] asks
    for. *)
Definition pow_square (x y : float) : float := (x * x)%float.

(** Three points on a line. *)
Definition points_on_line : list Contour.Point.t :=
  [ {| Contour.Point.x := 0; Contour.Point.y := 0 |};
    {| Contour.Point.x := 1; Contour.Point.y := 0 |};
    {| Contour.Point.x := 2; Contour.Point.y := 0 |} ].

(** A path with a corner. *)
Definition points_corner : list Contour.Point.t :=
  [ {| Contour.Point.x := 0; Contour.Point.y := 0 |};
    {| Contour.Point.x := 1; Contour.Point.y := 0 |};
    {| Contour.Point.x := 2; Contour.Point.y := 0 |};
    {| Contour.Point.x := 2; Contour.Point.y := 3 |} ].

End Samples.
(** * Proofs *)

(** ** The conversions of Numbers on sample values *)

Example num_roundtrip : to_int (num 1234567) = Some 1234567%Z /\ to_int (num (-3)) = Some (-3)%Z.
Proof. split; vm_compute; reflexivity. Qed.

Example round_samples :
  List.map (fun x => to_int (Math_round x)) [2.5; -2.5; 0.49999999999999994; -0.5; 3.5; 1e300]%float
  = [Some 3; Some (-2); Some 0; Some 0; Some 4; to_int 1e300]%Z.
Proof. vm_compute. reflexivity. Qed.

Example floor_samples :
  List.map (fun x => to_int (Math_floor x)) [2.5; -2.5; 0.5; -0.5; 1.25]%float
  = [Some 2; Some (-3); Some 0; Some (-1); Some 1]%Z.
Proof. vm_compute. reflexivity. Qed.

Example clamp_samples :
  List.map ToUint8Clamp [0.5; 1.5; 2.5; 254.5; 254.50000000000003; -3; 300; 127.49; nan; 76.24499999999999]%float
  = [0; 2; 2; 254; 255; 0; 255; 127; 0; 76]%Z.
Proof. vm_compute. reflexivity. Qed.

Example uint8_samples :
  List.map ToUint8 [0.5; 1.9; 255.99; 256; 257.5; -1; -1.5; nan; infinity]%float
  = [0; 1; 255; 0; 1; 255; 255; 0; 0]%Z.
Proof. vm_compute. reflexivity. Qed.

Example fround_samples :
  List.map fround [76.24499999999999; 0.1; 255; 1e40; 1e-50]%float
  = [0x1.30fae2p+6; 0x1.99999ap-4; 255; infinity; 0]%float.
Proof. vm_compute. reflexivity. Qed.

(** ** Reasoning about store-passing computations *)

Section logic.

Local Open Scope Z_scope.


Lemma wp_ret {A} (a : A) Q h : Q a h → wp (mret a) Q h.
Proof. done. Qed.

Lemma wp_bind {A B} (m : M A) (k : A → M B) Q h :
  wp m (λ a h', wp (k a) Q h') h → wp (m ≫= k) Q h.
Proof. unfold wp, mbind, M_bind. by destruct (m h). Qed.

Lemma wp_mono {A} (m : M A) (Q Q' : A → heap → Prop) h :
  wp m Q h → (∀ a h', Q a h' → Q' a h') → wp m Q' h.
Proof. unfold wp. auto. Qed.

Lemma wp_get l i Q h :
  Q (from_option (λ a, arr_get a i) undefined (h !! l)) h → wp (get l i) Q h.
Proof. done. Qed.

Lemma wp_set l i v a Q h :
  h !! l = Some a → Q () (<[l := arr_set a i v]> h) → wp (set l i v) Q h.
Proof. unfold wp, set. by intros ->. Qed.

Lemma wp_fill l v a Q h :
  h !! l = Some a → Q () (<[l := arr_fill a v]> h) → wp (fill l v) Q h.
Proof. unfold wp, fill. by intros ->. Qed.

Lemma wp_length_of l Q h :
  Q (from_option arr_length 0 (h !! l)) h → wp (length_of l) Q h.
Proof. done. Qed.

Lemma wp_alloc a Q h :
  (∀ l, h !! l = None → Q l (<[l := a]> h)) → wp (alloc a) Q h.
Proof.
  intros HQ. unfold wp, alloc. simpl. apply HQ.
  apply not_elem_of_dom, is_fresh.
Qed.

Lemma wp_when (b : bool) m Q h :
  (b = true → wp m Q h) → (b = false → Q () h) → wp (when b m) Q h.
Proof. destruct b; simpl; intros H1 H2; [by apply H1|by apply wp_ret, H2]. Qed.

Lemma wp_forM (I : list Z → heap → Prop) l body Q h :
  I l h →
  (∀ i l' h', I (i :: l') h' → wp (body i) (λ _, I l') h') →
  (∀ h', I [] h' → Q () h') →
  wp (forM_ l body) Q h.
Proof.
  intros HI Hstep HQ. revert h HI.
  induction l as [|i l IH]; intros h HI; simpl.
  - by apply wp_ret, HQ.
  - apply wp_bind. eapply wp_mono; [by apply Hstep|].
    intros [] h' HI'. by apply IH.
Qed.

Lemma seqZ_cons' lo n : 0 < n → seqZ lo n = lo :: seqZ (lo + 1) (n - 1).
Proof.
  intros. rewrite seqZ_cons by done. reflexivity.
Qed.

(** The loop rule: [I i] holds before the iteration at index [i]. *)
Lemma wp_for (I : Z → heap → Prop) lo hi body Q h :
  I lo h →
  (∀ i h', lo ≤ i < hi → I i h' → wp (body i) (λ _, I (i + 1)) h') →
  (∀ h', I (Z.max lo hi) h' → Q () h') →
  wp (for_ lo hi body) Q h.
Proof.
  intros HI Hstep HQ. unfold for_.
  apply (wp_forM (λ l h', ∃ i, lo ≤ i ∧ i ≤ Z.max lo hi ∧ l = seqZ i (hi - i) ∧ I i h')).
  - exists lo. repeat split; [lia..|done].
  - intros i l' h' (j & Hlo & Hhi & Heq & Hj).
    destruct (decide (j < hi)) as [Hlt|Hge].
    + rewrite seqZ_cons' in Heq by lia. injection Heq as <- ->.
      eapply wp_mono; [apply Hstep; [lia|done]|].
      intros [] h'' HI'. exists (i + 1). repeat split; [lia..| |done].
      f_equal; lia.
    + rewrite seqZ_nil in Heq by lia. done.
  - intros h' (j & Hlo & Hhi & Heq & Hj).
    apply HQ. destruct (decide (j < hi)) as [Hlt|Hge].
    + rewrite seqZ_cons' in Heq by lia. done.
    + by replace (Z.max lo hi) with j by lia.
Qed.


Lemma modifies_only_ret {A} e (a : A) : modifies_only e (mret a).
Proof. done. Qed.

Lemma modifies_only_bind {A B} e (m : M A) (k : A → M B) :
  modifies_only e m → (∀ a, modifies_only e (k a)) → modifies_only e (m ≫= k).
Proof.
  intros Hm Hk h l Hl. unfold mbind, M_bind.
  specialize (Hm h l Hl). destruct (m h) as [a h']. simpl in *.
  by rewrite Hk.
Qed.

Lemma modifies_only_get e l i : modifies_only e (get l i).
Proof. done. Qed.

Lemma modifies_only_set e i v : modifies_only e (set e i v).
Proof.
  intros h l Hl. unfold set. simpl.
  destruct (h !! e); [by rewrite lookup_insert_ne|done].
Qed.

Lemma modifies_only_when e (b : bool) m :
  modifies_only e m → modifies_only e (when b m).
Proof. by destruct b. Qed.

Lemma modifies_only_forM e l body :
  (∀ i, modifies_only e (body i)) → modifies_only e (forM_ l body).
Proof.
  intros Hb. induction l; simpl; [done|].
  by apply modifies_only_bind.
Qed.

Lemma modifies_only_for e lo hi body :
  (∀ i, modifies_only e (body i)) → modifies_only e (for_ lo hi body).
Proof. apply modifies_only_forM. Qed.

Lemma wp_modifies_only {A} e (m : M A) (Q : A → heap → Prop) h :
  modifies_only e m →
  (∀ a h', (∀ l, l ≠ e → h' !! l = h !! l) → Q a h') →
  wp m Q h.
Proof. intros Hm HQ. apply HQ. intros l Hl. by apply Hm. Qed.

End logic.

Ltac solve_modifies :=
  repeat first
    [ apply modifies_only_ret
    | apply modifies_only_get
    | apply modifies_only_set
    | apply modifies_only_when
    | apply modifies_only_for; intros ?
    | apply modifies_only_bind; [|intros ?]
    | match goal with |- modifies_only _ (if ?b then _ else _) => destruct b end
    | progress cbv zeta ].

(** ** Pixel buffers as lists of bytes *)

Section pixels.

Local Open Scope Z_scope.



Lemma forallb_bytes (P : Z → bool) :
  forallb P (seqZ 0 256) = true → ∀ z, byte z → P z = true.
Proof.
  intros HP z Hz. rewrite forallb_forall in HP. apply HP.
  apply list_elem_of_In, elem_of_seqZ. unfold byte in Hz. lia.
Qed.

Lemma ToUint8Clamp_num z : byte z → ToUint8Clamp (num z) = z.
Proof.
  intros Hz. apply Z.eqb_eq.
  revert z Hz. apply forallb_bytes. vm_compute. reflexivity.
Qed.

Lemma copy_bytes d : Forall byte d → ToUint8Clamp <$> (num <$> d) = d.
Proof.
  induction 1 as [|z d Hz _ IH]; [done|].
  rewrite !fmap_cons. by rewrite ToUint8Clamp_num, IH.
Qed.

Lemma arr_set_clamped r i v :
  0 ≤ i →
  arr_set (Uint8ClampedArray r) i v
  = Uint8ClampedArray (<[Z.to_nat i := ToUint8Clamp v]> r).
Proof. intros Hi. unfold arr_set. by rewrite (proj2 (Z.ltb_ge i 0)). Qed.

Lemma arr_get_clamped r i :
  0 ≤ i →
  arr_get (Uint8ClampedArray r) i = from_option num undefined (r !! Z.to_nat i).
Proof. intros Hi. unfold arr_get. by rewrite (proj2 (Z.ltb_ge i 0)). Qed.



Lemma length_put_pixel r p v d : length (put_pixel r p v d) = length r.
Proof. unfold put_pixel. by rewrite !length_insert. Qed.

Lemma put_pixel_here r p v d :
  length r = length d → (4 * p + 3 < length r)%nat →
  pixel_is d (put_pixel r p v d) p v.
Proof.
  intros Hlen Hp. unfold put_pixel, pixel_is.
  repeat split.
  - rewrite !list_lookup_insert_ne by lia. apply list_lookup_insert_eq. lia.
  - rewrite !list_lookup_insert_ne by lia. apply list_lookup_insert_eq.
    rewrite !length_insert. lia.
  - rewrite !list_lookup_insert_ne by lia. apply list_lookup_insert_eq.
    rewrite !length_insert. lia.
  - rewrite list_lookup_insert_eq by (rewrite !length_insert; lia).
    destruct (lookup_lt_is_Some_2 d (4 * p + 3)%nat) as [a Ha]; [lia|].
    by rewrite Ha.
Qed.

Lemma put_pixel_other r p q v u d :
  p ≠ q → pixel_is d r q u → pixel_is d (put_pixel r p v d) q u.
Proof.
  intros Hpq (H0 & H1 & H2 & H3). unfold put_pixel, pixel_is.
  by rewrite !list_lookup_insert_ne by lia.
Qed.

End pixels.

(** ** The scan shared by the nine dithering algorithms *)

Section dither_scan.

Local Open Scope Z_scope.

Context (data result : loc) (d : list Z) (W H : Z) (R : Z → Z → Z → Prop).

Local Abbreviation scanned := (scanned data result d W H R).
Local Abbreviation quantizes := (quantizes data result d W H R).

Lemma dither_scan body Q h :
  0 ≤ W → 0 ≤ H → Z.of_nat (length d) = 4 * (W * H) →
  quantizes body → scanned 0 h →
  (∀ h', scanned (W * H) h' → Q () h') →
  wp (for_ 0 H (λ y, for_ 0 W (λ x, body y x))) Q h.
Proof.
  intros HW HH Hlen Hbody H0 HQ.
  apply (wp_for (λ y, scanned (y * W))); [done| |].
  - intros y h1 Hy Hh1.
    apply (wp_for (λ x, scanned (y * W + x))).
    + by rewrite Z.add_0_r.
    + intros x h2 Hx (Hd & r & Hr & Hlr & Hpix).
      eapply wp_mono; [by apply Hbody|].
      intros [] h3 (Hd3 & v & Hv & Hr3). split; [done|].
      eexists. split; [done|]. split; [by rewrite length_put_pixel|].
      intros y' x' Hy' Hx' Hlt.
      destruct (decide (y' * W + x' = y * W + x)) as [Heq|Hne].
      * assert (y' = y) as ->.
        { destruct (Z.lt_trichotomy y' y) as [Hlt'|[?|Hgt']]; [|done|]; exfalso; nia. }
        assert (x' = x) as -> by lia.
        exists v. split; [done|]. apply put_pixel_here; [done|]. nia.
      * destruct (Hpix y' x' Hy' Hx') as (u & Hu & Hpu); [lia|].
        exists u. split; [done|]. apply put_pixel_other; [|done]. nia.
    + intros h2 Hh2. replace ((y + 1) * W) with (y * W + Z.max 0 W) by lia. done.
  - intros h1 Hh1. apply HQ.
    replace (W * H) with (Z.max 0 H * W) by lia. done.
Qed.

End dither_scan.

Ltac wp_step :=
  lazymatch goal with
  | |- wp (_ ≫= _) _ _ => apply wp_bind
  | |- wp (mret _) _ _ => apply wp_ret
  | |- wp (get _ _) _ _ => apply wp_get
  | |- wp (length_of _) _ _ => apply wp_length_of
  | |- wp (set _ _ _) _ _ =>
      eapply wp_set; [first [eassumption | apply lookup_insert_eq]|]
  end.

(** ** Every dithering algorithm yields a black-and-white buffer *)

Section dithering_binary.

Local Open Scope Z_scope.
Import Dithering.


Lemma read_only_getGray data idx : read_only (getGray data idx).
Proof.
  intros h. unfold getGray, mbind, M_bind, get. simpl.
  repeat match goal with |- context [if ?b then _ else _] => destruct b end; done.
Qed.

Lemma wp_read_only {A} (m : M A) (Q : A → heap → Prop) h :
  read_only m → (∀ a, Q a h) → wp m Q h.
Proof. intros Hm HQ. unfold wp. rewrite Hm. apply HQ. Qed.

Lemma modifies_only_read_only {A} e (m : M A) : read_only m → modifies_only e m.
Proof. intros Hm h l _. by rewrite Hm. Qed.

Lemma wp_new_Uint8ClampedArray_from src a Q h :
  h !! src = Some a →
  (∀ l, h !! l = None →
     Q l (<[l := Uint8ClampedArray (ToUint8Clamp <$> arr_values a)]> h)) →
  wp (new_Uint8ClampedArray_from src) Q h.
Proof.
  intros Hsrc HQ. unfold new_Uint8ClampedArray_from, wp. rewrite Hsrc. simpl.
  by apply wp_alloc.
Qed.


Lemma black_or_white_clamp v :
  black_or_white v → ToUint8Clamp v = 0 ∨ ToUint8Clamp v = 255.
Proof. intros [-> | ->]; [left|right]; vm_compute; reflexivity. Qed.

Lemma stored_pixel d r (p : nat) i v :
  Forall byte d → (4 * p + 3 < length d)%nat →
  0 ≤ i → Z.to_nat i = (4 * p)%nat →
  arr_set (arr_set (arr_set (arr_set (Uint8ClampedArray r) i v) (i + 1) v) (i + 2) v)
    (i + 3) (arr_get (Uint8ClampedArray d) (i + 3))
  = Uint8ClampedArray (put_pixel r p (ToUint8Clamp v) d).
Proof.
  intros Hbytes Hp Hi Hip.
  rewrite !arr_set_clamped, arr_get_clamped by lia.
  replace (Z.to_nat (i + 1)) with (4 * p + 1)%nat by lia.
  replace (Z.to_nat (i + 2)) with (4 * p + 2)%nat by lia.
  replace (Z.to_nat (i + 3)) with (4 * p + 3)%nat by lia.
  rewrite Hip. unfold put_pixel.
  destruct (lookup_lt_is_Some_2 d (4 * p + 3)%nat) as [a Ha]; [lia|].
  rewrite Ha. simpl. rewrite ToUint8Clamp_num; [done|].
  eapply Forall_lookup_1; [exact Hbytes|exact Ha].
Qed.

(** The four stores every algorithm makes at a pixel: [setPixel] and the
    copy of the alpha byte, followed by the diffusion of the error [k]. *)
Lemma wp_store_pixel data result d r (p : nat) i v (k : M unit) Q h :
  data ≠ result →
  h !! data = Some (Uint8ClampedArray d) →
  h !! result = Some (Uint8ClampedArray r) →
  Forall byte d → (4 * p + 3 < length d)%nat →
  0 ≤ i → Z.to_nat i = (4 * p)%nat →
  wp k Q (<[result := Uint8ClampedArray (put_pixel r p (ToUint8Clamp v) d)]> h) →
  wp (setPixel result i v ;; a ← get data (i + 3); set result (i + 3) a ;; k) Q h.
Proof.
  intros Hne Hd Hr Hbytes Hp Hi Hip Hk.
  unfold setPixel.
  do 8 wp_step. rewrite !lookup_insert_ne, Hd by done. simpl.
  do 2 wp_step.
  rewrite !insert_insert_eq. by rewrite (stored_pixel d r p).
Qed.

Lemma wp_store_pixel_last data result d r (p : nat) i v Q h :
  data ≠ result →
  h !! data = Some (Uint8ClampedArray d) →
  h !! result = Some (Uint8ClampedArray r) →
  Forall byte d → (4 * p + 3 < length d)%nat →
  0 ≤ i → Z.to_nat i = (4 * p)%nat →
  Q () (<[result := Uint8ClampedArray (put_pixel r p (ToUint8Clamp v) d)]> h) →
  wp (setPixel result i v ;; a ← get data (i + 3); set result (i + 3) a) Q h.
Proof.
  intros Hne Hd Hr Hbytes Hp Hi Hip Hk.
  unfold setPixel.
  do 8 wp_step. rewrite !lookup_insert_ne, Hd by done. simpl.
  wp_step.
  rewrite !insert_insert_eq. by rewrite (stored_pixel d r p).
Qed.


Lemma pixel_position (w hh p : nat) :
  (p < w * hh)%nat →
  let y := Z.of_nat p `div` Z.of_nat w in
  let x := Z.of_nat p `mod` Z.of_nat w in
  0 ≤ y < Z.of_nat hh ∧ 0 ≤ x < Z.of_nat w ∧ y * Z.of_nat w + x = Z.of_nat p.
Proof.
  intros Hp y x. assert (0 < Z.of_nat w) as Hw by nia.
  pose proof (Z.div_mod (Z.of_nat p) (Z.of_nat w)) as Hdm.
  pose proof (Z.mod_pos_bound (Z.of_nat p) (Z.of_nat w) Hw) as Hmod.
  fold x in Hmod, Hdm. fold y in Hdm.
  assert (0 ≤ y) by (apply Z.div_pos; lia).
  repeat split; [done| |lia..]. nia.
Qed.

Lemma scanned_dithered w hh dat result d h :
  scanned dat result d (Z.of_nat w) (Z.of_nat hh) black_or_white_byte
    (Z.of_nat w * Z.of_nat hh) h →
  dithered {| width := w; height := hh; data := dat |} d
    {| width := w; height := hh; data := result |} h.
Proof.
  intros (Hd & r & Hr & Hlr & Hpix). repeat split.
  exists r. repeat split; [done..|].
  intros p Hp. cbn [width height] in Hp.
  destruct (pixel_position w hh p Hp) as (Hy & Hx & Heq).
  destruct (Hpix _ _ Hy Hx) as (v & Hv & Hpv); [nia|].
  exists v. split; [done|]. by rewrite Heq, Nat2Z.id in Hpv.
Qed.

Lemma pixel_index (w hh : nat) (d : list Z) x y :
  length d = (4 * (w * hh))%nat → 0 ≤ y < Z.of_nat hh → 0 ≤ x < Z.of_nat w →
  0 ≤ y * Z.of_nat w + x
  ∧ (4 * Z.to_nat (y * Z.of_nat w + x) + 3 < length d)%nat.
Proof.
  intros Hlen Hy Hx.
  assert (0 ≤ y * Z.of_nat w + x < Z.of_nat w * Z.of_nat hh) as Hidx by nia.
  revert Hidx. generalize (y * Z.of_nat w + x). intros idx Hidx.
  clear -Hlen Hidx. lia.
Qed.

End dithering_binary.

(** The seven error-diffusion algorithms share their proof: the copy of
    the input, the seeding of the accumulator, the scan. *)
Ltac error_diffusion_binary w hh dat d Hd Hlen Hbytes :=
  let result := fresh "result" in
  let errors := fresh "errors" in
  let Hres := fresh "Hres" in
  let Herr := fresh "Herr" in
  let h1 := fresh "h" in
  let Hh1 := fresh "Hh" in
  apply wp_bind; eapply wp_new_Uint8ClampedArray_from; [exact Hd|];
  intros result Hres; simpl arr_values; rewrite copy_bytes by done;
  apply wp_bind, wp_alloc; intros errors Herr;
  assert (dat ≠ result) by congruence;
  assert (errors ≠ result) by (intros ->; by rewrite lookup_insert_eq in Herr);
  assert (errors ≠ dat) by (intros ->; by rewrite lookup_insert_ne, Hd in Herr);
  apply wp_bind;
  apply (wp_modifies_only errors);
    [apply modifies_only_for; intros ?; apply modifies_only_bind;
       [apply modifies_only_read_only, read_only_getGray
       |intros ?; apply modifies_only_set]|];
  intros [] h1 Hh1; cbv zeta;
  apply wp_bind;
  apply (dither_scan dat result d (Z.of_nat w) (Z.of_nat hh) black_or_white_byte);
    [lia|lia|lia| | |];
  [ let y := fresh "y" in
    let x := fresh "x" in
    let h2 := fresh "h" in
    let r := fresh "r" in
    let Hy := fresh "Hy" in
    let Hx := fresh "Hx" in
    let Hd2 := fresh "Hd" in
    let Hr2 := fresh "Hr" in
    let Hidx := fresh "Hidx" in
    let Hidx' := fresh "Hidx" in
    let h3 := fresh "h" in
    let Hh3 := fresh "Hh" in
    intros y x h2 r Hy Hx Hd2 Hr2;
    destruct (pixel_index w hh d x y Hlen Hy Hx) as [Hidx Hidx'];
    do 2 wp_step;
    eapply (wp_store_pixel dat result d r (Z.to_nat (y * Z.of_nat w + x)));
      [done..|lia|lia|];
    apply (wp_modifies_only errors); [solve_modifies|];
    intros [] h3 Hh3; rewrite !Hh3 by done;
    rewrite lookup_insert_ne, lookup_insert_eq by done; split; [done|];
    eexists; split; [|done];
    apply black_or_white_clamp; unfold black_or_white;
    match goal with |- context [if ?b then _ else _] => destruct b end; auto
  | split;
    [ rewrite Hh1, !lookup_insert_ne by done; done
    | exists d; rewrite Hh1, lookup_insert_ne, lookup_insert_eq by done;
      repeat split; intros; lia ]
  | intros; apply wp_ret; by apply scanned_dithered ].

Section dithering_algorithms.

Import Dithering.

Lemma floydSteinberg_binary imageData h d :
  well_formed imageData h d → wp (floydSteinberg imageData) (dithered imageData d) h.
Proof.
  intros (Hd & Hlen & Hbytes). destruct imageData as [w hh dat].
  cbn [width height data] in *. unfold floydSteinberg.
  error_diffusion_binary w hh dat d Hd Hlen Hbytes.
Qed.

Lemma jarvisJudiceNinke_binary imageData h d :
  well_formed imageData h d → wp (jarvisJudiceNinke imageData) (dithered imageData d) h.
Proof.
  intros (Hd & Hlen & Hbytes). destruct imageData as [w hh dat].
  cbn [width height data] in *. unfold jarvisJudiceNinke.
  error_diffusion_binary w hh dat d Hd Hlen Hbytes.
Qed.

Lemma stucki_binary imageData h d :
  well_formed imageData h d → wp (stucki imageData) (dithered imageData d) h.
Proof.
  intros (Hd & Hlen & Hbytes). destruct imageData as [w hh dat].
  cbn [width height data] in *. unfold stucki.
  error_diffusion_binary w hh dat d Hd Hlen Hbytes.
Qed.

Lemma atkinson_binary imageData h d :
  well_formed imageData h d → wp (atkinson imageData) (dithered imageData d) h.
Proof.
  intros (Hd & Hlen & Hbytes). destruct imageData as [w hh dat].
  cbn [width height data] in *. unfold atkinson.
  error_diffusion_binary w hh dat d Hd Hlen Hbytes.
Qed.

Lemma sierra_binary imageData h d :
  well_formed imageData h d → wp (sierra imageData) (dithered imageData d) h.
Proof.
  intros (Hd & Hlen & Hbytes). destruct imageData as [w hh dat].
  cbn [width height data] in *. unfold sierra.
  error_diffusion_binary w hh dat d Hd Hlen Hbytes.
Qed.

Lemma sierraTwoRow_binary imageData h d :
  well_formed imageData h d → wp (sierraTwoRow imageData) (dithered imageData d) h.
Proof.
  intros (Hd & Hlen & Hbytes). destruct imageData as [w hh dat].
  cbn [width height data] in *. unfold sierraTwoRow.
  error_diffusion_binary w hh dat d Hd Hlen Hbytes.
Qed.

Lemma burkes_binary imageData h d :
  well_formed imageData h d → wp (burkes imageData) (dithered imageData d) h.
Proof.
  intros (Hd & Hlen & Hbytes). destruct imageData as [w hh dat].
  cbn [width height data] in *. unfold burkes.
  error_diffusion_binary w hh dat d Hd Hlen Hbytes.
Qed.

Lemma ordered_binary (w hh : nat) dat d h (bayerMatrix : list (list float)) size :
  well_formed {| width := w; height := hh; data := dat |} h d →
  wp (result ← new_Uint8ClampedArray_from dat;
      for_ 0 (Z.of_nat hh) (λ y,
        for_ 0 (Z.of_nat w) (λ x,
          let idx := ((y * Z.of_nat w + x) * 4)%Z in
          gray ← getGray dat idx;
          let threshold := table_at bayerMatrix (Z.rem y size) (Z.rem x size) in
          let newPixel := if (threshold <? gray)%float then 255%float else 0%float in
          setPixel result idx newPixel;;
          a ← get dat (idx + 3);
          set result (idx + 3) a));;
      mret {| width := w; height := hh; data := result |})
     (dithered {| width := w; height := hh; data := dat |} d) h.
Proof.
  intros (Hd & Hlen & Hbytes). cbn [width height data] in *.
  apply wp_bind. eapply wp_new_Uint8ClampedArray_from; [exact Hd|].
  intros result Hres. simpl arr_values. rewrite copy_bytes by done.
  assert (dat ≠ result) by congruence.
  apply wp_bind.
  apply (dither_scan dat result d (Z.of_nat w) (Z.of_nat hh) black_or_white_byte);
    [lia|lia|lia| | |].
  - intros y x h2 r Hy Hx Hd2 Hr2.
    destruct (pixel_index w hh d x y Hlen Hy Hx) as [Hidx Hidx'].
    cbv zeta. apply wp_bind, wp_read_only; [apply read_only_getGray|].
    intros gray.
    eapply (wp_store_pixel_last dat result d r (Z.to_nat (y * Z.of_nat w + x)));
      [done..|lia|lia|].
    rewrite lookup_insert_ne, lookup_insert_eq by done. split; [done|].
    eexists. split; [|done].
    apply black_or_white_clamp. unfold black_or_white.
    match goal with |- context [if ?b then _ else _] => destruct b end; auto.
  - split; [by rewrite lookup_insert_ne|].
    exists d. rewrite lookup_insert_eq. repeat split. intros; lia.
  - intros. apply wp_ret. by apply scanned_dithered.
Qed.

Lemma bayerOrdered_binary imageData h d :
  well_formed imageData h d → wp (bayerOrdered imageData) (dithered imageData d) h.
Proof. destruct imageData as [w hh dat]. apply ordered_binary. Qed.

Lemma bayerOrdered4x4_binary imageData h d :
  well_formed imageData h d → wp (bayerOrdered4x4 imageData) (dithered imageData d) h.
Proof. destruct imageData as [w hh dat]. apply ordered_binary. Qed.

(** C2: for each of the nine dithering algorithms and every well-formed
    input buffer, every output pixel has R = G = B, each 0 or 255, and the
    alpha byte of the input pixel; the output has the input's size. *)
Theorem dithering_is_binary (a : DitheringAlgorithm) imageData h d :
  well_formed imageData h d →
  let out := (ditheringAlgorithms a imageData h).1 in
  let h' := (ditheringAlgorithms a imageData h).2 in
  out.(width) = imageData.(width) ∧ out.(height) = imageData.(height)
  ∧ ∃ r, h' !! out.(data) = Some (Uint8ClampedArray r)
      ∧ length r = length d
      ∧ ∀ p : nat, (p < imageData.(width) * imageData.(height))%nat →
          ∃ v, (v = 0 ∨ v = 255)%Z
            ∧ r !! (4 * p)%nat = Some v
            ∧ r !! (4 * p + 1)%nat = Some v
            ∧ r !! (4 * p + 2)%nat = Some v
            ∧ r !! (4 * p + 3)%nat = d !! (4 * p + 3)%nat.
Proof.
  intros Hwf.
  change (wp (ditheringAlgorithms a imageData) (dithered imageData d) h).
  destruct a; simpl.
  - by apply floydSteinberg_binary.
  - by apply jarvisJudiceNinke_binary.
  - by apply stucki_binary.
  - by apply atkinson_binary.
  - by apply sierra_binary.
  - by apply sierraTwoRow_binary.
  - by apply burkes_binary.
  - by apply bayerOrdered_binary.
  - by apply bayerOrdered4x4_binary.
Qed.

End dithering_algorithms.

(** ** The order of Numbers, and sums that are not NaN *)

Section floats.

Local Open Scope Z_scope.

Lemma SFcompare_antisym x y c :
  SFcompare x y = Some c → SFcompare y x = Some (CompOpp c).
Proof.
  destruct x as [sx|sx| |sx mx ex], y as [sy|sy| |sy my ey]; simpl;
    try discriminate;
    try (destruct sx; intros [= <-]; reflexivity);
    try (destruct sy; intros [= <-]; reflexivity);
    try (intros [= <-]; reflexivity).
  - destruct sx, sy; intros [= <-]; reflexivity.
  - destruct sx, sy; intros [= <-]; try reflexivity.
    + rewrite (Z.compare_antisym ey ex).
      destruct (ey ?= ex); simpl; try reflexivity.
      pose proof (Pos.compare_cont_antisym mx my Eq) as Ha. simpl in Ha.
      rewrite <- Ha. by destruct (Pos.compare_cont Eq mx my).
    + rewrite (Z.compare_antisym ey ex).
      destruct (ey ?= ex); simpl; try reflexivity.
      pose proof (Pos.compare_cont_antisym mx my Eq) as Ha. simpl in Ha.
      rewrite <- Ha. by destruct (Pos.compare_cont Eq mx my).
Qed.

Lemma SFcompare_defined x y :
  x ≠ S754_nan → y ≠ S754_nan → is_Some (SFcompare x y).
Proof.
  destruct x as [sx|sx| |sx mx ex], y as [sy|sy| |sy my ey]; simpl;
    intros Hx Hy; try done; by eexists.
Qed.

Lemma ltb_not_nan x y : (x <? y)%float = true → not_nan x ∧ not_nan y.
Proof.
  rewrite ltb_spec. unfold SFltb, not_nan.
  destruct (Prim2SF x), (Prim2SF y); simpl; try discriminate; done.
Qed.

Lemma leb_not_nan x y : (x <=? y)%float = true → not_nan x ∧ not_nan y.
Proof.
  rewrite leb_spec. unfold SFleb, not_nan.
  destruct (Prim2SF x), (Prim2SF y); simpl; try discriminate; done.
Qed.

(** Among numbers, [not (x < y)] is [y <= x]. *)
Lemma ltb_false_leb x y :
  not_nan x → not_nan y → (x <? y)%float = false → (y <=? x)%float = true.
Proof.
  rewrite ltb_spec, leb_spec. unfold SFltb, SFleb, not_nan. intros Hx Hy.
  destruct (SFcompare_defined _ _ Hx Hy) as [c Hc].
  rewrite Hc, (SFcompare_antisym _ _ _ Hc). by destruct c.
Qed.

Lemma leb_true_ltb x y : (y <=? x)%float = true → (x <? y)%float = false.
Proof.
  rewrite ltb_spec, leb_spec. unfold SFltb, SFleb.
  destruct (SFcompare (Prim2SF y) (Prim2SF x)) as [c|] eqn:Hc; [|discriminate].
  rewrite (SFcompare_antisym _ _ _ Hc). by destruct c.
Qed.

Lemma shr_1_nonneg mrs : 0 ≤ shr_m mrs → 0 ≤ shr_m (shr_1 mrs).
Proof.
  destruct mrs as [m r s]. simpl. destruct m as [|p|p]; simpl; [done| |lia].
  destruct p; simpl; lia.
Qed.

Lemma iter_pos_shr_1_nonneg p mrs :
  0 ≤ shr_m mrs → 0 ≤ shr_m (SpecFloat.iter_pos shr_1 p mrs).
Proof.
  revert mrs. induction p as [p IH|p IH|]; intros mrs Hm; simpl.
  - apply IH, IH. by apply shr_1_nonneg.
  - by apply IH, IH.
  - by apply shr_1_nonneg.
Qed.

Lemma shr_fexp_nonneg prec emax m e l :
  0 ≤ m → 0 ≤ shr_m (shr_fexp prec emax m e l).1.
Proof.
  intros Hm. unfold shr_fexp, shr.
  assert (0 ≤ shr_m (shr_record_of_loc m l)) as Hrec.
  { unfold shr_record_of_loc. destruct l as [|[]]; done. }
  destruct (fexp prec emax (Zdigits2 m + e) - e); simpl; [done| |done].
  by apply iter_pos_shr_1_nonneg.
Qed.

Lemma binary_round_aux_nonneg prec emax m e l :
  0 ≤ m → SFnonneg (binary_round_aux prec emax false m e l) = true.
Proof.
  intros Hm. unfold binary_round_aux.
  pose proof (shr_fexp_nonneg prec emax m e l Hm) as H1.
  destruct (shr_fexp prec emax m e l) as [mrs' e']. simpl in H1.
  assert (0 ≤ round_nearest_even (shr_m mrs') (loc_of_shr_record mrs')) as Hround.
  { unfold round_nearest_even.
    destruct (loc_of_shr_record mrs') as [|[]]; try lia.
    destruct (Z.even (shr_m mrs')); lia. }
  pose proof (shr_fexp_nonneg prec emax _ e' loc_Exact Hround) as H2.
  destruct (shr_fexp prec emax _ e' loc_Exact) as [mrs'' e'']. simpl in H2.
  destruct (shr_m mrs'') as [|p|p]; [done| |lia].
  by destruct (e'' <=? emax - prec).
Qed.

Lemma SFadd_nonneg prec emax x y :
  SFnonneg x = true → SFnonneg y = true → SFnonneg (SFadd prec emax x y) = true.
Proof.
  destruct x as [sx|[]| |[] mx ex], y as [sy|[]| |[] my ey]; simpl; try done.
  - by destruct sx, sy.
  - intros _ _. unfold binary_round.
    destruct (shl_align _ _ _) as [mz ez]. by apply binary_round_aux_nonneg.
Qed.

Lemma add_nonneg x y : nonneg x = true → nonneg y = true → nonneg (x + y) = true.
Proof. unfold nonneg. rewrite add_spec. apply SFadd_nonneg. Qed.

Lemma nonneg_not_nan x : nonneg x = true → not_nan x.
Proof. unfold nonneg, not_nan. by destruct (Prim2SF x). Qed.

End floats.

(** ** Inputs are left alone, outputs are fresh *)

Section framing.

Local Open Scope Z_scope.

Lemma framed_ret {A} h0 D (a : A) (Ψ : A → gset loc → Prop) :
  (∀ X, D ⊆ X → Ψ a X) → framed h0 D (mret a) Ψ.
Proof. intros HΨ h Hh HD. repeat split; [done..|]. by apply HΨ. Qed.

Lemma framed_bind {A B} h0 D (m : M A) (k : A → M B) Ψ1 Ψ :
  framed h0 D m Ψ1 →
  (∀ a X, Ψ1 a X → D ⊆ X → framed h0 X (k a) Ψ) →
  framed h0 D (m ≫= k) Ψ.
Proof.
  intros Hm Hk h Hh HD. unfold mbind, M_bind.
  destruct (Hm h Hh HD) as (H1 & H2 & H3).
  destruct (m h) as [a h1]. simpl in *.
  destruct (Hk a (dom h1) H3 (transitivity HD H2) h1 H1) as (H4 & H5 & H6); [done|].
  repeat split; [done| |done]. by transitivity (dom h1).
Qed.

Lemma framed_mono {A} h0 D (m : M A) (Ψ Ψ' : A → gset loc → Prop) :
  framed h0 D m Ψ → (∀ a X, Ψ a X → Ψ' a X) → framed h0 D m Ψ'.
Proof.
  intros Hm HΨ h Hh HD. destruct (Hm h Hh HD) as (H1 & H2 & H3). auto.
Qed.

Lemma framed_get h0 D l i : framed h0 D (get l i) anything.
Proof. intros h Hh HD. done. Qed.

Lemma framed_get_at h0 D l k : framed h0 D (get_at l k) anything.
Proof. unfold get_at. destruct (to_int k); [apply framed_get|by apply framed_ret]. Qed.

Lemma framed_length_of h0 D l : framed h0 D (length_of l) anything.
Proof. intros h Hh HD. done. Qed.

Lemma subseteq_insert_fresh (h0 h : heap) l a :
  h0 !! l = None → h0 ⊆ h → h0 ⊆ <[l := a]> h.
Proof.
  intros Hl Hh. apply map_subseteq_spec. intros l' a' Hl'.
  rewrite lookup_insert_ne by congruence.
  by eapply lookup_weaken.
Qed.

Lemma framed_set h0 D l i v : h0 !! l = None → framed h0 D (set l i v) anything.
Proof.
  intros Hl h Hh HD. unfold set. simpl. destruct (h !! l) eqn:Hhl.
  - split; [by apply subseteq_insert_fresh|]. split; [|done].
    rewrite dom_insert_L. set_solver.
  - done.
Qed.

Lemma framed_set_at h0 D l k v : h0 !! l = None → framed h0 D (set_at l k v) anything.
Proof.
  intros. unfold set_at. destruct (to_int k); [by apply framed_set|by apply framed_ret].
Qed.

Lemma framed_fill h0 D l v : h0 !! l = None → framed h0 D (fill l v) anything.
Proof.
  intros Hl h Hh HD. unfold fill. simpl. destruct (h !! l) eqn:Hhl.
  - split; [by apply subseteq_insert_fresh|]. split; [|done].
    rewrite dom_insert_L. set_solver.
  - done.
Qed.

Lemma framed_alloc h0 D a : framed h0 D (alloc a) (fresh_loc h0).
Proof.
  intros h Hh HD. unfold alloc. simpl.
  assert (h !! fresh (dom h) = None) as Hfresh by apply not_elem_of_dom, is_fresh.
  assert (h0 !! fresh (dom h) = None) as Hfresh0.
  { destruct (h0 !! fresh (dom h)) eqn:E; [|done].
    eapply lookup_weaken in E; [|done]. congruence. }
  split; [by apply subseteq_insert_fresh|]. split; [|split; [done|]].
  - rewrite dom_insert_L. set_solver.
  - rewrite dom_insert_L. set_solver.
Qed.

Lemma framed_new_Uint8ClampedArray_from h0 D src :
  framed h0 D (new_Uint8ClampedArray_from src) (fresh_loc h0).
Proof. intros h. unfold new_Uint8ClampedArray_from. apply framed_alloc. Qed.

Lemma framed_when h0 D (b : bool) m :
  framed h0 D m anything → framed h0 D (when b m) anything.
Proof. destruct b; [done|]. intros _. by apply framed_ret. Qed.

Lemma framed_forM h0 D l body :
  (∀ i X, D ⊆ X → framed h0 X (body i) anything) →
  framed h0 D (forM_ l body) anything.
Proof.
  intros Hb. revert D Hb. induction l as [|i l IH]; intros D Hb; simpl.
  - by apply framed_ret.
  - eapply framed_bind; [by apply Hb|].
    intros [] X _ HX. apply IH. intros j Y HY. apply Hb. set_solver.
Qed.

Lemma framed_for h0 D lo hi body :
  (∀ i X, D ⊆ X → framed h0 X (body i) anything) →
  framed h0 D (for_ lo hi body) anything.
Proof. apply framed_forM. Qed.

Lemma framed_for_step h0 D lo hi step body :
  (∀ i X, D ⊆ X → framed h0 X (body i) anything) →
  framed h0 D (for_step lo hi step body) anything.
Proof. apply framed_forM. Qed.

Lemma framed_foldM {S} h0 D l (body : Z → S → M S) s :
  (∀ i s X, D ⊆ X → framed h0 X (body i s) anything) →
  framed h0 D (foldM l body s) anything.
Proof.
  intros Hb. revert D s Hb. induction l as [|i l IH]; intros D s Hb; simpl.
  - by apply framed_ret.
  - eapply framed_bind; [by apply Hb|].
    intros s' X _ HX. apply IH. intros j s'' Y HY. apply Hb. set_solver.
Qed.

Lemma framed_for_acc {S} h0 D lo hi (s : S) body :
  (∀ i s X, D ⊆ X → framed h0 X (body i s) anything) →
  framed h0 D (for_acc lo hi s body) anything.
Proof. apply framed_foldM. Qed.

Lemma framed_foldM_break {S} h0 D l (body : Z → S → M (S * bool)) s :
  (∀ i s X, D ⊆ X → framed h0 X (body i s) anything) →
  framed h0 D (foldM_break l body s) anything.
Proof.
  intros Hb. revert D s Hb. induction l as [|i l IH]; intros D s Hb; simpl.
  - by apply framed_ret.
  - eapply framed_bind; [by apply Hb|].
    intros [s' stop] X _ HX. simpl. destruct stop.
    + by apply framed_ret.
    + apply IH. intros j s'' Y HY. apply Hb. set_solver.
Qed.

End framing.

Create HintDb framed.

Ltac framed_facts :=
  repeat match goal with
  | H : fresh_loc _ _ _ |- _ => destruct H
  | H : fresh_image _ _ _ |- _ => destruct H
  | H : anything _ _ |- _ => clear H
  | x : ProcessingImageData |- _ => destruct x; cbn [data width height] in *
  | x : (_ * _)%type |- _ => destruct x
  end.

Ltac framed_go :=
  cbv zeta;
  lazymatch goal with
  | |- framed _ _ (_ ≫= _) _ =>
      eapply framed_bind; [framed_go | intros ? ? ? ?; framed_facts; framed_go]
  | |- framed _ _ (mret _) (fresh_image _) =>
      apply framed_ret; intros ? ?; split; [assumption | set_solver]
  | |- framed _ _ (mret _) _ => apply framed_ret; intros ? ?; exact I
  | |- framed _ _ (get _ _) _ => apply framed_get
  | |- framed _ _ (get_at _ _) _ => apply framed_get_at
  | |- framed _ _ (length_of _) _ => apply framed_length_of
  | |- framed _ _ (set _ _ _) _ => apply framed_set; assumption
  | |- framed _ _ (set_at _ _ _) _ => apply framed_set_at; assumption
  | |- framed _ _ (fill _ _) _ => apply framed_fill; assumption
  | |- framed _ _ (alloc _) _ => apply framed_alloc
  | |- framed _ _ (new_Uint8ClampedArray_from _) _ => apply framed_new_Uint8ClampedArray_from
  | |- framed _ _ (new_Uint8ClampedArray _) _ => apply framed_alloc
  | |- framed _ _ (new_Uint8Array _) _ => apply framed_alloc
  | |- framed _ _ (new_Float32Array _) _ => apply framed_alloc
  | |- framed _ _ (new_Array_fill _ _) _ => apply framed_alloc
  | |- framed _ _ (when _ _) _ => apply framed_when; framed_go
  | |- framed _ _ (for_ _ _ _) _ => apply framed_for; intros ? ? ?; framed_go
  | |- framed _ _ (for_step _ _ _ _) _ => apply framed_for_step; intros ? ? ?; framed_go
  | |- framed _ _ (for_acc _ _ _ _) _ =>
      apply framed_for_acc; intros ? ? ? ?; framed_facts; framed_go
  | |- framed _ _ (foldM_break _ _ _) _ =>
      apply framed_foldM_break; intros ? ? ? ?; framed_facts; framed_go
  | |- framed _ _ (if ?b then _ else _) _ => destruct b; framed_go
  | |- framed _ _ (match ?x with _ => _ end) _ => destruct x; framed_go
  | |- framed _ _ _ _ => solve [eauto 2 with framed]
  end.

Section framed_functions.

Import Dithering Alpha Adjustments.

Lemma getGray_framed h0 D data idx : framed h0 D (getGray data idx) anything.
Proof. unfold getGray. framed_go. Qed.

Lemma getGrayOnWhite_framed h0 D data idx : framed h0 D (getGrayOnWhite data idx) anything.
Proof. unfold getGrayOnWhite. framed_go. Qed.

Lemma setPixel_framed h0 D data idx value :
  h0 !! data = None → framed h0 D (setPixel data idx value) anything.
Proof. intros. unfold setPixel. framed_go. Qed.

#[local] Hint Resolve getGray_framed getGrayOnWhite_framed setPixel_framed : framed.

Lemma floydSteinberg_framed h0 D imageData :
  framed h0 D (floydSteinberg imageData) (fresh_image h0).
Proof. destruct imageData. unfold floydSteinberg. framed_go. Qed.

Lemma jarvisJudiceNinke_framed h0 D imageData :
  framed h0 D (jarvisJudiceNinke imageData) (fresh_image h0).
Proof. destruct imageData. unfold jarvisJudiceNinke. framed_go. Qed.

Lemma stucki_framed h0 D imageData :
  framed h0 D (stucki imageData) (fresh_image h0).
Proof. destruct imageData. unfold stucki. framed_go. Qed.

Lemma atkinson_framed h0 D imageData :
  framed h0 D (atkinson imageData) (fresh_image h0).
Proof. destruct imageData. unfold atkinson. framed_go. Qed.

Lemma sierra_framed h0 D imageData :
  framed h0 D (sierra imageData) (fresh_image h0).
Proof. destruct imageData. unfold sierra. framed_go. Qed.

Lemma sierraTwoRow_framed h0 D imageData :
  framed h0 D (sierraTwoRow imageData) (fresh_image h0).
Proof. destruct imageData. unfold sierraTwoRow. framed_go. Qed.

Lemma burkes_framed h0 D imageData :
  framed h0 D (burkes imageData) (fresh_image h0).
Proof. destruct imageData. unfold burkes. framed_go. Qed.

Lemma bayerOrdered_framed h0 D imageData :
  framed h0 D (bayerOrdered imageData) (fresh_image h0).
Proof. destruct imageData. unfold bayerOrdered. framed_go. Qed.

Lemma bayerOrdered4x4_framed h0 D imageData :
  framed h0 D (bayerOrdered4x4 imageData) (fresh_image h0).
Proof. destruct imageData. unfold bayerOrdered4x4. framed_go. Qed.

Lemma ditheringAlgorithms_framed h0 D a imageData :
  framed h0 D (ditheringAlgorithms a imageData) (fresh_image h0).
Proof.
  destruct a; simpl;
    auto using floydSteinberg_framed, jarvisJudiceNinke_framed, stucki_framed,
      atkinson_framed, sierra_framed, sierraTwoRow_framed, burkes_framed,
      bayerOrdered_framed, bayerOrdered4x4_framed.
Qed.

Lemma toGrayscale_framed h0 D imageData :
  framed h0 D (toGrayscale imageData) (fresh_image h0).
Proof. destruct imageData. unfold toGrayscale. framed_go. Qed.

Lemma adjustBrightness_framed h0 D imageData amount :
  framed h0 D (adjustBrightness imageData amount) (fresh_image h0).
Proof. destruct imageData. unfold adjustBrightness. framed_go. Qed.

Lemma adjustContrast_framed h0 D imageData amount :
  framed h0 D (adjustContrast imageData amount) (fresh_image h0).
Proof. destruct imageData. unfold adjustContrast. framed_go. Qed.

Lemma invert_framed h0 D imageData :
  framed h0 D (invert imageData) (fresh_image h0).
Proof. destruct imageData. unfold invert. framed_go. Qed.

Lemma mirrorHorizontal_framed h0 D imageData :
  framed h0 D (mirrorHorizontal imageData) (fresh_image h0).
Proof. destruct imageData. unfold mirrorHorizontal. framed_go. Qed.

Lemma boxBlur_framed h0 D imageData radius :
  framed h0 D (boxBlur imageData radius) (fresh_image h0).
Proof. destruct imageData. unfold boxBlur. framed_go. Qed.

#[local] Hint Resolve toGrayscale_framed invert_framed boxBlur_framed : framed.

Lemma adjustGamma_framed Math_pow h0 D imageData gamma :
  framed h0 D (adjustGamma Math_pow imageData gamma) (fresh_image h0).
Proof. destruct imageData. unfold adjustGamma. framed_go. Qed.

Lemma unsharpMask_framed h0 D imageData radius amount threshold :
  framed h0 D (unsharpMask imageData radius amount threshold) (fresh_image h0).
Proof. destruct imageData. unfold unsharpMask. framed_go. Qed.

Lemma edgeEnhance_framed h0 D imageData strength :
  framed h0 D (edgeEnhance imageData strength) (fresh_image h0).
Proof. destruct imageData. unfold edgeEnhance. framed_go. Qed.

Lemma denoise_framed h0 D imageData strength :
  framed h0 D (denoise imageData strength) (fresh_image h0).
Proof. destruct imageData. unfold denoise. framed_go. Qed.

Lemma autoAdjust_framed h0 D imageData :
  framed h0 D (autoAdjust imageData) (fresh_image h0).
Proof. destruct imageData. unfold autoAdjust. framed_go. Qed.

Lemma adjustLevels_framed h0 D imageData blackPoint whitePoint :
  framed h0 D (adjustLevels imageData blackPoint whitePoint) (fresh_image h0).
Proof. destruct imageData. unfold adjustLevels. framed_go. Qed.

Lemma threshold_framed h0 D imageData thresholdValue :
  framed h0 D (threshold imageData thresholdValue) (fresh_image h0).
Proof. destruct imageData. unfold threshold. framed_go. Qed.

Lemma colorCorrection_framed h0 D imageData shadowLift highlightCompress :
  framed h0 D (colorCorrection imageData shadowLift highlightCompress) (fresh_image h0).
Proof. destruct imageData. unfold colorCorrection. framed_go. Qed.

Lemma sketchEffect_framed h0 D imageData :
  framed h0 D (sketchEffect imageData) (fresh_image h0).
Proof. destruct imageData. unfold sketchEffect. framed_go. Qed.


End framed_functions.

(** ** The preset composer *)

Section presets.

Import Presets.
Local Open Scope string_scope.

Variable Math_pow : float → float → float.

Lemma preset_ids_eq : preset_ids = presets.*1.
Proof. reflexivity. Qed.

Lemma assoc_None key l : key ∉ l.*1 → assoc key l = None.
Proof.
  induction l as [|[k v] l IH]; simpl; [done|].
  intros Hnot. destruct (String.eqb_spec key k) as [->|Hne].
  - exfalso. apply Hnot. left.
  - apply IH. intros Hin. apply Hnot. by right.
Qed.

Lemma assoc_Some key l : key ∈ l.*1 → is_Some (assoc key l).
Proof.
  induction l as [|[k v] l IH]; simpl.
  - intros Hin. by apply elem_of_nil in Hin.
  - intros Hin. destruct (String.eqb_spec key k) as [->|Hne]; [by eexists|].
    apply IH. apply elem_of_cons in Hin as [?|?]; [done|done].
Qed.

Lemma always_returns_bind {A B} (m : M A) (k : A → M (exception + B)) :
  (∀ a, always_returns (k a)) → always_returns (m ≫= k).
Proof.
  intros Hk h. unfold mbind, M_bind. destruct (m h) as [a h']. apply Hk.
Qed.

Lemma always_returns_ret {A} (a : A) : always_returns (mret (inr a : exception + A)).
Proof. intros h. by exists a. Qed.

Lemma applyPreset_own imageData presetName preset :
  presets_get presetName = Own preset →
  always_returns (applyPreset Math_pow imageData presetName).
Proof.
  intros Hget. unfold applyPreset. rewrite Hget. destruct imageData as [w hh dat].
  repeat first
    [ apply always_returns_ret
    | apply always_returns_bind; intros ?
    | match goal with |- always_returns (if ?b then _ else _) => destruct b end
    | progress cbv zeta ].
Qed.

Lemma applyPreset_not_own imageData presetName h :
  (∀ preset, presets_get presetName ≠ Own preset) →
  throws (applyPreset Math_pow imageData presetName h).1.
Proof.
  intros Hget. unfold applyPreset.
  destruct (presets_get presetName) as [preset| |].
  - by destruct (Hget preset).
  - destruct imageData as [w hh dat]. unfold mbind, M_bind.
    repeat match goal with |- context [let '(_, _) := ?m in _] => destruct m end.
    by exists TypeError.
  - by eexists.
Qed.

(** C3: for every input buffer, [applyPreset] throws for every preset id
    that is not one of the ten catalogued ones (an [Error] for a name the
    [presets] object does not know, a [TypeError] for a name it inherits
    from [Object.prototype]), and returns a buffer for each of the ten. *)
Theorem applyPreset_unknown_throws imageData presetName h :
  (presetName ∉ preset_ids → throws (applyPreset Math_pow imageData presetName h).1)
  ∧ (presetName ∈ preset_ids → returns (applyPreset Math_pow imageData presetName h).1).
Proof.
  rewrite preset_ids_eq. split; intros Hid.
  - apply applyPreset_not_own. intros preset. unfold presets_get.
    rewrite assoc_None by done. by destruct (existsb _ _).
  - destruct (assoc_Some _ _ Hid) as [preset Hp].
    apply (applyPreset_own imageData presetName preset).
    unfold presets_get. by rewrite Hp.
Qed.

End presets.

(** ** The alpha-aware gray value *)

Section gray.

Import Alpha.
Local Open Scope Z_scope.

Lemma alpha_cases a :
  byte a → 0 < a < 255 →
  (num a =? 0)%float = false ∧ (num a <? 255)%float = true.
Proof.
  intros Ha Hrange.
  assert (implb ((0 <? a) && (a <? 255))
                 (negb (num a =? 0)%float && (num a <? 255)%float) = true)
    as Himp.
  { revert a Ha Hrange. intros a Ha _. revert a Ha.
    apply forallb_bytes. vm_compute. reflexivity. }
  rewrite (proj2 (Z.ltb_lt 0 a)), (proj2 (Z.ltb_lt a 255)) in Himp by lia.
  simpl in Himp. apply andb_true_iff in Himp as [H1 H2].
  by apply negb_true_iff in H1.
Qed.

Lemma get_pixel_channel h data d (i : nat) (k : Z) z :
  h !! data = Some (Uint8ClampedArray d) → d !! i = Some z → k = Z.of_nat i →
  (get data k h).1 = num z.
Proof.
  intros Hd Hz ->. unfold get. simpl. rewrite Hd. simpl.
  rewrite arr_get_clamped by lia. by rewrite Nat2Z.id, Hz.
Qed.

(** The value of [getGrayOnWhite] at a pixel, by cases on its alpha. *)
Lemma getGrayOnWhite_value (h : heap) (data : loc) d (p : nat) r g b a :
  h !! data = Some (Uint8ClampedArray d) → pixel_at d p r g b a →
  (getGrayOnWhite data (4 * Z.of_nat p) h).1
  = if (num a =? 0)%float then 255%float
    else if (num a <? 255)%float then
      (0.299 * (num r * (num a / 255) + 255 * (1 - num a / 255))
       + 0.587 * (num g * (num a / 255) + 255 * (1 - num a / 255))
       + 0.114 * (num b * (num a / 255) + 255 * (1 - num a / 255)))%float
    else (0.299 * num r + 0.587 * num g + 0.114 * num b)%float.
Proof.
  intros Hd (Hr & Hg & Hb & Ha).
  assert (∀ (m : M float) (k : float → M float) h0,
            ((m ≫= k) h0).1 = (k (m h0).1 (m h0).2).1) as Hbind.
  { intros m k h0. unfold mbind, M_bind. by destruct (m h0). }
  assert (∀ k, (get data k h).2 = h) as Hget2 by done.
  assert ((get data (4 * Z.of_nat p) h).1 = num r) as H0
    by (apply (get_pixel_channel h data d (4 * p)); done || lia).
  assert ((get data (4 * Z.of_nat p + 1) h).1 = num g) as H1
    by (apply (get_pixel_channel h data d (4 * p + 1)); done || lia).
  assert ((get data (4 * Z.of_nat p + 2) h).1 = num b) as H2
    by (apply (get_pixel_channel h data d (4 * p + 2)); done || lia).
  unfold getGrayOnWhite. rewrite Hbind, Hget2.
  rewrite (get_pixel_channel h data d (4 * p + 3) _ a) by (done || lia).
  destruct (num a =? 0)%float; [done|].
  destruct (num a <? 255)%float; cbv beta iota zeta;
    by rewrite !Hbind, !Hget2, H0, H1, H2.
Qed.

(** C4: [getGrayOnWhite] gives exactly 255 for a pixel with alpha 0,
    whatever its colour; [0.299*R + 0.587*G + 0.114*B] for an opaque pixel,
    which for the pixel (255, 0, 0, 255) is 76.245 up to rounding; and for
    an alpha strictly between 0 and 255 it weighs the channels composited
    onto white, [channel * alpha/255 + 255 * (1 - alpha/255)]. *)
Theorem getGrayOnWhite_formula h data d (p : nat) r g b a :
  h !! data = Some (Uint8ClampedArray d) → pixel_at d p r g b a → byte a →
  let gray := (getGrayOnWhite data (4 * Z.of_nat p) h).1 in
  (a = 0 → gray = 255%float)
  ∧ (a = 255 →
       gray = (0.299 * num r + 0.587 * num g + 0.114 * num b)%float)
  ∧ (a = 255 → r = 255 → g = 0 → b = 0 →
       (Math_abs (gray - 76.245) <? 1e-9)%float = true)
  ∧ (0 < a < 255 →
       let alpha := (num a / 255)%float in
       gray = (0.299 * (num r * alpha + 255 * (1 - alpha))
               + 0.587 * (num g * alpha + 255 * (1 - alpha))
               + 0.114 * (num b * alpha + 255 * (1 - alpha)))%float).
Proof.
  intros Hd (Hr & Hg & Hb & Ha) Hbyte gray.
  assert (∀ (m : M float) (k : float → M float) h0,
            ((m ≫= k) h0).1 = (k (m h0).1 (m h0).2).1) as Hbind.
  { intros m k h0. unfold mbind, M_bind. by destruct (m h0). }
  assert (∀ k, (get data k h).2 = h) as Hget2 by done.
  assert (gray = (getGrayOnWhite data (4 * Z.of_nat p) h).1) as Hgray by done.
  unfold getGrayOnWhite in Hgray. rewrite Hbind, Hget2 in Hgray.
  rewrite (get_pixel_channel h data d (4 * p + 3) _ a) in Hgray by (done || lia).
  assert ((get data (4 * Z.of_nat p) h).1 = num r) as H0
    by (apply (get_pixel_channel h data d (4 * p)); done || lia).
  assert ((get data (4 * Z.of_nat p + 1) h).1 = num g) as H1
    by (apply (get_pixel_channel h data d (4 * p + 1)); done || lia).
  assert ((get data (4 * Z.of_nat p + 2) h).1 = num b) as H2
    by (apply (get_pixel_channel h data d (4 * p + 2)); done || lia).
  assert (a = 255 → gray = (0.299 * num r + 0.587 * num g + 0.114 * num b)%float) as Hopaque.
  { intros ->. change (num 255 =? 0)%float with false in Hgray.
    change (num 255 <? 255)%float with false in Hgray.
    cbv beta iota in Hgray.
    rewrite !Hbind, !Hget2, H0, H1, H2 in Hgray. exact Hgray. }
  repeat split.
  - intros ->. change (num 0 =? 0)%float with true in Hgray. exact Hgray.
  - exact Hopaque.
  - intros Ha' -> -> ->. rewrite (Hopaque Ha'). vm_compute. reflexivity.
  - intros Hrange alpha. destruct (alpha_cases a Hbyte Hrange) as [E1 E2].
    rewrite E1, E2 in Hgray. cbv beta iota zeta in Hgray.
    rewrite !Hbind, !Hget2, H0, H1, H2 in Hgray. exact Hgray.
Qed.

End gray.

(** ** The adjustments at their no-op parameter *)

Section noop.

Import Adjustments.
Local Open Scope Z_scope.

(** A store that writes back the byte already there changes nothing. *)
Lemma wp_set_same (l : loc) d i v Q (h : heap) :
  h !! l = Some (Uint8ClampedArray d) →
  (∀ z, 0 ≤ i → d !! Z.to_nat i = Some z → ToUint8Clamp v = z) →
  Q () h → wp (set l i v) Q h.
Proof.
  intros Hl Hv HQ. eapply wp_set; [done|].
  unfold arr_set. destruct (i <? 0) eqn:Hi; [by rewrite insert_id|].
  apply Z.ltb_ge in Hi.
  destruct (d !! Z.to_nat i) as [z|] eqn:Hz.
  - rewrite (Hv z Hi eq_refl), list_insert_id by done. by rewrite insert_id.
  - rewrite list_insert_ge by (by apply lookup_ge_None). by rewrite insert_id.
Qed.

Lemma get_clamped (h : heap) (l : loc) d i :
  h !! l = Some (Uint8ClampedArray d) →
  from_option (λ a, arr_get a i) undefined (h !! l)
  = if i <? 0 then undefined else from_option num undefined (d !! Z.to_nat i).
Proof. intros ->. done. Qed.

Lemma brightness_zero z : byte z → ToUint8Clamp (clamp (num z + 0) 0 255) = z.
Proof.
  intros Hz. apply Z.eqb_eq. revert z Hz. apply forallb_bytes. vm_compute. reflexivity.
Qed.

Lemma contrast_zero z :
  byte z →
  ToUint8Clamp
    (clamp (((num z / 255 - 0.5) * ((259 * (0 + 255)) / (255 * (259 - 0))) + 0.5) * 255) 0 255)
  = z.
Proof.
  intros Hz. apply Z.eqb_eq. revert z Hz. apply forallb_bytes. vm_compute. reflexivity.
Qed.

Lemma gamma_one_entry z : byte z → ToUint8 (clamp (num z / 255 * 255) 0 255) = z.
Proof.
  intros Hz. apply Z.eqb_eq. revert z Hz. apply forallb_bytes. vm_compute. reflexivity.
Qed.

Lemma to_int_num_byte z : byte z → to_int (num z) = Some z.
Proof.
  intros Hz.
  assert ((if to_int (num z) is Some z' then z' =? z else false) = true) as H.
  { revert z Hz. apply forallb_bytes. vm_compute. reflexivity. }
  destruct (to_int (num z)) as [z'|]; [|done]. apply Z.eqb_eq in H. by subst.
Qed.

Lemma to_int_undefined : to_int undefined = None.
Proof. vm_compute. reflexivity. Qed.

(** The loop over the pixels, when each of the four stores of an
    iteration writes back what is there. *)
Lemma wp_copy_loop data result d (body : Z → M unit) len Q h :
  h !! data = Some (Uint8ClampedArray d) →
  h !! result = Some (Uint8ClampedArray d) →
  (∀ i, 0 ≤ i → wp (body i) (λ _ h', h' = h) h) →
  Q () h →
  wp (for_step 0 len 4 body) Q h.
Proof.
  intros Hd Hr Hbody HQ. unfold for_step.
  apply (wp_forM (λ l h', h' = h ∧ Forall (λ i, 0 ≤ i) l)).
  - split; [done|]. apply Forall_fmap, Forall_forall.
    intros k Hk%elem_of_seqZ. simpl. lia.
  - intros i l' h' [-> Hl]. apply Forall_cons in Hl as [Hi Hl].
    eapply wp_mono; [by apply Hbody|]. by intros [] h' ->.
  - by intros h' [-> _].
Qed.

Lemma adjustBrightness_zero imageData h d :
  h !! imageData.(data) = Some (Uint8ClampedArray d) → Forall byte d →
  wp (adjustBrightness imageData 0) (same_buffer imageData d) h.
Proof.
  intros Hd Hbytes. destruct imageData as [w hh dat]. cbn [data] in Hd.
  unfold adjustBrightness.
  apply wp_bind. eapply wp_new_Uint8ClampedArray_from; [exact Hd|].
  intros result Hres. simpl arr_values. rewrite copy_bytes by done.
  assert (dat ≠ result) by congruence.
  do 3 wp_step.
  apply (wp_copy_loop dat result d);
    [by rewrite lookup_insert_ne|by rewrite lookup_insert_eq| |].
  - intros i Hi.
    repeat lazymatch goal with
      | |- wp (_ ≫= _) _ _ => apply wp_bind
      | |- wp (get _ _) _ _ =>
          apply wp_get; rewrite (get_clamped _ dat d) by (by rewrite lookup_insert_ne)
      | |- wp (set _ _ _) _ _ =>
          eapply (wp_set_same result d);
            [ by rewrite lookup_insert_eq
            | intros z Hz Hlook; rewrite (proj2 (Z.ltb_ge _ 0)), Hlook by lia; simpl;
              first [apply brightness_zero | apply ToUint8Clamp_num];
              by eapply Forall_lookup_1
            | ]
      end.
    done.
  - apply wp_ret. repeat split. cbn [data]. by rewrite lookup_insert_eq.
Qed.

Lemma adjustContrast_zero imageData h d :
  h !! imageData.(data) = Some (Uint8ClampedArray d) → Forall byte d →
  wp (adjustContrast imageData 0) (same_buffer imageData d) h.
Proof.
  intros Hd Hbytes. destruct imageData as [w hh dat]. cbn [data] in Hd.
  unfold adjustContrast.
  apply wp_bind. eapply wp_new_Uint8ClampedArray_from; [exact Hd|].
  intros result Hres. simpl arr_values. rewrite copy_bytes by done.
  assert (dat ≠ result) by congruence.
  cbv zeta. do 3 wp_step.
  apply (wp_copy_loop dat result d);
    [by rewrite lookup_insert_ne|by rewrite lookup_insert_eq| |].
  - intros i Hi.
    repeat lazymatch goal with
      | |- wp (_ ≫= _) _ _ => apply wp_bind
      | |- wp (get _ _) _ _ =>
          apply wp_get; rewrite (get_clamped _ dat d) by (by rewrite lookup_insert_ne)
      | |- wp (set _ _ _) _ _ =>
          eapply (wp_set_same result d);
            [ by rewrite lookup_insert_eq
            | intros z Hz Hlook; rewrite (proj2 (Z.ltb_ge _ 0)), Hlook by lia; simpl;
              first [apply contrast_zero | apply ToUint8Clamp_num];
              by eapply Forall_lookup_1
            | ]
      end.
    done.
  - apply wp_ret. repeat split. cbn [data]. by rewrite lookup_insert_eq.
Qed.

Lemma arr_set_uint8 l i v :
  0 ≤ i → arr_set (Uint8Array l) i v = Uint8Array (<[Z.to_nat i := ToUint8 v]> l).
Proof. intros Hi. unfold arr_set. by rewrite (proj2 (Z.ltb_ge i 0)). Qed.

(** Reading the identity table with the Number of a byte. *)
Lemma wp_get_at_identity (table : loc) lut v Q (h : heap) :
  h !! table = Some (Uint8Array lut) →
  (∀ z, byte z → lut !! Z.to_nat z = Some z) →
  (∀ v', (∀ z, byte z → v = num z → v' = num z) → Q v' h) →
  wp (get_at table v) Q h.
Proof.
  intros Htable Hlut HQ. unfold get_at. destruct (to_int v) as [k|] eqn:E.
  - apply wp_get. apply HQ. intros z Hz ->.
    rewrite to_int_num_byte in E by done. injection E as <-.
    rewrite Htable. simpl. unfold arr_get.
    rewrite (proj2 (Z.ltb_ge z 0)) by (unfold byte in Hz; lia).
    by rewrite Hlut.
  - apply wp_ret, HQ. intros z Hz ->. by rewrite to_int_num_byte in E.
Qed.

Section gamma_one.

Variable Math_pow : float → float → float.
Hypothesis Math_pow_one : ∀ x, Math_pow x 1 = x.

Lemma adjustGamma_one imageData h d :
  h !! imageData.(data) = Some (Uint8ClampedArray d) → Forall byte d →
  wp (adjustGamma Math_pow imageData 1.0) (same_buffer imageData d) h.
Proof.
  intros Hd Hbytes. destruct imageData as [w hh dat]. cbn [data] in Hd.
  unfold adjustGamma.
  apply wp_bind. eapply wp_new_Uint8ClampedArray_from; [exact Hd|].
  intros result Hres. simpl arr_values. rewrite copy_bytes by done.
  assert (dat ≠ result) by congruence.
  cbv zeta. change (1 / 1.0)%float with 1%float.
  apply wp_bind, wp_alloc. intros table Htable.
  assert (table ≠ result) by (intros ->; by rewrite lookup_insert_eq in Htable).
  assert (table ≠ dat) by (intros ->; by rewrite lookup_insert_ne, Hd in Htable).
  set (h1 := <[result := Uint8ClampedArray d]> h).
  apply wp_bind.
  apply (wp_for (λ i h', ∃ lut, h' = <[table := Uint8Array lut]> h1
                    ∧ length lut = 256%nat
                    ∧ ∀ z, 0 ≤ z < i → lut !! Z.to_nat z = Some z)).
  { eexists. split; [done|]. split; [by rewrite length_replicate|]. intros; lia. }
  { intros i h' Hi (lut & -> & Hlen & Hlut).
    eapply wp_set; [apply lookup_insert_eq|].
    rewrite insert_insert_eq, arr_set_uint8 by lia.
    eexists. split; [done|]. split; [by rewrite length_insert|].
    intros z Hz. destruct (decide (z = i)) as [->|Hne].
    - rewrite list_lookup_insert_eq by lia. f_equal.
      rewrite Math_pow_one. apply gamma_one_entry. unfold byte. lia.
    - rewrite list_lookup_insert_ne by lia. apply Hlut. lia. }
  intros h2 (lut & -> & Hlen & Hlut).
  assert (∀ z, byte z → lut !! Z.to_nat z = Some z) as Hlut'.
  { intros z Hz. apply Hlut. unfold byte in Hz. lia. }
  do 3 wp_step.
  apply (wp_copy_loop dat result d).
  - unfold h1. by rewrite !lookup_insert_ne.
  - unfold h1. by rewrite lookup_insert_ne, lookup_insert_eq.
  - intros i Hi.
    assert (<[table:=Uint8Array lut]> h1 !! dat = Some (Uint8ClampedArray d)) as Hdat
      by (unfold h1; by rewrite !lookup_insert_ne).
    assert (<[table:=Uint8Array lut]> h1 !! result = Some (Uint8ClampedArray d)) as Hresult
      by (unfold h1; by rewrite lookup_insert_ne, lookup_insert_eq).
    repeat lazymatch goal with
      | |- wp (_ ≫= _) _ _ => apply wp_bind
      | |- wp (get _ _) _ _ => apply wp_get; rewrite (get_clamped _ dat d) by exact Hdat
      | |- wp (get_at _ _) _ _ =>
          eapply (wp_get_at_identity table lut); [apply lookup_insert_eq|exact Hlut'|];
          intros ? ?
      | |- wp (set _ _ _) _ _ =>
          eapply (wp_set_same result d);
            [ exact Hresult
            | intros z Hz Hlook;
              assert (byte z) by (by eapply Forall_lookup_1);
              first
                [ match goal with
                  | Hv : ∀ z, byte z → _ = num z → ?v' = num z |- ToUint8Clamp ?v' = _ =>
                      rewrite (Hv z) by
                        (done || (rewrite (proj2 (Z.ltb_ge _ 0)), Hlook by lia; done))
                  end
                | rewrite (proj2 (Z.ltb_ge _ 0)), Hlook by lia; simpl ];
              by apply ToUint8Clamp_num
            | ]
      end.
    done.
  - apply wp_ret. repeat split. cbn [data].
    unfold h1. by rewrite lookup_insert_ne, lookup_insert_eq.
Qed.

(** C5: for every buffer of bytes, [adjustBrightness(buf, 0)],
    [adjustGamma(buf, 1.0)] and [adjustContrast(buf, 0)] each return a
    buffer of the same size holding exactly the bytes of the input; the
    gamma table and the contrast factor round back to every byte.
    ([Math.pow(x, 1)] is [x], as every engine computes it.) *)
Theorem noop_parameters_are_identity imageData h d :
  h !! imageData.(data) = Some (Uint8ClampedArray d) → Forall byte d →
  same_buffer imageData d
    (adjustBrightness imageData 0 h).1 (adjustBrightness imageData 0 h).2
  ∧ same_buffer imageData d
      (adjustGamma Math_pow imageData 1.0 h).1 (adjustGamma Math_pow imageData 1.0 h).2
  ∧ same_buffer imageData d
      (adjustContrast imageData 0 h).1 (adjustContrast imageData 0 h).2.
Proof.
  intros Hd Hbytes. split; [|split].
  - by apply adjustBrightness_zero.
  - by apply adjustGamma_one.
  - by apply adjustContrast_zero.
Qed.

End gamma_one.

End noop.

(** ** The 4x4 Bayer matrix and its entry 255 *)

Section bayer.

Import Dithering.
Local Open Scope Z_scope.

Lemma getGrayOnWhite_lookup (data data' : loc) idx (h h' : heap) :
  h !! data = h' !! data' →
  (Alpha.getGrayOnWhite data idx h).1 = (Alpha.getGrayOnWhite data' idx h').1.
Proof.
  intros Heq. unfold Alpha.getGrayOnWhite, mbind, M_bind, get. simpl. rewrite !Heq.
  repeat match goal with |- context [if ?b then _ else _] => destruct b end;
    simpl; by rewrite ?Heq.
Qed.

Lemma getGray_gray_of (data : loc) d (p : nat) idx (h : heap) :
  h !! data = Some (Uint8ClampedArray d) → idx = 4 * Z.of_nat p →
  (getGray data idx h).1 = gray_of d p.
Proof.
  intros Hd ->. unfold gray_of.
  change getGray with Alpha.getGrayOnWhite.
  apply getGrayOnWhite_lookup. by rewrite Hd, lookup_singleton_eq.
Qed.

Lemma wp_getGray (data : loc) d (p : nat) idx Q (h : heap) :
  h !! data = Some (Uint8ClampedArray d) → idx = 4 * Z.of_nat p →
  Q (gray_of d p) h → wp (getGray data idx) Q h.
Proof.
  intros Hd Hidx HQ. unfold wp.
  by rewrite read_only_getGray, (getGray_gray_of data d p).
Qed.

Lemma ordered_exact (w hh : nat) dat d h (bayerMatrix : list (list float)) size :
  well_formed {| width := w; height := hh; data := dat |} h d →
  wp (result ← new_Uint8ClampedArray_from dat;
      for_ 0 (Z.of_nat hh) (λ y,
        for_ 0 (Z.of_nat w) (λ x,
          let idx := ((y * Z.of_nat w + x) * 4)%Z in
          gray ← getGray dat idx;
          let threshold := table_at bayerMatrix (Z.rem y size) (Z.rem x size) in
          let newPixel := if (threshold <? gray)%float then 255%float else 0%float in
          setPixel result idx newPixel;;
          a ← get dat (idx + 3);
          set result (idx + 3) a));;
      mret {| width := w; height := hh; data := result |})
     (λ out h',
        scanned dat out.(data) d (Z.of_nat w) (Z.of_nat hh)
          (ordered_value bayerMatrix size d (Z.of_nat w))
          (Z.of_nat w * Z.of_nat hh) h') h.
Proof.
  intros (Hd & Hlen & Hbytes). cbn [width height data] in *.
  apply wp_bind. eapply wp_new_Uint8ClampedArray_from; [exact Hd|].
  intros result Hres. simpl arr_values. rewrite copy_bytes by done.
  assert (dat ≠ result) by congruence.
  apply wp_bind.
  apply (dither_scan dat result d (Z.of_nat w) (Z.of_nat hh)
           (ordered_value bayerMatrix size d (Z.of_nat w)));
    [lia|lia|lia| | |].
  - intros y x h2 r Hy Hx Hd2 Hr2.
    destruct (pixel_index w hh d x y Hlen Hy Hx) as [Hidx Hidx'].
    cbv zeta. apply wp_bind.
    eapply (wp_getGray dat d (Z.to_nat (y * Z.of_nat w + x))); [done|lia|].
    eapply (wp_store_pixel_last dat result d r (Z.to_nat (y * Z.of_nat w + x)));
      [done..|lia|lia|].
    rewrite lookup_insert_ne, lookup_insert_eq by done. split; [done|].
    eexists. split; [|done]. reflexivity.
  - split; [by rewrite lookup_insert_ne|].
    exists d. rewrite lookup_insert_eq. repeat split. intros; lia.
  - intros. by apply wp_ret.
Qed.

(** C10, as the code has it: [bayerOrdered4x4] compares with [gray >
    threshold] and its matrix holds 255 at row 3, column 0, so every pixel
    at a position with [y mod 4 = 3] and [x mod 4 = 0] whose gray value does
    not exceed 255 comes out black, with the input's alpha; an input that has
    such a pixel does not come out all white. *)
Theorem bayerOrdered4x4_black_positions imageData h d (x y : nat) :
  well_formed imageData h d →
  (x < imageData.(width))%nat → (y < imageData.(height))%nat →
  Z.of_nat y mod 4 = 3 → Z.of_nat x mod 4 = 0 →
  let p := (y * imageData.(width) + x)%nat in
  (255 <? gray_of d p)%float = false →
  let out := (bayerOrdered4x4 imageData h).1 in
  let h' := (bayerOrdered4x4 imageData h).2 in
  ∃ r, h' !! out.(data) = Some (Uint8ClampedArray r)
    ∧ pixel_is d r p 0
    ∧ ¬ all_white r (imageData.(width) * imageData.(height)).
Proof.
  intros Hwf Hx Hy Hymod Hxmod p Hgray out h'.
  destruct imageData as [w hh dat]. cbn [width height data] in *.
  pose proof (ordered_exact w hh dat d h bayerMatrix4 4 Hwf) as Hexact.
  change (scanned dat out.(data) d (Z.of_nat w) (Z.of_nat hh)
            (ordered_value bayerMatrix4 4 d (Z.of_nat w))
            (Z.of_nat w * Z.of_nat hh) h') in Hexact.
  destruct Hexact as (_ & r & Hr & _ & Hpix).
  destruct (Hpix (Z.of_nat y) (Z.of_nat x)) as (v & Hv & Hpv); [lia|lia|nia|].
  unfold ordered_value in Hv.
  replace (Z.to_nat (Z.of_nat y * Z.of_nat w + Z.of_nat x)) with p in Hv, Hpv by lia.
  rewrite !Z.rem_mod_nonneg, Hymod, Hxmod in Hv by lia.
  change (table_at bayerMatrix4 3 0) with 255%float in Hv.
  rewrite Hgray in Hv. change (ToUint8Clamp 0) with 0 in Hv. subst v.
  exists r. split; [done|]. split; [done|].
  intros Hwhite. destruct (Hwhite p) as (Hw0 & _); [unfold p; nia|].
  destruct Hpv as (Hp0 & _). congruence.
Qed.

(** C10, as stated, fails on an image with fewer than four rows: the 1x1
    opaque white image comes out all white. *)
Lemma bayerOrdered4x4_white_1x1 :
  let imageData := {| width := 1; height := 1; data := 0%nat |} in
  let h : heap := {[ 0%nat := Uint8ClampedArray [255; 255; 255; 255] ]} in
  (bayerOrdered4x4 imageData h).2 !! (bayerOrdered4x4 imageData h).1.(data)
  = Some (Uint8ClampedArray [255; 255; 255; 255]).
Proof. vm_compute. reflexivity. Qed.

End bayer.

(** ** Floyd-Steinberg refines its specification *)

Section floyd.

Import Dithering.
Local Open Scope Z_scope.

Lemma wp_forM_fold {S} (Inv : S → heap → Prop) (f : S → Z → S) l body s Q h :
  Inv s h →
  (∀ i s h, i ∈ l → Inv s h → wp (body i) (λ _, Inv (f s i)) h) →
  (∀ h', Inv (foldl f s l) h' → Q () h') →
  wp (forM_ l body) Q h.
Proof.
  revert s h. induction l as [|i l IH]; intros s h HI Hstep HQ; simpl.
  - by apply wp_ret, HQ.
  - apply wp_bind. eapply wp_mono; [apply Hstep; [left|done]|].
    intros [] h' HI'. apply (IH (f s i)); [done| |done].
    intros j s' h'' Hj. apply Hstep. by right.
Qed.

(** A loop that steps an abstract state folds over its range. *)
Lemma wp_for_fold {S} (Inv : S → heap → Prop) (f : S → Z → S) lo hi body s Q h :
  Inv s h →
  (∀ i s h, lo ≤ i < hi → Inv s h → wp (body i) (λ _, Inv (f s i)) h) →
  (∀ h', Inv (foldl f s (seqZ lo (hi - lo))) h' → Q () h') →
  wp (for_ lo hi body) Q h.
Proof.
  intros HI Hstep HQ. apply (wp_forM_fold Inv f _ _ s); [done| |done].
  intros i s' h' Hi%elem_of_seqZ. apply Hstep. lia.
Qed.

Lemma arr_set_float32 l i v :
  0 ≤ i → arr_set (Float32Array l) i v = Float32Array (<[Z.to_nat i := fround v]> l).
Proof. intros Hi. unfold arr_set. by rewrite (proj2 (Z.ltb_ge i 0)). Qed.

Lemma arr_get_float32 l i :
  0 ≤ i → arr_get (Float32Array l) i = default undefined (l !! Z.to_nat i).
Proof. intros Hi. unfold arr_get. by rewrite (proj2 (Z.ltb_ge i 0)). Qed.

(** [errors[j] += v]. *)
Lemma wp_accumulate (errors : loc) acc j v Q (h : heap) :
  h !! errors = Some (Float32Array acc) → 0 ≤ j →
  Q () (<[errors := Float32Array (accumulate acc j v)]> h) →
  wp (e ← get errors j; set errors j (e + v)%float) Q h.
Proof.
  intros Hacc Hj HQ. do 2 wp_step. rewrite Hacc. simpl.
  eapply wp_set; [done|]. by rewrite arr_set_float32, arr_get_float32.
Qed.

Lemma wp_accumulate_then (errors : loc) acc j v (k : M unit) Q (h : heap) :
  h !! errors = Some (Float32Array acc) → 0 ≤ j →
  wp k Q (<[errors := Float32Array (accumulate acc j v)]> h) →
  wp (e ← get errors j; set errors j (e + v)%float;; k) Q h.
Proof.
  intros Hacc Hj HQ. do 2 wp_step. rewrite Hacc. simpl.
  wp_step. eapply wp_set; [done|]. by rewrite arr_set_float32, arr_get_float32.
Qed.

(** The seeding of the accumulator. *)
Lemma wp_seed (data errors : loc) d n Q (h : heap) :
  data ≠ errors →
  h !! data = Some (Uint8ClampedArray d) →
  h !! errors = Some (Float32Array (replicate (Z.to_nat n) 0%float)) →
  0 ≤ n →
  Q () (<[errors := Float32Array ((λ p, fround (gray_of d p)) <$> seq 0 (Z.to_nat n))]> h) →
  wp (for_ 0 n (λ i, g ← getGray data (i * 4); set errors i g)) Q h.
Proof.
  intros Hne Hd Herr Hn HQ.
  apply (wp_for (λ i h', h' = <[errors := Float32Array
      (((λ p, fround (gray_of d p)) <$> seq 0 (Z.to_nat i))
       ++ replicate (Z.to_nat (n - i)) 0%float)]> h)).
  - rewrite Z.sub_0_r. simpl. by rewrite insert_id.
  - intros i h' Hi ->. apply wp_bind.
    eapply (wp_getGray data d (Z.to_nat i)); [by rewrite lookup_insert_ne|lia|].
    eapply wp_set; [apply lookup_insert_eq|].
    rewrite insert_insert_eq, arr_set_float32 by lia. do 2 f_equal.
    replace (Z.to_nat (n - i)) with (S (Z.to_nat (n - (i + 1)))) by lia.
    replace (Z.to_nat (i + 1)) with (Z.to_nat i + 1)%nat by lia.
    rewrite seq_app, fmap_app, <- app_assoc. simpl.
    rewrite insert_app_r_alt by (rewrite length_fmap, length_seq; lia).
    by rewrite length_fmap, length_seq, Nat.sub_diag.
  - intros h' ->. replace (Z.max 0 n) with n by lia.
    rewrite Z.sub_diag. simpl. by rewrite app_nil_r.
Qed.

Ltac decide_comparisons :=
  repeat match goal with
  | |- context [(?a <=? ?b)%Z] =>
      first [ rewrite (proj2 (Z.leb_le a b)) by lia
            | rewrite (proj2 (Z.leb_gt a b)) by lia ]
  | |- context [(?a <? ?b)%Z] =>
      first [ rewrite (proj2 (Z.ltb_lt a b)) by lia
            | rewrite (proj2 (Z.ltb_ge a b)) by lia ]
  end.

(** One iteration of the scan is one step of the specification. *)
Lemma floydSteinberg_pixel (w hh : nat) (data result errors : loc) d y x st h :
  let W := Z.of_nat w in
  let H := Z.of_nat hh in
  data ≠ result → errors ≠ result → errors ≠ data →
  length d = (4 * (w * hh))%nat → Forall byte d → length st.1 = length d →
  0 ≤ y < H → 0 ≤ x < W →
  fs_state d data result errors st h →
  wp (let idx := y * W + x in
      oldPixel ← get errors idx;
      let newPixel := if (oldPixel <? 128)%float then 0%float else 255%float in
      let quantError := (oldPixel - newPixel)%float in
      setPixel result (idx * 4) newPixel;;
      a ← get data (idx * 4 + 3);
      set result (idx * 4 + 3) a;;
      when (x + 1 <? W) (
        e ← get errors (idx + 1);
        set errors (idx + 1) (e + (quantError * 7) / 16)%float);;
      when (y + 1 <? H) (
        when (0 <? x) (
          e ← get errors (idx + W - 1);
          set errors (idx + W - 1) (e + (quantError * 3) / 16)%float);;
        e ← get errors (idx + W);
        set errors (idx + W) (e + (quantError * 5) / 16)%float;;
        when (x + 1 <? W) (
          e ← get errors (idx + W + 1);
          set errors (idx + W + 1) (e + (quantError * 1) / 16)%float)))
     (λ _ h', fs_state d data result errors (fs_pixel W H d y st x) h'
              ∧ length (fs_pixel W H d y st x).1 = length d) h.
Proof.
  intros W H Hdr Her Hed Hlen Hbytes Hlst Hy Hx (Hd & Hr & He).
  destruct st as [out acc]. cbn [fst snd] in *.
  destruct (pixel_index w hh d x y Hlen Hy Hx) as [Hidx Hidx'].
  fold W in Hidx, Hidx'.
  cbv zeta. do 2 wp_step. rewrite He. simpl from_option.
  rewrite arr_get_float32 by lia.
  set (old := default undefined (acc !! Z.to_nat (y * W + x))).
  eapply (wp_store_pixel data result d out (Z.to_nat (y * W + x))); [done..|lia|lia|].
  assert (ToUint8Clamp (if (old <? 128)%float then 0%float else 255%float) = quantize old)
    as -> by (unfold quantize; by destruct (old <? 128)%float).
  assert ((old - (if (old <? 128)%float then 0 else 255))%float = (old - num (quantize old))%float)
    as -> by (unfold quantize; by destruct (old <? 128)%float).
  set (q := (old - num (quantize old))%float).
  set (out' := put_pixel out (Z.to_nat (y * W + x)) (quantize old) d).
  assert (∀ acc' h', h' !! data = Some (Uint8ClampedArray d) →
            h' !! result = Some (Uint8ClampedArray out') →
            h' !! errors = Some (Float32Array acc') →
            acc' = foldl (diffuse W H x y q) acc fs_kernel →
            fs_state d data result errors (fs_pixel W H d y (out, acc) x) h'
            ∧ length (fs_pixel W H d y (out, acc) x).1 = length d) as Hdone.
  { intros acc' h' ? ? ? ->. split; [done|].
    unfold fs_pixel. cbn [fst snd]. by rewrite length_put_pixel. }
  unfold fs_kernel, diffuse, in_image in Hdone. cbn [foldl] in Hdone.
  destruct (x + 1 <? W) eqn:Hright; destruct (y + 1 <? H) eqn:Hbelow;
    destruct (0 <? x) eqn:Hleft;
    try apply Z.ltb_lt in Hright; try apply Z.ltb_ge in Hright;
    try apply Z.ltb_lt in Hbelow; try apply Z.ltb_ge in Hbelow;
    try apply Z.ltb_lt in Hleft; try apply Z.ltb_ge in Hleft;
    cbn [when];
    repeat first
      [ eapply (wp_accumulate errors);
          [ by rewrite ?lookup_insert_eq, ?lookup_insert_ne by done | lia | ]
      | eapply (wp_accumulate_then errors);
          [ by rewrite ?lookup_insert_eq, ?lookup_insert_ne by done | lia | ]
      | wp_step
      | rewrite insert_insert_eq ];
    (eapply Hdone;
      [ by rewrite ?lookup_insert_ne by congruence
      | by rewrite ?(lookup_insert_ne _ errors) by congruence; rewrite lookup_insert_eq
      | first [ by rewrite lookup_insert_eq
              | rewrite lookup_insert_ne by congruence; exact He ]
      | decide_comparisons; cbn [andb];
        repeat (f_equal; try lia) ]).
Qed.

(** C1: on every well-formed buffer, [floydSteinberg] computes what the
    specification describes: the accumulator seeded with the alpha-aware
    gray values, the scan row by row and left to right, the quantization at
    128, and the error (old minus new) spread with the weights 7/16 (right),
    3/16 (below-left), 5/16 (below) and 1/16 (below-right) over the
    neighbours inside the image, the share of a neighbour outside being
    dropped. *)
Theorem floydSteinberg_refines_spec imageData h d :
  well_formed imageData h d →
  let out := (floydSteinberg imageData h).1 in
  let h' := (floydSteinberg imageData h).2 in
  out.(width) = imageData.(width) ∧ out.(height) = imageData.(height)
  ∧ h' !! out.(data)
    = Some (Uint8ClampedArray
              (floydSteinberg_spec (Z.of_nat imageData.(width))
                 (Z.of_nat imageData.(height)) d)).
Proof.
  intros (Hd & Hlen & Hbytes).
  change (wp (floydSteinberg imageData)
            (λ out h', out.(width) = imageData.(width)
               ∧ out.(height) = imageData.(height)
               ∧ h' !! out.(data)
                 = Some (Uint8ClampedArray
                           (floydSteinberg_spec (Z.of_nat imageData.(width))
                              (Z.of_nat imageData.(height)) d))) h).
  destruct imageData as [w hh dat]. cbn [width height data] in *.
  unfold floydSteinberg.
  apply wp_bind. eapply wp_new_Uint8ClampedArray_from; [exact Hd|].
  intros result Hres. simpl arr_values. rewrite copy_bytes by done.
  apply wp_bind, wp_alloc. intros errors Herr.
  assert (dat ≠ result) as Hdr by congruence.
  assert (errors ≠ result) as Her by (intros ->; by rewrite lookup_insert_eq in Herr).
  assert (errors ≠ dat) as Hed by (intros ->; by rewrite lookup_insert_ne, Hd in Herr).
  apply wp_bind.
  eapply (wp_seed dat errors d);
    [ congruence
    | by rewrite !lookup_insert_ne by congruence
    | by rewrite lookup_insert_eq
    | lia
    | ].
  rewrite insert_insert_eq.
  apply wp_bind.
  set (W := Z.of_nat w). set (H := Z.of_nat hh).
  apply (wp_for_fold
           (λ st h', fs_state d dat result errors st h' ∧ length st.1 = length d)
           (fs_row W H d) 0 H _ (d, fs_seed W H d)).
  - split; [|done]. repeat split; cbn [fst snd].
    + by rewrite !lookup_insert_ne by congruence.
    + by rewrite lookup_insert_ne, lookup_insert_eq by congruence.
    + by rewrite lookup_insert_eq.
  - intros y st h1 Hy [Hst Hlst].
    apply (wp_for_fold
             (λ st h', fs_state d dat result errors st h' ∧ length st.1 = length d)
             (fs_pixel W H d y) 0 W _ st); [done| |].
    + intros x st' h2 Hx [Hst' Hlst'].
      by apply (floydSteinberg_pixel w hh dat result errors d y x st' h2).
    + intros h2. by rewrite Z.sub_0_r.
  - intros h1 [(_ & Hr & _) _]. apply wp_ret.
    rewrite Z.sub_0_r in Hr. done.
Qed.

End floyd.

(** ** Masks *)

Section pixel_scan_rule.

Local Open Scope Z_scope.

Context (result : loc) (n : nat) (W H : Z) (h0 : heap)
  (P : Z → Z → Z → Z → Z → Z → Prop).

Local Abbreviation settled := (settled result n W H h0 P).
Local Abbreviation settles := (settles result W H h0 P).

Lemma set_pixel_bytes_here r p v0 v1 v2 v3 :
  (4 * p + 3 < length r)%nat →
  pixel_at (set_pixel_bytes r p v0 v1 v2 v3) p v0 v1 v2 v3.
Proof.
  intros Hp. unfold set_pixel_bytes, pixel_at. repeat split.
  - rewrite !list_lookup_insert_ne by lia. apply list_lookup_insert_eq. lia.
  - rewrite !list_lookup_insert_ne by lia. apply list_lookup_insert_eq.
    rewrite !length_insert. lia.
  - rewrite !list_lookup_insert_ne by lia. apply list_lookup_insert_eq.
    rewrite !length_insert. lia.
  - apply list_lookup_insert_eq. rewrite !length_insert. lia.
Qed.

Lemma set_pixel_bytes_other r p q v0 v1 v2 v3 u0 u1 u2 u3 :
  p ≠ q → pixel_at r q u0 u1 u2 u3 →
  pixel_at (set_pixel_bytes r p v0 v1 v2 v3) q u0 u1 u2 u3.
Proof.
  intros Hpq (H0 & H1 & H2 & H3). unfold set_pixel_bytes, pixel_at.
  by rewrite !list_lookup_insert_ne by lia.
Qed.

Lemma length_set_pixel_bytes r p v0 v1 v2 v3 :
  length (set_pixel_bytes r p v0 v1 v2 v3) = length r.
Proof. unfold set_pixel_bytes. by rewrite !length_insert. Qed.

Lemma pixel_scan body Q h :
  0 ≤ W → 0 ≤ H → Z.of_nat n = 4 * (W * H) →
  settles body → settled 0 h →
  (∀ h', settled (W * H) h' → Q () h') →
  wp (for_ 0 H (λ y, for_ 0 W (λ x, body y x))) Q h.
Proof.
  intros HW HH Hlen Hbody H0 HQ.
  apply (wp_for (λ y, settled (y * W))); [done| |].
  - intros y h1 Hy Hh1.
    apply (wp_for (λ x, settled (y * W + x))).
    + by rewrite Z.add_0_r.
    + intros x h2 Hx (Hframe & r & Hr & Hlr & Hpix).
      eapply wp_mono; [by apply Hbody|].
      intros [] h3 (Hframe3 & v0 & v1 & v2 & v3 & Hv & Hr3). split; [done|].
      eexists. split; [done|]. split; [by rewrite length_set_pixel_bytes|].
      intros y' x' Hy' Hx' Hlt.
      destruct (decide (y' * W + x' = y * W + x)) as [Heq|Hne].
      * assert (y' = y) as ->.
        { destruct (Z.lt_trichotomy y' y) as [Hlt'|[?|Hgt']]; [|done|]; exfalso; nia. }
        assert (x' = x) as -> by lia.
        exists v0, v1, v2, v3. split; [done|]. apply set_pixel_bytes_here. nia.
      * destruct (Hpix y' x' Hy' Hx') as (u0 & u1 & u2 & u3 & Hu & Hpu); [lia|].
        exists u0, u1, u2, u3. split; [done|].
        apply set_pixel_bytes_other; [|done]. nia.
    + intros h2 Hh2. replace ((y + 1) * W) with (y * W + Z.max 0 W) by lia. done.
  - intros h1 Hh1. apply HQ.
    replace (W * H) with (Z.max 0 H * W) by lia. done.
Qed.

End pixel_scan_rule.

Section applyMask.

Import Masking.
Local Open Scope Z_scope.

Lemma wp_get_at (l : loc) k Q (h : heap) :
  Q (match to_int k with
     | Some i => from_option (λ a, arr_get a i) undefined (h !! l)
     | None => undefined
     end) h →
  wp (get_at l k) Q h.
Proof. unfold get_at. destruct (to_int k); [apply wp_get|apply wp_ret]. Qed.

Lemma lookup_pixel (d : list Z) (p : nat) :
  (4 * p + 3 < length d)%nat → ∃ v0 v1 v2 a, pixel_at d p v0 v1 v2 a.
Proof.
  intros Hp.
  destruct (lookup_lt_is_Some_2 d (4 * p)%nat) as [v0 H0]; [lia|].
  destruct (lookup_lt_is_Some_2 d (4 * p + 1)%nat) as [v1 H1]; [lia|].
  destruct (lookup_lt_is_Some_2 d (4 * p + 2)%nat) as [v2 H2]; [lia|].
  destruct (lookup_lt_is_Some_2 d (4 * p + 3)%nat) as [a H3]; [lia|].
  by exists v0, v1, v2, a.
Qed.

Lemma applyMask_masked imageData maskData maskPosition h d md :
  well_formed imageData h d →
  h !! maskData.(data) = Some (Uint8ClampedArray md) →
  wp (applyMask imageData maskData maskPosition)
     (λ out h',
        out.(width) = imageData.(width) ∧ out.(height) = imageData.(height)
        ∧ settled out.(data) (length d)
            (Z.of_nat imageData.(width)) (Z.of_nat imageData.(height))
            (<[out.(data) := Uint8ClampedArray (replicate (length d) 0)]> h)
            (λ y x v0 v1 v2 v3,
               ∃ a, pixel_at d (Z.to_nat (y * Z.of_nat imageData.(width) + x)) v0 v1 v2 a
                 ∧ v3 = masked_alpha a
                          (mask_value_at imageData.(width) imageData.(height)
                             maskData.(width) maskData.(height) md
                             maskPosition.(Masking.x) maskPosition.(Masking.y)
                             (effective_scale maskPosition.(scale)) x y))
            (Z.of_nat imageData.(width) * Z.of_nat imageData.(height)) h') h.
Proof.
  intros (Hd & Hlen & Hbytes) Hmd.
  destruct imageData as [w hh dat], maskData as [mw mh mdat].
  cbn [width height data] in *. unfold applyMask.
  do 2 wp_step. rewrite Hd. cbn [from_option arr_length].
  apply wp_bind, wp_alloc. intros result Hres. rewrite Nat2Z.id.
  assert (dat ≠ result) as Hdr by congruence.
  cbv zeta. apply wp_bind.
  set (h0 := <[result := Uint8ClampedArray (replicate (length d) 0)]> h).
  eapply (pixel_scan result (length d) (Z.of_nat w) (Z.of_nat hh) h0
            (λ y x v0 v1 v2 v3,
               ∃ a, pixel_at d (Z.to_nat (y * Z.of_nat w + x)) v0 v1 v2 a
                 ∧ v3 = masked_alpha a
                          (mask_value_at w hh mw mh md
                             maskPosition.(Masking.x) maskPosition.(Masking.y)
                             (effective_scale maskPosition.(scale)) x y)));
    [lia|lia|lia| | |].
  - intros y x h1 r Hy Hx Hframe Hr.
    destruct (pixel_index w hh d x y Hlen Hy Hx) as [Hidx Hidx'].
    destruct (lookup_pixel d (Z.to_nat (y * Z.of_nat w + x)) Hidx')
      as (v0 & v1 & v2 & a & Hpx).
    pose proof Hpx as (H0 & H1 & H2 & H3).
    assert (h1 !! dat = Some (Uint8ClampedArray d)) as Hd1.
    { rewrite Hframe by congruence. unfold h0. by rewrite lookup_insert_ne. }
    assert (∀ l v (hx : heap), l ≠ result → <[result := v]> hx !! l = hx !! l) as Hne.
    { intros. by rewrite lookup_insert_ne. }
    apply wp_bind.
    apply (wp_mono _ (λ v h', h' = h1 ∧
             v = mask_value_at w hh mw mh md maskPosition.(Masking.x)
                   maskPosition.(Masking.y) (effective_scale maskPosition.(scale)) x y)).
    { unfold mask_value_at, mask_value, mask_coord, effective_scale.
      match goal with |- context [if ?b then get_at _ _ else _] => destruct b end.
      - refine (wp_get_at _ _ _ _ _). cbv beta. split; [done|]. unfold mask_red.
        destruct (to_int _) as [i|]; [|done].
        destruct (decide (mdat = result)) as [->|Hmr]; [congruence|].
        rewrite Hframe by done. unfold h0. by rewrite lookup_insert_ne, Hmd.
      - apply wp_ret. by cbv beta. }
    intros maskValue h2 [-> ->].
    repeat first
      [ wp_step
      | rewrite !Hne by congruence
      | rewrite Hd1; cbn [from_option] ].
    rewrite !insert_insert_eq.
    split; [intros l Hl; by rewrite lookup_insert_ne, Hframe by congruence|].
    exists v0, v1, v2,
      (masked_alpha a (mask_value_at w hh mw mh md maskPosition.(Masking.x)
         maskPosition.(Masking.y) (effective_scale maskPosition.(scale)) x y)).
    cbv beta. split; [by exists a|].
    rewrite lookup_insert_eq. do 2 f_equal.
    rewrite !arr_set_clamped, !arr_get_clamped by lia.
    replace (Z.to_nat ((y * Z.of_nat w + x) * 4))
      with (4 * Z.to_nat (y * Z.of_nat w + x))%nat by lia.
    replace (Z.to_nat ((y * Z.of_nat w + x) * 4 + 1))
      with (4 * Z.to_nat (y * Z.of_nat w + x) + 1)%nat by lia.
    replace (Z.to_nat ((y * Z.of_nat w + x) * 4 + 2))
      with (4 * Z.to_nat (y * Z.of_nat w + x) + 2)%nat by lia.
    replace (Z.to_nat ((y * Z.of_nat w + x) * 4 + 3))
      with (4 * Z.to_nat (y * Z.of_nat w + x) + 3)%nat by lia.
    rewrite H0, H1, H2, H3. cbn [from_option].
    rewrite !ToUint8Clamp_num by (eapply Forall_lookup_1; [exact Hbytes|eassumption]).
    reflexivity.
  - split; [done|]. eexists. split; [unfold h0; by rewrite lookup_insert_eq|].
    split; [by rewrite length_replicate|]. intros; lia.
  - intros h1 Hh1. by apply wp_ret.
Qed.

(** C8, as the code has it: [applyMask] keeps the RGB bytes of every
    pixel and stores [round(inputAlpha * maskValue / 255)] as its alpha,
    where [maskValue] is the red channel of the mask at the coordinate
    [round((imgCoord - center) / scale + maskCenter)], and 0 when that
    coordinate is outside the mask; the scale is [maskPosition.scale], or 1
    when [maskPosition.scale] is 0 or NaN. *)
Theorem applyMask_alpha imageData maskData maskPosition h d md (x y : nat) :
  well_formed imageData h d →
  h !! maskData.(data) = Some (Uint8ClampedArray md) →
  (x < imageData.(width))%nat → (y < imageData.(height))%nat →
  let p := (y * imageData.(width) + x)%nat in
  let maskValue :=
    mask_value_at imageData.(width) imageData.(height)
      maskData.(width) maskData.(height) md
      maskPosition.(Masking.x) maskPosition.(Masking.y)
      (effective_scale maskPosition.(scale)) (Z.of_nat x) (Z.of_nat y) in
  let out := (applyMask imageData maskData maskPosition h).1 in
  let h' := (applyMask imageData maskData maskPosition h).2 in
  ∃ r red green blue alpha,
    h' !! out.(data) = Some (Uint8ClampedArray r)
    ∧ pixel_at d p red green blue alpha
    ∧ pixel_at r p red green blue (masked_alpha alpha maskValue).
Proof.
  intros Hwf Hmd Hx Hy p maskValue out h'.
  pose proof (applyMask_masked imageData maskData maskPosition h d md Hwf Hmd)
    as (_ & _ & _ & r & Hr & _ & Hpix).
  fold out h' in Hr, Hpix.
  destruct (Hpix (Z.of_nat y) (Z.of_nat x)) as (v0 & v1 & v2 & v3 & (a & Hpd & ->) & Hpr);
    [lia|lia|nia|].
  replace (Z.to_nat (Z.of_nat y * Z.of_nat imageData.(width) + Z.of_nat x))
    with p in Hpd, Hpr by (unfold p; lia).
  by exists r, v0, v1, v2, a.
Qed.

(** C8, as stated, fails at [scale = 0]: the coordinate
    [(imgCoord - center) / 0] is infinite, outside the mask, so the stated
    alpha is 0, while the code, which takes the scale 1 then, keeps 255. *)
Lemma applyMask_scale_zero :
  let imageData := {| width := 1; height := 1; data := 0%nat |} in
  let maskData := {| width := 1; height := 1; data := 1%nat |} in
  let h : heap := {[ 0%nat := Uint8ClampedArray [10; 20; 30; 255];
                     1%nat := Uint8ClampedArray [255; 0; 0; 255] ]} in
  let maskPosition := {| Masking.x := 0; Masking.y := 0; scale := 0 |} in
  (applyMask imageData maskData maskPosition h).2
    !! (applyMask imageData maskData maskPosition h).1.(data)
  = Some (Uint8ClampedArray [10; 20; 30; 255])
  ∧ masked_alpha 255
      (mask_value_at 1 1 1 1 [255; 0; 0; 255] 0 0 maskPosition.(scale) 0 0) = 0.
Proof. split; vm_compute; reflexivity. Qed.

End applyMask.

(** ** Contours *)

Section gray_is_a_number.

Local Open Scope Z_scope.

Lemma leb_0_nonneg x : (0 <=? x)%float = true → nonneg x = true.
Proof.
  rewrite leb_spec. unfold nonneg, SFleb.
  change (Prim2SF 0) with (S754_zero false).
  by destruct (Prim2SF x) as [s|[]| |[] m e].
Qed.

Lemma negb_ltb_leb x y :
  not_nan x → not_nan y → negb (x <? y)%float = (y <=? x)%float.
Proof.
  intros Hx Hy. destruct (x <? y)%float eqn:Hlt; simpl.
  - destruct (y <=? x)%float eqn:Hle; [|done].
    apply leb_true_ltb in Hle. congruence.
  - symmetry. by apply ltb_false_leb.
Qed.

(** The weighted channels, opaque or composited onto white, are never
    negative: by enumeration of the bytes. *)
Lemma weighted_nonneg (w : float) c a :
  In w [0.299; 0.587; 0.114]%float → byte c → byte a →
  nonneg (w * num c) = true
  ∧ nonneg (w * (num c * (num a / 255) + 255 * (1 - num a / 255))) = true.
Proof.
  intros Hw Hc Ha.
  assert (forallb (λ w, forallb (λ c, forallb (λ a,
            (0 <=? w * num c)%float
            && (0 <=? w * (num c * (num a / 255) + 255 * (1 - num a / 255)))%float)
            (seqZ 0 256)) (seqZ 0 256)) [0.299; 0.587; 0.114]%float = true) as Hall
    by (vm_compute; reflexivity).
  rewrite forallb_forall in Hall. specialize (Hall w Hw).
  pose proof (forallb_bytes _ Hall c Hc) as Hall'. cbv beta in Hall'.
  pose proof (forallb_bytes _ Hall' a Ha) as Hall''. cbv beta in Hall''.
  apply andb_true_iff in Hall'' as [H1 H2].
  split; by apply leb_0_nonneg.
Qed.

Lemma opaque_nonneg (w : float) c :
  In w [0.299; 0.587; 0.114]%float → byte c → nonneg (w * num c) = true.
Proof. intros Hw Hc. by apply (weighted_nonneg w c 0). Qed.

Lemma composite_nonneg (w : float) c a :
  In w [0.299; 0.587; 0.114]%float → byte c → byte a →
  nonneg (w * (num c * (num a / 255) + 255 * (1 - num a / 255))) = true.
Proof. intros Hw Hc Ha. by apply (weighted_nonneg w c a). Qed.

Lemma gray_of_nonneg d (p : nat) :
  Forall byte d → (4 * p + 3 < length d)%nat → nonneg (gray_of d p) = true.
Proof.
  intros Hbytes Hp.
  destruct (lookup_pixel d p Hp) as (r & g & b & a & Hpx).
  pose proof Hpx as (H0 & H1 & H2 & H3).
  assert (∀ i z, d !! i = Some z → byte z) as Hbyte
    by (intros i z; apply Forall_lookup_1, Hbytes).
  pose proof (Hbyte _ _ H0) as Hr. pose proof (Hbyte _ _ H1) as Hg.
  pose proof (Hbyte _ _ H2) as Hb. pose proof (Hbyte _ _ H3) as Ha.
  unfold gray_of.
  rewrite (getGrayOnWhite_value _ 0%nat d p r g b a)
    by (done || apply lookup_singleton_eq).
  destruct (num a =? 0)%float; [done|].
  destruct (num a <? 255)%float;
    repeat apply add_nonneg;
    first [apply composite_nonneg|apply opaque_nonneg]; (done || simpl; tauto).
Qed.

Lemma gray_of_not_nan d (p : nat) :
  Forall byte d → (4 * p + 3 < length d)%nat → not_nan (gray_of d p).
Proof. intros. by apply nonneg_not_nan, gray_of_nonneg. Qed.

End gray_is_a_number.

Section extractContours.

Import Contour.
Local Open Scope Z_scope.

Context (w hh : nat) (d : list Z) (threshold : float).
Context (Hlen : length d = (4 * (w * hh))%nat) (Hbytes : Forall byte d).

Local Abbreviation W := (Z.of_nat w).
Local Abbreviation H := (Z.of_nat hh).

Lemma arr_get_uint8 l i :
  0 ≤ i → arr_get (Uint8Array l) i = from_option num undefined (l !! Z.to_nat i).
Proof. intros Hi. unfold arr_get. by rewrite (proj2 (Z.ltb_ge i 0)). Qed.

Lemma gray_not_nan (q : Z) : 0 ≤ q < W * H → not_nan (gray_of d (Z.to_nat q)).
Proof. intros Hq. apply gray_of_not_nan; [done|]. clear -Hlen Hq. lia. Qed.

(** An element of [binary] is the Number 1 where the gray value is below
    the threshold, and 0 elsewhere. *)
Lemma wp_get_binary (binary : loc) bl k i Q (h : heap) :
  h !! binary = Some (Uint8Array bl) → binarized d W H threshold bl k →
  0 ≤ i < k →
  Q (if (gray_of d (Z.to_nat i) <? threshold)%float then 1%float else 0%float) h →
  wp (get binary i) Q h.
Proof.
  intros Hbin [_ Hbl] Hi HQ. apply wp_get. rewrite Hbin. cbn [from_option].
  rewrite arr_get_uint8, (Hbl (Z.to_nat i)) by lia. cbn [from_option].
  by destruct (gray_of d (Z.to_nat i) <? threshold)%float.
Qed.

(** [binary[q] === 0] says that the gray value at [q] is at or above a
    threshold that some gray value is below. *)
Lemma is_white (q q' : Z) :
  0 ≤ q < W * H → 0 ≤ q' < W * H →
  (gray_of d (Z.to_nat q') <? threshold)%float = true →
  ((if (gray_of d (Z.to_nat q) <? threshold)%float then 1 else 0) =? 0)%float
  = (threshold <=? gray_of d (Z.to_nat q))%float.
Proof.
  intros Hq Hq' Hbelow. apply ltb_not_nan in Hbelow as [_ Ht].
  rewrite <- (negb_ltb_leb (gray_of d (Z.to_nat q)) threshold)
    by (done || by apply gray_not_nan).
  by destruct (gray_of d (Z.to_nat q) <? threshold)%float.
Qed.

Lemma binarize (data binary : loc) (h : heap) Q :
  h !! data = Some (Uint8ClampedArray d) →
  h !! binary = Some (Uint8Array (replicate (Z.to_nat (W * H)) 0)) →
  data ≠ binary →
  (∀ bl, binarized d W H threshold bl (W * H) →
     Q () (<[binary := Uint8Array bl]> h)) →
  wp (for_ 0 (W * H) (λ i,
        let idx := i * 4 in
        gray ← Alpha.getGrayOnWhite data idx;
        set binary i (if (gray <? threshold)%float then 1 else 0)%float)) Q h.
Proof.
  intros Hd Hbin Hne HQ.
  apply (wp_for (λ i h', ∃ bl, h' = <[binary := Uint8Array bl]> h
                           ∧ binarized d W H threshold bl i)).
  - exists (replicate (Z.to_nat (W * H)) 0). split.
    + by rewrite insert_id.
    + split; [by rewrite length_replicate|]. intros; lia.
  - intros i h' Hi (bl & -> & Hlbl & Hbl). cbv zeta. apply wp_bind.
    apply (wp_getGray data d (Z.to_nat i)); [by rewrite lookup_insert_ne|lia|].
    eapply wp_set; [apply lookup_insert_eq|]. rewrite insert_insert_eq.
    rewrite arr_set_uint8 by lia. eexists. split; [reflexivity|].
    split; [by rewrite length_insert|].
    intros q Hq. destruct (decide (q = Z.to_nat i)) as [->|Hqi].
    + rewrite list_lookup_insert_eq by lia.
      by destruct (gray_of d (Z.to_nat i) <? threshold)%float.
    + rewrite list_lookup_insert_ne by done. apply Hbl. lia.
  - intros h' (bl & -> & Hbl). apply HQ.
    by replace (Z.max 0 (W * H)) with (W * H) in Hbl by lia.
Qed.

Lemma contour_value_border y x :
  0 ≤ y < H → 0 ≤ x < W → ¬ (0 < y < H - 1 ∧ 0 < x < W - 1) →
  contour_value d W H threshold y x = 255.
Proof.
  intros Hy Hx Hborder. unfold contour_value, marked.
  assert (on_border W H y x = true) as ->; [|done].
  unfold on_border. rewrite !orb_true_iff, !Z.eqb_eq. lia.
Qed.

Lemma contours_marked_ext (data binary result : loc) (v v' : Z → Z → bool) h :
  (∀ y x, 0 ≤ y < H → 0 ≤ x < W →
     (if v' y x then contour_value d W H threshold y x else 255)
     = (if v y x then contour_value d W H threshold y x else 255)) →
  contours_marked d W H threshold data binary result v h →
  contours_marked d W H threshold data binary result v' h.
Proof.
  intros Hext (Hd & Hbin & r & Hr & Hlr & Hpix). split; [done|]. split; [done|].
  exists r. split; [done|]. split; [done|].
  intros y x Hy Hx. cbv zeta. rewrite Hext by done. by apply Hpix.
Qed.

(** One iteration of the second loop, at a pixel off the border. *)
Lemma mark_pixel (binary result : loc) (h : heap) bl r y x :
  h !! binary = Some (Uint8Array bl) → binarized d W H threshold bl (W * H) →
  h !! result = Some (Uint8ClampedArray r) →
  0 < y < H - 1 → 0 < x < W - 1 →
  wp (let idx := y * W + x in
      b ← get binary idx;
      when (b =? 1)%float (
        left ← get binary (idx - 1);
        right ← get binary (idx + 1);
        up ← get binary (idx - W);
        down ← get binary (idx + W);
        let hasWhiteNeighbor :=
          (left =? 0)%float || (right =? 0)%float
          || (up =? 0)%float || (down =? 0)%float in
        when hasWhiteNeighbor (
          let pixelIdx := idx * 4 in
          set result pixelIdx 0;;
          set result (pixelIdx + 1) 0;;
          set result (pixelIdx + 2) 0;;
          set result (pixelIdx + 3) 255)))
     (λ _ h',
        h' = <[result := Uint8ClampedArray
                 (if marked d W H threshold y x
                  then set_pixel_bytes r (Z.to_nat (y * W + x)) 0 0 0 255
                  else r)]> h) h.
Proof.
  intros Hbin Hbl Hres Hy Hx. cbv zeta.
  assert (0 ≤ y * W + x - W ∧ y * W + x + W < W * H) as Hidx by nia.
  assert (on_border W H y x = false) as Hborder.
  { unfold on_border. rewrite !orb_false_iff, !Z.eqb_neq. lia. }
  unfold marked, on_contour, below, at_or_above, gray_at. rewrite Hborder.
  cbn [negb andb].
  replace (y * W + (x - 1)) with (y * W + x - 1) by lia.
  replace (y * W + (x + 1)) with (y * W + x + 1) by lia.
  replace ((y - 1) * W + x) with (y * W + x - W) by lia.
  replace ((y + 1) * W + x) with (y * W + x + W) by lia.
  apply wp_bind. eapply wp_get_binary; [done|done|lia|].
  destruct (gray_of d (Z.to_nat (y * W + x)) <? threshold)%float eqn:Hbelow.
  - change (1 =? 1)%float with true. cbn [when andb].
    do 4 (apply wp_bind; eapply wp_get_binary; [done|done|lia|]).
    rewrite !(is_white _ (y * W + x)) by (done || lia).
    apply wp_when.
    + intros ->.
      repeat first [wp_step | rewrite lookup_insert_eq].
      rewrite !insert_insert_eq. do 2 f_equal.
      rewrite !arr_set_clamped by lia. f_equal. unfold set_pixel_bytes.
      replace (Z.to_nat ((y * W + x) * 4))
        with (4 * Z.to_nat (y * W + x))%nat by lia.
      replace (Z.to_nat ((y * W + x) * 4 + 1))
        with (4 * Z.to_nat (y * W + x) + 1)%nat by lia.
      replace (Z.to_nat ((y * W + x) * 4 + 2))
        with (4 * Z.to_nat (y * W + x) + 2)%nat by lia.
      replace (Z.to_nat ((y * W + x) * 4 + 3))
        with (4 * Z.to_nat (y * W + x) + 3)%nat by lia.
      reflexivity.
    + intros ->. by rewrite insert_id.
  - change (0 =? 1)%float with false. cbn [when andb].
    apply wp_ret. by rewrite insert_id.
Qed.

Lemma white_pixel (n p : nat) :
  (4 * p + 3 < n)%nat → pixel_at (replicate n 255) p 255 255 255 255.
Proof. intros Hp. unfold pixel_at. by rewrite !lookup_replicate_2 by lia. Qed.

Lemma extractContours_marked (dat : loc) (h : heap) :
  h !! dat = Some (Uint8ClampedArray d) →
  wp (extractContours {| width := w; height := hh; data := dat |} threshold)
     (λ out h',
        out.(width) = w ∧ out.(height) = hh
        ∧ ∃ binary,
            contours_marked d W H threshold dat binary out.(data) (λ _ _, true) h') h.
Proof.
  intros Hd. unfold extractContours.
  apply wp_bind, wp_length_of. rewrite Hd. cbn [from_option arr_length].
  apply wp_bind, wp_alloc. intros result Hres. rewrite Nat2Z.id.
  apply wp_bind. eapply wp_fill; [apply lookup_insert_eq|].
  rewrite insert_insert_eq. cbn [arr_fill]. rewrite length_replicate.
  change (ToUint8Clamp 255) with 255.
  apply wp_bind, wp_alloc. intros binary Hbinary.
  assert (dat ≠ result) as Hdr by congruence.
  assert (binary ≠ result) as Hbr.
  { intros ->. by rewrite lookup_insert_eq in Hbinary. }
  assert (dat ≠ binary) as Hdb.
  { intros ->. rewrite lookup_insert_ne in Hbinary by done. congruence. }
  apply wp_bind. apply binarize;
    [by rewrite !lookup_insert_ne|apply lookup_insert_eq|done|].
  intros bl Hbl. rewrite insert_insert_eq.
  apply wp_bind.
  apply (wp_for (λ y, contours_marked d W H threshold dat binary result
                        (λ y' _, y' <? y))).
  - split; [by rewrite !lookup_insert_ne|].
    split; [exists bl; by rewrite lookup_insert_eq|].
    eexists. split; [by rewrite lookup_insert_ne, lookup_insert_eq|].
    split; [by rewrite length_replicate|].
    intros y x Hy Hx.
    destruct (pixel_index w hh d x y Hlen Hy Hx) as [_ Hidx].
    destruct (y <? 1) eqn:Hy1; cbv zeta; [|by apply white_pixel].
    rewrite contour_value_border by lia. by apply white_pixel.
  - intros y h1 Hy Hh1.
    apply (wp_for (λ x, contours_marked d W H threshold dat binary result
                          (λ y' x', (y' <? y) || ((y' =? y) && (x' <? x))))).
    + cbv beta. revert Hh1. apply contours_marked_ext. intros y' x' Hy' Hx'.
      destruct (Z.ltb_spec y' y); [done|]. cbn [orb].
      destruct (Z.eqb_spec y' y) as [->|]; [|done]. cbn [andb].
      destruct (Z.ltb_spec x' 1); [|done]. by rewrite contour_value_border by lia.
    + intros x h2 Hx (Hd2 & (bl2 & Hbin2 & Hbl2) & r & Hr & Hlr & Hpix).
      eapply wp_mono; [by apply (mark_pixel binary result h2 bl2 r); (done || lia)|].
      intros [] h3 ->.
      split; [by rewrite lookup_insert_ne|].
      split; [exists bl2; by rewrite lookup_insert_ne|].
      eexists. split; [apply lookup_insert_eq|].
      split; [destruct (marked _ _ _ _ _ _); by rewrite ?length_set_pixel_bytes|].
      intros y' x' Hy' Hx'. specialize (Hpix y' x' Hy' Hx'). cbv zeta in Hpix.
      destruct (pixel_index w hh d x y Hlen) as [_ Hidx]; [lia..|].
      destruct (decide (y' * W + x' = y * W + x)) as [Heq|Hne].
      * assert (y' = y) as ->.
        { destruct (Z.lt_trichotomy y' y) as [Hlt'|[?|Hgt']]; [|done|]; exfalso; nia. }
        assert (x' = x) as -> by lia.
        rewrite Z.ltb_irrefl, Z.eqb_refl in Hpix |- *. cbn [orb andb] in Hpix |- *.
        rewrite Z.ltb_irrefl in Hpix. rewrite (proj2 (Z.ltb_lt x (x + 1))) by lia.
        unfold contour_value.
        destruct (marked _ _ _ _ _ _); [|done].
        apply set_pixel_bytes_here. lia.
      * assert ((y' <? y) || ((y' =? y) && (x' <? x + 1))
                = (y' <? y) || ((y' =? y) && (x' <? x))) as ->.
        { destruct (Z.ltb_spec y' y); [done|]. cbn [orb].
          destruct (Z.eqb_spec y' y) as [->|]; [|done]. cbn [andb].
          destruct (Z.ltb_spec x' (x + 1)), (Z.ltb_spec x' x); (done || lia). }
        destruct (marked d W H threshold y x); [|done].
        apply set_pixel_bytes_other; [|done].
        pose proof (pixel_index w hh d x' y' Hlen Hy' Hx') as [? _]. lia.
    + intros h2. cbv beta. apply contours_marked_ext. intros y' x' Hy' Hx'.
      destruct (Z.ltb_spec y' (y + 1)), (Z.ltb_spec y' y); try lia; try done.
      * cbn [orb]. destruct (Z.eqb_spec y' y) as [->|]; [|lia]. cbn [andb].
        destruct (Z.ltb_spec x' (Z.max 1 (W - 1))); [done|].
        by rewrite contour_value_border by lia.
      * cbn [orb]. destruct (Z.eqb_spec y' y) as [->|]; [lia|done].
  - intros h1 Hh1. apply wp_ret. cbn [width height data].
    split; [done|]. split; [done|]. exists binary.
    revert Hh1. apply contours_marked_ext. intros y' x' Hy' Hx'.
    destruct (Z.ltb_spec y' (Z.max 1 (H - 1))); [done|].
    by rewrite contour_value_border by lia.
Qed.

End extractContours.

(** C7: [extractContours] colours a pixel black, with alpha 255, exactly
    when its alpha-aware gray value is below the threshold and one of its
    four neighbours has a gray value at or above the threshold, the pixels
    on the border of the image apart; every other pixel is white with alpha
    255, and a pixel on the border is never black. *)
Theorem extractContours_marks imageData threshold h d (x y : nat) :
  well_formed imageData h d →
  (x < imageData.(width))%nat → (y < imageData.(height))%nat →
  let W := Z.of_nat imageData.(width) in
  let H := Z.of_nat imageData.(height) in
  let out := (Contour.extractContours imageData threshold h).1 in
  let h' := (Contour.extractContours imageData threshold h).2 in
  let p := (y * imageData.(width) + x)%nat in
  let border := on_border W H (Z.of_nat y) (Z.of_nat x) in
  let contour := on_contour d W threshold (Z.of_nat y) (Z.of_nat x) in
  ∃ r, h' !! out.(data) = Some (Uint8ClampedArray r)
    ∧ (pixel_at r p 0 0 0 255 ↔ border = false ∧ contour = true)
    ∧ (¬ (border = false ∧ contour = true) → pixel_at r p 255 255 255 255)
    ∧ (border = true → ¬ pixel_at r p 0 0 0 255).
Proof.
  intros (Hd & Hlen & Hbytes) Hx Hy W H out h' p border contour.
  destruct imageData as [w hh dat]. cbn [width height data] in *.
  pose proof (extractContours_marked w hh d threshold Hlen Hbytes dat h Hd)
    as (_ & _ & binary & _ & _ & r & Hr & _ & Hpix).
  fold out h' in Hr, Hpix.
  specialize (Hpix (Z.of_nat y) (Z.of_nat x)). cbv zeta in Hpix.
  replace (Z.to_nat (Z.of_nat y * Z.of_nat w + Z.of_nat x)) with p in Hpix
    by (unfold p; lia).
  specialize (Hpix ltac:(lia) ltac:(lia)).
  unfold contour_value, marked in Hpix. fold W H border contour in Hpix.
  assert (pixel_at r p 255 255 255 255 → ¬ pixel_at r p 0 0 0 255) as Hwhite.
  { intros (H0 & _) (H0' & _). congruence. }
  exists r. split; [done|].
  destruct border, contour; cbn [negb andb] in Hpix.
  all: split;
    [split; [intros Hb; try done; by destruct (Hwhite Hpix Hb)|by intros [? ?]]|].
  all: split; [intros Hn; try done; by destruct Hn|intros Hb; try done; by apply Hwhite].
Qed.

(** ** Canny on a uniform image *)

Section evaluation.

Local Open Scope Z_scope.

(** Steps of a run on a store that is known. *)
Lemma wp_eval {A B} (m : M A) (k : A → M B) Q (h : heap) a h' :
  m h = (a, h') → wp (k a) Q h' → wp (m ≫= k) Q h.
Proof. unfold wp, mbind, M_bind. by intros ->. Qed.

Lemma wp_eval_ret {A} (m : M A) (Q : A → heap → Prop) (h : heap) a h' :
  m h = (a, h') → Q a h' → wp m Q h.
Proof. unfold wp. by intros ->. Qed.

(** A store into a [Float32Array] of a value that the run does not
    depend on. *)
Lemma wp_set_any (l : loc) i v fl Q (h : heap) :
  h !! l = Some (Float32Array fl) → 0 ≤ i →
  (∀ a, Q () (<[l := Float32Array (<[Z.to_nat i := a]> fl)]> h)) →
  wp (set l i v) Q h.
Proof.
  intros Hl Hi HQ. eapply wp_set; [done|]. rewrite arr_set_float32 by done. apply HQ.
Qed.

End evaluation.

Ltac run :=
  lazymatch goal with
  | |- ?lhs = _ =>
      let v := eval vm_compute in lhs in
      transitivity v; [vm_compute; reflexivity|reflexivity]
  end.

Ltac unroll_for :=
  lazymatch goal with
  | |- wp (for_ ?lo ?hi ?b) _ _ =>
      let l := eval vm_compute in (seqZ lo (hi - lo)) in
      change (for_ lo hi b) with (forM_ l b); cbn [forM_]; cbv beta
  end.

Ltac rets :=
  cbv beta;
  repeat (lazymatch goal with |- wp (mret _) _ _ => apply wp_ret end; cbv beta).

(** The Sobel step at one pixel: the direction stored is left arbitrary. *)
Ltac sobel_pixel a :=
  apply wp_bind; do 9 (eapply wp_eval; [run|]);
  eapply wp_set_any; [run|lia|intros a].

(** The four classes of the angle at one pixel. *)
Ltac classify :=
  repeat lazymatch goal with
  | |- wp ((if ?c then _ else _) ≫= _) _ _ => destruct c
  end.

(** The non-maximum suppression at one pixel, whatever the class. *)
Ltac suppress_pixel :=
  apply wp_bind; do 2 (eapply wp_eval; [run|]); classify;
  (eapply wp_eval; [run|]); cbv beta iota;
  (eapply wp_eval_ret; [run|]); rets.

(** C6 fails on the uniform white image of width 4 and height 3, at the
    default thresholds and whatever [Math.atan2] answers: the blur leaves
    the border of [blurred] at 0, the Sobel operator finds the magnitude 510
    at the two pixels off the border, both are strong, and
    [cannyEdgeDetection] returns them black. *)
Theorem cannyEdgeDetection_uniform_white (Math_atan2 : float → float → float) :
  let imageData := {| width := 4; height := 3; data := 0%nat |} in
  let h : heap := {[0%nat := Uint8ClampedArray (replicate 48 255%Z)]} in
  let out := (Contour.cannyEdgeDetection Math_atan2 imageData 50 150 h).1 in
  let h' := (Contour.cannyEdgeDetection Math_atan2 imageData 50 150 h).2 in
  ∃ o, out = Some o
    ∧ o.(width) = 4%nat ∧ o.(height) = 3%nat
    ∧ h' !! o.(data)
      = Some (Uint8ClampedArray
                (replicate 20 255 ++ [0; 0; 0; 255; 0; 0; 0; 255] ++ replicate 20 255)%Z).
Proof.
  intros imageData h.
  change (wp (Contour.cannyEdgeDetection Math_atan2 imageData 50 150)
            (λ out h', ∃ o, out = Some o
               ∧ o.(width) = 4%nat ∧ o.(height) = 3%nat
               ∧ h' !! o.(data)
                 = Some (Uint8ClampedArray
                           (replicate 20 255 ++ [0; 0; 0; 255; 0; 0; 0; 255]
                            ++ replicate 20 255)%Z)) h).
  subst imageData h. cbv beta iota zeta delta [Contour.cannyEdgeDetection].
  do 6 (eapply wp_eval; [run|]).
  apply wp_bind. unroll_for. apply wp_bind. unroll_for.
  sobel_pixel a1. sobel_pixel a2. rets.
  eapply wp_eval; [run|].
  apply wp_bind. unroll_for. apply wp_bind. unroll_for.
  suppress_pixel. all: suppress_pixel.
  all: eapply wp_eval_ret; [run|].
  all: eexists; split; [reflexivity|]; split; [done|]; split; [done|].
  all: vm_compute; reflexivity.
Qed.

(** ** The statements at sample inputs *)

Ltac sample_bytes := repeat (constructor; [unfold byte; lia|]); constructor.

Ltac sample_well_formed :=
  split; [vm_compute; reflexivity|split; [reflexivity|sample_bytes]].

Section witnesses.

Import Samples.
Local Open Scope Z_scope.

(** [floydSteinberg] on the 2x2 sample image gives the bytes of the
    specification. *)
Lemma floydSteinberg_at_2x2 :
  well_formed image_2x2 heap_2x2 bytes_2x2
  ∧ (Dithering.floydSteinberg image_2x2 heap_2x2).2
      !! (Dithering.floydSteinberg image_2x2 heap_2x2).1.(data)
    = Some (Uint8ClampedArray (floydSteinberg_spec 2 2 bytes_2x2)).
Proof.
  assert (well_formed image_2x2 heap_2x2 bytes_2x2) as Hwf by sample_well_formed.
  split; [exact Hwf|].
  exact (proj2 (proj2 (floydSteinberg_refines_spec image_2x2 heap_2x2 bytes_2x2 Hwf))).
Defined.

(** [atkinson] on the 2x2 sample image gives a black-and-white buffer with
    the alpha bytes of the input. *)
Lemma atkinson_at_2x2 :
  well_formed image_2x2 heap_2x2 bytes_2x2
  ∧ dithered image_2x2 bytes_2x2
      (Dithering.ditheringAlgorithms Dithering.Atkinson image_2x2 heap_2x2).1
      (Dithering.ditheringAlgorithms Dithering.Atkinson image_2x2 heap_2x2).2.
Proof.
  assert (well_formed image_2x2 heap_2x2 bytes_2x2) as Hwf by sample_well_formed.
  split; [exact Hwf|].
  exact (dithering_is_binary Dithering.Atkinson image_2x2 heap_2x2 bytes_2x2 Hwf).
Defined.

(** The gray value of the opaque red pixel is 76.245, up to rounding. *)
Lemma getGrayOnWhite_at_red :
  heap_2x2 !! 0%nat = Some (Uint8ClampedArray bytes_2x2)
  ∧ pixel_at bytes_2x2 0 255 0 0 255
  ∧ byte 255
  ∧ (Math_abs ((Alpha.getGrayOnWhite 0%nat (4 * Z.of_nat 0) heap_2x2).1 - 76.245)
       <? 1e-9)%float = true.
Proof.
  assert (heap_2x2 !! 0%nat = Some (Uint8ClampedArray bytes_2x2)) as Hd
    by (vm_compute; reflexivity).
  assert (pixel_at bytes_2x2 0 255 0 0 255) as Hpx by (repeat split).
  assert (byte 255) as Ha by (unfold byte; lia).
  split; [exact Hd|]. split; [exact Hpx|]. split; [exact Ha|].
  exact (proj1 (proj2 (proj2
           (getGrayOnWhite_formula heap_2x2 0%nat bytes_2x2 0 255 0 0 255 Hd Hpx Ha)))
           eq_refl eq_refl eq_refl eq_refl).
Defined.

(** [adjustGamma(buf, 1.0)] gives back the bytes of the 2x2 sample image. *)
Lemma noop_parameters_at_2x2 :
  (∀ x, pow_at_one x 1 = x)
  ∧ heap_2x2 !! image_2x2.(data) = Some (Uint8ClampedArray bytes_2x2)
  ∧ Forall byte bytes_2x2
  ∧ same_buffer image_2x2 bytes_2x2
      (Adjustments.adjustGamma pow_at_one image_2x2 1.0 heap_2x2).1
      (Adjustments.adjustGamma pow_at_one image_2x2 1.0 heap_2x2).2.
Proof.
  assert (∀ x, pow_at_one x 1 = x) as Hpow by reflexivity.
  assert (heap_2x2 !! image_2x2.(data) = Some (Uint8ClampedArray bytes_2x2)) as Hd
    by (vm_compute; reflexivity).
  assert (Forall byte bytes_2x2) as Hbytes by sample_bytes.
  split; [exact Hpow|]. split; [exact Hd|]. split; [exact Hbytes|].
  exact (proj1 (proj2
           (noop_parameters_are_identity pow_at_one Hpow image_2x2 heap_2x2 bytes_2x2
              Hd Hbytes))).
Defined.

(** The black pixel in the middle of the white 3x3 image is a contour at
    the threshold 128. *)
Lemma extractContours_at_3x3 :
  well_formed image_3x3 heap_3x3 bytes_3x3
  ∧ (1 < image_3x3.(width))%nat ∧ (1 < image_3x3.(height))%nat
  ∧ ∃ r, (Contour.extractContours image_3x3 128 heap_3x3).2
           !! (Contour.extractContours image_3x3 128 heap_3x3).1.(data)
         = Some (Uint8ClampedArray r)
       ∧ pixel_at r 4 0 0 0 255.
Proof.
  assert (well_formed image_3x3 heap_3x3 bytes_3x3) as Hwf by sample_well_formed.
  assert (1 < image_3x3.(width))%nat as Hx by (simpl; lia).
  assert (1 < image_3x3.(height))%nat as Hy by (simpl; lia).
  split; [exact Hwf|]. split; [exact Hx|]. split; [exact Hy|].
  destruct (extractContours_marks image_3x3 128 heap_3x3 bytes_3x3 1 1 Hwf Hx Hy)
    as (r & Hr & Hblack & _).
  exists r. split; [exact Hr|].
  apply Hblack. split; vm_compute; reflexivity.
Defined.

(** A mask pixel of red 128 turns the alpha 255 into 128 and keeps the
    colour. *)
Lemma applyMask_at_1x1 :
  well_formed image_1x1 heap_1x1 bytes_1x1
  ∧ heap_1x1 !! maskData_1x1.(data) = Some (Uint8ClampedArray mask_1x1)
  ∧ (0 < image_1x1.(width))%nat ∧ (0 < image_1x1.(height))%nat
  ∧ ∃ r, (Masking.applyMask image_1x1 maskData_1x1 Masking.default_maskPosition heap_1x1).2
           !! (Masking.applyMask image_1x1 maskData_1x1 Masking.default_maskPosition
                 heap_1x1).1.(data)
         = Some (Uint8ClampedArray r)
       ∧ pixel_at r 0 10 20 30 128.
Proof.
  assert (well_formed image_1x1 heap_1x1 bytes_1x1) as Hwf by sample_well_formed.
  assert (heap_1x1 !! maskData_1x1.(data) = Some (Uint8ClampedArray mask_1x1)) as Hmd
    by (vm_compute; reflexivity).
  assert (0 < image_1x1.(width))%nat as Hx by (simpl; lia).
  assert (0 < image_1x1.(height))%nat as Hy by (simpl; lia).
  split; [exact Hwf|]. split; [exact Hmd|]. split; [exact Hx|]. split; [exact Hy|].
  destruct (applyMask_alpha image_1x1 maskData_1x1 Masking.default_maskPosition
              heap_1x1 bytes_1x1 mask_1x1 0 0 Hwf Hmd Hx Hy)
    as (r & red & green & blue & alpha & Hr & Hin & Hout).
  exists r. split; [exact Hr|].
  destruct Hin as (H0 & H1 & H2 & H3).
  injection H0 as <-. injection H1 as <-. injection H2 as <-. injection H3 as <-.
  exact Hout.
Defined.


(** The fourth pixel of the white column meets the threshold 255 and comes
    out black. *)
Lemma bayerOrdered4x4_at_1x4 :
  well_formed image_1x4 heap_1x4 bytes_1x4
  ∧ (0 < image_1x4.(width))%nat ∧ (3 < image_1x4.(height))%nat
  ∧ Z.of_nat 3 mod 4 = 3 ∧ Z.of_nat 0 mod 4 = 0
  ∧ (255 <? gray_of bytes_1x4 (3 * image_1x4.(width) + 0))%float = false
  ∧ ∃ r, (Dithering.bayerOrdered4x4 image_1x4 heap_1x4).2
           !! (Dithering.bayerOrdered4x4 image_1x4 heap_1x4).1.(data)
         = Some (Uint8ClampedArray r)
       ∧ pixel_is bytes_1x4 r 3 0.
Proof.
  assert (well_formed image_1x4 heap_1x4 bytes_1x4) as Hwf by sample_well_formed.
  assert (0 < image_1x4.(width))%nat as Hx by (simpl; lia).
  assert (3 < image_1x4.(height))%nat as Hy by (simpl; lia).
  assert (Z.of_nat 3 mod 4 = 3) as Hymod by reflexivity.
  assert (Z.of_nat 0 mod 4 = 0) as Hxmod by reflexivity.
  assert ((255 <? gray_of bytes_1x4 (3 * image_1x4.(width) + 0))%float = false) as Hgray
    by (vm_compute; reflexivity).
  split; [exact Hwf|]. split; [exact Hx|]. split; [exact Hy|].
  split; [exact Hymod|]. split; [exact Hxmod|]. split; [exact Hgray|].
  destruct (bayerOrdered4x4_black_positions image_1x4 heap_1x4 bytes_1x4 0 3
              Hwf Hx Hy Hymod Hxmod Hgray)
    as (r & Hr & Hblack & _).
  exists r. split; [exact Hr|exact Hblack].
Defined.

(** The bytes that the code computes on the 2x2 sample image. *)
Example floydSteinberg_2x2_bytes :
  (Dithering.floydSteinberg image_2x2 heap_2x2).2
    !! (Dithering.floydSteinberg image_2x2 heap_2x2).1.(data)
  = Some (Uint8ClampedArray
            [0; 0; 0; 255;  255; 255; 255; 255;  255; 255; 255; 0;  255; 255; 255; 128]).
Proof. vm_compute. reflexivity. Qed.

Example floydSteinberg_spec_2x2_bytes :
  floydSteinberg_spec 2 2 bytes_2x2
  = [0; 0; 0; 255;  255; 255; 255; 255;  255; 255; 255; 0;  255; 255; 255; 128].
Proof. vm_compute. reflexivity. Qed.

Example extractContours_3x3_bytes :
  (Contour.extractContours image_3x3 128 heap_3x3).2
    !! (Contour.extractContours image_3x3 128 heap_3x3).1.(data)
  = Some (Uint8ClampedArray bytes_3x3).
Proof. vm_compute. reflexivity. Qed.

End witnesses.

(** ** What a [Uint8ClampedArray] holds *)

Section bytes_stored.

Local Open Scope Z_scope.

Lemma digits2_pos_bound m : Z.pos m < 2 ^ Z.pos (digits2_pos m).
Proof.
  induction m as [m IH|m IH|]; simpl digits2_pos; [| |done].
  - rewrite Pos2Z.inj_succ, Z.pow_succ_r by lia. lia.
  - rewrite Pos2Z.inj_succ, Z.pow_succ_r by lia. lia.
Qed.

Lemma valid_mantissa s m e :
  valid_binary (S754_finite s m e) = true → Z.pos m < 2 ^ 53.
Proof.
  unfold SpecFloat.valid_binary, bounded, canonical_mantissa, fexp.
  intros [Hcan _]%andb_true_iff. apply Z.eqb_eq in Hcan.
  pose proof (digits2_pos_bound m) as Hm.
  assert (Z.pos (digits2_pos m) ≤ 53) as Hdigits by (unfold prec in Hcan; lia).
  eapply Z.lt_le_trans; [exact Hm|]. apply Z.pow_le_mono_r; lia.
Qed.

(** Whatever Number is stored, the element is a byte. *)
Lemma ToUint8Clamp_byte x : byte (ToUint8Clamp x).
Proof.
  unfold ToUint8Clamp, byte.
  destruct (is_nan x); [lia|].
  destruct (x <=? 0)%float eqn:Hpos; [lia|].
  destruct (255 <=? x)%float eqn:Hmax; [lia|].
  pose proof (Prim2SF_valid x) as Hvalid.
  rewrite leb_spec in Hpos, Hmax.
  destruct (Prim2SF x) as [| | |s m e]; [lia..|].
  apply valid_mantissa in Hvalid.
  change (Prim2SF 0) with (S754_zero false) in Hpos.
  change (Prim2SF 255) with (S754_finite false 8972014882652160 (-45)) in Hmax.
  unfold SFleb, SFcompare in Hpos, Hmax. destruct s; [done|].
  assert (e < -45 ∨ (e = -45 ∧ Z.pos m < 8972014882652160)) as He.
  { destruct (Z.compare_spec (-45) e) as [<-|Hlt|Hgt]; [|done|lia].
    right. split; [done|].
    destruct (Pos.compare_cont Eq 8972014882652160 m) eqn:Hc; try done.
    change (Pos.compare 8972014882652160 m = Gt) in Hc.
    apply Pos.compare_gt_iff in Hc. by apply Pos2Z.pos_lt_pos. }
  clear Hpos Hmax.
  assert (0 ≤ Z.shiftl (Z.pos m) e < 255) as Hf.
  { rewrite <- (Z.opp_involutive e), Z.shiftl_opp_r, Z.shiftr_div_pow2 by lia.
    split; [apply Z.div_pos; lia|].
    apply Z.div_lt_upper_bound; [lia|].
    destruct He as [He|[-> Hm]]; [|simpl; lia].
    assert (2 ^ 46 ≤ 2 ^ (- e)) by (apply Z.pow_le_mono_r; lia).
    change (2 ^ 53) with (128 * 2 ^ 46) in Hvalid. nia. }
  destruct (0 <=? e) eqn:He0; [apply Z.leb_le in He0; lia|].
  repeat match goal with |- context [match ?c with _ => _ end] => destruct c end; lia.
Qed.

End bytes_stored.

(** ** The adjustments keep the size and the alpha channel *)

Section keeping.

Local Open Scope Z_scope.

Context (d : list Z) (T : gset loc).

Lemma keeps_ret {A} (a : A) (Ψ : A → heap → Prop) :
  (∀ h, alpha_kept d T h → Ψ a h) → keeps d T (mret a) Ψ.
Proof. intros HΨ h Hh. split; [done|]. by apply HΨ. Qed.

Lemma keeps_bind {A B} (m : M A) (k : A → M B) (Φ : A → Prop) Ψ :
  keeps d T m (λ a _, Φ a) → (∀ a, Φ a → keeps d T (k a) Ψ) →
  keeps d T (m ≫= k) Ψ.
Proof.
  intros Hm Hk h Hh. unfold mbind, M_bind.
  destruct (Hm h Hh) as [H1 H2]. destruct (m h) as [a h1]. simpl in *.
  by apply Hk.
Qed.

Lemma keeps_weaken {A} (m : M A) (Ψ Ψ' : A → heap → Prop) :
  keeps d T m Ψ → (∀ a h, Ψ a h → Ψ' a h) → keeps d T m Ψ'.
Proof. intros Hm HΨ h Hh. destruct (Hm h Hh). auto. Qed.

Lemma keeps_read_only {A} (m : M A) : read_only m → keeps d T m (λ _ _, True).
Proof. intros Hm h Hh. by rewrite Hm. Qed.

Lemma keeps_get l i : keeps d T (get l i) (λ _ _, True).
Proof. by apply keeps_read_only. Qed.

Lemma keeps_get_at l k : keeps d T (get_at l k) (λ _ _, True).
Proof. unfold get_at. destruct (to_int k); by apply keeps_read_only. Qed.

Lemma keeps_length_of l : keeps d T (length_of l) (λ _ _, True).
Proof. by apply keeps_read_only. Qed.

Lemma keeps_getGrayOnWhite data idx :
  keeps d T (Alpha.getGrayOnWhite data idx) (λ _ _, True).
Proof. apply keeps_read_only, read_only_getGray. Qed.

Lemma keeps_alloc a : keeps d T (alloc a) (λ l _, l ∉ T).
Proof.
  intros h Hh. unfold alloc. simpl.
  assert (fresh (dom h) ∉ T) as Hfresh.
  { intros (r & Hr & _)%Hh. apply (is_fresh (dom h)). by apply elem_of_dom. }
  split; [|done]. intros l Hl. rewrite lookup_insert_ne by congruence. by apply Hh.
Qed.

Lemma same_alpha_insert r (i : nat) v :
  same_alpha d r → (Z.of_nat i) mod 4 ≠ 3 → same_alpha d (<[i := ToUint8Clamp v]> r).
Proof.
  intros (Hlen & Hbytes & Halpha) Hi. split; [by rewrite length_insert|]. split.
  - apply Forall_insert; [done|]. apply ToUint8Clamp_byte.
  - intros p. rewrite list_lookup_insert_ne; [done|]. intros ->. apply Hi.
    clear. rewrite Nat2Z.inj_add, Nat2Z.inj_mul. simpl Z.of_nat.
    rewrite Z.add_comm, Z.mul_comm. by rewrite Z.mod_add.
Qed.

(** A store at an index that is not the index of an alpha byte. *)
Lemma keeps_set_rgb l i v :
  (0 ≤ i → i mod 4 ≠ 3) → keeps d T (set l i v) (λ _ _, True).
Proof.
  intros Hi h Hh. split; [|done]. unfold set. simpl.
  destruct (h !! l) as [a|] eqn:Ha; [|done].
  intros l' Hl'. destruct (decide (l' = l)) as [->|Hne].
  - rewrite lookup_insert_eq. destruct (Hh l Hl') as (r & Hr & Hsame).
    rewrite Hr in Ha. injection Ha as <-. unfold arr_set.
    destruct (i <? 0) eqn:Hneg; [by exists r|]. apply Z.ltb_ge in Hneg.
    eexists. split; [done|]. apply same_alpha_insert; [done|].
    rewrite Z2Nat.id by done. by apply Hi.
  - rewrite lookup_insert_ne by done. by apply Hh.
Qed.

(** A store into an array that is not one of [T]. *)
Lemma keeps_set_other l i v : l ∉ T → keeps d T (set l i v) (λ _ _, True).
Proof.
  intros Hl h Hh. split; [|done]. unfold set. simpl.
  destruct (h !! l) as [a|] eqn:Ha; [|done].
  intros l' Hl'. rewrite lookup_insert_ne by set_solver. by apply Hh.
Qed.

Lemma keeps_set_at_other l k v : l ∉ T → keeps d T (set_at l k v) (λ _ _, True).
Proof.
  intros Hl. unfold set_at.
  destruct (to_int k); [by apply keeps_set_other|by apply keeps_ret].
Qed.

(** [l2[j] = l1[j]], from an array of [T]. *)
Lemma keeps_copy l1 l2 j :
  l1 ∈ T → keeps d T (get l1 j ≫= λ a, set l2 j a) (λ _ _, True).
Proof.
  intros Hl1 h Hh. split; [|done]. unfold mbind, M_bind, get, set. simpl.
  destruct (Hh l1 Hl1) as (r1 & Hr1 & Hlen1 & Hbytes1 & Halpha1). rewrite Hr1. simpl.
  destruct (h !! l2) as [a|] eqn:Ha; [|done].
  intros l' Hl'. destruct (decide (l' = l2)) as [->|Hne];
    [|rewrite lookup_insert_ne by done; by apply Hh].
  rewrite lookup_insert_eq. destruct (Hh l2 Hl') as (r2 & Hr2 & Hlen2 & Hbytes2 & Halpha2).
  rewrite Hr2 in Ha. injection Ha as <-. unfold arr_set, arr_get.
  destruct (j <? 0) eqn:Hneg; [by exists r2|]. apply Z.ltb_ge in Hneg.
  eexists. split; [done|]. split; [by rewrite length_insert|]. split.
  - apply Forall_insert; [done|]. apply ToUint8Clamp_byte.
  - intros p. destruct (decide (Z.to_nat j = (4 * p + 3)%nat)) as [Hj|Hj];
      [|by rewrite list_lookup_insert_ne].
    rewrite Hj. destruct (r1 !! (4 * p + 3)%nat) as [z|] eqn:Hz.
    + rewrite list_lookup_insert_eq
        by (apply lookup_lt_Some in Hz; rewrite Hlen2, <- Hlen1; exact Hz).
      cbn [from_option]. rewrite ToUint8Clamp_num by (by eapply (Forall_lookup_1 _ r1)).
      by rewrite <- Halpha1, Hz.
    + rewrite list_insert_ge; [by rewrite Halpha2|].
      apply lookup_ge_None in Hz. rewrite Hlen2, <- Hlen1. exact Hz.
Qed.

Lemma keeps_when (b : bool) m :
  keeps d T m (λ _ _, True) → keeps d T (when b m) (λ _ _, True).
Proof. destruct b; [done|]. intros _. by apply keeps_ret. Qed.

Lemma keeps_forM l body :
  (∀ i, i ∈ l → keeps d T (body i) (λ _ _, True)) →
  keeps d T (forM_ l body) (λ _ _, True).
Proof.
  induction l as [|i l IH]; intros Hb; simpl; [by apply keeps_ret|].
  apply (keeps_bind _ _ (λ _, True)).
  - apply Hb. left.
  - intros _ _. apply IH. intros j Hj. apply Hb. by right.
Qed.

Lemma keeps_for lo hi body :
  (∀ i, lo ≤ i < hi → keeps d T (body i) (λ _ _, True)) →
  keeps d T (for_ lo hi body) (λ _ _, True).
Proof.
  intros Hb. apply keeps_forM. intros i Hi%elem_of_seqZ. apply Hb. lia.
Qed.

Lemma keeps_for_step lo hi step body :
  (∀ k, 0 ≤ k → keeps d T (body (lo + k * step)) (λ _ _, True)) →
  keeps d T (for_step lo hi step body) (λ _ _, True).
Proof.
  intros Hb. apply keeps_forM. intros i (k & -> & Hk%elem_of_seqZ)%list_elem_of_fmap.
  apply Hb. lia.
Qed.

Lemma keeps_foldM {S} l (body : Z → S → M S) s :
  (∀ i s, keeps d T (body i s) (λ _ _, True)) →
  keeps d T (foldM l body s) (λ _ _, True).
Proof.
  intros Hb. revert s. induction l as [|i l IH]; intros s; simpl; [by apply keeps_ret|].
  apply (keeps_bind _ _ (λ _, True)); [apply Hb|]. intros s' _. apply IH.
Qed.

Lemma keeps_for_acc {S} lo hi (s : S) body :
  (∀ i s, keeps d T (body i s) (λ _ _, True)) →
  keeps d T (for_acc lo hi s body) (λ _ _, True).
Proof. apply keeps_foldM. Qed.

Lemma keeps_foldM_break {S} l (body : Z → S → M (S * bool)) s :
  (∀ i s, keeps d T (body i s) (λ _ _, True)) →
  keeps d T (foldM_break l body s) (λ _ _, True).
Proof.
  intros Hb. revert s. induction l as [|i l IH]; intros s; simpl; [by apply keeps_ret|].
  apply (keeps_bind _ _ (λ _, True)); [apply Hb|].
  intros [s' stop] _. simpl. destruct stop; [by apply keeps_ret|apply IH].
Qed.

(** A call that leaves the arrays of the store as they are. *)
Lemma keeps_framed {A} (m : M A) (Ψ : heap → A → gset loc → Prop) :
  (∀ h0 D, framed h0 D m (Ψ h0)) → keeps d T m (λ _ _, True).
Proof.
  intros Hm h Hh. split; [|done].
  destruct (Hm h (dom h) h) as (Hsub & _); [done..|].
  intros l (r & Hr & Hsame)%Hh. exists r. split; [|done]. by eapply lookup_weaken.
Qed.

End keeping.

Section keeping_results.

Local Open Scope Z_scope.

(** [new Uint8ClampedArray(data)] of an array of [T] gives one more. *)
Lemma keeps_new_from {A} d (T : gset loc) dat (rest : loc → M A) Ψ :
  dat ∈ T →
  (∀ result, result ∉ T → keeps d ({[result]} ∪ T) (rest result) Ψ) →
  keeps d T (new_Uint8ClampedArray_from dat ≫= rest) Ψ.
Proof.
  intros Hdat Hrest h Hh. unfold mbind, M_bind, new_Uint8ClampedArray_from, alloc.
  destruct (Hh dat Hdat) as (r0 & Hr0 & Hsame). rewrite Hr0. simpl.
  rewrite copy_bytes by apply Hsame.
  assert (fresh (dom h) ∉ T) as Hfresh.
  { intros (r & Hr & _)%Hh. apply (is_fresh (dom h)). by apply elem_of_dom. }
  destruct (Hrest _ Hfresh (<[fresh (dom h) := Uint8ClampedArray r0]> h)) as [Hkept HΨ].
  - intros l [->%elem_of_singleton|Hl]%elem_of_union.
    + exists r0. by rewrite lookup_insert_eq.
    + rewrite lookup_insert_ne by congruence. by apply Hh.
  - split; [|done]. intros l Hl. apply Hkept. set_solver.
Qed.

Lemma keeps_ret_image d (T : gset loc) imageData w hh result :
  imageData.(width) = w → imageData.(height) = hh → result ∈ T →
  keeps d T (mret {| width := w; height := hh; data := result |})
    (keeps_alpha_of imageData d).
Proof.
  intros Hw Hh Hres. apply keeps_ret. intros h Hkept.
  split; [done|]. split; [done|]. by apply Hkept.
Qed.

Lemma wp_keeps {A} d (T : gset loc) (m : M A) Ψ h :
  alpha_kept d T h → keeps d T m Ψ → wp m Ψ h.
Proof. intros Hh Hm. by apply Hm. Qed.

Lemma alpha_kept_input d (dat : loc) (h : heap) :
  h !! dat = Some (Uint8ClampedArray d) → Forall byte d → alpha_kept d {[dat]} h.
Proof. intros Hd Hbytes l ->%elem_of_singleton. by exists d. Qed.

End keeping_results.

Ltac keeps_facts :=
  repeat match goal with
  | x : ProcessingImageData |- _ => destruct x; cbn [data width height] in *
  | x : (_ * _)%type |- _ => destruct x
  | x : unit |- _ => destruct x
  end.

Ltac keeps_go :=
  cbv beta iota zeta;
  lazymatch goal with
  | |- keeps _ _ (new_Uint8ClampedArray_from _ ≫= _) _ =>
      apply keeps_new_from; [set_solver | intros ? ?; keeps_go]
  | |- keeps _ _ (get _ _ ≫= _) _ =>
      first
        [ apply keeps_copy; set_solver
        | apply (keeps_bind _ _ _ _ (λ _, True));
            [apply keeps_get | intros ? _; keeps_go] ]
  | |- keeps _ _ (alloc _ ≫= _) _ =>
      eapply keeps_bind; [apply keeps_alloc | intros ? ?; keeps_go]
  | |- keeps _ _ (new_Uint8Array _ ≫= _) _ =>
      eapply keeps_bind; [apply keeps_alloc | intros ? ?; keeps_go]
  | |- keeps _ _ (new_Array_fill _ _ ≫= _) _ =>
      eapply keeps_bind; [apply keeps_alloc | intros ? ?; keeps_go]
  | |- keeps _ _ (_ ≫= _) _ =>
      apply (keeps_bind _ _ _ _ (λ _, True));
        [keeps_go | intros ? _; keeps_facts; keeps_go]
  | |- keeps _ _ (mret _) (keeps_alpha_of _ _) =>
      apply keeps_ret_image; [reflexivity | reflexivity | set_solver]
  | |- keeps _ _ (mret _) _ => by apply keeps_ret
  | |- keeps _ _ (get _ _) _ => apply keeps_get
  | |- keeps _ _ (get_at _ _) _ => apply keeps_get_at
  | |- keeps _ _ (length_of _) _ => apply keeps_length_of
  | |- keeps _ _ (Alpha.getGrayOnWhite _ _) _ => apply keeps_getGrayOnWhite
  | |- keeps _ _ (set _ _ _) _ =>
      first [ apply keeps_set_rgb; intros ?; Z.div_mod_to_equations; lia
            | apply keeps_set_other; set_solver ]
  | |- keeps _ _ (set_at _ _ _) _ => apply keeps_set_at_other; set_solver
  | |- keeps _ _ (when _ _) _ => apply keeps_when; keeps_go
  | |- keeps _ _ (for_ _ _ _) _ => apply keeps_for; intros ? ?; keeps_go
  | |- keeps _ _ (for_step _ _ _ _) _ => apply keeps_for_step; intros ? ?; keeps_go
  | |- keeps _ _ (for_acc _ _ _ _) _ =>
      apply keeps_for_acc; intros ? ?; keeps_facts; keeps_go
  | |- keeps _ _ (foldM_break _ _ _) _ =>
      apply keeps_foldM_break; intros ? ?; keeps_facts; keeps_go
  | |- keeps _ _ (if ?b then _ else _) _ => destruct b; keeps_go
  | |- keeps _ _ (match ?x with _ => _ end) _ => destruct x; keeps_go
  | |- keeps _ _ _ _ =>
      eapply keeps_framed; intros ? ?;
      first [ apply toGrayscale_framed | apply invert_framed | apply boxBlur_framed ]
  end.

Section adjustments_keep_alpha.

Import Adjustments.
Local Open Scope Z_scope.

Lemma toGrayscale_keeps_alpha imageData h d :
  h !! imageData.(data) = Some (Uint8ClampedArray d) → Forall byte d →
  wp (toGrayscale imageData) (keeps_alpha_of imageData d) h.
Proof.
  intros Hd Hbytes. destruct imageData as [w hh dat]. cbn [data] in Hd.
  apply (wp_keeps d {[dat]}); [by apply alpha_kept_input|].
  unfold toGrayscale. keeps_go.
Qed.

Lemma adjustBrightness_keeps_alpha imageData amount h d :
  h !! imageData.(data) = Some (Uint8ClampedArray d) → Forall byte d →
  wp (adjustBrightness imageData amount) (keeps_alpha_of imageData d) h.
Proof.
  intros Hd Hbytes. destruct imageData as [w hh dat]. cbn [data] in Hd.
  apply (wp_keeps d {[dat]}); [by apply alpha_kept_input|].
  unfold adjustBrightness. keeps_go.
Qed.

Lemma adjustContrast_keeps_alpha imageData amount h d :
  h !! imageData.(data) = Some (Uint8ClampedArray d) → Forall byte d →
  wp (adjustContrast imageData amount) (keeps_alpha_of imageData d) h.
Proof.
  intros Hd Hbytes. destruct imageData as [w hh dat]. cbn [data] in Hd.
  apply (wp_keeps d {[dat]}); [by apply alpha_kept_input|].
  unfold adjustContrast. keeps_go.
Qed.

Lemma adjustGamma_keeps_alpha Math_pow imageData gamma h d :
  h !! imageData.(data) = Some (Uint8ClampedArray d) → Forall byte d →
  wp (adjustGamma Math_pow imageData gamma) (keeps_alpha_of imageData d) h.
Proof.
  intros Hd Hbytes. destruct imageData as [w hh dat]. cbn [data] in Hd.
  apply (wp_keeps d {[dat]}); [by apply alpha_kept_input|].
  unfold adjustGamma. keeps_go.
Qed.

Lemma invert_keeps_alpha imageData h d :
  h !! imageData.(data) = Some (Uint8ClampedArray d) → Forall byte d →
  wp (invert imageData) (keeps_alpha_of imageData d) h.
Proof.
  intros Hd Hbytes. destruct imageData as [w hh dat]. cbn [data] in Hd.
  apply (wp_keeps d {[dat]}); [by apply alpha_kept_input|].
  unfold invert. keeps_go.
Qed.

Lemma unsharpMask_keeps_alpha imageData radius amount threshold h d :
  h !! imageData.(data) = Some (Uint8ClampedArray d) → Forall byte d →
  wp (unsharpMask imageData radius amount threshold) (keeps_alpha_of imageData d) h.
Proof.
  intros Hd Hbytes. destruct imageData as [w hh dat]. cbn [data] in Hd.
  apply (wp_keeps d {[dat]}); [by apply alpha_kept_input|].
  unfold unsharpMask. keeps_go.
Qed.

Lemma edgeEnhance_keeps_alpha imageData strength h d :
  h !! imageData.(data) = Some (Uint8ClampedArray d) → Forall byte d →
  wp (edgeEnhance imageData strength) (keeps_alpha_of imageData d) h.
Proof.
  intros Hd Hbytes. destruct imageData as [w hh dat]. cbn [data] in Hd.
  apply (wp_keeps d {[dat]}); [by apply alpha_kept_input|].
  unfold edgeEnhance. keeps_go.
Qed.

Lemma denoise_keeps_alpha imageData strength h d :
  h !! imageData.(data) = Some (Uint8ClampedArray d) → Forall byte d →
  wp (denoise imageData strength) (keeps_alpha_of imageData d) h.
Proof.
  intros Hd Hbytes. destruct imageData as [w hh dat]. cbn [data] in Hd.
  apply (wp_keeps d {[dat]}); [by apply alpha_kept_input|].
  unfold denoise. keeps_go.
Qed.

Lemma autoAdjust_keeps_alpha imageData h d :
  h !! imageData.(data) = Some (Uint8ClampedArray d) → Forall byte d →
  wp (autoAdjust imageData) (keeps_alpha_of imageData d) h.
Proof.
  intros Hd Hbytes. destruct imageData as [w hh dat]. cbn [data] in Hd.
  apply (wp_keeps d {[dat]}); [by apply alpha_kept_input|].
  unfold autoAdjust. keeps_go.
Qed.

Lemma adjustLevels_keeps_alpha imageData blackPoint whitePoint h d :
  h !! imageData.(data) = Some (Uint8ClampedArray d) → Forall byte d →
  wp (adjustLevels imageData blackPoint whitePoint) (keeps_alpha_of imageData d) h.
Proof.
  intros Hd Hbytes. destruct imageData as [w hh dat]. cbn [data] in Hd.
  apply (wp_keeps d {[dat]}); [by apply alpha_kept_input|].
  unfold adjustLevels. keeps_go.
Qed.

Lemma threshold_keeps_alpha imageData thresholdValue h d :
  h !! imageData.(data) = Some (Uint8ClampedArray d) → Forall byte d →
  wp (threshold imageData thresholdValue) (keeps_alpha_of imageData d) h.
Proof.
  intros Hd Hbytes. destruct imageData as [w hh dat]. cbn [data] in Hd.
  apply (wp_keeps d {[dat]}); [by apply alpha_kept_input|].
  unfold threshold. keeps_go.
Qed.

Lemma colorCorrection_keeps_alpha imageData shadowLift highlightCompress h d :
  h !! imageData.(data) = Some (Uint8ClampedArray d) → Forall byte d →
  wp (colorCorrection imageData shadowLift highlightCompress)
     (keeps_alpha_of imageData d) h.
Proof.
  intros Hd Hbytes. destruct imageData as [w hh dat]. cbn [data] in Hd.
  apply (wp_keeps d {[dat]}); [by apply alpha_kept_input|].
  unfold colorCorrection. keeps_go.
Qed.

Lemma sketchEffect_keeps_alpha imageData h d :
  h !! imageData.(data) = Some (Uint8ClampedArray d) → Forall byte d →
  wp (sketchEffect imageData) (keeps_alpha_of imageData d) h.
Proof.
  intros Hd Hbytes. destruct imageData as [w hh dat]. cbn [data] in Hd.
  apply (wp_keeps d {[dat]}); [by apply alpha_kept_input|].
  unfold sketchEffect. keeps_go.
Qed.

Lemma pixelwise_keeps_alpha Math_pow f imageData h d :
  pixelwise_adjustment Math_pow f →
  h !! imageData.(data) = Some (Uint8ClampedArray d) → Forall byte d →
  wp (f imageData) (keeps_alpha_of imageData d) h.
Proof.
  intros Hf Hd Hbytes.
  destruct Hf;
    auto using toGrayscale_keeps_alpha, adjustBrightness_keeps_alpha,
      adjustContrast_keeps_alpha, adjustGamma_keeps_alpha, invert_keeps_alpha,
      unsharpMask_keeps_alpha, edgeEnhance_keeps_alpha, denoise_keeps_alpha,
      autoAdjust_keeps_alpha, adjustLevels_keeps_alpha, threshold_keeps_alpha,
      colorCorrection_keeps_alpha, sketchEffect_keeps_alpha.
Qed.

Lemma same_alpha_trans d r r' : same_alpha d r → same_alpha r r' → same_alpha d r'.
Proof.
  intros (Hlen & _ & Halpha) (Hlen' & Hbytes' & Halpha').
  split; [congruence|]. split; [done|]. intros p. by rewrite Halpha'.
Qed.

(** A pixelwise adjustment as a stage of a chain that started from [d]. *)
Lemma pixelwise_stage Math_pow f imageData d img h :
  pixelwise_adjustment Math_pow f →
  keeps_alpha_of imageData d img h →
  wp (f img) (keeps_alpha_of imageData d) h.
Proof.
  intros Hf (Hw & Hh & r & Hr & Hsame).
  eapply wp_mono; [apply (pixelwise_keeps_alpha Math_pow f img h r Hf Hr), Hsame|].
  intros out h' (Hw' & Hh' & r' & Hr' & Hsame').
  split; [congruence|]. split; [congruence|].
  exists r'. split; [done|]. by eapply same_alpha_trans.
Qed.


End adjustments_keep_alpha.

Section applyPreset_composes.

Import Presets.
Local Open Scope Z_scope.

Variable Math_pow : float → float → float.

Lemma ditheringAlgorithms_binary a imageData h d :
  well_formed imageData h d →
  wp (Dithering.ditheringAlgorithms a imageData) (dithered imageData d) h.
Proof.
  intros Hwf. destruct a; simpl.
  - by apply floydSteinberg_binary.
  - by apply jarvisJudiceNinke_binary.
  - by apply stucki_binary.
  - by apply atkinson_binary.
  - by apply sierra_binary.
  - by apply sierraTwoRow_binary.
  - by apply burkes_binary.
  - by apply bayerOrdered_binary.
  - by apply bayerOrdered4x4_binary.
Qed.

(** The dithering at the end of a chain that started from [d]. *)
Lemma dithering_stage a imageData d img h :
  length d = (4 * (imageData.(width) * imageData.(height)))%nat →
  keeps_alpha_of imageData d img h →
  wp (Dithering.ditheringAlgorithms a img) (dithered imageData d) h.
Proof.
  intros Hlen (Hw & Hh & r & Hr & Hlenr & Hbytes & Halpha).
  eapply wp_mono; [apply (ditheringAlgorithms_binary a img h r)|].
  - split; [done|]. split; [|done]. rewrite Hlenr, Hlen. by rewrite Hw, Hh.
  - intros out h' (Hw' & Hh' & r' & Hr' & Hlen' & Hpix).
    split; [congruence|]. split; [congruence|].
    exists r'. split; [done|]. split; [congruence|].
    intros p Hp. destruct (Hpix p) as (v & Hv & H0 & H1 & H2 & H3); [by rewrite Hw, Hh|].
    exists v. split; [done|]. repeat split; try done. by rewrite H3.
Qed.

Ltac pixelwise_call :=
  lazymatch goal with
  | |- wp (Adjustments.toGrayscale _) _ _ =>
      eapply (pixelwise_stage Math_pow _ _ _ _ _ (pa_toGrayscale _))
  | |- wp (Adjustments.sketchEffect _) _ _ =>
      eapply (pixelwise_stage Math_pow _ _ _ _ _ (pa_sketchEffect _))
  | |- wp (Adjustments.autoAdjust _) _ _ =>
      eapply (pixelwise_stage Math_pow _ _ _ _ _ (pa_autoAdjust _))
  | |- wp (Adjustments.colorCorrection _ ?a ?b) _ _ =>
      eapply (pixelwise_stage Math_pow _ _ _ _ _ (pa_colorCorrection _ a b))
  | |- wp (Adjustments.denoise _ ?a) _ _ =>
      eapply (pixelwise_stage Math_pow _ _ _ _ _ (pa_denoise _ a))
  | |- wp (Adjustments.adjustGamma _ _ ?a) _ _ =>
      eapply (pixelwise_stage Math_pow _ _ _ _ _ (pa_adjustGamma _ a))
  | |- wp (Adjustments.adjustBrightness _ ?a) _ _ =>
      eapply (pixelwise_stage Math_pow _ _ _ _ _ (pa_adjustBrightness _ a))
  | |- wp (Adjustments.adjustContrast _ ?a) _ _ =>
      eapply (pixelwise_stage Math_pow _ _ _ _ _ (pa_adjustContrast _ a))
  | |- wp (Adjustments.edgeEnhance _ ?a) _ _ =>
      eapply (pixelwise_stage Math_pow _ _ _ _ _ (pa_edgeEnhance _ a))
  | |- wp (Adjustments.unsharpMask _ ?a ?b ?c) _ _ =>
      eapply (pixelwise_stage Math_pow _ _ _ _ _ (pa_unsharpMask _ a b c))
  end.

Ltac preset_stage :=
  apply wp_bind;
  eapply wp_mono;
    [ repeat match goal with |- wp (match ?x with _ => _ end) _ _ => destruct x end;
      first [ by apply wp_ret | pixelwise_call; eassumption ]
    | cbv beta; intros ? ? ? ].

Lemma applyPreset_dithers imageData presetName preset h d :
  well_formed imageData h d →
  presets_get presetName = Own preset →
  wp (applyPreset Math_pow imageData presetName)
     (λ res h', ∃ out, res = inr out ∧ dithered imageData d out h') h.
Proof.
  intros (Hd & Hlen & Hbytes) Hget. unfold applyPreset. rewrite Hget.
  destruct imageData as [w hh dat]. cbn [width height data] in *.
  apply wp_bind. eapply wp_new_Uint8ClampedArray_from; [exact Hd|].
  intros copy Hcopy. simpl arr_values. rewrite copy_bytes by done. cbv zeta.
  assert (keeps_alpha_of {| width := w; height := hh; data := dat |} d
            {| width := w; height := hh; data := copy |}
            (<[copy := Uint8ClampedArray d]> h)) as Hstart.
  { split; [done|]. split; [done|]. exists d. by rewrite lookup_insert_eq. }
  preset_stage.
  destruct (String.eqb presetName "pencilSketch").
  - preset_stage.
    apply wp_bind.
    eapply wp_mono;
      [by apply (dithering_stage _ {| width := w; height := hh; data := dat |} d)|].
    intros out hout Hout. apply wp_ret. by exists out.
  - do 8 preset_stage.
    apply wp_bind.
    eapply wp_mono;
      [by apply (dithering_stage _ {| width := w; height := hh; data := dat |} d)|].
    intros out hout Hout. apply wp_ret. by exists out.
Qed.

(** X2: for each of the ten catalogued preset ids and every well-formed
    input, [applyPreset] returns an image of the input's dimensions in which
    every pixel has R = G = B, each 0 or 255, and the alpha byte that the
    pixel has in the input. *)
Theorem applyPreset_returns_dithered imageData presetName h d :
  well_formed imageData h d → presetName ∈ preset_ids →
  let res := (applyPreset Math_pow imageData presetName h).1 in
  let h' := (applyPreset Math_pow imageData presetName h).2 in
  ∃ out, res = inr out
    ∧ out.(width) = imageData.(width) ∧ out.(height) = imageData.(height)
    ∧ ∃ r, h' !! out.(data) = Some (Uint8ClampedArray r)
        ∧ length r = length d
        ∧ ∀ p : nat, (p < imageData.(width) * imageData.(height))%nat →
            ∃ v, (v = 0 ∨ v = 255)
              ∧ r !! (4 * p)%nat = Some v
              ∧ r !! (4 * p + 1)%nat = Some v
              ∧ r !! (4 * p + 2)%nat = Some v
              ∧ r !! (4 * p + 3)%nat = d !! (4 * p + 3)%nat.
Proof.
  intros Hwf Hid. rewrite preset_ids_eq in Hid.
  destruct (assoc_Some _ _ Hid) as [preset Hp].
  apply (applyPreset_dithers imageData presetName preset h d Hwf).
  unfold presets_get. by rewrite Hp.
Qed.

End applyPreset_composes.

(** ** Footprints of the composed and of the contour functions *)

Section more_frames.

Import Presets Contour Masking.
Local Open Scope Z_scope.

#[local] Hint Resolve getGrayOnWhite_framed toGrayscale_framed sketchEffect_framed
  autoAdjust_framed colorCorrection_framed denoise_framed adjustGamma_framed
  adjustBrightness_framed adjustContrast_framed edgeEnhance_framed unsharpMask_framed
  ditheringAlgorithms_framed : framed.

Variable Math_pow : float → float → float.

Ltac stage_framed :=
  eapply framed_bind; [framed_go | intros ? ? ? ?; framed_facts].

Lemma applyPreset_framed h0 D imageData presetName :
  framed h0 D (applyPreset Math_pow imageData presetName) (fresh_result h0).
Proof.
  unfold applyPreset. destruct (presets_get presetName) as [preset| |].
  - destruct imageData as [w hh dat]. cbv zeta.
    do 2 stage_framed.
    destruct (String.eqb presetName "pencilSketch").
    + do 2 stage_framed. apply framed_ret. intros Y HY. simpl. split; [done|set_solver].
    + do 9 stage_framed. apply framed_ret. intros Y HY. simpl. split; [done|set_solver].
  - destruct imageData as [w hh dat]. framed_go.
  - by apply framed_ret.
Qed.

Lemma framed_while_changed h0 D fuel pass :
  (∀ X, D ⊆ X → framed h0 X pass anything) →
  framed h0 D (while_changed fuel pass) anything.
Proof.
  intros Hpass. revert D Hpass. induction fuel as [|fuel IH]; intros D Hpass; simpl.
  - by apply framed_ret.
  - eapply framed_bind; [by apply Hpass|].
    intros changed X _ HX. destruct changed; [|by apply framed_ret].
    apply IH. intros Y HY. apply Hpass. set_solver.
Qed.

#[local] Hint Extern 1 (framed _ _ (while_changed _ _) _) =>
  apply framed_while_changed; intros ? ?; framed_go : framed.

Lemma extractContours_framed h0 D imageData threshold :
  framed h0 D (extractContours imageData threshold) (fresh_image h0).
Proof. destruct imageData. unfold extractContours. framed_go. Qed.

Lemma applyMask_framed h0 D imageData maskData maskPosition :
  framed h0 D (applyMask imageData maskData maskPosition) (fresh_image h0).
Proof. destruct imageData, maskData. unfold applyMask. framed_go. Qed.

Lemma cannyEdgeDetection_framed Math_atan2 h0 D imageData lowThreshold highThreshold :
  framed h0 D (cannyEdgeDetection Math_atan2 imageData lowThreshold highThreshold)
    (fresh_option h0).
Proof.
  destruct imageData as [w hh dat]. unfold cannyEdgeDetection. cbv zeta.
  do 8 stage_framed.
  eapply framed_bind.
  { apply framed_for; intros y Y HY. apply framed_for; intros x Y' HY'.
    do 2 stage_framed.
    eapply (framed_bind _ _ _ _ anything); [framed_go|].
    intros ? ? ? ?; framed_facts. framed_go. }
  intros ? ? ? ?; framed_facts.
  repeat stage_framed.
  apply framed_ret. intros Y HY.
  match goal with |- fresh_option _ (if ?b then _ else _) _ => destruct b end;
    [|done].
  simpl. split; [done|set_solver].
Qed.

(** What a footprint says about the run from a given store. *)
Lemma framed_run {A} (m : M A) Ψ (h : heap) :
  framed h (dom h) m Ψ →
  (∀ l b, h !! l = Some b → (m h).2 !! l = Some b) ∧ Ψ (m h).1 (dom (m h).2).
Proof.
  intros Hm. destruct (Hm h) as (Hsub & _ & HΨ); [done..|].
  split; [|done]. intros l b Hl. by eapply lookup_weaken.
Qed.

Lemma fresh_image_run (h h' : heap) out :
  (∀ l b, h !! l = Some b → h' !! l = Some b) → fresh_image h out (dom h') →
  untouched_and_fresh h h' out.
Proof. intros Hkept [Hfresh Hin]. repeat split; [done..|]. by apply elem_of_dom. Qed.

(** X3: whatever the preset name, [applyPreset] leaves every array of the
    store as it was, the input's among them, also when it throws; the image
    it returns has an array allocated by the call. *)
Theorem applyPreset_leaves_input imageData presetName h :
  let res := (applyPreset Math_pow imageData presetName h).1 in
  let h' := (applyPreset Math_pow imageData presetName h).2 in
  (∀ l b, h !! l = Some b → h' !! l = Some b)
  ∧ ∀ out, res = inr out → h !! out.(data) = None ∧ is_Some (h' !! out.(data)).
Proof.
  intros res h'.
  destruct (framed_run _ _ h (applyPreset_framed h (dom h) imageData presetName))
    as [Hkept Hfresh].
  fold res h' in Hkept, Hfresh. split; [done|].
  intros out Hout. rewrite Hout in Hfresh. destruct Hfresh as [Hnew Hin].
  split; [done|]. by apply elem_of_dom.
Qed.

(** X4: [extractContours], [cannyEdgeDetection] and [applyMask] leave every
    array of the store as it was, the image's and the mask's among them, and
    return an image whose array was allocated by the call. *)
Theorem contour_and_mask_leave_inputs Math_atan2 imageData maskData maskPosition
    threshold lowThreshold highThreshold h :
  untouched_and_fresh h (extractContours imageData threshold h).2
    (extractContours imageData threshold h).1
  ∧ (∀ out,
       (cannyEdgeDetection Math_atan2 imageData lowThreshold highThreshold h).1 = Some out →
       untouched_and_fresh h
         (cannyEdgeDetection Math_atan2 imageData lowThreshold highThreshold h).2 out)
  ∧ untouched_and_fresh h (applyMask imageData maskData maskPosition h).2
      (applyMask imageData maskData maskPosition h).1.
Proof.
  split; [|split].
  - destruct (framed_run _ _ h (extractContours_framed h (dom h) imageData threshold)).
    by apply fresh_image_run.
  - intros out Hout.
    destruct (framed_run _ _ h
                (cannyEdgeDetection_framed Math_atan2 h (dom h) imageData
                   lowThreshold highThreshold)) as [Hkept Hfresh].
    rewrite Hout in Hfresh. by apply fresh_image_run.
  - destruct (framed_run _ _ h
                (applyMask_framed h (dom h) imageData maskData maskPosition)).
    by apply fresh_image_run.
Qed.

End more_frames.

(** ** What the pixelwise adjustments compute *)

Section step_scan.

Local Open Scope Z_scope.

Context (result : loc) (d : list Z) (h0 : heap) (P : nat → Z → Z → Z → Z → Prop).

Lemma step_scan (N : nat) body Q h :
  length d = (4 * N)%nat →
  maps result d h0 P body → mapped result d h0 P 0 h →
  (∀ h', mapped result d h0 P N h' → Q () h') →
  wp (for_step 0 (Z.of_nat (length d)) 4 body) Q h.
Proof.
  intros Hlen Hbody H0 HQ. unfold for_step.
  replace ((Z.of_nat (length d) - 0 + 4 - 1) `div` 4) with (Z.of_nat N)
    by (rewrite Hlen; clear; Z.div_mod_to_equations; lia).
  apply (wp_forM (λ l h', ∃ k : nat, (k ≤ N)%nat
            ∧ l = (λ k, 0 + k * 4) <$> seqZ (Z.of_nat k) (Z.of_nat N - Z.of_nat k)
            ∧ mapped result d h0 P k h')).
  - exists 0%nat. split; [lia|]. split; [by rewrite Z.sub_0_r|done].
  - intros i l' h' (k & Hk & Heq & Hframe & r & Hr & Hlr & Hpix & Hrest).
    destruct (decide (k < N)%nat) as [Hlt|Hge];
      [|by rewrite seqZ_nil in Heq by lia].
    rewrite seqZ_cons, fmap_cons in Heq by lia. injection Heq as -> ->.
    eapply wp_mono; [apply (Hbody k h' r); (done || lia)|].
    intros [] h'' (Hframe' & v0 & v1 & v2 & v3 & Hv & Hr').
    exists (S k). split; [lia|]. split.
    { replace (Z.of_nat (S k)) with (Z.succ (Z.of_nat k)) by lia.
      by replace (Z.of_nat N - Z.succ (Z.of_nat k))
        with (Z.pred (Z.of_nat N - Z.of_nat k)) by lia. }
    split; [done|]. eexists. split; [done|].
    split; [by rewrite length_set_pixel_bytes|]. split.
    + intros p Hp. destruct (decide (p = k)) as [->|Hne].
      * exists v0, v1, v2, v3. split; [done|]. apply set_pixel_bytes_here. lia.
      * destruct (Hpix p) as (u0 & u1 & u2 & u3 & Hu & Hpu); [lia|].
        exists u0, u1, u2, u3. split; [done|]. by apply set_pixel_bytes_other.
    + intros i Hi. unfold set_pixel_bytes.
      rewrite !list_lookup_insert_ne by lia. apply Hrest. lia.
  - intros h' (k & Hk & Heq & Hmapped). apply HQ.
    destruct (decide (k < N)%nat) as [Hlt|Hge];
      [by rewrite seqZ_cons in Heq by lia|].
    by replace N with k by lia.
Qed.

End step_scan.

Section invert.

Import Adjustments.
Local Open Scope Z_scope.

Lemma inverted_byte z : byte z → ToUint8Clamp (255 - num z) = 255 - z.
Proof.
  intros Hz. apply Z.eqb_eq. revert z Hz. apply forallb_bytes. vm_compute. reflexivity.
Qed.

Lemma invert_maps (dat result : loc) d (h0 : heap) :
  dat ≠ result → h0 !! dat = Some (Uint8ClampedArray d) → Forall byte d →
  maps result d h0 (inverted id d) (λ i,
    d0 ← get dat i;
    set result i (255 - d0)%float;;
    d1 ← get dat (i + 1);
    set result (i + 1) (255 - d1)%float;;
    d2 ← get dat (i + 2);
    set result (i + 2) (255 - d2)%float;;
    a ← get dat (i + 3);
    set result (i + 3) a).
Proof.
  intros Hne Hd Hbytes p h r Hp Hframe Hr Hlen Hrest.
  destruct (lookup_pixel d p Hp) as (R & G & B & A & Hpx).
  pose proof Hpx as (H0 & H1 & H2 & H3).
  assert (h !! dat = Some (Uint8ClampedArray d)) as Hd1 by (by rewrite Hframe).
  assert (∀ l v (hx : heap), l ≠ result → <[result := v]> hx !! l = hx !! l) as Hnew.
  { intros. by rewrite lookup_insert_ne. }
  repeat first
    [ wp_step
    | rewrite !Hnew by congruence
    | rewrite Hd1; cbn [from_option] ].
  rewrite !insert_insert_eq.
  split; [intros l Hl; by rewrite lookup_insert_ne, Hframe by congruence|].
  exists (255 - R), (255 - G), (255 - B), A.
  split; [by exists R, G, B, A|].
  rewrite lookup_insert_eq. do 2 f_equal.
  rewrite !arr_set_clamped, !arr_get_clamped by lia.
  replace (Z.to_nat (0 + Z.of_nat p * 4)) with (4 * p)%nat by lia.
  replace (Z.to_nat (0 + Z.of_nat p * 4 + 1)) with (4 * p + 1)%nat by lia.
  replace (Z.to_nat (0 + Z.of_nat p * 4 + 2)) with (4 * p + 2)%nat by lia.
  replace (Z.to_nat (0 + Z.of_nat p * 4 + 3)) with (4 * p + 3)%nat by lia.
  rewrite H0, H1, H2, H3. cbn [from_option].
  rewrite !inverted_byte, ToUint8Clamp_num
    by (eapply Forall_lookup_1; [exact Hbytes|eassumption]).
  reflexivity.
Qed.

Lemma mapped_start (result : loc) d (h : heap) P :
  mapped result d (<[result := Uint8ClampedArray d]> h) P 0
    (<[result := Uint8ClampedArray d]> h).
Proof.
  split; [done|]. exists d. rewrite lookup_insert_eq.
  split; [done|]. split; [done|]. split; [intros; lia|done].
Qed.

(** A buffer is determined by its pixels. *)
Lemma pixels_determine (N : nat) d r :
  length d = (4 * N)%nat → length r = length d →
  (∀ p R G B A, pixel_at d p R G B A → pixel_at r p R G B A) → r = d.
Proof.
  intros Hlen Hlr Hpix. apply list_eq. intros i.
  destruct (decide (i < length d)%nat) as [Hi|Hi].
  - assert (4 * (i / 4) + 3 < length d)%nat as Hp
      by (rewrite Hlen in *; clear -Hi; pose proof (Nat.div_mod_eq i 4);
          pose proof (Nat.mod_upper_bound i 4 ltac:(lia)); lia).
    destruct (lookup_pixel d (i / 4) Hp) as (R & G & B & A & Hpx).
    pose proof (Hpix _ _ _ _ _ Hpx) as (H0' & H1' & H2' & H3').
    pose proof Hpx as (H0 & H1 & H2 & H3).
    pose proof (Nat.div_mod_eq i 4) as Hdiv.
    pose proof (Nat.mod_upper_bound i 4 ltac:(lia)) as Hmod.
    destruct (i mod 4)%nat as [|[|[|[|c]]]] eqn:Hc; [| | | |lia].
    + replace i with (4 * (i / 4))%nat by lia. by rewrite H0, H0'.
    + replace i with (4 * (i / 4) + 1)%nat by lia. by rewrite H1, H1'.
    + replace i with (4 * (i / 4) + 2)%nat by lia. by rewrite H2, H2'.
    + replace i with (4 * (i / 4) + 3)%nat by lia. by rewrite H3, H3'.
  - rewrite !lookup_ge_None_2 by lia. done.
Qed.

Lemma invert_mapped imageData h d :
  well_formed imageData h d →
  wp (invert imageData)
     (λ out h',
        out.(width) = imageData.(width) ∧ out.(height) = imageData.(height)
        ∧ mapped out.(data) d (<[out.(data) := Uint8ClampedArray d]> h) (inverted id d)
            (imageData.(width) * imageData.(height)) h') h.
Proof.
  intros (Hd & Hlen & Hbytes). destruct imageData as [w hh dat].
  cbn [width height data] in *. unfold invert.
  apply wp_bind. eapply wp_new_Uint8ClampedArray_from; [exact Hd|].
  intros result Hres. simpl arr_values. rewrite copy_bytes by done.
  assert (dat ≠ result) as Hne by congruence.
  apply wp_bind, wp_length_of. rewrite lookup_insert_ne, Hd by done.
  cbn [from_option arr_length]. apply wp_bind.
  apply (step_scan result d (<[result := Uint8ClampedArray d]> h) (inverted id d) (w * hh));
    [done| |apply mapped_start|].
  - apply invert_maps; [done| |done]. by rewrite lookup_insert_ne.
  - intros h' Hmapped. by apply wp_ret.
Qed.

Lemma pixel_in_image (N : nat) d p R G B A :
  length d = (4 * N)%nat → pixel_at d p R G B A → (p < N)%nat.
Proof. intros Hlen (_ & _ & _ & H3%lookup_lt_Some). lia. Qed.

Lemma pixel_at_inj d p R G B A R' G' B' A' :
  pixel_at d p R G B A → pixel_at d p R' G' B' A' →
  R' = R ∧ G' = G ∧ B' = B ∧ A' = A.
Proof. intros (H0 & H1 & H2 & H3) (H0' & H1' & H2' & H3'). repeat split; congruence. Qed.

Lemma invert_pixels imageData h d :
  well_formed imageData h d →
  wp (invert imageData)
     (λ out h',
        out.(width) = imageData.(width) ∧ out.(height) = imageData.(height)
        ∧ ∃ r, well_formed out h' r
            ∧ ∀ p R G B A, pixel_at d p R G B A →
                pixel_at r p (255 - R) (255 - G) (255 - B) A) h.
Proof.
  intros Hwf. pose proof Hwf as (Hd & Hlen & Hbytes).
  pose proof (invert_mapped imageData h d Hwf) as Hmapped.
  pose proof (invert_keeps_alpha imageData h d Hd Hbytes) as Hkeeps.
  unfold wp in *.
  destruct Hmapped as (Hw & Hh & _ & r & Hr & Hlr & Hpix & _).
  destruct Hkeeps as (_ & _ & r' & Hr' & _ & Hbytes' & _).
  rewrite Hr in Hr'. injection Hr' as <-.
  split; [done|]. split; [done|]. exists r. split.
  - split; [done|]. split; [|done]. by rewrite Hlr, Hlen, Hw, Hh.
  - intros p R G B A Hpx.
    destruct (Hpix p) as (v0 & v1 & v2 & v3 & (R' & G' & B' & A' & Hpx' & -> & -> & -> & ->) & Hpr);
      [by eapply pixel_in_image|].
    by destruct (pixel_at_inj _ _ _ _ _ _ _ _ _ _ Hpx Hpx') as (-> & -> & -> & ->).
Qed.

(** X5: [invert] replaces every colour byte [c] by [255 - c] and keeps the
    alpha byte; inverting the result again gives back the bytes of the
    input. *)
Theorem invert_twice_is_identity imageData h d :
  well_formed imageData h d →
  let once := invert imageData h in
  let twice := invert once.1 once.2 in
  (∃ r, once.2 !! once.1.(data) = Some (Uint8ClampedArray r)
     ∧ ∀ p R G B A, pixel_at d p R G B A →
         pixel_at r p (255 - R) (255 - G) (255 - B) A)
  ∧ same_buffer imageData d twice.1 twice.2.
Proof.
  intros Hwf once twice. pose proof Hwf as (Hd & Hlen & Hbytes).
  destruct (invert_pixels imageData h d Hwf) as (Hw & Hh & r & Hwf1 & Hpix1).
  fold once in Hw, Hh, Hwf1.
  destruct (invert_pixels once.1 once.2 r Hwf1) as (Hw2 & Hh2 & r2 & Hwf2 & Hpix2).
  fold twice in Hw2, Hh2, Hwf2.
  split; [exists r; split; [apply Hwf1|done]|].
  split; [congruence|]. split; [congruence|].
  destruct Hwf1 as (_ & Hlen1 & _). destruct Hwf2 as (Hr2 & Hlen2 & _).
  rewrite Hr2. do 2 f_equal.
  apply (pixels_determine (imageData.(width) * imageData.(height))); [done|congruence|].
  intros p R G B A Hpx.
  pose proof (Hpix2 _ _ _ _ _ (Hpix1 _ _ _ _ _ Hpx)) as Hback.
  by replace (255 - (255 - R)) with R in Hback by lia;
     replace (255 - (255 - G)) with G in Hback by lia;
     replace (255 - (255 - B)) with B in Hback by lia.
Qed.

End invert.

Section threshold.

Import Adjustments.
Local Open Scope Z_scope.

Lemma threshold_maps (dat result : loc) d (h0 : heap) t :
  dat ≠ result → h0 !! dat = Some (Uint8ClampedArray d) → Forall byte d →
  maps result d h0 (thresholded t d) (λ i,
    d0 ← get dat i;
    let v := if (d0 <? t)%float then 0%float else 255%float in
    set result i v;;
    set result (i + 1) v;;
    set result (i + 2) v;;
    a ← get dat (i + 3);
    set result (i + 3) a).
Proof.
  intros Hne Hd Hbytes p h r Hp Hframe Hr Hlen Hrest.
  destruct (lookup_pixel d p Hp) as (R & G & B & A & Hpx).
  pose proof Hpx as (H0 & H1 & H2 & H3).
  assert (h !! dat = Some (Uint8ClampedArray d)) as Hd1 by (by rewrite Hframe).
  assert (∀ l v (hx : heap), l ≠ result → <[result := v]> hx !! l = hx !! l) as Hnew.
  { intros. by rewrite lookup_insert_ne. }
  cbv zeta.
  repeat first
    [ wp_step
    | rewrite !Hnew by congruence
    | rewrite Hd1; cbn [from_option] ].
  rewrite !insert_insert_eq.
  split; [intros l Hl; by rewrite lookup_insert_ne, Hframe by congruence|].
  exists (if (num R <? t)%float then 0 else 255),
    (if (num R <? t)%float then 0 else 255),
    (if (num R <? t)%float then 0 else 255), A.
  split; [by exists R, G, B, A|].
  rewrite lookup_insert_eq. do 2 f_equal.
  rewrite !arr_set_clamped, !arr_get_clamped by lia.
  replace (Z.to_nat (0 + Z.of_nat p * 4)) with (4 * p)%nat by lia.
  replace (Z.to_nat (0 + Z.of_nat p * 4 + 1)) with (4 * p + 1)%nat by lia.
  replace (Z.to_nat (0 + Z.of_nat p * 4 + 2)) with (4 * p + 2)%nat by lia.
  replace (Z.to_nat (0 + Z.of_nat p * 4 + 3)) with (4 * p + 3)%nat by lia.
  rewrite H0, H3. cbn [from_option].
  rewrite ToUint8Clamp_num by (eapply Forall_lookup_1; [exact Hbytes|eassumption]).
  by destruct (num R <? t)%float.
Qed.

(** With a whole threshold between 0 and 255, the comparison is that of
    the bytes. *)
Lemma threshold_whole T R :
  byte T → byte R →
  (num R <? clamp (Math_round (num T)) 0 255)%float = (R <? T).
Proof.
  intros HT HR.
  assert (forallb (λ T, forallb (λ R,
            Bool.eqb (num R <? clamp (Math_round (num T)) 0 255)%float (R <? T))
            (seqZ 0 256)) (seqZ 0 256) = true) as Hall by (vm_compute; reflexivity).
  pose proof (forallb_bytes _ Hall T HT) as Hall'. cbv beta in Hall'.
  pose proof (forallb_bytes _ Hall' R HR) as Heq. cbv beta in Heq.
  by apply eqb_prop in Heq.
Qed.

(** X6: [threshold] looks at the red byte only: a pixel whose red byte is
    below the threshold, rounded and clamped to [0, 255], becomes black, any
    other white; the alpha byte is kept.  For a whole threshold [T] between
    0 and 255 the pixel is black exactly when its red byte is below [T]. *)
Theorem threshold_by_red imageData thresholdValue h d :
  well_formed imageData h d →
  let out := (threshold imageData thresholdValue h).1 in
  let h' := (threshold imageData thresholdValue h).2 in
  let t := clamp (Math_round thresholdValue) 0 255 in
  out.(width) = imageData.(width) ∧ out.(height) = imageData.(height)
  ∧ ∃ r, h' !! out.(data) = Some (Uint8ClampedArray r)
      ∧ length r = length d
      ∧ ∀ p R G B A, pixel_at d p R G B A →
          let v := (if (num R <? t)%float then 0 else 255) in
          pixel_at r p v v v A
          ∧ ∀ T, byte T → thresholdValue = num T → v = if R <? T then 0 else 255.
Proof.
  intros (Hd & Hlen & Hbytes) out h' t.
  assert (wp (threshold imageData thresholdValue)
            (λ out h', out.(width) = imageData.(width)
               ∧ out.(height) = imageData.(height)
               ∧ mapped out.(data) d (<[out.(data) := Uint8ClampedArray d]> h)
                   (thresholded t d) (imageData.(width) * imageData.(height)) h') h)
    as Hmapped.
  { destruct imageData as [w hh dat]. cbn [width height data] in *. unfold threshold.
    apply wp_bind. eapply wp_new_Uint8ClampedArray_from; [exact Hd|].
    intros result Hres. simpl arr_values. rewrite copy_bytes by done.
    assert (dat ≠ result) as Hne by congruence. cbv zeta.
    apply wp_bind, wp_length_of. rewrite lookup_insert_ne, Hd by done.
    cbn [from_option arr_length]. apply wp_bind.
    apply (step_scan result d (<[result := Uint8ClampedArray d]> h)
             (thresholded t d) (w * hh)); [done| |apply mapped_start|].
    - apply threshold_maps; [done| |done]. by rewrite lookup_insert_ne.
    - intros h1 Hh1. by apply wp_ret. }
  destruct Hmapped as (Hw & Hh & _ & r & Hr & Hlr & Hpix & _).
  fold out h' in Hw, Hh, Hr. split; [done|]. split; [done|].
  exists r. split; [done|]. split; [done|].
  intros p R G B A Hpx v.
  destruct (Hpix p) as (v0 & v1 & v2 & v3 & (R' & G' & B' & A' & Hpx' & -> & -> & -> & ->) & Hpr);
    [by eapply pixel_in_image|].
  destruct (pixel_at_inj _ _ _ _ _ _ _ _ _ _ Hpx Hpx') as (-> & -> & -> & ->).
  split; [done|]. intros T HT ->. unfold v, t.
  rewrite threshold_whole; [done|done|].
  destruct Hpx as (H0 & _). by eapply Forall_lookup_1.
Qed.

End threshold.

Section toGrayscale.

Import Adjustments.
Local Open Scope Z_scope.

Lemma toGrayscale_maps (dat result : loc) d (h0 : heap) :
  dat ≠ result → h0 !! dat = Some (Uint8ClampedArray d) → Forall byte d →
  maps result d h0 (grayed d) (λ i,
    gray ← Alpha.getGrayOnWhite dat i;
    set result i gray;;
    set result (i + 1) gray;;
    set result (i + 2) gray;;
    a ← get dat (i + 3);
    set result (i + 3) a).
Proof.
  intros Hne Hd Hbytes p h r Hp Hframe Hr Hlen Hrest.
  destruct (lookup_pixel d p Hp) as (R & G & B & A & Hpx).
  pose proof Hpx as (H0 & H1 & H2 & H3).
  assert (h !! dat = Some (Uint8ClampedArray d)) as Hd1 by (by rewrite Hframe).
  assert (∀ l v (hx : heap), l ≠ result → <[result := v]> hx !! l = hx !! l) as Hnew.
  { intros. by rewrite lookup_insert_ne. }
  apply wp_bind. apply (wp_getGray dat d p); [done|lia|].
  repeat first
    [ wp_step
    | rewrite !Hnew by congruence
    | rewrite Hd1; cbn [from_option] ].
  rewrite !insert_insert_eq.
  split; [intros l Hl; by rewrite lookup_insert_ne, Hframe by congruence|].
  exists (ToUint8Clamp (gray_of d p)), (ToUint8Clamp (gray_of d p)),
    (ToUint8Clamp (gray_of d p)), A.
  split; [by exists R, G, B, A|].
  rewrite lookup_insert_eq. do 2 f_equal.
  rewrite !arr_set_clamped, !arr_get_clamped by lia.
  replace (Z.to_nat (0 + Z.of_nat p * 4)) with (4 * p)%nat by lia.
  replace (Z.to_nat (0 + Z.of_nat p * 4 + 1)) with (4 * p + 1)%nat by lia.
  replace (Z.to_nat (0 + Z.of_nat p * 4 + 2)) with (4 * p + 2)%nat by lia.
  replace (Z.to_nat (0 + Z.of_nat p * 4 + 3)) with (4 * p + 3)%nat by lia.
  rewrite H3. cbn [from_option].
  by rewrite ToUint8Clamp_num by (eapply Forall_lookup_1; [exact Hbytes|eassumption]).
Qed.

Lemma toGrayscale_pixels imageData h d :
  well_formed imageData h d →
  wp (toGrayscale imageData)
     (λ out h',
        out.(width) = imageData.(width) ∧ out.(height) = imageData.(height)
        ∧ ∃ r, well_formed out h' r
            ∧ ∀ p R G B A, pixel_at d p R G B A →
                pixel_at r p (ToUint8Clamp (gray_of d p)) (ToUint8Clamp (gray_of d p))
                  (ToUint8Clamp (gray_of d p)) A) h.
Proof.
  intros Hwf. pose proof Hwf as (Hd & Hlen & Hbytes).
  assert (wp (toGrayscale imageData)
            (λ out h', out.(width) = imageData.(width)
               ∧ out.(height) = imageData.(height)
               ∧ mapped out.(data) d (<[out.(data) := Uint8ClampedArray d]> h)
                   (grayed d) (imageData.(width) * imageData.(height)) h') h)
    as Hmapped.
  { destruct imageData as [w hh dat]. cbn [width height data] in *. unfold toGrayscale.
    apply wp_bind. eapply wp_new_Uint8ClampedArray_from; [exact Hd|].
    intros result Hres. simpl arr_values. rewrite copy_bytes by done.
    assert (dat ≠ result) as Hne by congruence.
    apply wp_bind, wp_length_of. rewrite lookup_insert_ne, Hd by done.
    cbn [from_option arr_length]. apply wp_bind.
    apply (step_scan result d (<[result := Uint8ClampedArray d]> h)
             (grayed d) (w * hh)); [done| |apply mapped_start|].
    - apply toGrayscale_maps; [done| |done]. by rewrite lookup_insert_ne.
    - intros h1 Hh1. by apply wp_ret. }
  pose proof (toGrayscale_keeps_alpha imageData h d Hd Hbytes) as Hkeeps.
  unfold wp in *.
  destruct Hmapped as (Hw & Hh & _ & r & Hr & Hlr & Hpix & _).
  destruct Hkeeps as (_ & _ & r' & Hr' & _ & Hbytes' & _).
  rewrite Hr in Hr'. injection Hr' as <-.
  split; [done|]. split; [done|]. exists r. split.
  - split; [done|]. split; [|done]. by rewrite Hlr, Hlen, Hw, Hh.
  - intros p R G B A Hpx.
    destruct (Hpix p) as (v0 & v1 & v2 & v3 & (R' & G' & B' & A' & Hpx' & -> & -> & -> & ->) & Hpr);
      [by eapply pixel_in_image|].
    by destruct (pixel_at_inj _ _ _ _ _ _ _ _ _ _ Hpx Hpx') as (-> & -> & -> & ->).
Qed.

(** The gray value of an opaque gray pixel rounds to its byte. *)
Lemma gray_of_gray d p g :
  pixel_at d p g g g 255 → byte g → ToUint8Clamp (gray_of d p) = g.
Proof.
  intros Hpx Hg. unfold gray_of.
  rewrite (getGrayOnWhite_value _ 0%nat d p g g g 255)
    by (done || apply lookup_singleton_eq).
  change (num 255 =? 0)%float with false. change (num 255 <? 255)%float with false.
  cbv iota. apply Z.eqb_eq. clear Hpx. revert g Hg. apply forallb_bytes.
  vm_compute. reflexivity.
Qed.

(** X7: [toGrayscale] writes the alpha-aware gray value of each pixel,
    rounded to a byte, to its three colour channels and keeps the alpha byte.
    On an opaque image a second pass changes nothing. *)
Theorem toGrayscale_gray imageData h d :
  well_formed imageData h d →
  let once := toGrayscale imageData h in
  let twice := toGrayscale once.1 once.2 in
  ∃ r, once.2 !! once.1.(data) = Some (Uint8ClampedArray r)
    ∧ (∀ p R G B A, pixel_at d p R G B A →
         let g := ToUint8Clamp (gray_of d p) in pixel_at r p g g g A)
    ∧ (opaque d → twice.2 !! twice.1.(data) = Some (Uint8ClampedArray r)).
Proof.
  intros Hwf once twice. pose proof Hwf as (Hd & Hlen & Hbytes).
  destruct (toGrayscale_pixels imageData h d Hwf) as (Hw & Hh & r & Hwf1 & Hpix1).
  fold once in Hw, Hh, Hwf1.
  exists r. split; [apply Hwf1|]. split; [done|]. intros Hopaque.
  destruct (toGrayscale_pixels once.1 once.2 r Hwf1) as (Hw2 & Hh2 & r2 & Hwf2 & Hpix2).
  fold twice in Hw2, Hh2, Hwf2.
  destruct Hwf1 as (_ & Hlen1 & Hbytes1). destruct Hwf2 as (Hr2 & Hlen2 & _).
  rewrite Hr2. do 2 f_equal.
  apply (pixels_determine (once.1.(width) * once.1.(height))); [done|congruence|].
  intros p R G B A Hpx.
  assert (4 * p + 3 < length d)%nat as Hp.
  { destruct Hpx as (_ & _ & _ & H3%lookup_lt_Some). rewrite Hlen1, Hw, Hh in H3. lia. }
  destruct (lookup_pixel d p Hp) as (R0 & G0 & B0 & A0 & Hpx0).
  pose proof (Hpix1 _ _ _ _ _ Hpx0) as Hpx1.
  rewrite (Hopaque _ _ _ _ _ Hpx0) in Hpx1.
  destruct (pixel_at_inj _ _ _ _ _ _ _ _ _ _ Hpx Hpx1) as (<- & <- & <- & <-).
  pose proof (Hpix2 _ _ _ _ _ Hpx) as Hpx2. cbv zeta in Hpx2.
  by rewrite (gray_of_gray r p (ToUint8Clamp (gray_of d p))) in Hpx2
    by (done || apply ToUint8Clamp_byte).
Qed.

End toGrayscale.

(** ** The mirror *)

Section mirrorHorizontal.

Import Adjustments.
Local Open Scope Z_scope.

Context (w hh : nat) (d : list Z).
Context (Hlen : length d = (4 * (w * hh))%nat) (Hbytes : Forall byte d).

Local Abbreviation W := (Z.of_nat w).
Local Abbreviation H := (Z.of_nat hh).

Lemma mirrored_ext (dat result : loc) (v v' : Z → Z → bool) h :
  (∀ y x, 0 ≤ y < H → 0 ≤ x < W → v' y x = v y x) →
  mirrored d W H dat result v h → mirrored d W H dat result v' h.
Proof.
  intros Hext (Hd & r & Hr & Hlr & Hbr & Hpix). split; [done|].
  exists r. split; [done|]. split; [done|]. split; [done|].
  intros y x R G B A Hy Hx. rewrite Hext by done. by apply Hpix.
Qed.

(** One iteration: the pixel [(x, y)] goes to the column [width - 1 - x]. *)
Lemma mirror_pixel (dat result : loc) (h : heap) r y x :
  dat ≠ result →
  h !! dat = Some (Uint8ClampedArray d) → h !! result = Some (Uint8ClampedArray r) →
  0 ≤ y < H → 0 ≤ x < W →
  wp (let srcIdx := (y * W + x) * 4 in
      let dstIdx := (y * W + (W - 1 - x)) * 4 in
      s0 ← get dat srcIdx;
      set result dstIdx s0;;
      s1 ← get dat (srcIdx + 1);
      set result (dstIdx + 1) s1;;
      s2 ← get dat (srcIdx + 2);
      set result (dstIdx + 2) s2;;
      s3 ← get dat (srcIdx + 3);
      set result (dstIdx + 3) s3)
     (λ _ h', ∃ R G B A,
        pixel_at d (Z.to_nat (y * W + x)) R G B A
        ∧ h' = <[result := Uint8ClampedArray
                   (set_pixel_bytes r (Z.to_nat (y * W + (W - 1 - x))) R G B A)]> h) h.
Proof.
  intros Hne Hd Hr Hy Hx. cbv zeta.
  destruct (pixel_index w hh d x y Hlen Hy Hx) as [Hidx Hidx'].
  destruct (lookup_pixel d _ Hidx') as (R & G & B & A & Hpx).
  pose proof Hpx as (H0 & H1 & H2 & H3).
  assert (∀ l v (hx : heap), l ≠ result → <[result := v]> hx !! l = hx !! l) as Hnew.
  { intros. by rewrite lookup_insert_ne. }
  repeat first
    [ wp_step
    | rewrite !Hnew by congruence
    | rewrite Hd; cbn [from_option] ].
  rewrite !insert_insert_eq. exists R, G, B, A. split; [done|]. do 2 f_equal.
  rewrite !arr_set_clamped, !arr_get_clamped by lia. unfold set_pixel_bytes.
  replace (Z.to_nat ((y * W + x) * 4)) with (4 * Z.to_nat (y * W + x))%nat by lia.
  replace (Z.to_nat ((y * W + x) * 4 + 1)) with (4 * Z.to_nat (y * W + x) + 1)%nat by lia.
  replace (Z.to_nat ((y * W + x) * 4 + 2)) with (4 * Z.to_nat (y * W + x) + 2)%nat by lia.
  replace (Z.to_nat ((y * W + x) * 4 + 3)) with (4 * Z.to_nat (y * W + x) + 3)%nat by lia.
  replace (Z.to_nat ((y * W + (W - 1 - x)) * 4))
    with (4 * Z.to_nat (y * W + (W - 1 - x)))%nat by lia.
  replace (Z.to_nat ((y * W + (W - 1 - x)) * 4 + 1))
    with (4 * Z.to_nat (y * W + (W - 1 - x)) + 1)%nat by lia.
  replace (Z.to_nat ((y * W + (W - 1 - x)) * 4 + 2))
    with (4 * Z.to_nat (y * W + (W - 1 - x)) + 2)%nat by lia.
  replace (Z.to_nat ((y * W + (W - 1 - x)) * 4 + 3))
    with (4 * Z.to_nat (y * W + (W - 1 - x)) + 3)%nat by lia.
  rewrite H0, H1, H2, H3. cbn [from_option].
  by rewrite !ToUint8Clamp_num by (eapply Forall_lookup_1; [exact Hbytes|eassumption]).
Qed.

Lemma pixel_apart (y x y' x' : Z) :
  0 ≤ y < H → 0 ≤ x < W → 0 ≤ y' < H → 0 ≤ x' < W →
  (y', x') ≠ (y, x) → Z.to_nat (y * W + x) ≠ Z.to_nat (y' * W + x').
Proof.
  intros Hy Hx Hy' Hx' Hne Heq. apply Hne.
  assert (y' * W + x' = y * W + x) as Heq' by nia.
  assert (y' = y) as ->.
  { destruct (Z.lt_trichotomy y' y) as [?|[?|?]]; [|done|]; exfalso; nia. }
  f_equal. lia.
Qed.

Lemma mirrorHorizontal_mirrored (dat : loc) (h : heap) :
  h !! dat = Some (Uint8ClampedArray d) →
  wp (mirrorHorizontal {| width := w; height := hh; data := dat |})
     (λ out h',
        out.(width) = w ∧ out.(height) = hh
        ∧ mirrored d W H dat out.(data) (λ _ _, true) h') h.
Proof.
  intros Hd. unfold mirrorHorizontal. cbv zeta.
  apply wp_bind. eapply wp_new_Uint8ClampedArray_from; [exact Hd|].
  intros result Hres. simpl arr_values. rewrite copy_bytes by done.
  assert (dat ≠ result) as Hne by congruence.
  apply wp_bind.
  apply (wp_for (λ y, mirrored d W H dat result (λ y' _, y' <? y))).
  - split; [by rewrite lookup_insert_ne|]. exists d. rewrite lookup_insert_eq.
    split; [done|]. split; [done|]. split; [done|]. intros y x R G B A Hy Hx.
    by rewrite (proj2 (Z.ltb_ge y 0)) by lia.
  - intros y h1 Hy Hh1.
    apply (wp_for (λ x, mirrored d W H dat result
                          (λ y' x', (y' <? y) || ((y' =? y) && (W - 1 - x' <? x))))).
    + revert Hh1. cbv beta. apply mirrored_ext. intros y' x' Hy' Hx'.
      rewrite (proj2 (Z.ltb_ge (W - 1 - x') 0)) by lia.
      by rewrite andb_false_r, orb_false_r.
    + intros x h2 Hx (Hd2 & r & Hr & Hlr & Hbr & Hpix).
      eapply wp_mono; [by apply (mirror_pixel dat result h2 r y x)|].
      intros [] h3 (R & G & B & A & Hsrc & ->).
      split; [by rewrite lookup_insert_ne|].
      eexists. split; [apply lookup_insert_eq|].
      split; [by rewrite length_set_pixel_bytes|].
      split.
      { destruct Hsrc as (H0 & H1 & H2 & H3). unfold set_pixel_bytes.
        repeat apply Forall_insert; try done;
          eapply Forall_lookup_1; (exact Hbytes || eassumption). }
      intros y' x' R' G' B' A' Hy' Hx'.
      destruct (decide ((y', x') = (y, W - 1 - x))) as [[= -> ->]|Hother].
      * rewrite Z.ltb_irrefl, Z.eqb_refl. cbn [orb andb].
        rewrite (proj2 (Z.ltb_lt (W - 1 - (W - 1 - x)) (x + 1))) by lia.
        replace (W - 1 - (W - 1 - x)) with x by lia. intros Hsrc'.
        destruct (pixel_at_inj _ _ _ _ _ _ _ _ _ _ Hsrc Hsrc') as (-> & -> & -> & ->).
        apply set_pixel_bytes_here.
        destruct (pixel_index w hh d (W - 1 - x) y Hlen) as [_ Hidx]; [lia..|]. lia.
      * assert ((y' <? y) || ((y' =? y) && (W - 1 - x' <? x + 1))
                = (y' <? y) || ((y' =? y) && (W - 1 - x' <? x))) as ->.
        { destruct (Z.ltb_spec y' y); [done|]. cbn [orb].
          destruct (Z.eqb_spec y' y) as [->|]; [|done]. cbn [andb].
          destruct (Z.ltb_spec (W - 1 - x') (x + 1)), (Z.ltb_spec (W - 1 - x') x);
            try done; try lia.
          exfalso. apply Hother. f_equal. lia. }
        intros Hsrc'. apply set_pixel_bytes_other; [|by apply Hpix].
        apply pixel_apart; (done || lia).
    + intros h2. cbv beta. apply mirrored_ext. intros y' x' Hy' Hx'.
      destruct (Z.ltb_spec y' (y + 1)).
      * destruct (Z.ltb_spec y' y); [done|]. cbn [orb].
        destruct (Z.eqb_spec y' y) as [->|]; [|lia]. cbn [andb].
        symmetry. apply Z.ltb_lt. lia.
      * rewrite (proj2 (Z.ltb_ge y' y)) by lia. cbn [orb].
        destruct (Z.eqb_spec y' y) as [->|]; [lia|done].
  - intros h1 Hh1. apply wp_ret. cbn [width height data].
    split; [done|]. split; [done|].
    revert Hh1. apply mirrored_ext. intros y' x' Hy' Hx'.
    symmetry. apply Z.ltb_lt. lia.
Qed.

End mirrorHorizontal.

Section mirror_twice.

Import Adjustments.
Local Open Scope Z_scope.

Lemma mirrorHorizontal_pixels imageData h d :
  well_formed imageData h d →
  wp (mirrorHorizontal imageData)
     (λ out h',
        out.(width) = imageData.(width) ∧ out.(height) = imageData.(height)
        ∧ ∃ r, well_formed out h' r
            ∧ ∀ (x y : nat) R G B A,
                (x < imageData.(width))%nat → (y < imageData.(height))%nat →
                pixel_at d (y * imageData.(width) + x) R G B A →
                pixel_at r (y * imageData.(width) + (imageData.(width) - 1 - x)) R G B A) h.
Proof.
  intros (Hd & Hlen & Hbytes). destruct imageData as [w hh dat].
  cbn [width height data] in *.
  eapply wp_mono; [by apply (mirrorHorizontal_mirrored w hh d Hlen Hbytes dat h)|].
  intros out h' (Hw & Hh & _ & r & Hr & Hlr & Hbr & Hpix).
  split; [done|]. split; [done|]. exists r. split.
  - split; [done|]. split; [|done]. by rewrite Hlr, Hlen, Hw, Hh.
  - intros x y R G B A Hx Hy Hpx.
    specialize (Hpix (Z.of_nat y) (Z.of_nat w - 1 - Z.of_nat x) R G B A).
    replace (Z.to_nat (Z.of_nat y * Z.of_nat w
                       + (Z.of_nat w - 1 - (Z.of_nat w - 1 - Z.of_nat x))))
      with (y * w + x)%nat in Hpix by lia.
    replace (Z.to_nat (Z.of_nat y * Z.of_nat w + (Z.of_nat w - 1 - Z.of_nat x)))
      with (y * w + (w - 1 - x))%nat in Hpix by lia.
    apply Hpix; (done || lia).
Qed.

(** X8: [mirrorHorizontal] moves the pixel at column [x] of every row to
    the column [width - 1 - x], all four bytes; mirroring the result again
    gives back the bytes of the input. *)
Theorem mirrorHorizontal_twice_is_identity imageData h d :
  well_formed imageData h d →
  let once := mirrorHorizontal imageData h in
  let twice := mirrorHorizontal once.1 once.2 in
  (∃ r, once.2 !! once.1.(data) = Some (Uint8ClampedArray r)
     ∧ length r = length d
     ∧ ∀ (x y : nat) R G B A,
         (x < imageData.(width))%nat → (y < imageData.(height))%nat →
         pixel_at d (y * imageData.(width) + x) R G B A →
         pixel_at r (y * imageData.(width) + (imageData.(width) - 1 - x)) R G B A)
  ∧ same_buffer imageData d twice.1 twice.2.
Proof.
  intros Hwf once twice. pose proof Hwf as (Hd & Hlen & Hbytes).
  destruct (mirrorHorizontal_pixels imageData h d Hwf) as (Hw & Hh & r & Hwf1 & Hpix1).
  fold once in Hw, Hh, Hwf1.
  destruct (mirrorHorizontal_pixels once.1 once.2 r Hwf1) as (Hw2 & Hh2 & r2 & Hwf2 & Hpix2).
  fold twice in Hw2, Hh2, Hwf2. rewrite Hw, Hh in Hpix2.
  pose proof Hwf1 as (Hr1 & Hlen1 & _). pose proof Hwf2 as (Hr2 & Hlen2 & _).
  split; [exists r; split; [done|]; split; [|done]; by rewrite Hlen1, Hlen, Hw, Hh|].
  split; [congruence|]. split; [congruence|].
  rewrite Hr2. do 2 f_equal.
  apply (pixels_determine (imageData.(width) * imageData.(height))); [done|congruence|].
  intros p R G B A Hpx.
  pose proof (pixel_in_image _ _ _ _ _ _ _ Hlen Hpx) as Hp.
  set (w := imageData.(width)) in *. set (hh := imageData.(height)) in *.
  assert (0 < w)%nat as Hw0 by (destruct w; lia).
  pose proof (Nat.div_mod_eq p w) as Hdiv.
  pose proof (Nat.mod_upper_bound p w ltac:(lia)) as Hmod.
  assert (p / w < hh)%nat as Hrow by (apply Nat.Div0.div_lt_upper_bound; lia).
  assert (p = (p / w) * w + p mod w)%nat as Hpos by lia.
  rewrite Hpos in Hpx |- *.
  pose proof (Hpix1 _ _ _ _ _ _ Hmod Hrow Hpx) as Hmid.
  pose proof (Hpix2 (w - 1 - p mod w)%nat (p / w)%nat _ _ _ _ ltac:(lia) Hrow Hmid) as Hback.
  by replace (w - 1 - (w - 1 - p mod w))%nat with (p mod w)%nat in Hback by lia.
Qed.

End mirror_twice.

(** ** The mask functions and the export of a buffer *)

Section in_place.

Local Open Scope Z_scope.

(** A pixel written with the bytes it holds. *)
Lemma set_pixel_bytes_same r p v0 v1 v2 v3 :
  pixel_at r p v0 v1 v2 v3 → set_pixel_bytes r p v0 v1 v2 v3 = r.
Proof.
  intros (H0 & H1 & H2 & H3). unfold set_pixel_bytes.
  rewrite (list_insert_id r (4 * p)) by done.
  rewrite (list_insert_id r (4 * p + 1)) by done.
  rewrite (list_insert_id r (4 * p + 2)) by done.
  by rewrite (list_insert_id r (4 * p + 3)).
Qed.

(** The pixels that a loop has not reached are those of the input. *)
Lemma pixel_ahead d r p R G B A :
  (∀ i, (4 * p ≤ i)%nat → r !! i = d !! i) →
  pixel_at d p R G B A → pixel_at r p R G B A.
Proof.
  intros Hrest (H0 & H1 & H2 & H3).
  repeat split; (rewrite Hrest by lia; done).
Qed.

(** A functional pixel map determines the bytes written. *)
Lemma mapped_unique result1 result2 d h01 h02 P (N : nat) h1 h2 r1 r2 :
  length d = (4 * N)%nat →
  (∀ p u0 u1 u2 u3 v0 v1 v2 v3,
     P p u0 u1 u2 u3 → P p v0 v1 v2 v3 → u0 = v0 ∧ u1 = v1 ∧ u2 = v2 ∧ u3 = v3) →
  mapped result1 d h01 P N h1 → mapped result2 d h02 P N h2 →
  h1 !! result1 = Some (Uint8ClampedArray r1) →
  h2 !! result2 = Some (Uint8ClampedArray r2) →
  r1 = r2.
Proof.
  intros Hlen Hfun (_ & r1' & Hr1' & Hl1 & Hp1 & _) (_ & r2' & Hr2' & Hl2 & Hp2 & _)
    Hr1 Hr2.
  rewrite Hr1 in Hr1'. injection Hr1' as <-.
  rewrite Hr2 in Hr2'. injection Hr2' as <-.
  rewrite <- Hl2 in Hl1.
  apply (pixels_determine N); [congruence|done|].
  intros p R G B A Hpx.
  assert (p < N)%nat as Hp by (eapply (pixel_in_image N r2); [congruence|done]).
  destruct (Hp1 p Hp) as (u0 & u1 & u2 & u3 & Hu & Hpu).
  destruct (Hp2 p Hp) as (v0 & v1 & v2 & v3 & Hv & Hpv).
  destruct (Hfun _ _ _ _ _ _ _ _ _ Hu Hv) as (-> & -> & -> & ->).
  by destruct (pixel_at_inj _ _ _ _ _ _ _ _ _ _ Hpx Hpv) as (-> & -> & -> & ->).
Qed.

(** A pixel map that writes bytes gives a buffer of bytes. *)
Lemma mapped_bytes result d h0 P (N : nat) h r :
  length d = (4 * N)%nat →
  (∀ p v0 v1 v2 v3, P p v0 v1 v2 v3 → byte v0 ∧ byte v1 ∧ byte v2 ∧ byte v3) →
  mapped result d h0 P N h → h !! result = Some (Uint8ClampedArray r) →
  Forall byte r.
Proof.
  intros Hlen Hbyte (_ & r' & Hr' & Hl & Hpix & _) Hr.
  rewrite Hr in Hr'. injection Hr' as <-.
  apply Forall_lookup_2. intros i z Hi.
  pose proof (lookup_lt_Some _ _ _ Hi) as Hlt.
  pose proof (Nat.div_mod_eq i 4) as Hdiv.
  pose proof (Nat.mod_upper_bound i 4 ltac:(lia)) as Hmod.
  destruct (Hpix (i / 4)%nat) as (v0 & v1 & v2 & v3 & Hv & H0 & H1 & H2 & H3); [lia|].
  destruct (Hbyte _ _ _ _ _ Hv) as (Hb0 & Hb1 & Hb2 & Hb3).
  destruct (i mod 4)%nat as [|[|[|[|c]]]] eqn:Hc; [| | | |lia].
  - replace i with (4 * (i / 4))%nat in Hi by lia. congruence.
  - replace i with (4 * (i / 4) + 1)%nat in Hi by lia. congruence.
  - replace i with (4 * (i / 4) + 2)%nat in Hi by lia. congruence.
  - replace i with (4 * (i / 4) + 3)%nat in Hi by lia. congruence.
Qed.

(** The pixel of a well-formed buffer is made of bytes. *)
Lemma pixel_bytes d p R G B A :
  Forall byte d → pixel_at d p R G B A → byte R ∧ byte G ∧ byte B ∧ byte A.
Proof.
  intros Hbytes (H0 & H1 & H2 & H3).
  split; [|split; [|split]];
    (eapply (Forall_lookup_1 byte d); [exact Hbytes|eassumption]).
Qed.

End in_place.

Section invertMask.

Import Adjustments Masking.
Local Open Scope Z_scope.

Lemma invertMask_maps (result : loc) d (h0 : heap) :
  Forall byte d →
  maps result d h0 (inverted id d) (λ i,
    r0 ← get result i;
    set result i (255 - r0)%float;;
    r1 ← get result (i + 1);
    set result (i + 1) (255 - r1)%float;;
    r2 ← get result (i + 2);
    set result (i + 2) (255 - r2)%float).
Proof.
  intros Hbytes p h r Hp Hframe Hr Hlen Hrest.
  destruct (lookup_pixel d p Hp) as (R & G & B & A & Hpx).
  pose proof (pixel_ahead d r p R G B A Hrest Hpx) as (H0 & H1 & H2 & H3).
  pose proof Hpx as (H0' & H1' & H2' & H3').
  repeat first
    [ wp_step
    | rewrite lookup_insert_eq; cbn [from_option]
    | rewrite Hr; cbn [from_option] ].
  rewrite !insert_insert_eq.
  split; [intros l Hl; by rewrite lookup_insert_ne, Hframe by congruence|].
  exists (255 - R), (255 - G), (255 - B), A.
  split; [by exists R, G, B, A|]. f_equal.
  rewrite !arr_set_clamped, !arr_get_clamped by lia.
  replace (Z.to_nat (0 + Z.of_nat p * 4)) with (4 * p)%nat by lia.
  replace (Z.to_nat (0 + Z.of_nat p * 4 + 1)) with (4 * p + 1)%nat by lia.
  replace (Z.to_nat (0 + Z.of_nat p * 4 + 2)) with (4 * p + 2)%nat by lia.
  unfold set_pixel_bytes.
  rewrite !list_lookup_insert_ne by lia.
  rewrite H0, H1, H2. cbn [from_option].
  rewrite !inverted_byte by (eapply Forall_lookup_1; [exact Hbytes|eassumption]).
  f_equal. symmetry. apply list_insert_id.
  by rewrite !list_lookup_insert_ne by lia.
Qed.

Lemma inverted_functional d p u0 u1 u2 u3 v0 v1 v2 v3 :
  inverted id d p u0 u1 u2 u3 → inverted id d p v0 v1 v2 v3 →
  u0 = v0 ∧ u1 = v1 ∧ u2 = v2 ∧ u3 = v3.
Proof.
  intros (R & G & B & A & Hpx & -> & -> & -> & ->)
    (R' & G' & B' & A' & Hpx' & -> & -> & -> & ->).
  by destruct (pixel_at_inj _ _ _ _ _ _ _ _ _ _ Hpx Hpx') as (-> & -> & -> & ->).
Qed.

Lemma invertMask_mapped maskData h d :
  well_formed maskData h d →
  wp (invertMask maskData)
     (λ out h',
        out.(width) = maskData.(width) ∧ out.(height) = maskData.(height)
        ∧ mapped out.(data) d (<[out.(data) := Uint8ClampedArray d]> h) (inverted id d)
            (maskData.(width) * maskData.(height)) h') h.
Proof.
  intros (Hd & Hlen & Hbytes). destruct maskData as [w hh dat].
  cbn [width height data] in *. unfold invertMask.
  apply wp_bind. eapply wp_new_Uint8ClampedArray_from; [exact Hd|].
  intros result Hres. simpl arr_values. rewrite copy_bytes by done.
  apply wp_bind, wp_length_of. rewrite lookup_insert_eq.
  cbn [from_option arr_length]. apply wp_bind.
  apply (step_scan result d (<[result := Uint8ClampedArray d]> h) (inverted id d) (w * hh));
    [done| |apply mapped_start|].
  - by apply invertMask_maps.
  - intros h' Hmapped. by apply wp_ret.
Qed.

(** X9: on a well-formed mask [invertMask] returns an image of the size and
    with the bytes that [invert] returns: the colour bytes [c] replaced by
    [255 - c], the alpha bytes kept.  Inverting the result again gives back
    the bytes of the mask. *)
Theorem invertMask_is_invert maskData h d :
  well_formed maskData h d →
  let once := invertMask maskData h in
  let twice := invertMask once.1 once.2 in
  once.1.(width) = maskData.(width) ∧ once.1.(height) = maskData.(height)
  ∧ (∃ r, once.2 !! once.1.(data) = Some (Uint8ClampedArray r)
       ∧ (invert maskData h).2 !! (invert maskData h).1.(data)
         = Some (Uint8ClampedArray r)
       ∧ ∀ p R G B A, pixel_at d p R G B A →
           pixel_at r p (255 - R) (255 - G) (255 - B) A)
  ∧ same_buffer maskData d twice.1 twice.2.
Proof.
  intros Hwf once twice. pose proof Hwf as (Hd & Hlen & Hbytes).
  assert (∀ img h1 d1, well_formed img h1 d1 →
            img.(width) = maskData.(width) → img.(height) = maskData.(height) →
            let out := invertMask img h1 in
            out.1.(width) = maskData.(width) ∧ out.1.(height) = maskData.(height)
            ∧ ∃ r, well_formed out.1 out.2 r
                ∧ (invert img h1).2 !! (invert img h1).1.(data)
                  = Some (Uint8ClampedArray r)
                ∧ ∀ p R G B A, pixel_at d1 p R G B A →
                    pixel_at r p (255 - R) (255 - G) (255 - B) A) as Hstep.
  { intros img h1 d1 Hwf1 Hw1 Hh1 out. pose proof Hwf1 as (Hd1 & Hlen1 & Hbytes1).
    pose proof (invertMask_mapped img h1 d1 Hwf1) as Hm. unfold wp in Hm.
    fold out in Hm. destruct Hm as (Hw & Hh & Hm).
    pose proof (invert_mapped img h1 d1 Hwf1) as Hi. unfold wp in Hi.
    destruct Hi as (_ & _ & Hi).
    pose proof Hm as (_ & r & Hr & Hlr & Hpix & _).
    pose proof Hi as (_ & r' & Hr' & _).
    assert (r = r') as <-
      by (eapply (mapped_unique _ _ d1); [exact Hlen1|apply inverted_functional
                                         |exact Hm|exact Hi|exact Hr|exact Hr']).
    split; [congruence|]. split; [congruence|]. exists r.
    split; [|split; [done|]].
    - split; [done|]. split; [by rewrite Hlr, Hlen1, Hw, Hh|].
      eapply (mapped_bytes _ d1); [exact Hlen1| |exact Hm|exact Hr].
      intros p v0 v1 v2 v3 (R & G & B & A & Hpx & -> & -> & -> & ->).
      destruct (pixel_bytes _ _ _ _ _ _ Hbytes1 Hpx) as (HR & HG & HB & HA).
      unfold byte, id in *. lia.
    - intros p R G B A Hpx.
      destruct (Hpix p) as (v0 & v1 & v2 & v3
                            & (R' & G' & B' & A' & Hpx' & -> & -> & -> & ->) & Hpr);
        [by eapply pixel_in_image|].
      by destruct (pixel_at_inj _ _ _ _ _ _ _ _ _ _ Hpx Hpx') as (-> & -> & -> & ->). }
  destruct (Hstep maskData h d Hwf eq_refl eq_refl) as (Hw & Hh & r & Hwf1 & Hinv & Hpix1).
  fold once in Hw, Hh, Hwf1.
  destruct (Hstep once.1 once.2 r Hwf1 Hw Hh) as (Hw2 & Hh2 & r2 & Hwf2 & _ & Hpix2).
  fold twice in Hw2, Hh2, Hwf2.
  split; [done|]. split; [done|].
  split; [exists r; split; [apply Hwf1|done]|].
  split; [done|]. split; [done|].
  destruct Hwf1 as (_ & Hlen1 & _). destruct Hwf2 as (Hr2 & Hlen2 & _).
  rewrite Hr2. do 2 f_equal.
  apply (pixels_determine (maskData.(width) * maskData.(height))); [done|congruence|].
  intros p R G B A Hpx.
  pose proof (Hpix2 _ _ _ _ _ (Hpix1 _ _ _ _ _ Hpx)) as Hback.
  by replace (255 - (255 - R)) with R in Hback by lia;
     replace (255 - (255 - G)) with G in Hback by lia;
     replace (255 - (255 - B)) with B in Hback by lia.
Qed.

End invertMask.

Section applyMaskToImage.

Import Masking.
Local Open Scope Z_scope.

(** [Math.min] of two bytes, of a byte and [255 - m], and of a byte and
    [undefined], as stored in a clamped array. *)
Lemma mask_alpha_stored (invert : bool) A mask :
  byte A → (∀ m, mask = Some m → byte m) →
  ToUint8Clamp (Math_min (num A)
                  (if invert then (255 - from_option num undefined mask)%float
                   else from_option num undefined mask))
  = mask_alpha invert mask A.
Proof.
  intros HA Hmask. destruct mask as [m|]; cbn [from_option mask_alpha].
  - specialize (Hmask m eq_refl). apply Z.eqb_eq.
    assert (forallb (λ A, forallb (λ m,
              (ToUint8Clamp (Math_min (num A) (255 - num m)) =? Z.min A (255 - m))
              && (ToUint8Clamp (Math_min (num A) (num m)) =? Z.min A m))
              (seqZ 0 256)) (seqZ 0 256) = true) as Hall by (vm_compute; reflexivity).
    pose proof (forallb_bytes _ Hall A HA) as Hall'. cbv beta in Hall'.
    pose proof (forallb_bytes _ Hall' m Hmask) as Heq. cbv beta in Heq.
    apply andb_prop in Heq as [Hinv Hpos]. by destruct invert.
  - apply Z.eqb_eq. revert A HA. destruct invert.
    + apply forallb_bytes. vm_compute. reflexivity.
    + apply forallb_bytes. vm_compute. reflexivity.
Qed.

Lemma applyMaskToImage_maps (mdat result : loc) (invert : bool) m d (h0 : heap) :
  mdat ≠ result → h0 !! mdat = Some (Uint8ClampedArray m) →
  Forall byte m → Forall byte d →
  maps result d h0 (masked invert m d) (λ i,
    maskValue ← get mdat i;
    let alpha := if invert then (255 - maskValue)%float else maskValue in
    r3 ← get result (i + 3);
    set result (i + 3) (Math_min r3 alpha)).
Proof.
  intros Hne Hm Hmbytes Hbytes p h r Hp Hframe Hr Hlen Hrest.
  destruct (lookup_pixel d p Hp) as (R & G & B & A & Hpx).
  pose proof (pixel_ahead d r p R G B A Hrest Hpx) as Hpr.
  pose proof Hpr as (H0 & H1 & H2 & H3).
  destruct (pixel_bytes _ _ _ _ _ _ Hbytes Hpx) as (_ & _ & _ & HA).
  assert (h !! mdat = Some (Uint8ClampedArray m)) as Hm1 by (by rewrite Hframe).
  cbv zeta.
  repeat first
    [ wp_step
    | rewrite Hm1; cbn [from_option]
    | rewrite Hr; cbn [from_option] ].
  split; [intros l Hl; by rewrite lookup_insert_ne, Hframe by congruence|].
  exists R, G, B, (mask_alpha invert (m !! (4 * p)%nat) A).
  split; [by exists R, G, B, A|]. f_equal.
  rewrite !arr_set_clamped, !arr_get_clamped by lia.
  replace (Z.to_nat (0 + Z.of_nat p * 4)) with (4 * p)%nat by lia.
  replace (Z.to_nat (0 + Z.of_nat p * 4 + 3)) with (4 * p + 3)%nat by lia.
  rewrite H3. cbn [from_option]. f_equal.
  rewrite (mask_alpha_stored invert A (m !! (4 * p)%nat) HA)
    by (intros z Hz; by eapply (Forall_lookup_1 byte m)).
  unfold set_pixel_bytes.
  rewrite (list_insert_id r (4 * p)) by done.
  rewrite (list_insert_id r (4 * p + 1)) by done.
  rewrite (list_insert_id r (4 * p + 2)) by done.
  apply lookup_insert_eq.
Qed.

(** X10: [applyMaskToImage] keeps the colour bytes of every pixel and never
    raises its alpha: the new alpha is the smaller of the old one and the
    red byte [m] of the mask at the same index ([255 - m] with [invert]), and
    0 where the mask's array has no byte at that index. *)
Theorem applyMaskToImage_lowers_alpha imageData maskData (invert : bool) h d m :
  well_formed imageData h d →
  h !! maskData.(data) = Some (Uint8ClampedArray m) → Forall byte m →
  let out := (applyMaskToImage imageData maskData invert h).1 in
  let h' := (applyMaskToImage imageData maskData invert h).2 in
  out.(width) = imageData.(width) ∧ out.(height) = imageData.(height)
  ∧ ∃ r, h' !! out.(data) = Some (Uint8ClampedArray r)
      ∧ length r = length d
      ∧ ∀ p R G B A, pixel_at d p R G B A →
          ∃ A', pixel_at r p R G B A'
            ∧ 0 ≤ A' ≤ A
            ∧ (∀ M, m !! (4 * p)%nat = Some M →
                 A' = Z.min A (if invert then 255 - M else M))
            ∧ (m !! (4 * p)%nat = None → A' = 0).
Proof.
  intros (Hd & Hlen & Hbytes) Hm Hmbytes out h'.
  assert (wp (applyMaskToImage imageData maskData invert)
            (λ out h', out.(width) = imageData.(width)
               ∧ out.(height) = imageData.(height)
               ∧ mapped out.(data) d (<[out.(data) := Uint8ClampedArray d]> h)
                   (masked invert m d) (imageData.(width) * imageData.(height)) h') h)
    as Hmapped.
  { destruct imageData as [w hh dat]. destruct maskData as [mw mh mdat].
    cbn [width height data] in *. unfold applyMaskToImage. cbn [data].
    apply wp_bind. eapply wp_new_Uint8ClampedArray_from; [exact Hd|].
    intros result Hres. simpl arr_values. rewrite copy_bytes by done.
    assert (dat ≠ result) as Hne by congruence.
    assert (mdat ≠ result) as Hne' by congruence.
    apply wp_bind, wp_length_of. rewrite lookup_insert_ne, Hd by done.
    cbn [from_option arr_length]. apply wp_bind.
    apply (step_scan result d (<[result := Uint8ClampedArray d]> h)
             (masked invert m d) (w * hh)); [done| |apply mapped_start|].
    - apply applyMaskToImage_maps; [done| |done|done]. by rewrite lookup_insert_ne.
    - intros h1 Hh1. by apply wp_ret. }
  destruct Hmapped as (Hw & Hh & _ & r & Hr & Hlr & Hpix & _).
  fold out h' in Hw, Hh, Hr. split; [done|]. split; [done|].
  exists r. split; [done|]. split; [done|].
  intros p R G B A Hpx.
  destruct (Hpix p) as (v0 & v1 & v2 & v3
                        & (R' & G' & B' & A' & Hpx' & -> & -> & -> & ->) & Hpr);
    [by eapply pixel_in_image|].
  destruct (pixel_at_inj _ _ _ _ _ _ _ _ _ _ Hpx Hpx') as (-> & -> & -> & ->).
  destruct (pixel_bytes _ _ _ _ _ _ Hbytes Hpx) as (_ & _ & _ & HA).
  exists (mask_alpha invert (m !! (4 * p)%nat) A). split; [done|].
  destruct (m !! (4 * p)%nat) as [M|] eqn:HM; cbn [mask_alpha].
  - pose proof (Forall_lookup_1 byte m _ _ Hmbytes HM) as HMb.
    split; [|split; [by intros ? [= <-]|done]].
    unfold byte in *. destruct invert; lia.
  - split; [unfold byte in *; lia|]. split; [done|done].
Qed.

End applyMaskToImage.

(** ** The export of a buffer on white *)

Section sanitizeRgbaForExport.

Import Alpha.
Local Open Scope Z_scope.

Lemma wp_set_all dst src a b Q h :
  h !! dst = Some a → h !! src = Some b →
  Z.of_nat (length (arr_values b)) ≤ arr_length a →
  Q () (<[dst := arr_set_all a (arr_values b)]> h) → wp (set_all dst src) Q h.
Proof.
  intros Ha Hb Hle HQ. unfold wp, set_all. rewrite Ha, Hb.
  by rewrite (proj2 (Z.leb_le _ _) Hle).
Qed.

(** What the composition on white does to a byte. *)
Lemma on_white_spec c A :
  byte c → byte A →
  c ≤ on_white c A ≤ 255
  ∧ (A = 255 → on_white c A = c)
  ∧ (A = 0 → on_white c A = 255).
Proof.
  intros Hc HA.
  assert (forallb (λ c, forallb (λ A,
            (c <=? on_white c A) && (on_white c A <=? 255)
            && (implb (A =? 255) (on_white c A =? c))
            && (implb (A =? 0) (on_white c A =? 255)))
            (seqZ 0 256)) (seqZ 0 256) = true) as Hall by (vm_compute; reflexivity).
  pose proof (forallb_bytes _ Hall c Hc) as Hall'. cbv beta in Hall'.
  pose proof (forallb_bytes _ Hall' A HA) as Heq. cbv beta in Heq.
  apply andb_prop in Heq as [Heq H0]. apply andb_prop in Heq as [Heq H255].
  apply andb_prop in Heq as [Hlo Hhi].
  split; [lia|]. split.
  - intros ->. rewrite Z.eqb_refl in H255. cbn [implb] in H255. by apply Z.eqb_eq.
  - intros ->. rewrite Z.eqb_refl in H0. cbn [implb] in H0. by apply Z.eqb_eq.
Qed.

Lemma sanitize_maps (out : loc) d (h0 : heap) :
  Forall byte d →
  maps out d h0 (sanitized d) (λ i,
    a ← get out (i + 3);
    when (a <? 255)%float (
      let alpha := (a / 255)%float in
      o0 ← get out i;
      set out i (Math_round (o0 * alpha + 255 * (1 - alpha)));;
      o1 ← get out (i + 1);
      set out (i + 1) (Math_round (o1 * alpha + 255 * (1 - alpha)));;
      o2 ← get out (i + 2);
      set out (i + 2) (Math_round (o2 * alpha + 255 * (1 - alpha))))).
Proof.
  intros Hbytes p h r Hp Hframe Hr Hlen Hrest.
  destruct (lookup_pixel d p Hp) as (R & G & B & A & Hpx).
  pose proof (pixel_ahead d r p R G B A Hrest Hpx) as Hpr.
  pose proof Hpr as (H0 & H1 & H2 & H3).
  apply wp_bind, wp_get. rewrite Hr. cbn [from_option].
  rewrite arr_get_clamped by lia.
  replace (Z.to_nat (0 + Z.of_nat p * 4 + 3)) with (4 * p + 3)%nat by lia.
  rewrite H3. cbn [from_option].
  apply wp_when; intros Ha.
  - cbv zeta.
    repeat first
      [ wp_step
      | rewrite lookup_insert_eq; cbn [from_option]
      | rewrite Hr; cbn [from_option] ].
    rewrite !insert_insert_eq.
    split; [intros l Hl; by rewrite lookup_insert_ne, Hframe by congruence|].
    exists (on_white R A), (on_white G A), (on_white B A), A.
    split; [by exists R, G, B, A|]. f_equal.
    rewrite !arr_set_clamped, !arr_get_clamped by lia.
    replace (Z.to_nat (0 + Z.of_nat p * 4)) with (4 * p)%nat by lia.
    replace (Z.to_nat (0 + Z.of_nat p * 4 + 1)) with (4 * p + 1)%nat by lia.
    replace (Z.to_nat (0 + Z.of_nat p * 4 + 2)) with (4 * p + 2)%nat by lia.
    unfold set_pixel_bytes, on_white. rewrite Ha.
    rewrite !list_lookup_insert_ne by lia.
    rewrite H0, H1, H2. cbn [from_option].
    f_equal. symmetry. apply list_insert_id.
    by rewrite !list_lookup_insert_ne by lia.
  - split; [done|].
    exists (on_white R A), (on_white G A), (on_white B A), A.
    split; [by exists R, G, B, A|]. rewrite Hr. do 2 f_equal.
    unfold on_white. rewrite Ha. symmetry. by apply set_pixel_bytes_same.
Qed.

(** X11: [sanitizeRgbaForExport] leaves its argument as it was and returns
    another array of the same length, in which every pixel keeps its alpha
    byte and has each colour byte composed on white by the alpha: the byte
    is kept in an opaque pixel, is 255 in a fully transparent one, and
    never gets darker. *)
Theorem sanitizeRgbaForExport_on_white data h d (N : nat) :
  h !! data = Some (Uint8ClampedArray d) → Forall byte d → length d = (4 * N)%nat →
  let out := (sanitizeRgbaForExport data h).1 in
  let h' := (sanitizeRgbaForExport data h).2 in
  h !! out = None
  ∧ (∀ l b, h !! l = Some b → h' !! l = Some b)
  ∧ ∃ r, h' !! out = Some (Uint8ClampedArray r)
      ∧ length r = length d
      ∧ ∀ p R G B A, pixel_at d p R G B A →
          pixel_at r p (on_white R A) (on_white G A) (on_white B A) A
          ∧ (R ≤ on_white R A ≤ 255 ∧ G ≤ on_white G A ≤ 255 ∧ B ≤ on_white B A ≤ 255)
          ∧ (A = 255 → pixel_at r p R G B 255)
          ∧ (A = 0 → pixel_at r p 255 255 255 0).
Proof.
  intros Hd Hbytes Hlen out h'.
  assert (wp (sanitizeRgbaForExport data)
            (λ out h', h !! out = None
               ∧ mapped out d (<[out := Uint8ClampedArray d]> h) (sanitized d) N h') h)
    as Hmapped.
  { unfold sanitizeRgbaForExport.
    apply wp_bind, wp_length_of. rewrite Hd. cbn [from_option arr_length].
    apply wp_bind, wp_alloc. intros result Hres.
    assert (data ≠ result) as Hne by congruence.
    apply wp_bind.
    eapply (wp_set_all result data);
      [apply lookup_insert_eq|by rewrite lookup_insert_ne|
       cbn [arr_values arr_length]; rewrite length_fmap, length_replicate; lia|].
    cbn [arr_values arr_set_all]. rewrite copy_bytes by done.
    rewrite length_fmap, drop_ge, app_nil_r by (rewrite length_replicate; lia).
    rewrite insert_insert_eq.
    apply wp_bind, wp_length_of. rewrite lookup_insert_eq.
    cbn [from_option arr_length]. apply wp_bind.
    apply (step_scan result d (<[result := Uint8ClampedArray d]> h) (sanitized d) N);
      [done|by apply sanitize_maps|apply mapped_start|].
    intros h1 Hh1. by apply wp_ret. }
  destruct Hmapped as (Hfresh & Hframe & r & Hr & Hlr & Hpix & _).
  fold out h' in Hfresh, Hframe, Hr. split; [done|]. split.
  { intros l b Hl. assert (l ≠ out) as Hne by congruence.
    by rewrite Hframe, lookup_insert_ne by done. }
  exists r. split; [done|]. split; [done|].
  intros p R G B A Hpx.
  destruct (Hpix p) as (v0 & v1 & v2 & v3
                        & (R' & G' & B' & A' & Hpx' & -> & -> & -> & ->) & Hpr);
    [by eapply pixel_in_image|].
  destruct (pixel_at_inj _ _ _ _ _ _ _ _ _ _ Hpx Hpx') as (-> & -> & -> & ->).
  destruct (pixel_bytes _ _ _ _ _ _ Hbytes Hpx) as (HR & HG & HB & HA).
  destruct (on_white_spec R A HR HA) as (HbR & HoR & HtR).
  destruct (on_white_spec G A HG HA) as (HbG & HoG & HtG).
  destruct (on_white_spec B A HB HA) as (HbB & HoB & HtB).
  split; [done|]. split; [done|]. split.
  - intros ->. by rewrite HoR, HoG, HoB in Hpr.
  - intros ->. by rewrite HtR, HtG, HtB in Hpr.
Qed.

End sanitizeRgbaForExport.

(** ** The simplification of a path *)

Section simplifyPath.

Import Contour.

Variable Math_pow : float → float → float.

Local Abbreviation distance := (perpendicularDistance Math_pow).

(** The search ends on an inner index, or where it began. *)
Lemma farthest_step (points : list Point.t) first last (l : list nat) maxDist maxIdx :
  Forall (λ i, 1 ≤ i ≤ length points - 2) l →
  (maxIdx = 0 ∧ maxDist = 0%float) ∨ 1 ≤ maxIdx ≤ length points - 2 →
  let r := foldl (λ '(maxDist, maxIdx) i,
                    let dist := distance (default first (points !! i)) first last in
                    if (maxDist <? dist)%float then (dist, i) else (maxDist, maxIdx))
                 (maxDist, maxIdx) l in
  (r.2 = 0 ∧ r.1 = 0%float) ∨ 1 ≤ r.2 ≤ length points - 2.
Proof.
  intros Hl. revert maxDist maxIdx.
  induction Hl as [|i l Hi _ IH]; intros maxDist maxIdx Hinv; [done|].
  cbn [foldl]. cbv zeta.
  destruct (maxDist <? _)%float; apply IH; [by right|done].
Qed.

Lemma farthest_range (points : list Point.t) first last :
  let r := farthest Math_pow points first last in
  (r.2 = 0 ∧ r.1 = 0%float) ∨ 1 ≤ r.2 ≤ length points - 2.
Proof.
  apply farthest_step; [|by left].
  apply Forall_forall. intros i Hi%elem_of_seq. lia.
Qed.

(** With no inner point off the line the search stays where it began. *)
Lemma farthest_on_line (points : list Point.t) first last :
  (∀ i, 1 ≤ i ≤ length points - 2 →
        (0 <? distance (default first (points !! i)) first last)%float = false) →
  farthest Math_pow points first last = (0%float, 0).
Proof.
  intros Hline. unfold farthest.
  assert (Forall (λ i, 1 ≤ i ≤ length points - 2) (seq 1 (length points - 2))) as Hl
    by (apply Forall_forall; intros i Hi%elem_of_seq; lia).
  induction Hl as [|i l Hi _ IH]; [done|].
  cbn [foldl]. by rewrite (Hline i Hi).
Qed.

Lemma simplifyPath_unfold fuel first b c rest epsilon :
  simplifyPath Math_pow (S fuel) (first :: b :: c :: rest) epsilon
  = let points := first :: b :: c :: rest in
    let last := List.last points first in
    if (epsilon <? (farthest Math_pow points first last).1)%float then
      left ← simplifyPath Math_pow fuel
                (take ((farthest Math_pow points first last).2 + 1) points) epsilon;
      right ← simplifyPath Math_pow fuel
                 (drop (farthest Math_pow points first last).2 points) epsilon;
      Some (removelast left ++ right)
    else Some [first; last].
Proof.
  cbn [simplifyPath]. cbv zeta.
  by destruct (farthest Math_pow (first :: b :: c :: rest) first _).
Qed.

Lemma simplifyPath_short fuel points epsilon :
  length points < 3 → simplifyPath Math_pow (S fuel) points epsilon = Some points.
Proof.
  destruct points as [|? [|? [|? ?]]]; cbn [length]; intros; (done || lia).
Qed.

Lemma last_default (points : list Point.t) d :
  points ≠ [] → last points = Some (List.last points d).
Proof.
  induction points as [|a [|b l] IH]; [done|done|]. intros _.
  rewrite last_cons_cons. by apply IH.
Qed.

Lemma last_drop (points : list Point.t) i :
  i < length points → last (drop i points) = last points.
Proof.
  intros Hi. rewrite !last_lookup, lookup_drop, length_drop. f_equal. lia.
Qed.

(** X12: with a tolerance that is not negative, [simplifyPath] returns (the
    recursion ends within [length points] nested calls), and the path it
    returns is made of points of the input in their order, beginning with
    the first and ending with the last point of the input. *)
Theorem simplifyPath_keeps_ends points epsilon fuel :
  (epsilon <? 0)%float = false → length points < fuel →
  ∃ r, simplifyPath Math_pow fuel points epsilon = Some r
     ∧ r `sublist_of` points
     ∧ head r = head points
     ∧ last r = last points.
Proof.
  intros Heps. revert points.
  induction fuel as [|fuel IH]; intros points Hfuel; [lia|].
  destruct (decide (length points < 3)) as [Hshort|Hlong].
  { exists points. by rewrite simplifyPath_short. }
  destruct points as [|first [|b [|c rest]]]; cbn [length] in Hlong; [lia..|].
  rewrite simplifyPath_unfold. cbv zeta.
  set (points := first :: b :: c :: rest) in *.
  set (lst := List.last points first).
  assert (last points = Some lst) as Hlast by (by apply last_default).
  pose proof (farthest_range points first lst) as Hrange. cbv zeta in Hrange.
  destruct (farthest Math_pow points first lst) as [maxDist maxIdx].
  cbn [fst snd] in *.
  destruct (epsilon <? maxDist)%float eqn:Hcut.
  - destruct Hrange as [[-> ->]|Hidx]; [congruence|].
    assert (length points = S (S (S (length rest)))) as Hlen by done.
    destruct (lookup_lt_is_Some_2 points maxIdx) as [q Hq]; [lia|].
    destruct (IH (take (maxIdx + 1) points)) as (rl & -> & Hsl & Hhl & Hll).
    { rewrite length_take. lia. }
    destruct (IH (drop maxIdx points)) as (rr & -> & Hsr & Hhr & Hlr).
    { rewrite length_drop. lia. }
    cbn [mbind option_bind]. eexists. split; [done|].
    replace (maxIdx + 1) with (S maxIdx) in * by lia.
    rewrite (take_S_r _ _ _ Hq) in Hsl, Hhl, Hll.
    rewrite last_snoc in Hll. apply last_Some in Hll as [l' ->].
    rewrite removelast_last. apply sublist_app_inv_r in Hsl.
    rewrite (head_lookup (drop _ _)), lookup_drop, Nat.add_0_r, Hq in Hhr.
    rewrite last_drop in Hlr by lia.
    split; [|split].
    + rewrite <- (take_drop maxIdx points). by apply sublist_app.
    + assert (head (take maxIdx points ++ [q]) = Some first) as Hfirst.
      { rewrite <- (take_S_r _ _ _ Hq). by rewrite (head_lookup (take _ _)), lookup_take_lt by lia. }
      rewrite Hfirst in Hhl. destruct l' as [|a l']; [|done].
      cbn [app head] in Hhl. injection Hhl as ->. done.
    + rewrite last_app. destruct (last rr) eqn:Hrr; [done|].
      apply last_None in Hrr as ->. done.
  - exists [first; lst]. split; [done|]. split; [|done].
    apply last_Some in Hlast as [l' Hl']. unfold points in Hl'.
    destruct l' as [|a l']; [done|]. injection Hl' as <- Hl'.
    unfold points. rewrite Hl'.
    apply sublist_skip, sublist_inserts_l. done.
Qed.

(** X13: with a negative tolerance, on a path of three points or more none
    of whose inner points lies off the line from the first to the last one
    (more exactly: none has a distance above 0), [simplifyPath] calls itself
    on the same path again and never returns. *)
Theorem simplifyPath_negative_epsilon points epsilon :
  (epsilon <? 0)%float = true → 3 ≤ length points →
  (∀ i first, head points = Some first → 1 ≤ i ≤ length points - 2 →
     (0 <? distance (default first (points !! i)) first
             (List.last points first))%float = false) →
  ∀ fuel, simplifyPath Math_pow fuel points epsilon = None.
Proof.
  intros Heps Hlen Hline fuel.
  destruct points as [|first [|b [|c rest]]]; cbn [length] in Hlen; [lia..|].
  induction fuel as [|fuel IH]; [done|].
  rewrite simplifyPath_unfold. cbv zeta.
  rewrite farthest_on_line by (intros i Hi; by apply Hline).
  cbn [fst snd]. rewrite Heps, drop_0, IH.
  destruct (simplifyPath Math_pow fuel (take _ _) epsilon); reflexivity.
Qed.

End simplifyPath.

(** ** Dilation and erosion of a contour image *)

Section painting.

Local Open Scope Z_scope.

Context (w hh : nat) (d : list Z) (value : Z → Z → Z).
Context (Hlen : length d = (4 * (w * hh))%nat).

Local Abbreviation W := (Z.of_nat w).
Local Abbreviation H := (Z.of_nat hh).

Lemma painted_ext (data result : loc) (v v' : Z → Z → bool) h :
  (∀ y x, 0 ≤ y < H → 0 ≤ x < W → v' y x = v y x) →
  painted d W H value data result v h → painted d W H value data result v' h.
Proof.
  intros Hext (Hd & r & Hr & Hlr & Hpix). split; [done|].
  exists r. split; [done|]. split; [done|].
  intros y x Hy Hx. cbv zeta. rewrite Hext by done. by apply Hpix.
Qed.

(** The rule for the two loops over the pixels: the body paints the pixel
    [(x, y)], white until then, and leaves the rest of the store alone. *)
Lemma paint_scan (data result : loc) (body : Z → Z → M unit) h Q :
  data ≠ result →
  h !! data = Some (Uint8ClampedArray d) →
  h !! result = Some (Uint8ClampedArray (replicate (length d) 255)) →
  (∀ y x h1 r, 0 ≤ y < H → 0 ≤ x < W →
     h1 !! data = Some (Uint8ClampedArray d) →
     h1 !! result = Some (Uint8ClampedArray r) → length r = length d →
     pixel_at r (Z.to_nat (y * W + x)) 255 255 255 255 →
     wp (body y x)
        (λ _ h2, h2 = <[result := Uint8ClampedArray
                          (set_pixel_bytes r (Z.to_nat (y * W + x))
                             (value y x) (value y x) (value y x) 255)]> h1) h1) →
  (∀ h', painted d W H value data result (λ _ _, true) h' → Q () h') →
  wp (for_ 0 H (λ y, for_ 0 W (λ x, body y x))) Q h.
Proof.
  intros Hne Hd Hres Hbody HQ.
  apply (wp_for (λ y, painted d W H value data result (λ y' _, y' <? y))).
  - split; [done|]. eexists. split; [done|]. split; [by rewrite length_replicate|].
    intros y x Hy Hx.
    destruct (pixel_index w hh d x y Hlen Hy Hx) as [_ Hidx].
    rewrite (proj2 (Z.ltb_ge y 0)) by lia. cbv zeta.
    unfold pixel_at. by rewrite !lookup_replicate_2 by lia.
  - intros y h1 Hy Hh1.
    apply (wp_for (λ x, painted d W H value data result
                          (λ y' x', (y' <? y) || ((y' =? y) && (x' <? x))))).
    + revert Hh1. apply painted_ext. intros y' x' Hy' Hx'.
      destruct (Z.ltb_spec y' y); [done|]. cbn [orb].
      destruct (Z.eqb_spec y' y) as [->|]; [|done]. cbn [andb].
      apply Z.ltb_ge. lia.
    + intros x h2 Hx (Hd2 & r & Hr & Hlr & Hpix).
      destruct (pixel_index w hh d x y Hlen) as [_ Hidx]; [lia..|].
      assert (pixel_at r (Z.to_nat (y * W + x)) 255 255 255 255) as Hwhite.
      { specialize (Hpix y x ltac:(lia) ltac:(lia)). cbv zeta in Hpix.
        rewrite Z.ltb_irrefl, Z.eqb_refl, Z.ltb_irrefl in Hpix. done. }
      eapply wp_mono; [apply (Hbody y x h2 r); (done || lia)|].
      intros [] h3 ->.
      split; [by rewrite lookup_insert_ne|].
      eexists. split; [apply lookup_insert_eq|].
      split; [by rewrite length_set_pixel_bytes|].
      intros y' x' Hy' Hx'. specialize (Hpix y' x' Hy' Hx'). cbv zeta in Hpix.
      destruct (decide (y' * W + x' = y * W + x)) as [Heq|Hneq].
      * assert (y' = y) as ->.
        { destruct (Z.lt_trichotomy y' y) as [Hlt'|[?|Hgt']]; [|done|]; exfalso; nia. }
        assert (x' = x) as -> by lia.
        rewrite Z.ltb_irrefl, Z.eqb_refl. cbn [orb andb].
        rewrite (proj2 (Z.ltb_lt x (x + 1))) by lia.
        apply set_pixel_bytes_here. lia.
      * assert ((y' <? y) || ((y' =? y) && (x' <? x + 1))
                = (y' <? y) || ((y' =? y) && (x' <? x))) as ->.
        { destruct (Z.ltb_spec y' y); [done|]. cbn [orb].
          destruct (Z.eqb_spec y' y) as [->|]; [|done]. cbn [andb].
          destruct (Z.ltb_spec x' (x + 1)), (Z.ltb_spec x' x); (done || lia). }
        apply set_pixel_bytes_other; [|done].
        pose proof (pixel_index w hh d x' y' Hlen Hy' Hx') as [? _]. lia.
    + intros h2. apply painted_ext. intros y' x' Hy' Hx'.
      lia.
  - intros h1 Hh1. apply HQ. revert Hh1. apply painted_ext. intros y' x' Hy' Hx'.
    symmetry. apply Z.ltb_lt. lia.
Qed.

End painting.

Section pure_loops.

(** A loop whose body only computes. *)
Lemma wp_foldM_pure {S} (l : list Z) (body : Z → S → M S) (g : Z → S → S) s h Q :
  (∀ i s, wp (body i s) (λ s' h', h' = h ∧ s' = g i s) h) →
  Q (foldl (λ s i, g i s) s l) h →
  wp (foldM l body s) Q h.
Proof.
  intros Hbody. revert s. induction l as [|i l IH]; intros s HQ; [by apply wp_ret|].
  cbn [foldM]. apply wp_bind. eapply wp_mono; [apply Hbody|].
  intros s' h' [-> ->]. by apply IH.
Qed.

Lemma wp_for_acc_pure {S} lo hi (body : Z → S → M S) (g : Z → S → S) s h Q :
  (∀ i s, wp (body i s) (λ s' h', h' = h ∧ s' = g i s) h) →
  Q (foldl (λ s i, g i s) s (seqZ lo (hi - lo))) h →
  wp (for_acc lo hi s body) Q h.
Proof. apply wp_foldM_pure. Qed.

(** The loops that stop at the first hit compute [existsb], those that stop
    at the first miss compute [forallb]. *)
Lemma foldl_until (g : Z → bool → bool) (f : Z → bool) (l : list Z) (s : bool) :
  (∀ i s, g i s = if s then s else if f i then true else s) →
  foldl (λ s i, g i s) s l = s || existsb f l.
Proof.
  intros Hg. revert s. induction l as [|i l IH]; intros s; cbn [foldl existsb].
  - by rewrite orb_false_r.
  - rewrite IH, Hg. destruct s; [done|]. by destruct (f i).
Qed.

Lemma foldl_while (g : Z → bool → bool) (f : Z → bool) (l : list Z) (s : bool) :
  (∀ i s, g i s = if s then (if f i then s else false) else s) →
  foldl (λ s i, g i s) s l = s && forallb f l.
Proof.
  intros Hg. revert s. induction l as [|i l IH]; intros s; cbn [foldl forallb].
  - by rewrite andb_true_r.
  - rewrite IH, Hg. destruct s; [|done]. by destruct (f i).
Qed.

(** The comparisons of a byte with 128. *)
Lemma dark_byte R :
  byte R → (num R <? 128)%float = (R <? 128)%Z ∧ (128 <=? num R)%float = negb (R <? 128)%Z.
Proof.
  intros HR.
  assert (forallb (λ R, Bool.eqb (num R <? 128)%float (R <? 128)%Z
                        && Bool.eqb (128 <=? num R)%float (negb (R <? 128)%Z))
            (seqZ 0 256) = true) as Hall by (vm_compute; reflexivity).
  pose proof (forallb_bytes _ Hall R HR) as Heq. cbv beta in Heq.
  apply andb_prop in Heq as [H1 H2]. by split; apply eqb_prop.
Qed.

End pure_loops.

Section morphology.

Import Contour.
Local Open Scope Z_scope.

Context (w hh : nat) (d : list Z) (radius : Z).
Context (Hlen : length d = (4 * (w * hh))%nat) (Hbytes : Forall byte d).

Local Abbreviation W := (Z.of_nat w).
Local Abbreviation H := (Z.of_nat hh).

(** The red byte of a pixel of the image. *)
Lemma red_at_pixel ny nx :
  0 ≤ ny < H → 0 ≤ nx < W →
  ∃ R G B A, pixel_at d (Z.to_nat (ny * W + nx)) R G B A
    ∧ byte R ∧ red_at d W ny nx = num R.
Proof.
  intros Hy Hx. destruct (pixel_index w hh d nx ny Hlen Hy Hx) as [Hq Hidx].
  destruct (lookup_pixel d _ Hidx) as (R & G & B & A & Hpx).
  exists R, G, B, A. split; [done|]. destruct Hpx as (H0 & _).
  split; [by eapply (Forall_lookup_1 byte d)|].
  unfold red_at. rewrite arr_get_clamped by lia.
  replace (Z.to_nat ((ny * W + nx) * 4)) with (4 * Z.to_nat (ny * W + nx))%nat by lia.
  by rewrite H0.
Qed.

Lemma in_bounds_iff ny nx : in_bounds W H ny nx = true ↔ 0 ≤ ny < H ∧ 0 ≤ nx < W.
Proof. unfold in_bounds. lia. Qed.

Lemma in_window dz : In dz (window radius) ↔ - radius ≤ dz ≤ radius.
Proof. unfold window. rewrite <- list_elem_of_In, elem_of_seqZ. lia. Qed.

(** The search for a dark pixel in the window. *)
Lemma dilate_window (data : loc) (h : heap) y x Q :
  h !! data = Some (Uint8ClampedArray d) →
  Q (has_black d W H radius y x) h →
  wp (for_acc (- radius) (radius + 1) false (λ dy hasBlack,
        if hasBlack : bool then mret hasBlack
        else for_acc (- radius) (radius + 1) hasBlack (λ dx hasBlack,
          if hasBlack : bool then mret hasBlack
          else
            let nx := x + dx in
            let ny := y + dy in
            if (0 <=? nx) && (nx <? W) && (0 <=? ny) && (ny <? H) then
              let nIdx := (ny * W + nx) * 4 in
              v ← get data nIdx;
              if (v <? 128)%float then mret true else mret hasBlack
            else mret hasBlack))) Q h.
Proof.
  intros Hd HQ.
  set (f := λ dy dx, in_bounds W H (y + dy) (x + dx)
                     && (red_at d W (y + dy) (x + dx) <? 128)%float).
  set (inner := λ dy dx (s : bool), if s then s else if f dy dx then true else s).
  set (outer := λ dy (s : bool),
         if s then s else foldl (λ s dx, inner dy dx s) s (window radius)).
  apply (wp_for_acc_pure _ _ _ outer).
  - intros dy [|]; [by apply wp_ret|].
    apply (wp_for_acc_pure _ _ _ (inner dy)); [|done].
    intros dx [|]; [by apply wp_ret|]. cbv zeta. unfold inner, f, in_bounds, red_at.
    destruct ((0 <=? x + dx) && (x + dx <? W) && (0 <=? y + dy) && (y + dy <? H));
      [|by apply wp_ret].
    apply wp_bind, wp_get. rewrite Hd. cbn [from_option andb].
    destruct (_ <? 128)%float; by apply wp_ret.
  - fold (window radius).
    rewrite (foldl_until outer (λ dy, existsb (f dy) (window radius))); [done|].
    intros dy [|]; [done|]. unfold outer.
    rewrite (foldl_until (inner dy) (f dy)) by done.
    cbn [orb]. by destruct (existsb _ _).
Qed.

Lemma has_black_iff y x :
  0 ≤ y < H → 0 ≤ x < W →
  has_black d W H radius y x = true
  ↔ ∃ ny nx, 0 ≤ ny < H ∧ 0 ≤ nx < W
      ∧ Z.abs (ny - y) ≤ radius ∧ Z.abs (nx - x) ≤ radius
      ∧ ∃ R G B A, pixel_at d (Z.to_nat (ny * W + nx)) R G B A ∧ R < 128.
Proof.
  intros Hy Hx. unfold has_black. rewrite existsb_exists. split.
  - intros (dy & Hdy%in_window & (dx & Hdx%in_window & Hf%andb_prop)%existsb_exists).
    destruct Hf as [Hin%in_bounds_iff Hdark].
    destruct (red_at_pixel (y + dy) (x + dx)) as (R & G & B & A & Hpx & HR & Hred);
      [lia..|].
    rewrite Hred, (proj1 (dark_byte R HR)) in Hdark.
    exists (y + dy), (x + dx). split; [lia|]. split; [lia|]. split; [lia|].
    split; [lia|]. exists R, G, B, A. split; [done|lia].
  - intros (ny & nx & Hny & Hnx & Hwy & Hwx & R & G & B & A & Hpx & Hdark).
    exists (ny - y). split; [apply in_window; lia|].
    apply existsb_exists. exists (nx - x). split; [apply in_window; lia|].
    replace (y + (ny - y)) with ny by lia. replace (x + (nx - x)) with nx by lia.
    apply andb_true_intro. split; [by apply in_bounds_iff|].
    destruct (red_at_pixel ny nx Hny Hnx) as (R' & G' & B' & A' & Hpx' & HR & ->).
    destruct (pixel_at_inj _ _ _ _ _ _ _ _ _ _ Hpx Hpx') as (-> & _).
    rewrite (proj1 (dark_byte R HR)). lia.
Qed.

(** One pixel of [dilateContour]. *)
Lemma paint_pixel (result : loc) (h1 : heap) r y x (b : bool) :
  0 ≤ y < H → 0 ≤ x < W →
  h1 !! result = Some (Uint8ClampedArray r) → length r = length d →
  pixel_at r (Z.to_nat (y * W + x)) 255 255 255 255 →
  let idx := (y * W + x) * 4 in
  let v := if b then 0 else 255 in
  wp (when b (
        set result idx 0;;
        set result (idx + 1) 0;;
        set result (idx + 2) 0);;
      set result (idx + 3) 255)
     (λ _ h2, h2 = <[result := Uint8ClampedArray
                       (set_pixel_bytes r (Z.to_nat (y * W + x)) v v v 255)]> h1) h1.
Proof.
  intros Hy Hx Hr Hlr (H0 & H1 & H2 & H3) idx v. unfold idx, v.
  destruct (pixel_index w hh d x y Hlen Hy Hx) as [Hq Hidx].
  assert (∀ k, (k < 4)%nat →
            Z.to_nat ((y * W + x) * 4 + Z.of_nat k)
            = (4 * Z.to_nat (y * W + x) + k)%nat) as Hk by lia.
  pose proof (Hk 0%nat ltac:(lia)) as Hk0. rewrite Z.add_0_r, Nat.add_0_r in Hk0.
  pose proof (Hk 1%nat ltac:(lia)) as Hk1.
  pose proof (Hk 2%nat ltac:(lia)) as Hk2.
  pose proof (Hk 3%nat ltac:(lia)) as Hk3.
  change (Z.of_nat 1) with 1 in Hk1. change (Z.of_nat 2) with 2 in Hk2.
  change (Z.of_nat 3) with 3 in Hk3.
  destruct b; cbn [when].
  - repeat first [wp_step | rewrite lookup_insert_eq].
    rewrite !insert_insert_eq. do 2 f_equal.
    rewrite !arr_set_clamped by lia. f_equal. unfold set_pixel_bytes.
    by rewrite Hk0, Hk1, Hk2, Hk3.
  - repeat first [wp_step | rewrite lookup_insert_eq].
    do 2 f_equal. rewrite !arr_set_clamped by lia. f_equal. unfold set_pixel_bytes.
    rewrite Hk3.
    rewrite (list_insert_id r (4 * Z.to_nat (y * W + x))) by done.
    rewrite (list_insert_id r (4 * Z.to_nat (y * W + x) + 1)) by done.
    by rewrite (list_insert_id r (4 * Z.to_nat (y * W + x) + 2)) by done.
Qed.

Lemma dilateContour_painted (dat : loc) (h : heap) :
  h !! dat = Some (Uint8ClampedArray d) →
  wp (dilateContour {| width := w; height := hh; data := dat |} radius)
     (λ out h',
        out.(width) = w ∧ out.(height) = hh
        ∧ painted d W H (dilated d W H radius) dat out.(data) (λ _ _, true) h') h.
Proof.
  intros Hd. unfold dilateContour.
  apply wp_bind, wp_length_of. rewrite Hd. cbn [from_option arr_length].
  apply wp_bind, wp_alloc. intros result Hres. rewrite Nat2Z.id.
  apply wp_bind. eapply wp_fill; [apply lookup_insert_eq|].
  rewrite insert_insert_eq. cbn [arr_fill]. rewrite length_replicate.
  change (ToUint8Clamp 255) with 255.
  assert (dat ≠ result) as Hne by congruence.
  apply wp_bind.
  apply (paint_scan w hh d (dilated d W H radius) Hlen dat result);
    [done|by rewrite lookup_insert_ne|apply lookup_insert_eq| |].
  - intros y x h1 r Hy Hx Hd1 Hr Hlr Hwhite. cbv zeta.
    apply wp_bind. apply dilate_window; [done|].
    by apply (paint_pixel result h1 r y x (has_black d W H radius y x)).
  - intros h1 Hh1. by apply wp_ret.
Qed.

(** The test of the window by [erodeContour]. *)
Lemma erode_window (data : loc) (h : heap) y x Q :
  h !! data = Some (Uint8ClampedArray d) →
  Q (all_black d W H radius y x) h →
  wp (for_acc (- radius) (radius + 1) true (λ dy allBlack,
        if allBlack : bool then
          for_acc (- radius) (radius + 1) allBlack (λ dx allBlack,
            if allBlack : bool then
              let nx := x + dx in
              let ny := y + dy in
              if (0 <=? nx) && (nx <? W) && (0 <=? ny) && (ny <? H) then
                let nIdx := (ny * W + nx) * 4 in
                v ← get data nIdx;
                if (128 <=? v)%float then mret false else mret allBlack
              else mret false
            else mret allBlack)
        else mret allBlack)) Q h.
Proof.
  intros Hd HQ.
  set (f := λ dy dx, in_bounds W H (y + dy) (x + dx)
                     && negb (128 <=? red_at d W (y + dy) (x + dx))%float).
  set (inner := λ dy dx (s : bool), if s then (if f dy dx then s else false) else s).
  set (outer := λ dy (s : bool),
         if s then foldl (λ s dx, inner dy dx s) s (window radius) else s).
  apply (wp_for_acc_pure _ _ _ outer).
  - intros dy [|]; [|by apply wp_ret].
    apply (wp_for_acc_pure _ _ _ (inner dy)); [|done].
    intros dx [|]; [|by apply wp_ret]. cbv zeta. unfold inner, f, in_bounds, red_at.
    destruct ((0 <=? x + dx) && (x + dx <? W) && (0 <=? y + dy) && (y + dy <? H));
      [|by apply wp_ret].
    apply wp_bind, wp_get. rewrite Hd. cbn [from_option andb].
    destruct (128 <=? _)%float; by apply wp_ret.
  - fold (window radius).
    rewrite (foldl_while outer (λ dy, forallb (f dy) (window radius))); [done|].
    intros dy [|]; [|done]. unfold outer.
    rewrite (foldl_while (inner dy) (f dy)) by done.
    cbn [andb]. by destruct (forallb _ _).
Qed.

Lemma all_black_iff y x :
  all_black d W H radius y x = true
  ↔ ∀ dy dx, - radius ≤ dy ≤ radius → - radius ≤ dx ≤ radius →
      0 ≤ y + dy < H ∧ 0 ≤ x + dx < W
      ∧ ∃ R G B A, pixel_at d (Z.to_nat ((y + dy) * W + (x + dx))) R G B A ∧ R < 128.
Proof.
  unfold all_black. rewrite forallb_forall. split.
  - intros Hall dy dx Hdy%in_window Hdx%in_window.
    specialize (Hall dy Hdy). rewrite forallb_forall in Hall.
    specialize (Hall dx Hdx). apply andb_prop in Hall as [Hin%in_bounds_iff Hdark].
    destruct (red_at_pixel (y + dy) (x + dx)) as (R & G & B & A & Hpx & HR & Hred);
      [lia..|].
    rewrite Hred, (proj2 (dark_byte R HR)), negb_involutive in Hdark.
    split; [lia|]. split; [lia|]. exists R, G, B, A. split; [done|lia].
  - intros Hall dy Hdy%in_window. apply forallb_forall. intros dx Hdx%in_window.
    destruct (Hall dy dx Hdy Hdx) as (Hny & Hnx & R & G & B & A & Hpx & Hdark).
    apply andb_true_intro. split; [by apply in_bounds_iff|].
    destruct (red_at_pixel _ _ Hny Hnx) as (R' & G' & B' & A' & Hpx' & HR & ->).
    destruct (pixel_at_inj _ _ _ _ _ _ _ _ _ _ Hpx Hpx') as (-> & _).
    rewrite (proj2 (dark_byte R HR)), negb_involutive. lia.
Qed.

Lemma erodeContour_painted (dat : loc) (h : heap) :
  h !! dat = Some (Uint8ClampedArray d) →
  wp (erodeContour {| width := w; height := hh; data := dat |} radius)
     (λ out h',
        out.(width) = w ∧ out.(height) = hh
        ∧ painted d W H (eroded d W H radius) dat out.(data) (λ _ _, true) h') h.
Proof.
  intros Hd. unfold erodeContour.
  apply wp_bind, wp_length_of. rewrite Hd. cbn [from_option arr_length].
  apply wp_bind, wp_alloc. intros result Hres. rewrite Nat2Z.id.
  apply wp_bind. eapply wp_fill; [apply lookup_insert_eq|].
  rewrite insert_insert_eq. cbn [arr_fill]. rewrite length_replicate.
  change (ToUint8Clamp 255) with 255.
  assert (dat ≠ result) as Hne by congruence.
  apply wp_bind.
  apply (paint_scan w hh d (eroded d W H radius) Hlen dat result);
    [done|by rewrite lookup_insert_ne|apply lookup_insert_eq| |].
  - intros y x h1 r Hy Hx Hd1 Hr Hlr Hwhite. cbv zeta.
    apply wp_bind. apply erode_window; [done|].
    by apply (paint_pixel result h1 r y x (all_black d W H radius y x)).
  - intros h1 Hh1. by apply wp_ret.
Qed.

End morphology.

Section morphology_of_images.

Import Contour.
Local Open Scope Z_scope.

Lemma painted_pixel (w hh : nat) d value dat result h' (x y : nat) :
  painted d (Z.of_nat w) (Z.of_nat hh) value dat result (λ _ _, true) h' →
  (x < w)%nat → (y < hh)%nat →
  ∃ r, h' !! result = Some (Uint8ClampedArray r) ∧ length r = length d
     ∧ let v := value (Z.of_nat y) (Z.of_nat x) in
       pixel_at r (y * w + x) v v v 255.
Proof.
  intros (_ & r & Hr & Hlr & Hpix) Hx Hy. exists r. split; [done|]. split; [done|].
  specialize (Hpix (Z.of_nat y) (Z.of_nat x) ltac:(lia) ltac:(lia)).
  cbv zeta in Hpix |- *.
  by rewrite <- Nat2Z.inj_mul, <- Nat2Z.inj_add, Nat2Z.id in Hpix.
Qed.


(** X15: [erodeContour] returns an opaque black-and-white image of the size
    of the input in which a pixel is black exactly when every position at
    most [radius] columns and [radius] rows away lies in the image and has a
    red byte below 128: a pixel closer than [radius] to the border comes out
    white, and with a negative radius every pixel comes out black. *)
Theorem erodeContour_window imageData radius h d :
  well_formed imageData h d →
  let out := (erodeContour imageData radius h).1 in
  let h' := (erodeContour imageData radius h).2 in
  out.(width) = imageData.(width) ∧ out.(height) = imageData.(height)
  ∧ ∃ r, h' !! out.(data) = Some (Uint8ClampedArray r)
      ∧ length r = length d
      ∧ ∀ x y : nat, (x < imageData.(width))%nat → (y < imageData.(height))%nat →
          ∃ v, pixel_at r (y * imageData.(width) + x) v v v 255
            ∧ (v = 0 ∨ v = 255)
            ∧ (v = 0 ↔
               ∀ dy dx : Z, - radius ≤ dy ≤ radius → - radius ≤ dx ≤ radius →
                 0 ≤ Z.of_nat y + dy < Z.of_nat imageData.(height)
                 ∧ 0 ≤ Z.of_nat x + dx < Z.of_nat imageData.(width)
                 ∧ ∃ R G B A,
                     pixel_at d (Z.to_nat ((Z.of_nat y + dy) * Z.of_nat imageData.(width)
                                           + (Z.of_nat x + dx))) R G B A
                     ∧ R < 128)
            ∧ (radius < 0 → v = 0).
Proof.
  intros (Hd & Hlen & Hbytes) out h'. destruct imageData as [w hh dat].
  cbn [width height data] in *.
  pose proof (erodeContour_painted w hh d radius Hlen dat h Hd) as Hp.
  unfold wp in Hp. fold out h' in Hp. destruct Hp as (Hw & Hh & Hp).
  split; [done|]. split; [done|].
  pose proof Hp as (_ & r & Hr & Hlr & _). exists r. split; [done|]. split; [done|].
  intros x y Hx Hy.
  destruct (painted_pixel w hh d _ dat _ h' x y Hp Hx Hy) as (r' & Hr' & _ & Hpx).
  rewrite Hr in Hr'. injection Hr' as <-. cbv zeta in Hpx.
  eexists. split; [exact Hpx|]. unfold eroded.
  pose proof (all_black_iff w hh d radius Hlen Hbytes (Z.of_nat y) (Z.of_nat x))
    as Hiff.
  destruct (all_black d _ _ radius _ _).
  - split; [by left|]. split; [|done]. split; [intros _; by apply Hiff|done].
  - split; [by right|]. split.
    + split; [done|]. intros Hall. assert (false = true); [|done]. by apply Hiff.
    + intros Hneg. assert (false = true); [|done]. apply Hiff. intros; lia.
Qed.

End morphology_of_images.

(** ** The hysteresis loop of [cannyEdgeDetection] ends *)

Section hysteresis.

Import Contour.
Local Open Scope Z_scope.

Lemma wp_any {A} (m : M A) (Q : A → heap → Prop) h :
  (∀ a h', Q a h') → wp m Q h.
Proof. intros HQ. apply HQ. Qed.

(** A loop that threads its state, with an invariant. *)
Lemma wp_foldM_inv {S} (Inv : S → heap → Prop) l (body : Z → S → M S) s Q h :
  Inv s h →
  (∀ i s h, i ∈ l → Inv s h → wp (body i s) Inv h) →
  (∀ s h, Inv s h → Q s h) →
  wp (foldM l body s) Q h.
Proof.
  revert s h. induction l as [|i l IH]; intros s h HI Hstep HQ; cbn [foldM].
  - by apply wp_ret, HQ.
  - apply wp_bind. eapply wp_mono; [apply Hstep; [left|done]|].
    intros s' h' HI'. apply IH; [done| |done].
    intros j s'' h'' Hj. apply Hstep. by right.
Qed.

Lemma wp_for_acc_inv {S} (Inv : S → heap → Prop) lo hi (body : Z → S → M S) s Q h :
  Inv s h →
  (∀ i s h, lo ≤ i < hi → Inv s h → wp (body i s) Inv h) →
  (∀ s h, Inv s h → Q s h) →
  wp (for_acc lo hi s body) Q h.
Proof.
  intros HI Hstep HQ. apply (wp_foldM_inv Inv); [done| |done].
  intros i s' h' Hi%elem_of_seqZ. apply Hstep. lia.
Qed.

(** A weak pixel made strong is one weak pixel less. *)
Lemma weak_promoted l (i : nat) :
  l !! i = Some 1 → (weak (<[i := 2%Z]> l) + 1 = weak l)%nat.
Proof.
  unfold weak. revert i. induction l as [|z l IH]; intros [|i] Hi; [done..| |].
  - injection Hi as ->. cbn [insert list_insert]. rewrite !filter_cons.
    destruct (decide (2 = 1)), (decide (1 = 1)); rewrite ?length_cons; lia.
  - specialize (IH i Hi). change (<[S i := 2]> (z :: l)) with (z :: <[i := 2]> l).
    rewrite !filter_cons. destruct (decide (z = 1)); rewrite ?length_cons; lia.
Qed.

Lemma marks_insert n l (i : nat) z :
  marks n l → (z = 0 ∨ z = 1 ∨ z = 2) → marks n (<[i := z]> l).
Proof.
  intros [Hlen Hall] Hz. split; [by rewrite length_insert|]. by apply Forall_insert.
Qed.

(** The tests on a mark. *)
Lemma mark_tests z :
  (z = 0 ∨ z = 1 ∨ z = 2) →
  (num z =? 1)%float = (z =? 1) ∧ (num z =? 2)%float = (z =? 2).
Proof. intros [-> | [-> | ->]]; by vm_compute. Qed.

Lemma weak_bound n l : marks n l → (weak l ≤ n)%nat.
Proof. intros [<- _]. apply length_filter. Qed.

(** A pixel with the mark 1 is in the array. *)
Lemma weak_pixel n l idx :
  marks n l → (arr_get (Uint8Array l) idx =? 1)%float = true →
  0 ≤ idx ∧ l !! Z.to_nat idx = Some 1.
Proof.
  intros [_ Hall] He. unfold arr_get in He.
  destruct (idx <? 0) eqn:Hneg; [by vm_compute in He|].
  split; [lia|]. destruct (l !! Z.to_nat idx) as [z|] eqn:Hz; [|by vm_compute in He].
  cbn [from_option] in He.
  pose proof (Forall_lookup_1 _ _ _ _ Hall Hz) as Hmark. cbv beta in Hmark.
  rewrite (proj1 (mark_tests z Hmark)) in He. f_equal. lia.
Qed.

Section pass.

Context (W H : Z) (edgesOutput : loc) (n bound : nat).

(** One pixel of a pass: a mark changes from 1 to 2 only, and [changed] is
    set when one does. *)
Lemma hysteresis_pixel y x changed h :
  hysteresis edgesOutput n bound changed h →
  wp (let idx := y * W + x in
      e ← get edgesOutput idx;
      if (e =? 1)%float then
        for_acc (-1) 2 changed (λ dy changed,
          promoted ← get edgesOutput idx;
          if (promoted =? 2)%float then mret changed
          else
            for_acc (-1) 2 changed (λ dx changed,
              promoted ← get edgesOutput idx;
              if (promoted =? 2)%float then mret changed
              else
                n ← get edgesOutput ((y + dy) * W + (x + dx));
                if (n =? 2)%float
                then set edgesOutput idx 2;; mret true
                else mret changed))
      else mret changed)
     (hysteresis edgesOutput n bound) h.
Proof.
  intros (l & Hl & Hmarks & Hle & Hlt). cbv zeta.
  apply wp_bind, wp_get. rewrite Hl. cbn [from_option].
  destruct (arr_get (Uint8Array l) (y * W + x) =? 1)%float eqn:He;
    [|by apply wp_ret; exists l].
  destruct (weak_pixel n l _ Hmarks He) as [Hidx Hweak].
  set (k := Z.to_nat (y * W + x)) in *.
  set (K := λ (c : bool) (h' : heap),
         (h' = h ∧ c = changed)
         ∨ (h' = <[edgesOutput := Uint8Array (<[k := 2]> l)]> h ∧ c = true)).
  assert (∀ c h', K c h' →
            wp (get edgesOutput (y * W + x))
               (λ promoted h'', h'' = h'
                  ∧ ((promoted =? 2)%float = false ∧ h' = h ∧ c = changed
                     ∨ (promoted =? 2)%float = true ∧ K c h')) h') as Hread.
  { intros c h' [[-> ->]|[-> ->]]; apply wp_get; (split; [done|]).
    - left. rewrite Hl. cbn [from_option]. rewrite arr_get_uint8 by done.
      fold k. rewrite Hweak. by vm_compute.
    - right. rewrite lookup_insert_eq. cbn [from_option].
      rewrite arr_get_uint8 by done. fold k.
      rewrite list_lookup_insert_eq by (by eapply lookup_lt_Some).
      split; [by vm_compute|by right]. }
  apply (wp_for_acc_inv K); [by left| |].
  - intros dy c h' _ HK. apply wp_bind. eapply wp_mono; [by apply Hread|].
    intros promoted h'' (-> & [(-> & -> & ->)|(-> & HK')]); [|by apply wp_ret].
    apply (wp_for_acc_inv K); [by left| |done].
    intros dx c2 h2 _ HK2. apply wp_bind. eapply wp_mono; [by apply Hread|].
    intros promoted2 h3 (-> & [(-> & -> & ->)|(-> & HK3)]); [|by apply wp_ret].
    apply wp_bind, wp_get.
    destruct (_ =? 2)%float; [|by apply wp_ret; left].
    apply wp_bind. eapply wp_set; [exact Hl|]. apply wp_ret. right.
    rewrite arr_set_uint8 by done. fold k. split; [|done].
    by change (ToUint8 2) with 2.
  - intros c h' [[-> ->]|[-> ->]]; [by exists l|].
    exists (<[k := 2]> l). split; [apply lookup_insert_eq|].
    split; [apply marks_insert; [done|lia]|].
    pose proof (weak_promoted l k Hweak). split; [lia|intros _; lia].
Qed.

Lemma hysteresis_pass h :
  hysteresis edgesOutput n bound false h →
  wp (for_acc 1 (H - 1) false (λ y changed,
        for_acc 1 (W - 1) changed (λ x changed,
          let idx := y * W + x in
          e ← get edgesOutput idx;
          if (e =? 1)%float then
            for_acc (-1) 2 changed (λ dy changed,
              promoted ← get edgesOutput idx;
              if (promoted =? 2)%float then mret changed
              else
                for_acc (-1) 2 changed (λ dx changed,
                  promoted ← get edgesOutput idx;
                  if (promoted =? 2)%float then mret changed
                  else
                    n ← get edgesOutput ((y + dy) * W + (x + dx));
                    if (n =? 2)%float
                    then set edgesOutput idx 2;; mret true
                    else mret changed))
          else mret changed)))
     (hysteresis edgesOutput n bound) h.
Proof.
  intros Hh. apply (wp_for_acc_inv (hysteresis edgesOutput n bound)); [done| |done].
  intros y c h1 _ Hh1.
  apply (wp_for_acc_inv (hysteresis edgesOutput n bound)); [done| |done].
  intros x c' h2 _ Hh2. by apply hysteresis_pixel.
Qed.

End pass.

(** The loop ends when every pass that changes a mark leaves fewer weak
    pixels. *)
Lemma while_changed_ends (edgesOutput : loc) n (pass : M bool) :
  (∀ bound h, hysteresis edgesOutput n bound false h →
              wp pass (hysteresis edgesOutput n bound) h) →
  ∀ fuel h l,
    h !! edgesOutput = Some (Uint8Array l) → marks n l → (weak l < fuel)%nat →
    wp (while_changed fuel pass) (λ finished _, finished = true) h.
Proof.
  intros Hpass. induction fuel as [|fuel IH]; intros h l Hl Hmarks Hfuel; [lia|].
  cbn [while_changed]. apply wp_bind.
  eapply wp_mono; [apply (Hpass (weak l)); by exists l|].
  intros changed h' (l' & Hl' & Hmarks' & Hle & Hlt).
  destruct changed; [|by apply wp_ret].
  apply (IH h' l'); [done|done|]. specialize (Hlt eq_refl). lia.
Qed.

End hysteresis.

Section canny_returns.

Import Contour.
Local Open Scope Z_scope.

Variable Math_atan2 : float → float → float.

(** The last loop paints the strong pixels black on white. *)
Lemma canny_paints (edgesOutput result : loc) (n : nat) h Q :
  h !! result = Some (Uint8ClampedArray (replicate (4 * n) 255)) →
  (∀ h' r, h' !! result = Some (Uint8ClampedArray r) → black_and_white n r → Q () h') →
  wp (for_ 0 (Z.of_nat n) (λ i,
        let idx := i * 4 in
        e ← get edgesOutput i;
        when (e =? 2)%float (
          set result idx 0;;
          set result (idx + 1) 0;;
          set result (idx + 2) 0);;
        set result (idx + 3) 255)) Q h.
Proof.
  intros Hres HQ.
  set (I := λ h' : heap, ∃ r, h' !! result = Some (Uint8ClampedArray r)
                           ∧ black_and_white n r).
  apply (wp_for (λ _, I)).
  - eexists. split; [done|]. split; [apply length_replicate|].
    intros p Hp. exists 255. split; [by right|].
    unfold pixel_at. by rewrite !lookup_replicate_2 by lia.
  - intros i h1 Hi (r & Hr & Hlen & Hpix). cbv zeta.
    apply wp_bind, wp_get. generalize (from_option (λ a, arr_get a i) undefined
                                         (h1 !! edgesOutput) =? 2)%float.
    intros b.
    assert (∀ k, (k < 4)%nat →
              Z.to_nat (i * 4 + Z.of_nat k) = (4 * Z.to_nat i + k)%nat) as Hk by lia.
    pose proof (Hk 0%nat ltac:(lia)) as Hk0. rewrite Z.add_0_r, Nat.add_0_r in Hk0.
    pose proof (Hk 1%nat ltac:(lia)) as Hk1.
    pose proof (Hk 2%nat ltac:(lia)) as Hk2.
    pose proof (Hk 3%nat ltac:(lia)) as Hk3.
    change (Z.of_nat 1) with 1 in Hk1. change (Z.of_nat 2) with 2 in Hk2.
    change (Z.of_nat 3) with 3 in Hk3.
    destruct (Hpix (Z.to_nat i) ltac:(lia)) as (v & Hv & H0 & H1 & H2 & H3).
    destruct b; cbn [when].
    + repeat first [wp_step | rewrite lookup_insert_eq].
      rewrite !insert_insert_eq, !arr_set_clamped by lia.
      rewrite Hk0, Hk1, Hk2, Hk3.
      change (ToUint8Clamp 0) with 0. change (ToUint8Clamp 255) with 255.
      fold (set_pixel_bytes r (Z.to_nat i) 0 0 0 255).
      eexists. split; [apply lookup_insert_eq|].
      split; [by rewrite length_set_pixel_bytes|].
      intros p Hp. destruct (decide (p = Z.to_nat i)) as [->|Hne].
      * exists 0. split; [by left|]. apply set_pixel_bytes_here. lia.
      * destruct (Hpix p Hp) as (u & Hu & Hpu). exists u. split; [done|].
        by apply set_pixel_bytes_other.
    + repeat first [wp_step | rewrite lookup_insert_eq].
      rewrite !arr_set_clamped by lia. rewrite Hk3.
      change (ToUint8Clamp 255) with 255.
      rewrite list_insert_id by done.
      eexists. split; [apply lookup_insert_eq|]. by split.
  - intros h1 (r & Hr & Hbw). by apply (HQ h1 r).
Qed.


(** X16: [cannyEdgeDetection] returns for every image, every pair of
    thresholds and every store: each pass of the hysteresis loop that changes
    a mark turns a weak pixel into a strong one, so the loop ends within
    [width * height + 1] passes.  The image returned has the size of the
    input, and each of its [width * height] pixels is opaque and black or
    white. *)
Theorem cannyEdgeDetection_returns imageData lowThreshold highThreshold h :
  ∃ out r,
    (cannyEdgeDetection Math_atan2 imageData lowThreshold highThreshold h).1 = Some out
    ∧ out.(width) = imageData.(width) ∧ out.(height) = imageData.(height)
    ∧ (cannyEdgeDetection Math_atan2 imageData lowThreshold highThreshold h).2
        !! out.(data) = Some (Uint8ClampedArray r)
    ∧ length r = (4 * (imageData.(width) * imageData.(height)))%nat
    ∧ ∀ p : nat, (p < imageData.(width) * imageData.(height))%nat →
        ∃ v, (v = 0 ∨ v = 255) ∧ pixel_at r p v v v 255.
Proof.
  change (wp (cannyEdgeDetection Math_atan2 imageData lowThreshold highThreshold)
            (λ res h', ∃ out r, res = Some out
               ∧ out.(width) = imageData.(width)
               ∧ out.(height) = imageData.(height)
               ∧ h' !! out.(data) = Some (Uint8ClampedArray r)
               ∧ black_and_white (imageData.(width) * imageData.(height)) r) h).
  destruct imageData as [w hh dat]. cbn [width height]. unfold cannyEdgeDetection.
  cbv zeta.
  do 9 (apply wp_bind, wp_any; intros ? ?).
  apply wp_bind, wp_alloc. intros edgesOutput _.
  set (n := Z.to_nat (Z.of_nat w * Z.of_nat hh)).
  set (I := λ h' : heap, ∃ l, h' !! edgesOutput = Some (Uint8Array l) ∧ marks n l).
  apply wp_bind. apply (wp_for (λ _, I)).
  - exists (replicate n 0). split; [apply lookup_insert_eq|].
    split; [apply length_replicate|]. apply Forall_replicate. by left.
  - intros y h1 Hy Hh1. apply (wp_for (λ _, I)); [done| |done].
    intros x h2 Hx (l & Hl & Hmarks). apply wp_bind, wp_get.
    assert (0 ≤ y * Z.of_nat w + x) as Hidx by nia.
    destruct (highThreshold <=? _)%float.
    + eapply wp_set; [exact Hl|]. rewrite arr_set_uint8 by done.
      change (ToUint8 2) with 2. eexists. split; [apply lookup_insert_eq|].
      apply marks_insert; [done|lia].
    + apply wp_when; [|by exists l]. intros _.
      eapply wp_set; [exact Hl|]. rewrite arr_set_uint8 by done.
      change (ToUint8 1) with 1. eexists. split; [apply lookup_insert_eq|].
      apply marks_insert; [done|lia].
  - intros h1 (l & Hl & Hmarks). apply wp_bind.
    eapply wp_mono;
      [apply (while_changed_ends edgesOutput n _
                (hysteresis_pass (Z.of_nat w) (Z.of_nat hh) edgesOutput n)
                _ h1 l Hl Hmarks)|].
    { pose proof (weak_bound n l Hmarks). unfold n in *. nia. }
    intros finished h2 ->.
    apply wp_bind, wp_alloc. intros result _.
    apply wp_bind. eapply wp_fill; [apply lookup_insert_eq|].
    rewrite insert_insert_eq. cbn [arr_fill]. rewrite length_replicate.
    change (ToUint8Clamp 255) with 255.
    replace (Z.to_nat (Z.of_nat w * Z.of_nat hh * 4)) with (4 * (w * hh))%nat by lia.
    rewrite <- Nat2Z.inj_mul.
    apply wp_bind. apply (canny_paints edgesOutput result (w * hh));
      [apply lookup_insert_eq|].
    intros h3 r Hr Hbw. apply wp_ret. by exists {| width := w; height := hh; data := result |}, r.
Qed.

End canny_returns.

(** ** Error diffusion on an image that is black and white already *)

Section nothing_to_diffuse.

Import Dithering.
Local Open Scope Z_scope.

Lemma wp_seq_same (m k : M unit) (Q : unit → heap → Prop) h :
  wp m (λ _ h', h' = h) h → wp k Q h → wp (m ;; k) Q h.
Proof.
  intros Hm Hk. apply wp_bind. eapply wp_mono; [exact Hm|]. by intros [] h' ->.
Qed.

(** An accumulator at rest, with nothing added, stays as it is. *)
Lemma wp_diffuse_nothing (errors : loc) d n acc j delta (h : heap) :
  h !! errors = Some (Float32Array acc) → at_rest d n acc → 0 ≤ j < n →
  fround (num 0 + delta) = num 0 → fround (num 255 + delta) = num 255 →
  wp (e ← get errors j; set errors j (e + delta)%float) (λ _ h', h' = h) h.
Proof.
  intros Hacc Hrest Hj H0 H255.
  eapply (wp_accumulate errors); [done|lia|].
  destruct (Hrest j Hj) as (R & HR & _ & Hs).
  unfold accumulate. rewrite Hs. unfold default. cbn [from_option id].
  assert (fround (num R + delta) = num R) as -> by (by destruct HR as [-> | ->]).
  by rewrite list_insert_id, insert_id.
Qed.

Lemma wp_diffuse_nothing_then (errors : loc) d n acc j delta (k : M unit) Q (h : heap) :
  h !! errors = Some (Float32Array acc) → at_rest d n acc → 0 ≤ j < n →
  fround (num 0 + delta) = num 0 → fround (num 255 + delta) = num 255 →
  wp k Q h →
  wp (e ← get errors j; set errors j (e + delta)%float;; k) Q h.
Proof.
  intros Hacc Hrest Hj H0 H255 Hk.
  eapply (wp_accumulate_then errors); [done|lia|].
  destruct (Hrest j Hj) as (R & HR & _ & Hs).
  unfold accumulate. rewrite Hs. unfold default. cbn [from_option id].
  assert (fround (num R + delta) = num R) as -> by (by destruct HR as [-> | ->]).
  by rewrite list_insert_id, insert_id.
Qed.

(** The gray value of an opaque black or white pixel is its colour. *)
Lemma two_tone_gray d (p : nat) R G B A :
  two_tone d → pixel_at d p R G B A → fround (gray_of d p) = num R.
Proof.
  intros Htone Hpx. destruct (Htone _ _ _ _ _ Hpx) as (HR & -> & -> & ->).
  unfold gray_of.
  rewrite (getGrayOnWhite_value _ _ d p R R R 255 (lookup_singleton_eq _ _) Hpx).
  destruct HR as [-> | ->]; by vm_compute.
Qed.

Lemma seed_at_rest (w hh : nat) d :
  length d = (4 * (w * hh))%nat → two_tone d →
  at_rest d (Z.of_nat w * Z.of_nat hh)
    ((λ p, fround (gray_of d p)) <$> seq 0 (Z.to_nat (Z.of_nat w * Z.of_nat hh))).
Proof.
  intros Hlen Htone j Hj.
  destruct (lookup_pixel d (Z.to_nat j)) as (R & G & B & A & Hpx); [lia|].
  exists R. destruct (Htone _ _ _ _ _ Hpx) as (HR & _).
  split; [done|]. split; [apply Hpx|].
  rewrite list_lookup_fmap, lookup_seq_lt by lia. cbn [fmap option_fmap option_map].
  f_equal. by apply (two_tone_gray d _ R G B A).
Qed.

(** Writing the colour that a pixel has. *)
Lemma put_pixel_same d (p : nat) R G B A :
  pixel_at d p R G B A → G = R → B = R → put_pixel d p R d = d.
Proof.
  intros (H0 & H1 & H2 & H3) -> ->. unfold put_pixel. rewrite H3. cbn [default].
  rewrite (list_insert_id d (4 * p)) by done.
  rewrite (list_insert_id d (4 * p + 1)) by done.
  rewrite (list_insert_id d (4 * p + 2)) by done.
  by rewrite (list_insert_id d (4 * p + 3)).
Qed.

End nothing_to_diffuse.

(** The kernel offsets, one by one. *)
Ltac kernel_cases :=
  repeat match goal with
         | H : (0 ≤ ?k < 2)%Z |- _ =>
             is_var k;
             let E := fresh in
             assert (k = 0 ∨ k = 1)%Z as E by lia; clear H;
             destruct E as [-> | ->]
         | H : (0 ≤ ?k < 3)%Z |- _ =>
             is_var k;
             let E := fresh in
             assert (k = 0 ∨ k = 1 ∨ k = 2)%Z as E by lia; clear H;
             destruct E as [-> | [-> | ->]]
         | H : (0 ≤ ?k < 5)%Z |- _ =>
             is_var k;
             let E := fresh in
             assert (k = 0 ∨ k = 1 ∨ k = 2 ∨ k = 3 ∨ k = 4)%Z as E by lia; clear H;
             destruct E as [-> | [-> | [-> | [-> | ->]]]]
         end.

(** The diffusion of an error that is 0, whatever the neighbours. *)
Ltac diffuse_nothing errors d Hrest Herrors :=
  lazymatch goal with
  | |- wp (when _ _ ;; _) _ _ =>
      apply wp_seq_same;
        [diffuse_nothing errors d Hrest Herrors|diffuse_nothing errors d Hrest Herrors]
  | |- wp (when _ _) _ _ =>
      apply wp_when; [intros ?; diffuse_nothing errors d Hrest Herrors|by intros _]
  | |- wp (for_ _ _ _) (λ _ h', h' = ?h) _ =>
      apply (wp_for (λ _ h', h' = h));
        [done
        |intros ? ? ? ->; cbv zeta; diffuse_nothing errors d Hrest Herrors
        |by intros ? ->]
  | |- wp (get errors _ ≫= _) _ _ =>
      first
        [ eapply (wp_diffuse_nothing errors d);
            [exact Herrors|exact Hrest|nia
            |kernel_cases; by vm_compute|kernel_cases; by vm_compute]
        | eapply (wp_diffuse_nothing_then errors d);
            [exact Herrors|exact Hrest|nia
            |kernel_cases; by vm_compute|kernel_cases; by vm_compute
            |diffuse_nothing errors d Hrest Herrors] ]
  end.

(** An error-diffusion algorithm on a two-tone image: the prologue, then
    the scan, which at every pixel stores the colour the pixel has and
    diffuses the error 0. *)
Ltac error_diffusion_fixed w hh dat d Hd Hlen Hbytes Htone :=
  let result := fresh "result" in
  let errors := fresh "errors" in
  let Hres := fresh "Hres" in
  let Herr := fresh "Herr" in
  apply wp_bind; eapply wp_new_Uint8ClampedArray_from; [exact Hd|];
  intros result Hres; simpl arr_values; rewrite copy_bytes by done;
  apply wp_bind, wp_alloc; intros errors Herr;
  assert (dat ≠ result) by congruence;
  assert (errors ≠ result) by (intros ->; by rewrite lookup_insert_eq in Herr);
  assert (errors ≠ dat) by (intros ->; by rewrite lookup_insert_ne, Hd in Herr);
  apply wp_bind;
  eapply (wp_seed dat errors d);
    [done|by rewrite !lookup_insert_ne by done|apply lookup_insert_eq|lia|];
  rewrite insert_insert_eq; cbv zeta;
  pose proof (seed_at_rest w hh d Hlen Htone) as Hrest;
  match goal with
  | |- wp _ _ ?h1 =>
      assert (h1 !! dat = Some (Uint8ClampedArray d)) as Hd1
        by (by rewrite !lookup_insert_ne by done);
      assert (h1 !! result = Some (Uint8ClampedArray d)) as Hr1
        by (by rewrite lookup_insert_ne, lookup_insert_eq by done);
      assert (h1 !! errors = Some (Float32Array
                ((λ p, fround (gray_of d p))
                   <$> seq 0 (Z.to_nat (Z.of_nat w * Z.of_nat hh)%Z)))) as He1
        by apply lookup_insert_eq;
      generalize dependent h1
  end;
  let h1 := fresh "h" in
  intros h1 Hd1 Hr1 He1;
  apply wp_bind;
  apply (wp_for (λ _ h', h' = h1)); [done| |];
  [ let y := fresh "y" in
    let Hy := fresh "Hy" in
    intros y ? Hy ->;
    apply (wp_for (λ _ h', h' = h1)); [done| |by intros ? ->];
    let x := fresh "x" in
    let Hx := fresh "Hx" in
    intros x ? Hx ->;
    let Hidx := fresh "Hidx" in
    let Hidx' := fresh "Hidx" in
    destruct (pixel_index w hh d x y Hlen Hy Hx) as [Hidx Hidx'];
    let R := fresh "R" in
    let HR := fresh "HR" in
    let H0 := fresh "H0" in
    let Hs := fresh "Hs" in
    destruct (Hrest (y * Z.of_nat w + x)%Z ltac:(nia)) as (R & HR & H0 & Hs);
    let G := fresh "G" in
    let B := fresh "B" in
    let A := fresh "A" in
    let Hpx := fresh "Hpx" in
    destruct (lookup_pixel d _ Hidx') as (? & G & B & A & Hpx);
    assert (pixel_at d (Z.to_nat (y * Z.of_nat w + x)%Z) R G B A) as Hpx'
      by (split; [exact H0|exact (proj2 Hpx)]);
    destruct (Htone _ _ _ _ _ Hpx') as (_ & HG & HB & HA);
    cbv zeta; apply wp_bind, wp_get; rewrite He1; cbn [from_option];
    rewrite arr_get_float32 by lia; rewrite Hs; unfold default; cbn [from_option id];
    eapply (wp_store_pixel dat result d d (Z.to_nat (y * Z.of_nat w + x)%Z));
      [done..|lia|lia|];
    assert (ToUint8Clamp (if (num R <? 128)%float then 0%float else 255%float) = R)
      as -> by (destruct HR as [-> | ->]; by vm_compute);
    rewrite (put_pixel_same d _ R G B A Hpx' HG HB), (insert_id _ _ _ Hr1);
    destruct HR as [-> | ->];
    diffuse_nothing errors d Hrest He1
  | intros ? ->; apply wp_ret; cbn [width height data]; by repeat split ].

Section fixed_points.

Import Dithering.
Local Open Scope Z_scope.

Lemma floydSteinberg_fixed imageData h d :
  well_formed imageData h d → two_tone d →
  wp (floydSteinberg imageData) (same_buffer imageData d) h.
Proof.
  intros (Hd & Hlen & Hbytes) Htone. destruct imageData as [w hh dat].
  cbn [width height data] in *. unfold floydSteinberg.
  error_diffusion_fixed w hh dat d Hd Hlen Hbytes Htone.
Qed.

Lemma jarvisJudiceNinke_fixed imageData h d :
  well_formed imageData h d → two_tone d →
  wp (jarvisJudiceNinke imageData) (same_buffer imageData d) h.
Proof.
  intros (Hd & Hlen & Hbytes) Htone. destruct imageData as [w hh dat].
  cbn [width height data] in *. unfold jarvisJudiceNinke.
  error_diffusion_fixed w hh dat d Hd Hlen Hbytes Htone.
Qed.

Lemma stucki_fixed imageData h d :
  well_formed imageData h d → two_tone d →
  wp (stucki imageData) (same_buffer imageData d) h.
Proof.
  intros (Hd & Hlen & Hbytes) Htone. destruct imageData as [w hh dat].
  cbn [width height data] in *. unfold stucki.
  error_diffusion_fixed w hh dat d Hd Hlen Hbytes Htone.
Qed.

Lemma atkinson_fixed imageData h d :
  well_formed imageData h d → two_tone d →
  wp (atkinson imageData) (same_buffer imageData d) h.
Proof.
  intros (Hd & Hlen & Hbytes) Htone. destruct imageData as [w hh dat].
  cbn [width height data] in *. unfold atkinson.
  error_diffusion_fixed w hh dat d Hd Hlen Hbytes Htone.
Qed.

Lemma sierra_fixed imageData h d :
  well_formed imageData h d → two_tone d →
  wp (sierra imageData) (same_buffer imageData d) h.
Proof.
  intros (Hd & Hlen & Hbytes) Htone. destruct imageData as [w hh dat].
  cbn [width height data] in *. unfold sierra.
  error_diffusion_fixed w hh dat d Hd Hlen Hbytes Htone.
Qed.

Lemma sierraTwoRow_fixed imageData h d :
  well_formed imageData h d → two_tone d →
  wp (sierraTwoRow imageData) (same_buffer imageData d) h.
Proof.
  intros (Hd & Hlen & Hbytes) Htone. destruct imageData as [w hh dat].
  cbn [width height data] in *. unfold sierraTwoRow.
  error_diffusion_fixed w hh dat d Hd Hlen Hbytes Htone.
Qed.

Lemma burkes_fixed imageData h d :
  well_formed imageData h d → two_tone d →
  wp (burkes imageData) (same_buffer imageData d) h.
Proof.
  intros (Hd & Hlen & Hbytes) Htone. destruct imageData as [w hh dat].
  cbn [width height data] in *. unfold burkes.
  error_diffusion_fixed w hh dat d Hd Hlen Hbytes Htone.
Qed.

(** The thresholds of the 8x8 matrix lie between black and white. *)
Lemma bayerMatrix8_between a b :
  0 ≤ a < 8 → 0 ≤ b < 8 →
  (table_at bayerMatrix8 a b <? 0.299 * num 0 + 0.587 * num 0 + 0.114 * num 0)%float
  = false
  ∧ (table_at bayerMatrix8 a b
     <? 0.299 * num 255 + 0.587 * num 255 + 0.114 * num 255)%float = true.
Proof.
  intros Ha Hb.
  assert (forallb (λ a, forallb (λ b,
            negb (table_at bayerMatrix8 a b
                  <? 0.299 * num 0 + 0.587 * num 0 + 0.114 * num 0)%float
            && (table_at bayerMatrix8 a b
                <? 0.299 * num 255 + 0.587 * num 255 + 0.114 * num 255)%float)
            (seqZ 0 8)) (seqZ 0 8) = true) as Hall by (vm_compute; reflexivity).
  rewrite forallb_forall in Hall.
  specialize (Hall a ltac:(apply list_elem_of_In, elem_of_seqZ; lia)).
  rewrite forallb_forall in Hall.
  specialize (Hall b ltac:(apply list_elem_of_In, elem_of_seqZ; lia)).
  apply andb_prop in Hall as [H0%negb_true_iff H255]. done.
Qed.

Lemma bayerOrdered_fixed imageData h d :
  well_formed imageData h d → two_tone d →
  wp (bayerOrdered imageData) (same_buffer imageData d) h.
Proof.
  intros Hwf Htone. pose proof Hwf as (Hd & Hlen & Hbytes).
  destruct imageData as [w hh dat]. cbn [width height data] in *.
  pose proof (ordered_exact w hh dat d h bayerMatrix8 8 Hwf) as Hexact.
  pose proof (bayerOrdered_binary _ h d Hwf) as (Hw & Hh & _).
  unfold wp in *. cbn [width height] in Hw, Hh.
  set (run := bayerOrdered _ h) in *.
  change (scanned dat run.1.(data) d (Z.of_nat w) (Z.of_nat hh)
            (ordered_value bayerMatrix8 8 d (Z.of_nat w))
            (Z.of_nat w * Z.of_nat hh) run.2) in Hexact.
  clearbody run.
  destruct Hexact as (_ & r & Hr & Hlr & Hpix).
  split; [exact Hw|]. split; [exact Hh|]. rewrite Hr. do 2 f_equal.
  apply (pixels_determine (w * hh)); [done|done|].
  intros p R G B A Hpx.
  assert (p < w * hh)%nat as Hp by (by eapply pixel_in_image).
  destruct (pixel_position w hh p Hp) as (Hy & Hx & Hyx). cbv zeta in Hy, Hx, Hyx.
  destruct (Hpix _ _ Hy Hx) as (v & Hv & H0 & H1 & H2 & H3); [lia|].
  unfold ordered_value in Hv. rewrite Hyx, Nat2Z.id in Hv, H0, H1, H2, H3.
  destruct (Htone _ _ _ _ _ Hpx) as (HR & -> & -> & ->).
  unfold gray_of in Hv.
  rewrite (getGrayOnWhite_value _ _ d p R R R 255 (lookup_singleton_eq _ _) Hpx) in Hv.
  change (num 255 =? 0)%float with false in Hv.
  change (num 255 <? 255)%float with false in Hv. cbv iota in Hv.
  destruct (bayerMatrix8_between (Z.rem (Z.of_nat p `div` Z.of_nat w) 8)
              (Z.rem (Z.of_nat p `mod` Z.of_nat w) 8)) as [Hblack Hwhite];
    [apply Z.rem_bound_pos; lia..|].
  assert (v = R) as ->.
  { destruct HR as [-> | ->].
    - rewrite Hblack in Hv. by rewrite Hv.
    - rewrite Hwhite in Hv. by rewrite Hv. }
  destruct Hpx as (_ & _ & _ & H3'). split; [done|]. split; [done|].
  split; [done|]. by rewrite H3.
Qed.

Lemma dithering_fixed_point a imageData h d :
  well_formed imageData h d → two_tone d → a ≠ BayerOrdered4x4 →
  wp (ditheringAlgorithms a imageData) (same_buffer imageData d) h.
Proof.
  intros Hwf Htone Hne. destruct a; cbn [ditheringAlgorithms]; [..|done].
  - by apply floydSteinberg_fixed.
  - by apply jarvisJudiceNinke_fixed.
  - by apply stucki_fixed.
  - by apply atkinson_fixed.
  - by apply sierra_fixed.
  - by apply sierraTwoRow_fixed.
  - by apply burkes_fixed.
  - by apply bayerOrdered_fixed.
Qed.

(** The output of a dithering of an opaque image is two-tone. *)
Lemma dithered_two_tone imageData d out h' :
  length d = (4 * (imageData.(width) * imageData.(height)))%nat →
  opaque d → dithered imageData d out h' →
  ∃ r, well_formed out h' r ∧ two_tone r.
Proof.
  intros Hlen Hopaque (Hw & Hh & r & Hr & Hlr & Hpix).
  assert (∀ p R G B A, pixel_at r p R G B A →
            (R = 0 ∨ R = 255) ∧ G = R ∧ B = R ∧ A = 255) as Htone.
  { intros p R G B A (H0 & H1 & H2 & H3).
    destruct (Hpix p) as (v & Hv & H0' & H1' & H2' & H3').
    { apply lookup_lt_Some in H3. lia. }
    rewrite H0 in H0'. rewrite H1 in H1'. rewrite H2 in H2'. rewrite H3 in H3'.
    injection H0' as ->. injection H1' as ->. injection H2' as ->.
    split; [done|]. split; [done|]. split; [done|].
    destruct (lookup_pixel d p) as (R' & G' & B' & A' & Hpx');
      [apply lookup_lt_Some in H3; lia|].
    pose proof (Hopaque _ _ _ _ _ Hpx') as ->.
    destruct Hpx' as (_ & _ & _ & H3d). congruence. }
  exists r. split; [|done]. split; [done|]. split; [by rewrite Hlr, Hlen, Hw, Hh|].
  apply Forall_lookup_2. intros i z Hi.
  pose proof (lookup_lt_Some _ _ _ Hi) as Hlt.
  pose proof (Nat.div_mod_eq i 4) as Hdiv.
  pose proof (Nat.mod_upper_bound i 4 ltac:(lia)) as Hmod.
  destruct (lookup_pixel r (i / 4)%nat) as (R & G & B & A & Hpx); [lia|].
  destruct (Htone _ _ _ _ _ Hpx) as (HR & -> & -> & ->).
  destruct Hpx as (H0 & H1 & H2 & H3).
  assert (z = R ∨ z = 255) as Hz.
  { destruct (i mod 4)%nat as [|[|[|[|c]]]] eqn:Hc; [| | | |lia].
    - replace i with (4 * (i / 4))%nat in Hi by lia. left. congruence.
    - replace i with (4 * (i / 4) + 1)%nat in Hi by lia. left. congruence.
    - replace i with (4 * (i / 4) + 2)%nat in Hi by lia. left. congruence.
    - replace i with (4 * (i / 4) + 3)%nat in Hi by lia. right. congruence. }
  unfold byte. lia.
Qed.

(** X17: every dithering algorithm but [bayerOrdered4x4] gives back an
    opaque black-and-white image byte for byte (the seven error-diffusion
    algorithms because every quantization error is 0, [bayerOrdered] because
    its thresholds lie between 0 and 252); hence on any opaque image,
    dithering the dithered image again changes nothing. *)
Theorem dithering_idempotent a imageData h d :
  well_formed imageData h d → opaque d → a ≠ BayerOrdered4x4 →
  let once := ditheringAlgorithms a imageData h in
  let twice := ditheringAlgorithms a once.1 once.2 in
  (two_tone d → same_buffer imageData d once.1 once.2)
  ∧ ∃ r, once.2 !! once.1.(data) = Some (Uint8ClampedArray r)
       ∧ twice.2 !! twice.1.(data) = Some (Uint8ClampedArray r)
       ∧ ∀ p R G B A, pixel_at r p R G B A →
           (R = 0 ∨ R = 255) ∧ G = R ∧ B = R ∧ A = 255.
Proof.
  intros Hwf Hopaque Ha once twice. split.
  { intros Htone. by apply (dithering_fixed_point a imageData h d). }
  pose proof (ditheringAlgorithms_binary a imageData h d Hwf) as Hbin.
  unfold wp in Hbin. fold once in Hbin.
  destruct (dithered_two_tone imageData d once.1 once.2) as (r & Hwf1 & Htone);
    [apply Hwf|done|done|].
  exists r. split; [apply Hwf1|]. split; [|done].
  pose proof (dithering_fixed_point a once.1 once.2 r Hwf1 Htone Ha) as Hfix.
  unfold wp in Hfix. fold twice in Hfix. apply Hfix.
Qed.

End fixed_points.

(** ** The further statements at sample inputs *)

Section more_witnesses.

Import Samples.
Local Open Scope Z_scope.


(** The preset [pencilSketch] on the 2x2 sample image returns an image. *)
Lemma applyPreset_pencilSketch_at_2x2 :
  well_formed image_2x2 heap_2x2 bytes_2x2
  ∧ "pencilSketch"%string ∈ preset_ids
  ∧ ∃ out, (Presets.applyPreset pow_at_one image_2x2 "pencilSketch" heap_2x2).1
           = inr out.
Proof.
  assert (well_formed image_2x2 heap_2x2 bytes_2x2) as Hwf by sample_well_formed.
  assert ("pencilSketch"%string ∈ preset_ids) as Hin
    by (unfold preset_ids; repeat constructor).
  split; [exact Hwf|]. split; [exact Hin|].
  destruct (applyPreset_returns_dithered pow_at_one image_2x2 "pencilSketch"
              heap_2x2 bytes_2x2 Hwf Hin) as (out & Hout & _).
  exists out. exact Hout.
Defined.

(** [invert] twice gives back the 2x2 sample image. *)
Lemma invert_twice_at_2x2 :
  well_formed image_2x2 heap_2x2 bytes_2x2
  ∧ same_buffer image_2x2 bytes_2x2
      (Adjustments.invert (Adjustments.invert image_2x2 heap_2x2).1
         (Adjustments.invert image_2x2 heap_2x2).2).1
      (Adjustments.invert (Adjustments.invert image_2x2 heap_2x2).1
         (Adjustments.invert image_2x2 heap_2x2).2).2.
Proof.
  assert (well_formed image_2x2 heap_2x2 bytes_2x2) as Hwf by sample_well_formed.
  split; [exact Hwf|].
  exact (proj2 (invert_twice_is_identity image_2x2 heap_2x2 bytes_2x2 Hwf)).
Defined.

(** [threshold(buf, 128)] keeps the size of the 2x2 sample image. *)
Lemma threshold_at_2x2 :
  well_formed image_2x2 heap_2x2 bytes_2x2
  ∧ (Adjustments.threshold image_2x2 128 heap_2x2).1.(width) = image_2x2.(width)
  ∧ (Adjustments.threshold image_2x2 128 heap_2x2).1.(height) = image_2x2.(height).
Proof.
  assert (well_formed image_2x2 heap_2x2 bytes_2x2) as Hwf by sample_well_formed.
  split; [exact Hwf|].
  destruct (threshold_by_red image_2x2 128 heap_2x2 bytes_2x2 Hwf) as (Hw & Hh & _).
  split; [exact Hw|exact Hh].
Defined.

(** [toGrayscale] on the 2x2 sample image returns an array of gray pixels. *)
Lemma toGrayscale_at_2x2 :
  well_formed image_2x2 heap_2x2 bytes_2x2
  ∧ ∃ r, (Adjustments.toGrayscale image_2x2 heap_2x2).2
           !! (Adjustments.toGrayscale image_2x2 heap_2x2).1.(data)
         = Some (Uint8ClampedArray r)
       ∧ ∀ p R G B A, pixel_at bytes_2x2 p R G B A →
           pixel_at r p (ToUint8Clamp (gray_of bytes_2x2 p))
             (ToUint8Clamp (gray_of bytes_2x2 p))
             (ToUint8Clamp (gray_of bytes_2x2 p)) A.
Proof.
  assert (well_formed image_2x2 heap_2x2 bytes_2x2) as Hwf by sample_well_formed.
  split; [exact Hwf|].
  destruct (toGrayscale_gray image_2x2 heap_2x2 bytes_2x2 Hwf) as (r & Hr & Hpx & _).
  exists r. split; [exact Hr|exact Hpx].
Defined.

(** [mirrorHorizontal] twice gives back the 2x2 sample image. *)
Lemma mirrorHorizontal_twice_at_2x2 :
  well_formed image_2x2 heap_2x2 bytes_2x2
  ∧ same_buffer image_2x2 bytes_2x2
      (Adjustments.mirrorHorizontal
         (Adjustments.mirrorHorizontal image_2x2 heap_2x2).1
         (Adjustments.mirrorHorizontal image_2x2 heap_2x2).2).1
      (Adjustments.mirrorHorizontal
         (Adjustments.mirrorHorizontal image_2x2 heap_2x2).1
         (Adjustments.mirrorHorizontal image_2x2 heap_2x2).2).2.
Proof.
  assert (well_formed image_2x2 heap_2x2 bytes_2x2) as Hwf by sample_well_formed.
  split; [exact Hwf|].
  exact (proj2 (mirrorHorizontal_twice_is_identity image_2x2 heap_2x2 bytes_2x2 Hwf)).
Defined.

(** [invertMask] twice gives back the 2x2 sample image. *)
Lemma invertMask_at_2x2 :
  well_formed image_2x2 heap_2x2 bytes_2x2
  ∧ same_buffer image_2x2 bytes_2x2
      (Masking.invertMask (Masking.invertMask image_2x2 heap_2x2).1
         (Masking.invertMask image_2x2 heap_2x2).2).1
      (Masking.invertMask (Masking.invertMask image_2x2 heap_2x2).1
         (Masking.invertMask image_2x2 heap_2x2).2).2.
Proof.
  assert (well_formed image_2x2 heap_2x2 bytes_2x2) as Hwf by sample_well_formed.
  split; [exact Hwf|].
  exact (proj2 (proj2 (proj2 (invertMask_is_invert image_2x2 heap_2x2 bytes_2x2 Hwf)))).
Defined.

(** [applyMaskToImage] on the 1x1 sample image and mask keeps the size. *)
Lemma applyMaskToImage_at_1x1 :
  well_formed image_1x1 heap_1x1 bytes_1x1
  ∧ heap_1x1 !! maskData_1x1.(data) = Some (Uint8ClampedArray mask_1x1)
  ∧ Forall byte mask_1x1
  ∧ (Masking.applyMaskToImage image_1x1 maskData_1x1 false heap_1x1).1.(width)
    = image_1x1.(width).
Proof.
  assert (well_formed image_1x1 heap_1x1 bytes_1x1) as Hwf by sample_well_formed.
  assert (heap_1x1 !! maskData_1x1.(data) = Some (Uint8ClampedArray mask_1x1)) as Hm
    by (vm_compute; reflexivity).
  assert (Forall byte mask_1x1) as Hbytes by sample_bytes.
  split; [exact Hwf|]. split; [exact Hm|]. split; [exact Hbytes|].
  exact (proj1 (applyMaskToImage_lowers_alpha image_1x1 maskData_1x1 false heap_1x1
                  bytes_1x1 mask_1x1 Hwf Hm Hbytes)).
Defined.

(** [sanitizeRgbaForExport] on the bytes of the 2x2 sample image returns
    another array. *)
Lemma sanitizeRgbaForExport_at_2x2 :
  heap_2x2 !! 0%nat = Some (Uint8ClampedArray bytes_2x2)
  ∧ Forall byte bytes_2x2
  ∧ length bytes_2x2 = (4 * 4)%nat
  ∧ heap_2x2 !! (Alpha.sanitizeRgbaForExport 0%nat heap_2x2).1 = None.
Proof.
  assert (heap_2x2 !! 0%nat = Some (Uint8ClampedArray bytes_2x2)) as Hd
    by (vm_compute; reflexivity).
  assert (Forall byte bytes_2x2) as Hbytes by sample_bytes.
  assert (length bytes_2x2 = (4 * 4)%nat) as Hlen by reflexivity.
  split; [exact Hd|]. split; [exact Hbytes|]. split; [exact Hlen|].
  exact (proj1 (sanitizeRgbaForExport_on_white 0%nat heap_2x2 bytes_2x2 4 Hd Hbytes Hlen)).
Defined.

(** [simplifyPath] with the tolerance 1 returns on the path with a corner. *)
Lemma simplifyPath_at_corner :
  (1 <? 0)%float = false
  ∧ (length points_corner < 5)%nat
  ∧ ∃ r, Contour.simplifyPath pow_square 5 points_corner 1 = Some r
       ∧ r `sublist_of` points_corner
       ∧ head r = head points_corner
       ∧ last r = last points_corner.
Proof.
  assert ((1 <? 0)%float = false) as Heps by reflexivity.
  assert (length points_corner < 5)%nat as Hfuel by (cbn; lia).
  split; [exact Heps|]. split; [exact Hfuel|].
  exact (simplifyPath_keeps_ends pow_square points_corner 1 5 Heps Hfuel).
Defined.

(** [simplifyPath] with the tolerance -1 does not return on three points of
    a line. *)
Lemma simplifyPath_at_line :
  (-1 <? 0)%float = true
  ∧ (3 ≤ length points_on_line)%nat
  ∧ Contour.simplifyPath pow_square 100 points_on_line (-1) = None.
Proof.
  assert ((-1 <? 0)%float = true) as Heps by reflexivity.
  assert (3 ≤ length points_on_line)%nat as Hlen by (cbn; lia).
  split; [exact Heps|]. split; [exact Hlen|].
  apply (simplifyPath_negative_epsilon pow_square points_on_line (-1) Heps Hlen).
  intros i first [= <-] Hi. assert (i = 1%nat) as -> by (cbn in Hi; lia).
  vm_compute. reflexivity.
Defined.


(** [erodeContour] with the radius 1 keeps the size of the 3x3 sample
    image. *)
Lemma erodeContour_at_3x3 :
  well_formed image_3x3 heap_3x3 bytes_3x3
  ∧ (Contour.erodeContour image_3x3 1 heap_3x3).1.(width) = image_3x3.(width).
Proof.
  assert (well_formed image_3x3 heap_3x3 bytes_3x3) as Hwf by sample_well_formed.
  split; [exact Hwf|].
  exact (proj1 (erodeContour_window image_3x3 1 heap_3x3 bytes_3x3 Hwf)).
Defined.

(** [floydSteinberg] gives back the 3x3 sample image, which is opaque and
    black and white. *)
Lemma floydSteinberg_twice_at_3x3 :
  well_formed image_3x3 heap_3x3 bytes_3x3
  ∧ opaque bytes_3x3
  ∧ Dithering.FloydSteinberg ≠ Dithering.BayerOrdered4x4
  ∧ ∃ r, (Dithering.floydSteinberg image_3x3 heap_3x3).2
           !! (Dithering.floydSteinberg image_3x3 heap_3x3).1.(data)
         = Some (Uint8ClampedArray r)
       ∧ (Dithering.floydSteinberg (Dithering.floydSteinberg image_3x3 heap_3x3).1
            (Dithering.floydSteinberg image_3x3 heap_3x3).2).2
           !! (Dithering.floydSteinberg (Dithering.floydSteinberg image_3x3 heap_3x3).1
                 (Dithering.floydSteinberg image_3x3 heap_3x3).2).1.(data)
         = Some (Uint8ClampedArray r).
Proof.
  assert (well_formed image_3x3 heap_3x3 bytes_3x3) as Hwf by sample_well_formed.
  assert (opaque bytes_3x3) as Hopaque.
  { intros p R G B A (_ & _ & _ & H3).
    pose proof (lookup_lt_Some _ _ _ H3) as Hlt.
    change (length bytes_3x3) with 36%nat in Hlt.
    do 9 (destruct p as [|p]; [vm_compute in H3; congruence|]). lia. }
  assert (Dithering.FloydSteinberg ≠ Dithering.BayerOrdered4x4) as Hne by discriminate.
  split; [exact Hwf|]. split; [exact Hopaque|]. split; [exact Hne|].
  destruct (dithering_idempotent Dithering.FloydSteinberg image_3x3 heap_3x3 bytes_3x3
              Hwf Hopaque Hne) as (_ & r & Hr & Hr2 & _).
  exists r. split; [exact Hr|exact Hr2].
Defined.

End more_witnesses.
